(** * BoxFramework: layouts of boxes, their iterators and the exchange copier

    A shallow embedding of the box framework under
    [src/lib/src/BoxFramework] (IntVect.H, BoxIterator.H, BoxIndex.H,
    DisjointBoxLayout.H/.cpp, LayoutIterator.H, Copier.H, LevelData.H)
    and the properties of it that the specification states.

    Conventions of the embedding.
    - The framework is built for a fixed number of space dimensions.  The
      embedding fixes [g_SpaceDim = 3], the one configuration in which
      every statement of [DisjointBoxLayout::define] is defined (it reads
      [a_maxBoxSize[2]] unconditionally).
    - A C++ [int] is a [Z]; [/] on [int] truncates towards zero and is
      [Z.quot].  Indices and coordinates are taken in executions in which
      they stay in the range of [int].  Where a product of the program
      leaves that range for arguments of moderate size (the message tags
      of [Motion2Way::uniqueTag], the products of [Copier::binomial]) the
      wrap-around of the 32-bit [int] is written out with [Int_wrap].
    - A [std::vector] is a [list], read with [!!] and written with
      [<[ i := x ]>].
    - A loop whose bound is not syntactically evident carries a fuel
      argument and answers [None] when the fuel runs out; the theorems
      show that the fuel handed over by the callers is enough. *)

From Stdlib Require Import ZArith Lia Bool.
From stdpp Require Import base list numbers.

Local Open Scope Z_scope.

(* ===================================================================== *)
(** * Parameters.H *)
(* ===================================================================== *)

(** Modelled from the spec: Parameters.H is not among the sources; the
    number of space dimensions is fixed at build time, here to 3. *)
Definition g_SpaceDim : Z := 3.

(** The direction loops [for (int dir = 0; dir != g_SpaceDim; ++dir)]. *)
Definition allDirs : list Z := [0; 1; 2].

(** [a_mask & (1 << n)], also written [(1 << n) & a_mask], read as a C++
    condition. *)
Definition maskBit (mask n : Z) : bool :=
  negb (Z.land mask (Z.shiftl 1 n) =? 0).

(** The range of a 32-bit [int]. *)
Definition Int_min : Z := - 2 ^ 31.
Definition Int_max : Z := 2 ^ 31 - 1.

(** The [int] that an arithmetic expression of the mathematical value
    [z] evaluates to: [z] itself in the range of [int], and [z] reduced
    modulo [2^32] into that range beyond it (signed overflow is undefined
    in C++; the compilers the framework is built with wrap around). *)
Definition Int_wrap (z : Z) : Z := (z + 2 ^ 31) mod 2 ^ 32 - 2 ^ 31.

(* ===================================================================== *)
(** * Failures and loops *)
(* ===================================================================== *)

(** How a call can end without a result: a failed [CH_assert] of the
    layout construction ([UnevenPartition], the name the specification
    gives it), any other failed [CH_assert], a loop of the embedding
    that ran out of fuel, an integer division by zero (undefined in C++;
    the process is ended by a signal), and the [std::length_error] that
    the allocation of a [std::vector] of a negative size throws. *)
Inductive Failure : Type :=
| UnevenPartition
| AssertionFailed
| OutOfFuel
| DivideByZero
| LengthError.

Definition Outcome (A : Type) : Type := Failure + A.

Definition Outcome_bind {A B : Type} (m : Outcome A) (k : A -> Outcome B) : Outcome B :=
  match m with
  | inl e => inl e
  | inr a => k a
  end.

Notation "'let*' x ':=' m 'in' k" :=
  (Outcome_bind m (fun x => k))
  (at level 10, x name, m at level 100, k at level 200).

(** Modelled from the spec: the macro [CH_assert] is not among the
    sources; a failed assertion is fatal (section 7 of the specification,
    "fatal in debug"). *)
Definition CH_assert (e : Failure) (cond : bool) : Outcome unit :=
  if cond then inr tt else inl e.

(** A step of the source that ends the call with [e] unless [cond]
    holds: a division unless the divisor is not 0, an allocation unless
    the size is not negative. *)
Definition Outcome_unless (e : Failure) (cond : bool) : Outcome unit :=
  if cond then inr tt else inl e.

(** [while (cond(s)) s = step(s);] *)
Fixpoint loop_while {S : Type} (cond : S -> bool) (step : S -> S)
  (fuel : nat) (s : S) : Outcome S :=
  if cond s then
    match fuel with
    | O => inl OutOfFuel
    | Datatypes.S fuel' => loop_while cond step fuel' (step s)
    end
  else inr s.

(** [for (; ok(s); s = next(s)) body(s);] as the list of the states at
    which the body runs. *)
Fixpoint loop_visit {S : Type} (ok : S -> bool) (next : S -> Outcome S)
  (fuel : nat) (s : S) : Outcome (list S) :=
  if ok s then
    match fuel with
    | O => inl OutOfFuel
    | Datatypes.S fuel' =>
        let* s' := next s in
        let* rest := loop_visit ok next fuel' s' in
        inr (s :: rest)
    end
  else inr [].

(** [for (int i = 0; i != n; ++i) s = body(i, s);] for [0 <= n]. *)
Fixpoint loop_count {S : Type} (body : Z -> S -> S) (n : nat) (i : Z) (s : S) : S :=
  match n with
  | O => s
  | Datatypes.S n' => loop_count body n' (i + 1) (body i s)
  end.

(** A call per element of a list, in order, stopping at the first failure. *)
Fixpoint Outcome_mapM {A B : Type} (f : A -> Outcome B) (l : list A) : Outcome (list B) :=
  match l with
  | [] => inr []
  | a :: l' =>
      let* b := f a in
      let* bs := Outcome_mapM f l' in
      inr (b :: bs)
  end.

(* ===================================================================== *)
(** * IntVect.H *)
(* ===================================================================== *)

Record IntVect : Type := IV { iv0 : Z; iv1 : Z; iv2 : Z }.

(** [operator[]] (read). *)
Definition IntVect_get (v : IntVect) (dir : Z) : Z :=
  if dir =? 0 then iv0 v else if dir =? 1 then iv1 v else iv2 v.

(** [operator[]] (write). *)
Definition IntVect_set (v : IntVect) (dir x : Z) : IntVect :=
  if dir =? 0 then IV x (iv1 v) (iv2 v)
  else if dir =? 1 then IV (iv0 v) x (iv2 v)
  else IV (iv0 v) (iv1 v) x.

Definition IntVect_Zero : IntVect := IV 0 0 0.
Definition IntVect_Unit : IntVect := IV 1 1 1.

(** Modelled from the spec: IntVect.cpp, which holds the host definition
    of the default constructor, is not among the sources.  The repository's
    own test (testIntVect.cpp, "Test default construction") requires all
    components of a default-constructed IntVect to be 0. *)
Definition IntVect_default : IntVect := IntVect_Zero.

Definition IntVect_add (x y : IntVect) : IntVect :=
  IV (iv0 x + iv0 y) (iv1 x + iv1 y) (iv2 x + iv2 y).
Definition IntVect_sub (x y : IntVect) : IntVect :=
  IV (iv0 x - iv0 y) (iv1 x - iv1 y) (iv2 x - iv2 y).
Definition IntVect_mul (x y : IntVect) : IntVect :=
  IV (iv0 x * iv0 y) (iv1 x * iv1 y) (iv2 x * iv2 y).
Definition IntVect_div (x y : IntVect) : IntVect :=
  IV (iv0 x ÷ iv0 y) (iv1 x ÷ iv1 y) (iv2 x ÷ iv2 y).
Definition IntVect_scale (x : IntVect) (s : Z) : IntVect :=
  IV (iv0 x * s) (iv1 x * s) (iv2 x * s).
Definition IntVect_neg (x : IntVect) : IntVect :=
  IV (- iv0 x) (- iv1 x) (- iv2 x).
Definition IntVect_min (x y : IntVect) : IntVect :=
  IV (Z.min (iv0 x) (iv0 y)) (Z.min (iv1 x) (iv1 y)) (Z.min (iv2 x) (iv2 y)).
Definition IntVect_max (x y : IntVect) : IntVect :=
  IV (Z.max (iv0 x) (iv0 y)) (Z.max (iv1 x) (iv1 y)) (Z.max (iv2 x) (iv2 y)).

Definition IntVect_norm1 (x : IntVect) : Z :=
  let r_abs := 0 in
  let r_abs := r_abs + Z.abs (iv0 x) in
  let r_abs := r_abs + Z.abs (iv1 x) in
  let r_abs := r_abs + Z.abs (iv2 x) in
  r_abs.

Definition IntVect_product (x : IntVect) : Z :=
  let r_prod := 1 in
  let r_prod := r_prod * iv0 x in
  let r_prod := r_prod * iv1 x in
  let r_prod := r_prod * iv2 x in
  r_prod.

(** [operator==] and [operator<=]: conjunctions over the components. *)
Definition IntVect_eqb (x y : IntVect) : bool :=
  (iv0 x =? iv0 y) && (iv1 x =? iv1 y) && (iv2 x =? iv2 y).
Definition IntVect_leb (x y : IntVect) : bool :=
  (iv0 x <=? iv0 y) && (iv1 x <=? iv1 y) && (iv2 x <=? iv2 y).

(* ===================================================================== *)
(** * Box.H *)
(* ===================================================================== *)

(** Modelled from the spec: Box.H is not among the sources.  A box is the
    closed interval of cells between [loVect] and [hiVect]; the operations
    below follow section 3 and 4.1 of the specification and the values
    that testBox.cpp expects. *)
Record Box : Type := MkBox { loVect : IntVect; hiVect : IntVect }.

(** Modelled from the spec: the default box is empty (testBox.cpp,
    "Test empty"); an empty box has [hi_i < lo_i] in some direction. *)
Definition Box_default : Box := MkBox IntVect_Zero (IntVect_neg IntVect_Unit).

(** Modelled from the spec: [dimensions = hi - lo + 1]. *)
Definition Box_dimensions (b : Box) : IntVect :=
  IntVect_add (IntVect_sub (hiVect b) (loVect b)) IntVect_Unit.

(** Modelled from the spec: [size] is the product of the dimensions. *)
Definition Box_size (b : Box) : Z := IntVect_product (Box_dimensions b).

(** Modelled from the spec: empty iff [hi_i < lo_i] in some direction. *)
Definition Box_isEmpty (b : Box) : bool :=
  negb (IntVect_leb (loVect b) (hiVect b)).

(** Modelled from the spec: inclusive containment of a cell. *)
Definition Box_contains (b : Box) (c : IntVect) : bool :=
  IntVect_leb (loVect b) c && IntVect_leb c (hiVect b).

(** Modelled from the spec: inclusive containment of a box. *)
Definition Box_containsBox (b inner : Box) : bool :=
  IntVect_leb (loVect b) (loVect inner) && IntVect_leb (hiVect inner) (hiVect b).

(** Modelled from the spec: [shift(v)]. *)
Definition Box_shift (b : Box) (v : IntVect) : Box :=
  MkBox (IntVect_add (loVect b) v) (IntVect_add (hiVect b) v).

(** Modelled from the spec: [shift(n, dir)]. *)
Definition Box_shiftDir (b : Box) (n dir : Z) : Box :=
  MkBox (IntVect_set (loVect b) dir (IntVect_get (loVect b) dir + n))
        (IntVect_set (hiVect b) dir (IntVect_get (hiVect b) dir + n)).

(** Modelled from the spec: [grow(r)] applies [lo -= r], [hi += r]. *)
Definition Box_grow (b : Box) (r : Z) : Box :=
  MkBox (IntVect_sub (loVect b) (IV r r r)) (IntVect_add (hiVect b) (IV r r r)).

(** Modelled from the spec: [grow(r, dir)] widens symmetrically in [dir]. *)
Definition Box_growDir (b : Box) (r dir : Z) : Box :=
  MkBox (IntVect_set (loVect b) dir (IntVect_get (loVect b) dir - r))
        (IntVect_set (hiVect b) dir (IntVect_get (hiVect b) dir + r)).

(** Modelled from the spec: [a &= b] takes the componentwise maximum of
    the lower and minimum of the upper corners. *)
Definition Box_intersect (a b : Box) : Box :=
  MkBox (IntVect_max (loVect a) (loVect b)) (IntVect_min (hiVect a) (hiVect b)).

(** Modelled from the spec: [adjBox(w, dir, side)] is the slab of width
    [|w|] at the [side] face along [dir], outside the box for [w > 0] and
    inside for [w < 0] (the four cases of testBox.cpp). *)
Definition Box_adjBox (b : Box) (w dir side : Z) : Box :=
  let lo := IntVect_get (loVect b) dir in
  let hi := IntVect_get (hiVect b) dir in
  if side <? 0 then
    if 0 <? w
    then MkBox (IntVect_set (loVect b) dir (lo - w)) (IntVect_set (hiVect b) dir (lo - 1))
    else MkBox (loVect b) (IntVect_set (hiVect b) dir (lo - w - 1))
  else
    if 0 <? w
    then MkBox (IntVect_set (loVect b) dir (hi + 1)) (IntVect_set (hiVect b) dir (hi + w))
    else MkBox (IntVect_set (loVect b) dir (hi + w + 1)) (hiVect b).

(** The Fortran-order linear offset of a cell within a box (component 0
    fastest), as in [BaseFab::index] of the specification. *)
Definition Box_fortranIndex (b : Box) (c : IntVect) : Z :=
  let d := Box_dimensions b in
  (iv0 c - iv0 (loVect b))
  + iv0 d * ((iv1 c - iv1 (loVect b)) + iv1 d * (iv2 c - iv2 (loVect b))).

(* ===================================================================== *)
(** * BoxIterator.H *)
(* ===================================================================== *)

Record BoxIterator : Type :=
  MkBoxIterator { bit_current : IntVect; bit_box : Box }.

(** [BoxIteratorImpl()] *)
Definition BoxIterator_default : BoxIterator :=
  MkBoxIterator IntVect_Zero Box_default.

(** [BoxIteratorImpl(const Box&)]: starts at the lower corner. *)
Definition BoxIterator_begin (b : Box) : BoxIterator :=
  MkBoxIterator (loVect b) b.

(** [operator*] *)
Definition BoxIterator_deref (it : BoxIterator) : IntVect := bit_current it.

(** [operator++] (prefix). *)
Definition BoxIterator_incr (it : BoxIterator) : BoxIterator :=
  let b := bit_box it in
  let c := bit_current it in
  let c := IntVect_set c 0 (IntVect_get c 0 + 1) in
  let c :=
    if (IntVect_get c 0 >? IntVect_get (hiVect b) 0)
       && ((g_SpaceDim =? 2) || (g_SpaceDim =? 3))
    then
      let c := IntVect_set c 0 (IntVect_get (loVect b) 0) in
      IntVect_set c 1 (IntVect_get c 1 + 1)
    else c in
  let c :=
    if (IntVect_get c 1 >? IntVect_get (hiVect b) 1) && (g_SpaceDim =? 3)
    then
      let c := IntVect_set c 1 (IntVect_get (loVect b) 1) in
      IntVect_set c 2 (IntVect_get c 2 + 1)
    else c in
  MkBoxIterator c b.

(** [ok()] *)
Definition BoxIterator_ok (it : BoxIterator) : bool :=
  Box_contains (bit_box it) (bit_current it).

(** The cells seen by [for (BoxIterator bit(b); bit.ok(); ++bit)], in the
    order of the visits. *)
Definition BoxIterator_visit (fuel : nat) (it : BoxIterator) : Outcome (list IntVect) :=
  let* its := loop_visit BoxIterator_ok (fun it => inr (BoxIterator_incr it)) fuel it in
  inr (map BoxIterator_deref its).

(** The number of increments after which the loops over a box are handed
    enough fuel. *)
Definition Box_fuel (b : Box) : nat := Z.to_nat (Box_size b).


(* ===================================================================== *)
(** * BoxIndex.H *)
(* ===================================================================== *)

Record BoxIndex : Type := MkBoxIndex { globalIndex : Z; localIndex : Z }.

(** [BoxIndex()] *)
Definition BoxIndex_default : BoxIndex := MkBoxIndex (-1) (-1).

(* ===================================================================== *)
(** * DisjointBoxLayout.H, DisjointBoxLayout.cpp *)
(* ===================================================================== *)

Record BoxEntry : Type := MkBoxEntry { entry_box : Box; entry_proc : Z }.

(** The value of the elements of a freshly allocated
    [std::vector<BoxEntry>(m_size)]. *)
Definition BoxEntry_default : BoxEntry := MkBoxEntry Box_default 0.

(** The static members [s_numProc] and [s_procID]. *)
Record ProcEnv : Type := MkProcEnv { s_numProc : Z; s_procID : Z }.

(** [m_boxes], shared between copies of a layout and never written after
    [define], is held by value.  The static members travel with the
    layout as [m_env]. *)
Record DisjointBoxLayout : Type := MkDBL {
  m_env : ProcEnv;
  m_domain : Box;
  m_stride : IntVect;
  m_numBox : IntVect;
  m_size : Z;
  m_boxes : list BoxEntry;
  m_localIdxBeg : Z;
  m_numLocalBox : Z
}.

(** [m_boxes->operator[](a_idx)]; reading outside the vector is undefined in the
    source and gives the default entry here. *)
Definition DBL_getLinear (dbl : DisjointBoxLayout) (a_idx : Z) : BoxEntry :=
  if a_idx <? 0 then BoxEntry_default
  else default BoxEntry_default (m_boxes dbl !! Z.to_nat a_idx).

Definition DBL_problemDomain (dbl : DisjointBoxLayout) : Box := m_domain dbl.
Definition DBL_size (dbl : DisjointBoxLayout) : Z := m_size dbl.
Definition DBL_localSize (dbl : DisjointBoxLayout) : Z := m_numLocalBox dbl.
Definition DBL_dimensions (dbl : DisjointBoxLayout) : IntVect := m_numBox dbl.
Definition DBL_localIdxBegin (dbl : DisjointBoxLayout) : Z := m_localIdxBeg dbl.
Definition DBL_localIdxEnd (dbl : DisjointBoxLayout) : Z :=
  m_localIdxBeg dbl + m_numLocalBox dbl.
Definition DBL_numProc (dbl : DisjointBoxLayout) : Z := s_numProc (m_env dbl).
Definition DBL_procID (dbl : DisjointBoxLayout) : Z := s_procID (m_env dbl).

(** [operator[](const BoxIndex&)] *)
Definition DBL_box (dbl : DisjointBoxLayout) (a_bidx : BoxIndex) : Box :=
  entry_box (DBL_getLinear dbl (globalIndex a_bidx)).

(** [proc(const BoxIndex&)] *)
Definition DBL_proc (dbl : DisjointBoxLayout) (a_bidx : BoxIndex) : Z :=
  entry_proc (DBL_getLinear dbl (globalIndex a_bidx)).

(** [dataIndex] *)
Definition DBL_dataIndex (dbl : DisjointBoxLayout) (a_idx : Z) : BoxIndex :=
  MkBoxIndex (m_localIdxBeg dbl + a_idx) a_idx.

(** [linearNbrOffset] *)
Definition DBL_linearNbrOffset (dbl : DisjointBoxLayout) (a_nbrOffset : IntVect) : Z :=
  IntVect_get a_nbrOffset 0 * IntVect_get (m_stride dbl) 0
  + IntVect_get a_nbrOffset 1 * IntVect_get (m_stride dbl) 1
  + IntVect_get a_nbrOffset 2 * IntVect_get (m_stride dbl) 2.

(** The state of the loops of [define]: the box being placed, its linear
    index over all processes, and the array under construction. *)
Record DefineState : Type := MkDefineState {
  ds_currBox : Box;
  ds_linIdxBox : Z;
  ds_boxes : list BoxEntry
}.

(** The body of the inner loop of [define], with its [++linIdxBox]. *)
Definition DBL_define_body (a_domain : Box) (a_maxBoxSize numBox : IntVect)
  (procIdx : Z) (st : DefineState) : DefineState :=
  let currBox := ds_currBox st in
  let boxes :=
    <[ Z.to_nat (ds_linIdxBox st) :=
         MkBoxEntry (MkBox (loVect currBox) (hiVect currBox)) procIdx ]>
      (ds_boxes st) in
  let currBox := Box_shiftDir currBox (IntVect_get a_maxBoxSize 0) 0 in
  let currBox :=
    if negb (Box_containsBox a_domain currBox) then
      let currBox := Box_shiftDir currBox (IntVect_get a_maxBoxSize 1) 1 in
      Box_shiftDir currBox (- IntVect_get a_maxBoxSize 0 * IntVect_get numBox 0) 0
    else currBox in
  let currBox :=
    if negb (Box_containsBox a_domain currBox) then
      let currBox := Box_shiftDir currBox (IntVect_get a_maxBoxSize 2) 2 in
      Box_shiftDir currBox (- IntVect_get a_maxBoxSize 1 * IntVect_get numBox 1) 1
    else currBox in
  MkDefineState currBox (ds_linIdxBox st + 1) boxes.

(** [for (procIdx = 0; procIdx != numProc(); ++procIdx)
      for (boxIdx = 0; boxIdx != boxPerProc; ++boxIdx, ++linIdxBox)]. *)
Definition DBL_define_loops (a_domain : Box) (a_maxBoxSize numBox : IntVect)
  (numProc boxPerProc : Z) (st : DefineState) : DefineState :=
  loop_count
    (fun procIdx st =>
       loop_count
         (fun _boxIdx st => DBL_define_body a_domain a_maxBoxSize numBox procIdx st)
         (Z.to_nat boxPerProc) 0 st)
    (Z.to_nat numProc) 0 st.

(** [DisjointBoxLayout::define].  The two integer divisions, by the
    components of [a_maxBoxSize] and by [numProc()], end the call when
    the divisor is 0, and so does the allocation of [m_boxes] when
    [m_size] is negative.  [numProc()] is 1 or the size of the MPI
    communicator; for a number of processes below 0 the loops over the
    processes are not modelled. *)
Definition DBL_define (env : ProcEnv) (a_domain : Box) (a_maxBoxSize : IntVect)
  : Outcome DisjointBoxLayout :=
  let domainSize :=
    IntVect_add (IntVect_sub (hiVect a_domain) (loVect a_domain)) IntVect_Unit in
  (* The number of boxes in each direction *)
  let* _ := Outcome_unless DivideByZero
              (negb ((iv0 a_maxBoxSize =? 0) || (iv1 a_maxBoxSize =? 0)
                     || (iv2 a_maxBoxSize =? 0))) in
  let numBox := IntVect_div domainSize a_maxBoxSize in
  (* Make sure the boxes fit evenly into the domain *)
  let* _ := CH_assert UnevenPartition
              (IntVect_eqb (IntVect_mul numBox a_maxBoxSize) domainSize) in
  let stride := IntVect_default in
  let stride := IntVect_set stride 0 1 in
  let stride := IntVect_set stride 1 (IntVect_get stride 0 * IntVect_get numBox 0) in
  let stride := IntVect_set stride 2 (IntVect_get stride 1 * IntVect_get numBox 1) in
  let size :=
    IntVect_get stride (g_SpaceDim - 1) * IntVect_get numBox (g_SpaceDim - 1) in
  (* Allocate the array of boxes *)
  let* _ := Outcome_unless LengthError (0 <=? size) in
  let boxes := replicate (Z.to_nat size) BoxEntry_default in
  (* Number of boxes per processor *)
  let* _ := Outcome_unless DivideByZero (negb (s_numProc env =? 0)) in
  let boxPerProc := size ÷ s_numProc env in
  let numLocalBox := boxPerProc in
  let localIdxBeg := s_procID env * boxPerProc in
  (* Make sure the boxes fit evenly into the processors *)
  let* _ := CH_assert UnevenPartition (size =? boxPerProc * s_numProc env) in
  let currBox :=
    MkBox (loVect a_domain)
          (IntVect_sub (IntVect_add (loVect a_domain) a_maxBoxSize) IntVect_Unit) in
  let st :=
    DBL_define_loops a_domain a_maxBoxSize numBox (s_numProc env) boxPerProc
      (MkDefineState currBox 0 boxes) in
  inr (MkDBL env a_domain stride numBox size (ds_boxes st) localIdxBeg numLocalBox).

(* ===================================================================== *)
(** * LayoutIterator.H *)
(* ===================================================================== *)

Definition TrimCenter : Z := Z.shiftl 1 0.
Definition TrimFace : Z := Z.shiftl 1 1.
Definition TrimEdge : Z := Z.shiftl 1 2.
Definition TrimCorner : Z := Z.shiftl 1 3.

Definition PeriodicX : Z := Z.shiftl 1 0.
Definition PeriodicY : Z := Z.shiftl 1 1.
Definition PeriodicZ : Z := Z.shiftl 1 2.

(** ** LayoutIterator *)

Record LayoutIterator : Type := MkLayoutIterator {
  lit_disjointBoxLayout : DisjointBoxLayout;
  lit_current : Z;
  lit_size : Z
}.

(** [LayoutIterator(const DisjointBoxLayout&)] *)
Definition LayoutIterator_new (a_dbl : DisjointBoxLayout) : LayoutIterator :=
  MkLayoutIterator a_dbl 0 (DBL_size a_dbl).

(** [operator*] *)
Definition LayoutIterator_deref (it : LayoutIterator) : BoxIndex :=
  MkBoxIndex (lit_current it)
             (lit_current it - DBL_localIdxBegin (lit_disjointBoxLayout it)).

(** [operator++] (prefix) *)
Definition LayoutIterator_incr (it : LayoutIterator) : LayoutIterator :=
  MkLayoutIterator (lit_disjointBoxLayout it) (lit_current it + 1) (lit_size it).

(** [ok()] *)
Definition LayoutIterator_ok (it : LayoutIterator) : bool :=
  lit_current it <? lit_size it.

(** The assignment to the member [m_current] in the derived iterators. *)
Definition LayoutIterator_setCurrent (it : LayoutIterator) (c : Z) : LayoutIterator :=
  MkLayoutIterator (lit_disjointBoxLayout it) c (lit_size it).

(** The iterator positions seen by
    [for (LayoutIterator lit(dbl); lit.ok(); ++lit)]. *)
Definition LayoutIterator_visit (a_dbl : DisjointBoxLayout) : Outcome (list LayoutIterator) :=
  loop_visit LayoutIterator_ok (fun it => inr (LayoutIterator_incr it))
    (Z.to_nat (DBL_size a_dbl)) (LayoutIterator_new a_dbl).

(** [DisjointBoxLayout::operator[](const LayoutIterator&)] *)
Definition DBL_boxAt (dbl : DisjointBoxLayout) (a_layit : LayoutIterator) : Box :=
  entry_box (DBL_getLinear dbl (globalIndex (LayoutIterator_deref a_layit))).

(** [DisjointBoxLayout::proc(const LayoutIterator&)] *)
Definition DBL_procAt (dbl : DisjointBoxLayout) (a_layit : LayoutIterator) : Z :=
  entry_proc (DBL_getLinear dbl (globalIndex (LayoutIterator_deref a_layit))).

(** ** DataIterator *)

(** [DataIterator(const DisjointBoxLayout&)] *)
Definition DataIterator_new (a_dbl : DisjointBoxLayout) : LayoutIterator :=
  let it := LayoutIterator_new a_dbl in
  MkLayoutIterator (lit_disjointBoxLayout it)
                   (DBL_localIdxBegin a_dbl) (DBL_localIdxEnd a_dbl).

(** The iterator positions seen by
    [for (DataIterator dit(dbl); dit.ok(); ++dit)]. *)
Definition DataIterator_visit (a_dbl : DisjointBoxLayout) : Outcome (list LayoutIterator) :=
  loop_visit LayoutIterator_ok (fun it => inr (LayoutIterator_incr it))
    (Z.to_nat (DBL_localSize a_dbl)) (DataIterator_new a_dbl).

(** The lattice position of the box with linear index [linearIdx]: the
    [D_INVTERM] block of the constructors of NeighborIterator and
    PeriodicIterator.  The divisions are by the strides of the layout,
    which are at least 1 once the layout is defined; a division by a
    stride of 0 (a default-constructed layout) is undefined in the source
    and is not told apart here, so the statements on the neighbour
    iterators are made on layouts built by [define]. *)
Definition Layout_ivBase (stride : IntVect) (linearIdx : Z) : IntVect :=
  let ivBase := IntVect_default in
  let ivBase := IntVect_set ivBase 2 (linearIdx ÷ IntVect_get stride 2) in
  let linearIdx := linearIdx - IntVect_get stride 2 * IntVect_get ivBase 2 in
  let ivBase := IntVect_set ivBase 1 (linearIdx ÷ IntVect_get stride 1) in
  let linearIdx := linearIdx - IntVect_get stride 1 * IntVect_get ivBase 1 in
  let ivBase := IntVect_set ivBase 0 linearIdx in
  ivBase.

(** ** NeighborIterator *)

Record NeighborIterator : Type := MkNeighborIterator {
  nit_layout : LayoutIterator;        (* the LayoutIterator base object *)
  nit_nbrOffset : BoxIterator;
  nit_base : Z;
  nit_trim : Z
}.

(** The default of the argument [a_nbr]. *)
Definition NeighborIterator_nbrDefault : Box :=
  MkBox (IntVect_neg IntVect_Unit) IntVect_Unit.

(** [while (m_nbrOffset.ok() && ((1 << m_nbrOffset->norm1()) & m_trim))
      ++m_nbrOffset;] *)
Definition NeighborIterator_skipTrimmed (m_trim : Z) (off : BoxIterator) : Outcome BoxIterator :=
  loop_while
    (fun off => BoxIterator_ok off
                && maskBit m_trim (IntVect_norm1 (BoxIterator_deref off)))
    BoxIterator_incr (Box_fuel (bit_box off)) off.

(** [NeighborIterator(a_lit, a_trim, a_nbr)] *)
Definition NeighborIterator_new (a_lit : LayoutIterator) (a_trim : Z) (a_nbr : Box)
  : Outcome NeighborIterator :=
  let dbl := lit_disjointBoxLayout a_lit in
  let m_base := lit_current a_lit in
  let m_trim := Z.lor a_trim TrimCenter in
  let ivDomain := MkBox IntVect_Zero (IntVect_sub (m_numBox dbl) IntVect_Unit) in
  let linearIdx := globalIndex (LayoutIterator_deref a_lit) in
  let ivBase := Layout_ivBase (m_stride dbl) linearIdx in
  let ivDomain := Box_shift ivDomain (IntVect_neg ivBase) in
  let a_nbr := Box_intersect a_nbr ivDomain in
  let* off := NeighborIterator_skipTrimmed m_trim (BoxIterator_begin a_nbr) in
  inr (MkNeighborIterator
         (LayoutIterator_setCurrent a_lit
            (m_base + DBL_linearNbrOffset dbl (BoxIterator_deref off)))
         off m_base m_trim).

(** [operator++] (prefix) *)
Definition NeighborIterator_incr (it : NeighborIterator) : Outcome NeighborIterator :=
  let dbl := lit_disjointBoxLayout (nit_layout it) in
  let* off := NeighborIterator_skipTrimmed (nit_trim it)
                (BoxIterator_incr (nit_nbrOffset it)) in
  inr (MkNeighborIterator
         (LayoutIterator_setCurrent (nit_layout it)
            (nit_base it + DBL_linearNbrOffset dbl (BoxIterator_deref off)))
         off (nit_base it) (nit_trim it)).

(** [ok()] *)
Definition NeighborIterator_ok (it : NeighborIterator) : bool :=
  BoxIterator_ok (nit_nbrOffset it).

(** [nbrDir()] *)
Definition NeighborIterator_nbrDir (it : NeighborIterator) : IntVect :=
  BoxIterator_deref (nit_nbrOffset it).

(** [operator*], inherited from LayoutIterator. *)
Definition NeighborIterator_deref (it : NeighborIterator) : BoxIndex :=
  LayoutIterator_deref (nit_layout it).

(** The iterator states seen by
    [for (NeighborIterator nbrit(lit, trim); nbrit.ok(); ++nbrit)]. *)
Definition NeighborIterator_visit (a_lit : LayoutIterator) (a_trim : Z)
  : Outcome (list NeighborIterator) :=
  let* it := NeighborIterator_new a_lit a_trim NeighborIterator_nbrDefault in
  loop_visit NeighborIterator_ok NeighborIterator_incr
    (Box_fuel (bit_box (nit_nbrOffset it))) it.

(** ** PeriodicIterator *)

Record PeriodicIterator : Type := MkPeriodicIterator {
  pit_layout : LayoutIterator;        (* the LayoutIterator base object *)
  pit_nbrOffset : BoxIterator;
  pit_ivDomain : Box;
  pit_ivPeriodicDomain : Box;
  pit_ivPeriodicDomainSide : list (Box * Box);
  pit_ivBase : IntVect;
  pit_base : Z;
  pit_trim : Z;
  pit_periodic : Z
}.

(** [m_ivPeriodicDomainSide[dir][side]] *)
Definition PeriodicIterator_side (it : PeriodicIterator) (dir side : Z) : Box :=
  let p := default (Box_default, Box_default)
             (pit_ivPeriodicDomainSide it !! Z.to_nat dir) in
  if side =? 0 then p.1 else p.2.

(** The second half of [setCurrent()]: the offset to the neighbour with
    the wrap-around in the periodic directions added. *)
Definition PeriodicIterator_wrapOffset (it : PeriodicIterator) (offset : IntVect) : IntVect :=
  let dbl := lit_disjointBoxLayout (pit_layout it) in
  (* Add offsets based on periodicity *)
  let domainDimensions := DBL_dimensions dbl in
  let nbr := IntVect_add (pit_ivBase it) offset in
  fold_left
    (fun offset dir =>
       if maskBit (pit_periodic it) dir then
         let offset :=
           if Box_contains (PeriodicIterator_side it dir 0) nbr
           then IntVect_set offset dir
                  (IntVect_get offset dir + IntVect_get domainDimensions dir)
           else offset in
         let offset :=
           if Box_contains (PeriodicIterator_side it dir 1) nbr
           then IntVect_set offset dir
                  (IntVect_get offset dir - IntVect_get domainDimensions dir)
           else offset in
         offset
       else offset)
    allDirs offset.

(** [setCurrent()] *)
Definition PeriodicIterator_setCurrent (it : PeriodicIterator) : Outcome PeriodicIterator :=
  let dbl := lit_disjointBoxLayout (pit_layout it) in
  (* Find first valid IntVect, avoiding trimmed values and those inside domain *)
  let* off :=
    loop_while
      (fun off => BoxIterator_ok off
                  && (maskBit (pit_trim it) (IntVect_norm1 (BoxIterator_deref off))
                      || Box_contains (pit_ivDomain it) (BoxIterator_deref off)))
      BoxIterator_incr (Box_fuel (bit_box (pit_nbrOffset it))) (pit_nbrOffset it) in
  (* Normal offset *)
  let offset := BoxIterator_deref off in
  let offset := PeriodicIterator_wrapOffset it offset in
  inr (MkPeriodicIterator
         (LayoutIterator_setCurrent (pit_layout it)
            (pit_base it + DBL_linearNbrOffset dbl offset))
         off (pit_ivDomain it) (pit_ivPeriodicDomain it)
         (pit_ivPeriodicDomainSide it) (pit_ivBase it)
         (pit_base it) (pit_trim it) (pit_periodic it)).

(** The constructor [PeriodicIterator(a_lit, a_trim, a_periodic)] up to
    its call of [setCurrent()].  The constructor declares a local
    [IntVect m_ivBase] for the lattice position of the base box; the
    member of that name is left as default-constructed. *)
Definition PeriodicIterator_init (a_lit : LayoutIterator) (a_trim a_periodic : Z)
  : PeriodicIterator :=
  let dbl := lit_disjointBoxLayout a_lit in
  let nbr := MkBox (IntVect_neg IntVect_Unit) IntVect_Unit in
  let m_ivDomain := MkBox IntVect_Zero (IntVect_sub (m_numBox dbl) IntVect_Unit) in
  let linearIdx := globalIndex (LayoutIterator_deref a_lit) in
  let local_ivBase := Layout_ivBase (m_stride dbl) linearIdx in
  let m_ivDomain := Box_shift m_ivDomain (IntVect_neg local_ivBase) in
  (* Periodic domains are grown by 1 in periodic directions *)
  let m_ivPeriodicDomain :=
    fold_left
      (fun b dir => if maskBit a_periodic dir then Box_growDir b 1 dir else b)
      allDirs m_ivDomain in
  let m_ivPeriodicDomainSide :=
    fold_left
      (fun sides dir =>
         if maskBit a_periodic dir then
           let s0 := m_ivPeriodicDomain in
           let s0 := Box_growDir s0 (-1) dir in
           let s1 := s0 in
           let s0 := Box_adjBox s0 1 dir (-1) in
           let s1 := Box_adjBox s1 1 dir 1 in
           <[ Z.to_nat dir := (s0, s1) ]> sides
         else sides)
      allDirs (replicate (Z.to_nat g_SpaceDim) (Box_default, Box_default)) in
  (* Intersect to crop the selection of neighbours by the domain *)
  let nbr := Box_intersect nbr m_ivPeriodicDomain in
  (* Nothing to do if not near a periodic boundary (set to empty box) *)
  let nbr := if Box_containsBox m_ivDomain nbr then Box_default else nbr in
  MkPeriodicIterator a_lit (BoxIterator_begin nbr) m_ivDomain m_ivPeriodicDomain
    m_ivPeriodicDomainSide IntVect_default (lit_current a_lit)
    (Z.lor a_trim TrimCenter) a_periodic.

(** [PeriodicIterator(a_lit, a_trim, a_periodic)] *)
Definition PeriodicIterator_new (a_lit : LayoutIterator) (a_trim a_periodic : Z)
  : Outcome PeriodicIterator :=
  PeriodicIterator_setCurrent (PeriodicIterator_init a_lit a_trim a_periodic).

(** [operator++] (prefix) *)
Definition PeriodicIterator_incr (it : PeriodicIterator) : Outcome PeriodicIterator :=
  PeriodicIterator_setCurrent
    (MkPeriodicIterator (pit_layout it) (BoxIterator_incr (pit_nbrOffset it))
       (pit_ivDomain it) (pit_ivPeriodicDomain it) (pit_ivPeriodicDomainSide it)
       (pit_ivBase it) (pit_base it) (pit_trim it) (pit_periodic it)).

(** [ok()] *)
Definition PeriodicIterator_ok (it : PeriodicIterator) : bool :=
  BoxIterator_ok (pit_nbrOffset it).

(** [nbrDir()] *)
Definition PeriodicIterator_nbrDir (it : PeriodicIterator) : IntVect :=
  BoxIterator_deref (pit_nbrOffset it).

(** [operator*], inherited from LayoutIterator. *)
Definition PeriodicIterator_deref (it : PeriodicIterator) : BoxIndex :=
  LayoutIterator_deref (pit_layout it).

(** The iterator states seen by
    [for (PeriodicIterator perit(lit, trim, periodic); perit.ok(); ++perit)]. *)
Definition PeriodicIterator_visit (a_lit : LayoutIterator) (a_trim a_periodic : Z)
  : Outcome (list PeriodicIterator) :=
  let* it := PeriodicIterator_new a_lit a_trim a_periodic in
  loop_visit PeriodicIterator_ok PeriodicIterator_incr
    (Box_fuel (bit_box (pit_nbrOffset it))) it.

(* ===================================================================== *)
(** * Copier.H *)
(* ===================================================================== *)

(** The preprocessor switches the code depends on, and [sizeof(T)] for
    the template argument of [defineExchangeDBL]. *)
Record BuildConfig : Type := MkBuildConfig {
  USE_MPI : bool;
  USE_MPIWAITALL : bool;
  sizeofT : Z
}.

(** ** Motion2Way *)

(** The two buffers are kept as their sizes in bytes; [None] is the null
    pointer. *)
Record Motion2Way : Type := MkMotion2Way {
  m_bidxLocal : BoxIndex;
  m_bidxRemote : BoxIndex;
  m_regionRecv : Box;
  m_regionSend : Box;
  m_regionSendRemote : Box;
  m_localProcID : Z;
  m_remoteProcID : Z;
  m_tagSend : Z;
  m_tagRecv : Z;
  m_sendDir : IntVect;
  m_compRecvFlags : Z;
  m_compSendFlags : Z;
  m_recvBuffer : option Z;
  m_sendBuffer : option Z
}.

(** [std::numeric_limits<unsigned>::max()] for a 32-bit [unsigned]. *)
Definition unsigned_max : Z := 4294967295.

(** [uniqueTag], an [int]: the value of the expression reduced into
    the range of [int] (reducing after every operation gives the same
    value). *)
Definition Motion2Way_uniqueTag (a_bidxSend : BoxIndex) (a_sendDir : IntVect) : Z :=
  Int_wrap
    (27 * globalIndex a_bidxSend
     + ((IntVect_get a_sendDir 0 + 1)
        + 3 * (IntVect_get a_sendDir 1 + 1)
        + 9 * (IntVect_get a_sendDir 2 + 1))).

(** [Motion2Way(a_bytesPerCell, a_disjointBoxLayout, ...)] *)
Definition Motion2Way_new (a_bytesPerCell : Z) (a_disjointBoxLayout : DisjointBoxLayout)
  (a_bidxLocal a_bidxRemote : BoxIndex)
  (a_regionRecv a_regionSend a_regionSendRemote : Box) (a_sendDir : IntVect)
  : Motion2Way :=
  let localProcID := DBL_proc a_disjointBoxLayout a_bidxLocal in
  let remoteProcID := DBL_proc a_disjointBoxLayout a_bidxRemote in
  let isLocal := localProcID =? remoteProcID in
  MkMotion2Way a_bidxLocal a_bidxRemote a_regionRecv a_regionSend a_regionSendRemote
    localProcID remoteProcID
    (Motion2Way_uniqueTag a_bidxLocal a_sendDir)
    (Motion2Way_uniqueTag a_bidxRemote (IntVect_neg a_sendDir))
    a_sendDir unsigned_max unsigned_max
    (if negb isLocal then Some (a_bytesPerCell * Box_size a_regionRecv) else None)
    (if negb isLocal then Some (a_bytesPerCell * Box_size a_regionSend) else None).

(** [isLocal()] *)
Definition Motion2Way_isLocal (m : Motion2Way) : bool :=
  m_localProcID m =? m_remoteProcID m.

(** The accessors for local operations. *)
Definition Motion2Way_bidxRecv (m : Motion2Way) : BoxIndex := m_bidxLocal m.
Definition Motion2Way_bidxSend (m : Motion2Way) : BoxIndex := m_bidxRemote m.
Definition Motion2Way_regionRecv (m : Motion2Way) : Box := m_regionRecv m.
Definition Motion2Way_regionSend (m : Motion2Way) : Box := m_regionSendRemote m.
Definition Motion2Way_recvDir (m : Motion2Way) : IntVect := IntVect_neg (m_sendDir m).

(** ** Copier *)

(** [m_tag], the address of the array of boxes, is not kept; [m_mpiRequest]
    is kept as its length [m_numReq]. *)
Record Copier : Type := MkCopier {
  m_bytesPerCell : Z;
  m_startComp : Z;
  m_endComp : Z;
  m_motionItem : list Motion2Way;
  m_midxForReq : list Z;
  m_numReq : Z
}.

Definition Copier_numMotionItem (c : Copier) : Z := Z.of_nat (length (m_motionItem c)).
Definition Copier_startComp (c : Copier) : Z := m_startComp c.
Definition Copier_endComp (c : Copier) : Z := m_endComp c.
Definition Copier_numComp (c : Copier) : Z := m_endComp c - m_startComp c.
Definition Copier_numRequest (c : Copier) : Z := m_numReq c.

(** [motionItemIndex]: there are 2 requests per item. *)
Definition Copier_motionItemIndex (c : Copier) (a_idxReq : Z) : Z :=
  default 0 (m_midxForReq c !! Z.to_nat (a_idxReq ÷ 2)).

(** The motion item built in the loop over interior neighbours. *)
Definition Copier_interiorItem (cfg : BuildConfig) (bytesPerCell : Z)
  (dbl : DisjointBoxLayout) (a_numGhost : Z)
  (dit : LayoutIterator) (localBox : Box) (nbrit : NeighborIterator) : Motion2Way :=
  let remoteBox := DBL_boxAt dbl (nit_layout nbrit) in
  let regionRecv := localBox in
  let regionRecv := Box_grow regionRecv a_numGhost in
  let regionRecv := Box_intersect regionRecv remoteBox in
  let regionSend :=
    if USE_MPI cfg then
      let remoteBox := Box_grow remoteBox a_numGhost in
      let regionSend := localBox in
      Box_intersect regionSend remoteBox
    else Box_default in
  Motion2Way_new bytesPerCell dbl
    (LayoutIterator_deref dit) (NeighborIterator_deref nbrit)
    regionRecv regionSend regionRecv (NeighborIterator_nbrDir nbrit).

(** The motion item built in the loop over periodic neighbours. *)
Definition Copier_periodicItem (cfg : BuildConfig) (bytesPerCell : Z)
  (dbl : DisjointBoxLayout) (a_numGhost : Z)
  (dit : LayoutIterator) (localBox : Box) (perit : PeriodicIterator) : Motion2Way :=
  let remoteBox := DBL_boxAt dbl (pit_layout perit) in
  (* We need to shift the remoteBox (which is inside the domain) to its
     periodic location outside the domain. *)
  let shiftDir := PeriodicIterator_nbrDir perit in
  let shiftBy :=
    IntVect_add (IntVect_sub (loVect localBox) (loVect remoteBox))
                (IntVect_mul shiftDir (Box_dimensions localBox)) in
  let remoteBox := Box_shift remoteBox shiftBy in
  let regionRecv := localBox in
  let regionRecv := Box_grow regionRecv a_numGhost in
  let regionRecv := Box_intersect regionRecv remoteBox in
  let regionSend :=
    if USE_MPI cfg then
      let remoteBox := Box_grow remoteBox a_numGhost in
      let regionSend := localBox in
      Box_intersect regionSend remoteBox
    else Box_default in
  let regionSendRemote := regionRecv in
  let regionSendRemote := Box_shift regionSendRemote (IntVect_neg shiftBy) in
  Motion2Way_new bytesPerCell dbl
    (LayoutIterator_deref dit) (PeriodicIterator_deref perit)
    regionRecv regionSend regionSendRemote (PeriodicIterator_nbrDir perit).

(** The motion items appended for one position of the DataIterator. *)
Definition Copier_itemsOfBox (cfg : BuildConfig) (bytesPerCell : Z)
  (dbl : DisjointBoxLayout) (a_numGhost a_periodic a_trim : Z)
  (periodicTestDomain : Box) (dit : LayoutIterator) : Outcome (list Motion2Way) :=
  let localBox := DBL_boxAt dbl dit in
  let* nbrits := NeighborIterator_visit dit a_trim in
  let interior :=
    map (Copier_interiorItem cfg bytesPerCell dbl a_numGhost dit localBox) nbrits in
  let* periodic :=
    if negb (Box_containsBox periodicTestDomain localBox) then
      let* perits := PeriodicIterator_visit dit a_trim a_periodic in
      inr (map (Copier_periodicItem cfg bytesPerCell dbl a_numGhost dit localBox) perits)
    else inr [] in
  inr (interior ++ periodic).

(** The indices of the motion items that are not local, in order: the
    loop that fills [m_midxForReq]. *)
Fixpoint Copier_fillMidxForReq (items : list Motion2Way) (i : Z) : list Z :=
  match items with
  | [] => []
  | m :: items' =>
      if negb (Motion2Way_isLocal m)
      then i :: Copier_fillMidxForReq items' (i + 1)
      else Copier_fillMidxForReq items' (i + 1)
  end.

(** [Copier::defineExchangeDBL<T>].  The reservation of capacity for the
    predicted number of motion items changes no value and is left out.
    [m_tag = a_disjointBoxLayout.tag()] asserts that [m_boxes] is not
    null; [m_boxes] is held by value here, so that assertion, which every
    layout built by [define] passes, is not told apart, and the
    statements on plans are made on layouts built by [define]. *)
Definition Copier_defineExchangeDBL (cfg : BuildConfig)
  (a_disjointBoxLayout : DisjointBoxLayout)
  (a_numGhost a_startComp a_numComp a_periodic a_trim : Z) : Outcome Copier :=
  let* _ := CH_assert AssertionFailed (0 <=? a_startComp) in
  let* _ := CH_assert AssertionFailed (0 <? a_numComp) in
  let bytesPerCell := sizeofT cfg * a_numComp in
  let startComp := a_startComp in
  let endComp := a_startComp + a_numComp in
  if 0 <? a_numGhost then
    let periodicTestDomain :=
      fold_left
        (fun b dir => if maskBit a_periodic dir then Box_growDir b (-1) dir else b)
        allDirs (DBL_problemDomain a_disjointBoxLayout) in
    (* Iterate over boxes on the process *)
    let* dits := DataIterator_visit a_disjointBoxLayout in
    let* itemss :=
      Outcome_mapM
        (Copier_itemsOfBox cfg bytesPerCell a_disjointBoxLayout
           a_numGhost a_periodic a_trim periodicTestDomain)
        dits in
    let items := concat itemss in
    let numReq :=
      2 * Z.of_nat (length (filter (fun m => Motion2Way_isLocal m = false) items)) in
    let midxForReq := if USE_MPI cfg then Copier_fillMidxForReq items 0 else [] in
    inr (MkCopier bytesPerCell startComp endComp items midxForReq numReq)
  else
    inr (MkCopier bytesPerCell startComp endComp [] [] 0).

(* ===================================================================== *)
(** * LevelData.H *)
(* ===================================================================== *)

(** BaseFab.H is not among the sources, so the contents of [m_data] are
    not modelled: an exchange is embedded as the sequence of the calls it
    makes on the BaseFabs of [m_data] and on the transport.  A buffer is
    named by the index of the motion item that owns it, together with its
    size ([None] for the null pointer). *)
Record LevelData : Type := MkLevelData {
  ld_disjointBoxLayout : DisjointBoxLayout;
  ld_ncomp : Z;
  ld_nghost : Z
}.

Inductive ExchangeOp : Type :=
| FabCopy (dst : Z) (regionDst : Box) (compDst : Z)
          (src : Z) (regionSrc : Box) (compSrc numComp flags : Z)
| FabLinearOut (fab : Z) (bufOwner : Z) (buf : option Z)
               (region : Box) (startComp endComp : Z)
| PostMessages (midx sendRequest recvRequest : Z)
| FabLinearIn (fab : Z) (bufOwner : Z) (buf : option Z)
              (region : Box) (startComp endComp : Z).

(** [LevelData::operator[](const BoxIndex&)], as the index into [m_data]. *)
Definition LevelData_at (ld : LevelData) (a_bidx : BoxIndex) : Outcome Z :=
  let dbl := ld_disjointBoxLayout ld in
  let* _ := CH_assert AssertionFailed (localIndex a_bidx <? DBL_localSize dbl) in
  let* _ := CH_assert AssertionFailed
              ((DBL_localIdxBegin dbl <=? globalIndex a_bidx)
               && (globalIndex a_bidx <? DBL_localIdxEnd dbl)) in
  inr (localIndex a_bidx).

(** [Copier::operator[]] *)
Definition Copier_at (c : Copier) (a_idx : Z) : Outcome Motion2Way :=
  let* _ := CH_assert AssertionFailed
              ((0 <=? a_idx) && (a_idx <? Copier_numMotionItem c)) in
  match m_motionItem c !! Z.to_nat a_idx with
  | Some m => inr m
  | None => inl AssertionFailed
  end.

(** The body of the loop over the motion items, the same text in
    [exchange] and in [exchangeBegin]; [idxReq] is threaded through. *)
Definition LevelData_motionBody (cfg : BuildConfig) (ld : LevelData) (a_copier : Copier)
  (midx : Z) (acc : list ExchangeOp * Z) : Outcome (list ExchangeOp * Z) :=
  let startComp := Copier_startComp a_copier in
  let numComp := Copier_numComp a_copier in
  let endComp := Copier_endComp a_copier in
  let '(ops, idxReq) := acc in
  let* motion := Copier_at a_copier midx in
  if (if USE_MPI cfg then Motion2Way_isLocal motion else true) then
    let* _ := CH_assert AssertionFailed (Motion2Way_isLocal motion) in
    (* Local copy *)
    inr (ops ++ [FabCopy (localIndex (Motion2Way_bidxRecv motion))
                         (Motion2Way_regionRecv motion) startComp
                         (localIndex (Motion2Way_bidxSend motion))
                         (Motion2Way_regionSend motion) startComp numComp
                         (m_compRecvFlags motion)],
         idxReq)
  else
    let* fab := LevelData_at ld (m_bidxLocal motion) in
    inr (ops ++ [FabLinearOut fab midx (m_sendBuffer motion)
                              (m_regionSend motion) startComp endComp;
                 PostMessages midx idxReq (idxReq + 1)],
         idxReq + 2).

(** [for (midx = 0; midx < nmitem; ++midx)] *)
Fixpoint LevelData_motionLoop (cfg : BuildConfig) (ld : LevelData) (a_copier : Copier)
  (n : nat) (midx : Z) (acc : list ExchangeOp * Z) : Outcome (list ExchangeOp * Z) :=
  match n with
  | O => inr acc
  | S n' =>
      let* acc := LevelData_motionBody cfg ld a_copier midx acc in
      LevelData_motionLoop cfg ld a_copier n' (midx + 1) acc
  end.

(** The unpacking of every item that is not local, after [MPI_Waitall]. *)
Fixpoint LevelData_unpackAll (ld : LevelData) (a_copier : Copier)
  (items : list Motion2Way) (midx : Z) : Outcome (list ExchangeOp) :=
  match items with
  | [] => inr []
  | motion :: items' =>
      let* ops :=
        if negb (Motion2Way_isLocal motion) then
          let* fab := LevelData_at ld (m_bidxLocal motion) in
          inr [FabLinearIn fab midx (m_recvBuffer motion) (m_regionRecv motion)
                           (Copier_startComp a_copier) (Copier_endComp a_copier)]
        else inr [] in
      let* rest := LevelData_unpackAll ld a_copier items' (midx + 1) in
      inr (ops ++ rest)
  end.

(** What [exchange] does with the request index [ridx] that
    [MPI_Waitany] hands back. *)
Definition LevelData_exchange_onComplete (ld : LevelData) (a_copier : Copier)
  (ridx : Z) : Outcome (list ExchangeOp) :=
  if negb (Z.land ridx 1 =? 0) then     (* This is a receive (has odd request index) *)
    let* motion := Copier_at a_copier (Copier_motionItemIndex a_copier ridx) in
    if negb (Motion2Way_isLocal motion) then
      let* fab := LevelData_at ld (m_bidxLocal motion) in
      inr [FabLinearIn fab (Copier_motionItemIndex a_copier ridx)
                       (m_recvBuffer motion) (m_regionRecv motion)
                       (Copier_startComp a_copier) (Copier_endComp a_copier)]
    else inr []
  else inr [].

(** What [exchangeEnd] does with the request index [ridx] that
    [MPI_Waitany] hands back. *)
Definition LevelData_exchangeEnd_onComplete (ld : LevelData) (a_copier : Copier)
  (ridx : Z) : Outcome (list ExchangeOp) :=
  if negb (Z.land ridx 1 =? 0) then     (* This is a receive (has odd request index) *)
    let* recvMotion := Copier_at a_copier (ridx ÷ 2) in
    let* fab := LevelData_at ld (m_bidxLocal recvMotion) in
    inr [FabLinearIn fab (ridx ÷ 2)
                     (m_recvBuffer recvMotion) (m_regionRecv recvMotion)
                     (Copier_startComp a_copier) (Copier_endComp a_copier)]
  else inr [].

(** [for (iReq = 0; iReq != nReq; ++iReq)] around [MPI_Waitany]: the
    transport hands back the request indices in the order [completions]. *)
Fixpoint LevelData_waitAnyLoop (onComplete : Z -> Outcome (list ExchangeOp))
  (nReq : nat) (completions : list Z) : Outcome (list ExchangeOp) :=
  match nReq, completions with
  | S nReq', ridx :: completions' =>
      let* ops := onComplete ridx in
      let* rest := LevelData_waitAnyLoop onComplete nReq' completions' in
      inr (ops ++ rest)
  | _, _ => inr []
  end.

(** The part of [exchange] and of [exchangeEnd] under
    [if (DisjointBoxLayout::numProc() > 1)]. *)
Definition LevelData_drain (cfg : BuildConfig) (ld : LevelData) (a_copier : Copier)
  (onComplete : Z -> Outcome (list ExchangeOp)) (completions : list Z)
  : Outcome (list ExchangeOp) :=
  if USE_MPI cfg && (1 <? DBL_numProc (ld_disjointBoxLayout ld)) then
    if USE_MPIWAITALL cfg
    then LevelData_unpackAll ld a_copier (m_motionItem a_copier) 0
    else LevelData_waitAnyLoop onComplete
           (Z.to_nat (Copier_numRequest a_copier)) completions
  else inr [].

(** [LevelData::exchange] *)
Definition LevelData_exchange (cfg : BuildConfig) (ld : LevelData) (a_copier : Copier)
  (completions : list Z) : Outcome (list ExchangeOp) :=
  if 0 <? ld_nghost ld then
    let* acc := LevelData_motionLoop cfg ld a_copier
                  (Z.to_nat (Copier_numMotionItem a_copier)) 0 ([], 0) in
    let* unpack := LevelData_drain cfg ld a_copier
                     (LevelData_exchange_onComplete ld a_copier) completions in
    inr (acc.1 ++ unpack)
  else inr [].

(** [LevelData::exchangeBegin] *)
Definition LevelData_exchangeBegin (cfg : BuildConfig) (ld : LevelData) (a_copier : Copier)
  : Outcome (list ExchangeOp) :=
  if 0 <? ld_nghost ld then
    let* acc := LevelData_motionLoop cfg ld a_copier
                  (Z.to_nat (Copier_numMotionItem a_copier)) 0 ([], 0) in
    inr acc.1
  else inr [].

(** [LevelData::exchangeEnd] *)
Definition LevelData_exchangeEnd (cfg : BuildConfig) (ld : LevelData) (a_copier : Copier)
  (completions : list Z) : Outcome (list ExchangeOp) :=
  LevelData_drain cfg ld a_copier
    (LevelData_exchangeEnd_onComplete ld a_copier) completions.

(** [exchangeBegin] followed by [exchangeEnd]. *)
Definition LevelData_exchangeBeginEnd (cfg : BuildConfig) (ld : LevelData)
  (a_copier : Copier) (completions : list Z) : Outcome (list ExchangeOp) :=
  let* ops1 := LevelData_exchangeBegin cfg ld a_copier in
  let* ops2 := LevelData_exchangeEnd cfg ld a_copier completions in
  inr (ops1 ++ ops2).

(* ===================================================================== *)
(** * Notions used in the statements *)
(* ===================================================================== *)

(** [n] applications of a step function, the first one to [s]. *)
Fixpoint iterate {S : Type} (n : nat) (step : S -> S) (s : S) : S :=
  match n with
  | O => s
  | Datatypes.S n' => iterate n' step (step s)
  end.

(** The state of a BoxIterator on [b] after [n] increments. *)
Definition BoxIterator_after (b : Box) (n : nat) : BoxIterator :=
  iterate n BoxIterator_incr (BoxIterator_begin b).

(** The number of cells that a BoxIterator on [b] visits. *)
Definition Box_count (b : Box) : nat :=
  if Box_isEmpty b then O else Z.to_nat (Box_size b).

(** The cells of [b] in the order in which a BoxIterator visits them. *)
Definition Box_cells (b : Box) : list IntVect :=
  map (fun k => bit_current (BoxIterator_after b k)) (seq 0 (Box_count b)).

(** [l] lists consecutive iterates of [step] from [s], and [e] is the
    iterate after the last of them. *)
Fixpoint chain {S : Type} (step : S -> S) (l : list S) (s e : S) : Prop :=
  match l with
  | [] => s = e
  | x :: l' => x = s /\ chain step l' (step s) e
  end.

(** The conditions under which [define] is called: a problem domain that
    is not empty, a positive box size in every direction, and a process
    of a non-empty set of processes. *)
Definition Define_wf (env : ProcEnv) (a_domain : Box) (a_maxBoxSize : IntVect) : Prop :=
  Box_isEmpty a_domain = false
  /\ 0 < iv0 a_maxBoxSize /\ 0 < iv1 a_maxBoxSize /\ 0 < iv2 a_maxBoxSize
  /\ 1 <= s_numProc env
  /\ 0 <= s_procID env < s_numProc env.

(** [a % b == 0] *)
Definition divides_evenly (a b : Z) : Prop := Z.rem a b = 0.

(** The lattice of boxes: [w] is a lattice position when
    [0 <= w_i < numBox_i]. *)
Definition Lattice_contains (numBox w : IntVect) : Prop :=
  0 <= iv0 w < iv0 numBox /\ 0 <= iv1 w < iv1 numBox /\ 0 <= iv2 w < iv2 numBox.

(** The linear index of a lattice position, direction 0 fastest. *)
Definition Lattice_linear (numBox w : IntVect) : Z :=
  iv0 w + iv0 numBox * (iv1 w + iv1 numBox * iv2 w).

(** The box at a lattice position: [lo = domain.lo + maxBoxSize * w],
    [hi = lo + maxBoxSize - 1]. *)
Definition Lattice_box (a_domain : Box) (a_maxBoxSize w : IntVect) : Box :=
  let lo := IntVect_add (loVect a_domain) (IntVect_mul a_maxBoxSize w) in
  MkBox lo (IntVect_sub (IntVect_add lo a_maxBoxSize) IntVect_Unit).

(** The lattice position after [w] in the order of the linear index. *)
Definition Lattice_next (numBox w : IntVect) : IntVect :=
  if iv0 w + 1 <? iv0 numBox then IV (iv0 w + 1) (iv1 w) (iv2 w)
  else if iv1 w + 1 <? iv1 numBox then IV 0 (iv1 w + 1) (iv2 w)
  else IV 0 0 (iv2 w + 1).

(** The state of the loops of [define] when [k] boxes have been placed. *)
Definition Define_inv (a_domain : Box) (a_maxBoxSize numBox : IntVect) (boxPerProc k : Z)
  (st : DefineState) : Prop :=
  ds_linIdxBox st = k
  /\ length (ds_boxes st) = Z.to_nat (iv0 numBox * iv1 numBox * iv2 numBox)
  /\ (forall w, Lattice_contains numBox w -> Lattice_linear numBox w < k ->
        ds_boxes st !! Z.to_nat (Lattice_linear numBox w)
        = Some (MkBoxEntry (Lattice_box a_domain a_maxBoxSize w)
                           (Lattice_linear numBox w ÷ boxPerProc)))
  /\ (k < iv0 numBox * iv1 numBox * iv2 numBox ->
      exists w, Lattice_contains numBox w /\ Lattice_linear numBox w = k
                /\ ds_currBox st = Lattice_box a_domain a_maxBoxSize w).

(** What [define] establishes: the layout is the lattice of the boxes of
    size [a_maxBoxSize] that tile [a_domain], stored in the order of the
    linear index and dealt to the processes in blocks. *)
Definition Layout_ok (env : ProcEnv) (a_domain : Box) (a_maxBoxSize : IntVect)
  (dbl : DisjointBoxLayout) : Prop :=
  let N := m_numBox dbl in
  m_env dbl = env
  /\ m_domain dbl = a_domain
  /\ (1 <= iv0 N /\ 1 <= iv1 N /\ 1 <= iv2 N)
  /\ (0 < iv0 a_maxBoxSize /\ 0 < iv1 a_maxBoxSize /\ 0 < iv2 a_maxBoxSize)
  /\ Box_dimensions a_domain = IntVect_mul N a_maxBoxSize
  /\ m_stride dbl = IV 1 (iv0 N) (iv0 N * iv1 N)
  /\ m_size dbl = iv0 N * iv1 N * iv2 N
  /\ (1 <= m_numLocalBox dbl /\ m_size dbl = m_numLocalBox dbl * s_numProc env)
  /\ (1 <= s_numProc env /\ 0 <= s_procID env < s_numProc env)
  /\ m_localIdxBeg dbl = s_procID env * m_numLocalBox dbl
  /\ length (m_boxes dbl) = Z.to_nat (m_size dbl)
  /\ (forall w, Lattice_contains N w ->
        DBL_getLinear dbl (Lattice_linear N w)
        = MkBoxEntry (Lattice_box a_domain a_maxBoxSize w)
                     (Lattice_linear N w ÷ m_numLocalBox dbl)).

(** The box of the offsets that a NeighborIterator at linear index
    [base] steps through: the stencil cropped by the lattice. *)
Definition Layout_nbrBox (dbl : DisjointBoxLayout) (base : Z) : Box :=
  Box_intersect NeighborIterator_nbrDefault
    (Box_shift (MkBox IntVect_Zero (IntVect_sub (m_numBox dbl) IntVect_Unit))
               (IntVect_neg (Layout_ivBase (m_stride dbl) base))).

(** The NeighborIterator built on [a_lit] when it stands at offset [d]. *)
Definition NeighborIterator_at (a_lit : LayoutIterator) (a_trim : Z) (d : IntVect)
  : NeighborIterator :=
  let dbl := lit_disjointBoxLayout a_lit in
  MkNeighborIterator
    (LayoutIterator_setCurrent a_lit (lit_current a_lit + DBL_linearNbrOffset dbl d))
    (MkBoxIterator d (Layout_nbrBox dbl (lit_current a_lit)))
    (lit_current a_lit) (Z.lor a_trim TrimCenter).

(** An offset of the stencil: every component is -1, 0 or 1. *)
Definition Stencil_contains (d : IntVect) : Prop :=
  -1 <= iv0 d <= 1 /\ -1 <= iv1 d <= 1 /\ -1 <= iv2 d <= 1.

(** The PeriodicIterator [it0] moved to the offset [d]. *)
Definition PeriodicIterator_atOffset (it0 : PeriodicIterator) (d : IntVect)
  : PeriodicIterator :=
  MkPeriodicIterator
    (LayoutIterator_setCurrent (pit_layout it0)
       (pit_base it0
        + DBL_linearNbrOffset (lit_disjointBoxLayout (pit_layout it0))
            (PeriodicIterator_wrapOffset it0 d)))
    (MkBoxIterator d (bit_box (pit_nbrOffset it0)))
    (pit_ivDomain it0) (pit_ivPeriodicDomain it0) (pit_ivPeriodicDomainSide it0)
    (pit_ivBase it0) (pit_base it0) (pit_trim it0) (pit_periodic it0).

(** The PeriodicIterator built on [a_lit] when it stands at offset [d]. *)
Definition PeriodicIterator_at (a_lit : LayoutIterator) (a_trim a_periodic : Z)
  (d : IntVect) : PeriodicIterator :=
  PeriodicIterator_atOffset (PeriodicIterator_init a_lit a_trim a_periodic) d.

(** The offsets that a periodic iterator may step to from the lattice
    position [w]: one position outside the lattice in the periodic
    directions, inside the lattice in the others. *)
Definition Periodic_reach (a_periodic : Z) (numBox w d : IntVect) : Prop :=
  (if maskBit a_periodic 0 then -1 <= iv0 w + iv0 d <= iv0 numBox
   else 0 <= iv0 w + iv0 d <= iv0 numBox - 1)
  /\ (if maskBit a_periodic 1 then -1 <= iv1 w + iv1 d <= iv1 numBox
      else 0 <= iv1 w + iv1 d <= iv1 numBox - 1)
  /\ (if maskBit a_periodic 2 then -1 <= iv2 w + iv2 d <= iv2 numBox
      else 0 <= iv2 w + iv2 d <= iv2 numBox - 1).

(** A coordinate one step outside [0, n) wrapped to the opposite side. *)
Definition wrapCoord (n x : Z) : Z :=
  if x <? 0 then x + n else if n <=? x then x - n else x.

(** The lattice position reached from a position one step outside the
    lattice by wrapping around. *)
Definition Lattice_wrap (numBox v : IntVect) : IntVect :=
  IV (wrapCoord (iv0 numBox) (iv0 v)) (wrapCoord (iv1 numBox) (iv1 v))
     (wrapCoord (iv2 numBox) (iv2 v)).

(** The lattice as a box of offsets around the lattice position [w]. *)
Definition Lattice_seenFrom (numBox w : IntVect) : Box :=
  Box_shift (MkBox IntVect_Zero (IntVect_sub numBox IntVect_Unit)) (IntVect_neg w).

(** The same, grown by one position in the periodic directions. *)
Definition Lattice_periodicSeenFrom (a_periodic : Z) (numBox w : IntVect) : Box :=
  fold_left (fun b dir => if maskBit a_periodic dir then Box_growDir b 1 dir else b)
    allDirs (Lattice_seenFrom numBox w).

(** The offsets at which the body of a loop over a NeighborIterator
    built on [a_lit] runs, in order. *)
Definition NeighborIterator_offsets (a_lit : LayoutIterator) (a_trim : Z) : list IntVect :=
  filter (fun d => maskBit (Z.lor a_trim TrimCenter) (IntVect_norm1 d) = false)
    (Box_cells (Layout_nbrBox (lit_disjointBoxLayout a_lit) (lit_current a_lit))).

(** The offsets at which the body of a loop over a PeriodicIterator
    built on [a_lit] runs, in order. *)
Definition PeriodicIterator_offsets (a_lit : LayoutIterator) (a_trim a_periodic : Z)
  : list IntVect :=
  let it0 := PeriodicIterator_init a_lit a_trim a_periodic in
  filter (fun d => maskBit (pit_trim it0) (IntVect_norm1 d)
                   || Box_contains (pit_ivDomain it0) d = false)
    (Box_cells (bit_box (pit_nbrOffset it0))).

(** The positions of the DataIterator over a layout. *)
Definition DataIterator_positions (dbl : DisjointBoxLayout) : list LayoutIterator :=
  map (fun k => MkLayoutIterator dbl (m_localIdxBeg dbl + Z.of_nat k)
                  (m_localIdxBeg dbl + m_numLocalBox dbl))
      (seq 0 (Z.to_nat (m_numLocalBox dbl))).

(** The domain that [defineExchangeDBL] tests local boxes against. *)
Definition Copier_periodicTestDomain (dbl : DisjointBoxLayout) (a_periodic : Z) : Box :=
  fold_left
    (fun b dir => if maskBit a_periodic dir then Box_growDir b (-1) dir else b)
    allDirs (DBL_problemDomain dbl).

(** The motion items for the local box at [dit], by offset. *)
Definition Copier_planOfBox (cfg : BuildConfig) (bytesPerCell : Z)
  (dbl : DisjointBoxLayout) (a_numGhost a_periodic a_trim : Z)
  (dit : LayoutIterator) : list Motion2Way :=
  let localBox := DBL_boxAt dbl dit in
  map (fun d => Copier_interiorItem cfg bytesPerCell dbl a_numGhost dit localBox
                  (NeighborIterator_at dit a_trim d))
      (NeighborIterator_offsets dit a_trim)
  ++ (if negb (Box_containsBox (Copier_periodicTestDomain dbl a_periodic) localBox)
      then map (fun d => Copier_periodicItem cfg bytesPerCell dbl a_numGhost dit localBox
                           (PeriodicIterator_at dit a_trim a_periodic d))
               (PeriodicIterator_offsets dit a_trim a_periodic)
      else []).

(** What identifies a motion item in a plan: the global index of the
    local box and the direction. *)
Definition Motion2Way_key (m : Motion2Way) : Z * IntVect :=
  (globalIndex (m_bidxLocal m), m_sendDir m).

(** Modelled from the spec: BaseFab.H is not among the sources.  The
    data of the local boxes with their ghost cells, for one component:
    the value at each cell of the box with a given global index. *)
Definition GhostStore : Type := Z -> IntVect -> Z.

(** The motion item [m] writes the cell [c] of the box with global index
    [b] when it is unpacked. *)
Definition Motion2Way_covers (m : Motion2Way) (b : Z) (c : IntVect) : bool :=
  (b =? globalIndex (m_bidxLocal m)) && Box_contains (m_regionRecv m) c.

(** Modelled from the spec: [linearIn] of the receive buffer of [m],
    whose contents are [payload m], over [regionRecv] of its local box. *)
Definition GhostStore_unpack (payload : Motion2Way -> IntVect -> Z)
  (st : GhostStore) (m : Motion2Way) : GhostStore :=
  fun b c => if Motion2Way_covers m b c then payload m c else st b c.

(** A row of four unit boxes dealt to two processes, as process 0 sees
    it. *)
Definition example_row : DisjointBoxLayout :=
  Eval vm_compute in
    match DBL_define (MkProcEnv 2 0) (MkBox (IV 0 0 0) (IV 3 0 0)) (IV 1 1 1) with
    | inr dbl => dbl
    | inl _ => MkDBL (MkProcEnv 2 0) Box_default IntVect_Zero IntVect_Zero 0 [] 0 0
    end.

(** A cube of 3 x 3 x 3 unit boxes on one process. *)
Definition example_cube : DisjointBoxLayout :=
  Eval vm_compute in
    match DBL_define (MkProcEnv 1 0) (MkBox (IV 0 0 0) (IV 2 2 2)) (IV 1 1 1) with
    | inr dbl => dbl
    | inl _ => MkDBL (MkProcEnv 1 0) Box_default IntVect_Zero IntVect_Zero 0 [] 0 0
    end.

(** A build with the transport, waiting for one request at a time, and
    cells of 8 bytes. *)
Definition example_cfg : BuildConfig := MkBuildConfig true false 8.

(* ===================================================================== *)
(** * IntVect.H: the remaining operators *)
(* ===================================================================== *)

(** [operator!=]: a disjunction over the components. *)
Definition IntVect_neb (x y : IntVect) : bool :=
  negb (iv0 x =? iv0 y) || negb (iv1 x =? iv1 y) || negb (iv2 x =? iv2 y).

(** [operator<]: a conjunction over the components. *)
Definition IntVect_ltb (x y : IntVect) : bool :=
  (iv0 x <? iv0 y) && (iv1 x <? iv1 y) && (iv2 x <? iv2 y).

(** [operator+=(const int)] *)
Definition IntVect_addScalar (x : IntVect) (a_scalar : Z) : IntVect :=
  IV (iv0 x + a_scalar) (iv1 x + a_scalar) (iv2 x + a_scalar).

(** [operator-=(const int)] *)
Definition IntVect_subScalar (x : IntVect) (a_scalar : Z) : IntVect :=
  IV (iv0 x - a_scalar) (iv1 x - a_scalar) (iv2 x - a_scalar).

(** [sum()] *)
Definition IntVect_sum (x : IntVect) : Z :=
  let r_sum := 0 in
  let r_sum := r_sum + iv0 x in
  let r_sum := r_sum + iv1 x in
  let r_sum := r_sum + iv2 x in
  r_sum.

(* ===================================================================== *)
(** * BoxIterator.H: the remaining members *)
(* ===================================================================== *)

(** Modelled from the spec: Box.H is not among the sources; two boxes
    are equal when their corners are. *)
Definition Box_eqb (a b : Box) : bool :=
  IntVect_eqb (loVect a) (loVect b) && IntVect_eqb (hiVect a) (hiVect b).

(** [BoxIteratorImpl(const Box&, const T&)]: starts at the given cell. *)
Definition BoxIterator_at (a_box : Box) (a_iv : IntVect) : BoxIterator :=
  MkBoxIterator a_iv a_box.

(** [operator=(const T&)] *)
Definition BoxIterator_assign (it : BoxIterator) (a_iv : IntVect) : BoxIterator :=
  MkBoxIterator a_iv (bit_box it).

(** [operator+=(const difference_type&)] *)
Definition BoxIterator_advance (it : BoxIterator) (a_deltaiv : IntVect) : BoxIterator :=
  MkBoxIterator (IntVect_add (bit_current it) a_deltaiv) (bit_box it).

(** [operator==(const T&)] and [operator!=(const T&)] *)
Definition BoxIterator_eqCell (it : BoxIterator) (a_iv : IntVect) : bool :=
  IntVect_eqb (bit_current it) a_iv.
Definition BoxIterator_neCell (it : BoxIterator) (a_iv : IntVect) : bool :=
  IntVect_neb (bit_current it) a_iv.

(** [operator!=(const Self&)], with its assertion that both iterators
    are built on the same box. *)
Definition BoxIterator_ne (it a_iter : BoxIterator) : Outcome bool :=
  let* _ := CH_assert AssertionFailed (Box_eqb (bit_box it) (bit_box a_iter)) in
  inr (IntVect_neb (bit_current it) (bit_current a_iter)).

(** [for (; cond(s); s = next(s)) body(s);] with a condition that can
    fail an assertion, as the list of the states at which the body runs. *)
Fixpoint loop_visitM {S : Type} (cond : S -> Outcome bool) (next : S -> Outcome S)
  (fuel : nat) (s : S) : Outcome (list S) :=
  let* c := cond s in
  if c then
    match fuel with
    | O => inl OutOfFuel
    | Datatypes.S fuel' =>
        let* s' := next s in
        let* rest := loop_visitM cond next fuel' s' in
        inr (s :: rest)
    end
  else inr [].

(** The cell at which a BoxIterator on [b] stands when [ok()] first
    fails: the lower corner, one layer above the box in the last
    direction. *)
Definition Box_endCell (b : Box) : IntVect :=
  IV (iv0 (loVect b)) (iv1 (loVect b)) (iv2 (hiVect b) + 1).

(** The cells seen by [for (it = BoxIterator(b); it != end; ++it)] for
    an [end] built with the two-argument constructor. *)
Definition BoxIterator_visitUntil (b : Box) (a_end : BoxIterator) : Outcome (list IntVect) :=
  let* its :=
    loop_visitM (fun it => BoxIterator_ne it a_end)
      (fun it => inr (BoxIterator_incr it)) (Box_fuel b) (BoxIterator_begin b) in
  inr (map BoxIterator_deref its).

(* ===================================================================== *)
(** * LayoutIterator.H: the remaining members *)
(* ===================================================================== *)

(** [operator--] (prefix) *)
Definition LayoutIterator_decr (it : LayoutIterator) : LayoutIterator :=
  MkLayoutIterator (lit_disjointBoxLayout it) (lit_current it - 1) (lit_size it).

(** [operator+=(const difference_type&)] *)
Definition LayoutIterator_advance (it : LayoutIterator) (a_delta : Z) : LayoutIterator :=
  MkLayoutIterator (lit_disjointBoxLayout it) (lit_current it + a_delta) (lit_size it).

(** [operator-=(const difference_type&)] *)
Definition LayoutIterator_retreat (it : LayoutIterator) (a_delta : Z) : LayoutIterator :=
  MkLayoutIterator (lit_disjointBoxLayout it) (lit_current it - a_delta) (lit_size it).

(** [DataIterator::reset()] *)
Definition DataIterator_reset (it : LayoutIterator) : LayoutIterator :=
  MkLayoutIterator (lit_disjointBoxLayout it)
    (DBL_localIdxBegin (lit_disjointBoxLayout it)) (lit_size it).

(* ===================================================================== *)
(** * DisjointBoxLayout.cpp: default construction and deep copy *)
(* ===================================================================== *)






(* ===================================================================== *)
(** * Copier.H: binomial and the predicted number of motion items *)
(* ===================================================================== *)

(** The variables of [Copier::binomial] that its loop changes. *)
Record BinomialState : Type := MkBinomialState {
  bs_k : Z;
  bs_cnum : Z;
  bs_cden : Z
}.

(** [Copier::binomial], for [n] and [k] in the range of [int].  The
    state of [while (--k)] is taken after the decrement of [k], which
    the condition then tests.  The two products are the ones that leave
    the range of [int] for arguments of moderate size, so their
    wrap-around is written out; a denominator that has wrapped to 0 ends
    the call in the division. *)
Definition Copier_binomial (n k : Z) : Outcome Z :=
  let* _ := CH_assert AssertionFailed (0 <=? k) in
  let* _ := CH_assert AssertionFailed (k <=? n) in
  if k =? 0 then inr 1
  else
    let cnum := n - k + 1 in
    let cden := k in
    let* st :=
      loop_while
        (fun st => negb (bs_k st =? 0))
        (fun st =>
           MkBinomialState (bs_k st - 1)
             (Int_wrap (bs_cnum st * (n - bs_k st + 1)))
             (Int_wrap (bs_cden st * bs_k st)))
        (Z.to_nat k) (MkBinomialState (k - 1) cnum cden) in
    let* _ := Outcome_unless DivideByZero (negb (bs_cden st =? 0)) in
    inr (Int_wrap (bs_cnum st ÷ bs_cden st)).


(** [Copier::defineExchangeLD<S>], with [sizeof(T)] for the value type
    of [S] taken from the build. *)
Definition Copier_defineExchangeLD (cfg : BuildConfig) (a_lvlData : LevelData)
  (a_periodic a_trim : Z) : Outcome Copier :=
  Copier_defineExchangeDBL cfg (ld_disjointBoxLayout a_lvlData) (ld_nghost a_lvlData)
    0 (ld_ncomp a_lvlData) a_periodic a_trim.

(** The factorial of [n]. *)
Fixpoint factorial (n : nat) : Z :=
  match n with
  | O => 1
  | Datatypes.S n' => Z.of_nat n * factorial n'
  end.

(** The product [n * (n - 1) * ... * (n - j + 1)] of [j] factors. *)
Fixpoint falling (n : Z) (j : nat) : Z :=
  match j with
  | O => 1
  | Datatypes.S j' => (n - Z.of_nat j') * falling n j'
  end.

(** The binomial coefficients by the rule of Pascal's triangle. *)
Fixpoint Pascal (n k : nat) : Z :=
  match n, k with
  | _, O => 1
  | O, Datatypes.S _ => 0
  | Datatypes.S n', Datatypes.S k' => Pascal n' k' + Pascal n' k
  end.

(** The motion item of the box at the lattice position [w] for the
    direction [d], written from the geometry of the lattice: the remote
    box is the one at [w + d] wrapped into the lattice, and its image
    next to the local box is the box that the lattice would have at
    [w + d]. *)
Definition Plan_item (cfg : BuildConfig) (bytesPerCell : Z) (dbl : DisjointBoxLayout)
  (a_maxBoxSize : IntVect) (a_numGhost : Z) (w d : IntVect) : Motion2Way :=
  let N := m_numBox dbl in
  let w' := Lattice_wrap N (IntVect_add w d) in
  let localBox := Lattice_box (m_domain dbl) a_maxBoxSize w in
  let image := Lattice_box (m_domain dbl) a_maxBoxSize (IntVect_add w d) in
  let regionRecv := Box_intersect (Box_grow localBox a_numGhost) image in
  let regionSend :=
    if USE_MPI cfg then Box_intersect localBox (Box_grow image a_numGhost)
    else Box_default in
  let back := IntVect_mul a_maxBoxSize (IntVect_sub w' (IntVect_add w d)) in
  Motion2Way_new bytesPerCell dbl
    (MkBoxIndex (Lattice_linear N w) (Lattice_linear N w - m_localIdxBeg dbl))
    (MkBoxIndex (Lattice_linear N w') (Lattice_linear N w' - m_localIdxBeg dbl))
    regionRecv regionSend (Box_shift regionRecv back) d.


(** The row of four unit boxes of [example_row] as process 1 sees it. *)
Definition example_row_peer : DisjointBoxLayout :=
  Eval vm_compute in
    match DBL_define (MkProcEnv 2 1) (MkBox (IV 0 0 0) (IV 3 0 0)) (IV 1 1 1) with
    | inr dbl => dbl
    | inl _ => MkDBL (MkProcEnv 2 1) Box_default IntVect_Zero IntVect_Zero 0 [] 0 0
    end.

(* ===================================================================== *)
(** * LevelData.H: construction *)
(* ===================================================================== *)

(** BaseFab.H is not among the sources: of a BaseFab of [m_data] only the
    box and the number of components it was defined with are kept;
    [None] is a BaseFab that was default constructed. *)
Definition FabShape : Type := option (Box * Z).

(** The operations of [std::vector] that the constructors use.  Each
    returns [None] where the source leaves the defined behaviour of the
    vector: a negative size, an index outside of the vector. *)
Definition Vector_new {A : Type} (n : Z) (x : A) : option (list A) :=
  if 0 <=? n then Some (replicate (Z.to_nat n) x) else None.

Definition Vector_resize {A : Type} (n : Z) (x : A) (v : list A) : option (list A) :=
  if 0 <=? n then Some (resize (Z.to_nat n) x v) else None.

Definition Vector_set {A : Type} (v : list A) (i : Z) (x : A) : option (list A) :=
  if (0 <=? i) && (i <? Z.of_nat (length v)) then Some (<[Z.to_nat i := x]> v) else None.

(** The position of the DataIterator over [dbl] after [k] increments. *)
Definition DataIterator_position (dbl : DisjointBoxLayout) (k : nat) : LayoutIterator :=
  MkLayoutIterator dbl (m_localIdxBeg dbl + Z.of_nat k)
    (m_localIdxBeg dbl + m_numLocalBox dbl).

(** The BaseFab that the constructors define for the local box [k]: on
    the box of the layout grown by the ghost width. *)
Definition LevelData_fabShape (dbl : DisjointBoxLayout) (a_ncomp a_nghost : Z) (k : nat)
  : FabShape :=
  Some (Box_grow (DBL_box dbl (DBL_dataIndex dbl (Z.of_nat k))) a_nghost, a_ncomp).

(** [LevelData::size] *)
Definition LevelData_size (ld : LevelData) : Z := DBL_localSize (ld_disjointBoxLayout ld).

(** The loop of the constructor, over the positions of the DataIterator. *)
Fixpoint LevelData_newLoop (a_dbl : DisjointBoxLayout) (a_ncomp a_nghost : Z)
  (dits : list LayoutIterator) (m_data : list FabShape) : option (list FabShape) :=
  match dits with
  | [] => Some m_data
  | dit :: dits' =>
      let tempBox := DBL_boxAt a_dbl dit in
      match Vector_set m_data (localIndex (LayoutIterator_deref dit))
              (Some (Box_grow tempBox a_nghost, a_ncomp)) with
      | Some m_data => LevelData_newLoop a_dbl a_ncomp a_nghost dits' m_data
      | None => None
      end
  end.

(** [LevelData(a_dbl, a_ncomp, a_nghost)]: the LevelData and its
    [m_data]. *)
Definition LevelData_new (a_dbl : DisjointBoxLayout) (a_ncomp a_nghost : Z)
  : Outcome (option (LevelData * list FabShape)) :=
  match Vector_new (DBL_localSize a_dbl) None with
  | Some m_data =>
      let* dits := DataIterator_visit a_dbl in
      inr (option_map (pair (MkLevelData a_dbl a_ncomp a_nghost))
             (LevelData_newLoop a_dbl a_ncomp a_nghost dits m_data))
  | None => inr None
  end.

(** [LevelData::operator[](const LayoutIterator&)], as the index into
    [m_data].  The tags are the addresses of the arrays of boxes, which
    are not modelled; the assertion on them is left out. *)
Definition LevelData_atIter (ld : LevelData) (a_lit : LayoutIterator) : Outcome Z :=
  let bidx := LayoutIterator_deref a_lit in
  let dbl := ld_disjointBoxLayout ld in
  let* _ := CH_assert AssertionFailed (localIndex bidx <? DBL_localSize dbl) in
  let* _ := CH_assert AssertionFailed
              ((DBL_localIdxBegin dbl <=? globalIndex bidx)
               && (globalIndex bidx <? DBL_localIdxEnd dbl)) in
  inr (localIndex bidx).

(** The loop of [define]. *)
Fixpoint LevelData_defineLoop (ld : LevelData) (a_ncomp a_nghost : Z)
  (dits : list LayoutIterator) (m_data : list FabShape) : Outcome (option (list FabShape)) :=
  match dits with
  | [] => inr (Some m_data)
  | dit :: dits' =>
      let box := DBL_boxAt (ld_disjointBoxLayout ld) dit in
      let box := Box_grow box a_nghost in
      let* i := LevelData_atIter ld dit in
      match Vector_set m_data i (Some (box, a_ncomp)) with
      | Some m_data => LevelData_defineLoop ld a_ncomp a_nghost dits' m_data
      | None => inr None
      end
  end.

(** [LevelData::define] on a LevelData whose [m_data] is [m_data]. *)
Definition LevelData_define (m_data : list FabShape) (a_dbl : DisjointBoxLayout)
  (a_ncomp a_nghost : Z) : Outcome (option (LevelData * list FabShape)) :=
  let ld := MkLevelData a_dbl a_ncomp a_nghost in
  match Vector_resize (LevelData_size ld) None m_data with
  | Some m_data =>
      let* dits := DataIterator_visit (ld_disjointBoxLayout ld) in
      let* m_data := LevelData_defineLoop ld a_ncomp a_nghost dits m_data in
      inr (option_map (pair ld) m_data)
  | None => inr None
  end.

(** [LevelData::getLinear], as the shape of the BaseFab; [None] for an
    index outside of [m_data]. *)
Definition LevelData_getLinear (ld : LevelData) (m_data : list FabShape) (a_idx : Z)
  : Outcome (option FabShape) :=
  let* _ := CH_assert AssertionFailed ((0 <=? a_idx) && (a_idx <? LevelData_size ld)) in
  inr (m_data !! Z.to_nat a_idx).

(* ===================================================================== *)
(** * Notions used in the statements on LevelData::exchange *)
(* ===================================================================== *)

(** The number of the motion items before place [j] in the plan that
    are not local. *)
Definition Copier_remoteBefore (c : Copier) (j : nat) : Z :=
  Z.of_nat (length (filter (fun m => Motion2Way_isLocal m = false)
                      (take j (m_motionItem c)))).

(** [op] is one of the calls that the loop over the motion items makes
    for the motion item [m] at place [j] of the plan: the local copy for
    an item that is local; the packing of the send buffer and the posting
    of the two messages, with the next two requests, for one that is
    not. *)
Definition Exchange_sent (c : Copier) (j : nat) (m : Motion2Way) (op : ExchangeOp) : Prop :=
  (Motion2Way_isLocal m = true
   /\ op = FabCopy (localIndex (Motion2Way_bidxRecv m)) (Motion2Way_regionRecv m)
             (Copier_startComp c)
             (localIndex (Motion2Way_bidxSend m)) (Motion2Way_regionSend m)
             (Copier_startComp c) (Copier_numComp c) (m_compRecvFlags m))
  \/ (Motion2Way_isLocal m = false
      /\ (op = FabLinearOut (localIndex (m_bidxLocal m)) (Z.of_nat j) (m_sendBuffer m)
                 (m_regionSend m) (Copier_startComp c) (Copier_endComp c)
          \/ op = PostMessages (Z.of_nat j) (2 * Copier_remoteBefore c j)
                    (2 * Copier_remoteBefore c j + 1))).

(** The unpacking of the receive buffer of the motion item at place
    [midx] of the plan. *)
Definition Exchange_unpackAt (c : Copier) (midx : Z) : list ExchangeOp :=
  match m_motionItem c !! Z.to_nat midx with
  | Some m =>
      [FabLinearIn (localIndex (m_bidxLocal m)) midx (m_recvBuffer m) (m_regionRecv m)
         (Copier_startComp c) (Copier_endComp c)]
  | None => []
  end.
(* ===================================================================== *)
(** * Facts about IntVect and Box *)
(* ===================================================================== *)

Lemma IntVect_eta (v : IntVect) : v = IV (iv0 v) (iv1 v) (iv2 v).
Proof. by destruct v. Qed.

Lemma IntVect_get_0 (v : IntVect) : IntVect_get v 0 = iv0 v.
Proof. done. Qed.
Lemma IntVect_get_1 (v : IntVect) : IntVect_get v 1 = iv1 v.
Proof. done. Qed.
Lemma IntVect_get_2 (v : IntVect) : IntVect_get v 2 = iv2 v.
Proof. done. Qed.
Lemma IntVect_set_0 (v : IntVect) (x : Z) : IntVect_set v 0 x = IV x (iv1 v) (iv2 v).
Proof. done. Qed.
Lemma IntVect_set_1 (v : IntVect) (x : Z) : IntVect_set v 1 x = IV (iv0 v) x (iv2 v).
Proof. done. Qed.
Lemma IntVect_set_2 (v : IntVect) (x : Z) : IntVect_set v 2 x = IV (iv0 v) (iv1 v) x.
Proof. done. Qed.

(** Rewriting of the accesses to the components at fixed directions. *)
Ltac iv_simpl :=
  change (g_SpaceDim - 1) with 2 in *;
  rewrite ?IntVect_get_0, ?IntVect_get_1, ?IntVect_get_2,
          ?IntVect_set_0, ?IntVect_set_1, ?IntVect_set_2 in *;
  cbn [iv0 iv1 iv2 loVect hiVect] in *.

Lemma IntVect_leb_spec (x y : IntVect) :
  IntVect_leb x y = true <-> iv0 x <= iv0 y /\ iv1 x <= iv1 y /\ iv2 x <= iv2 y.
Proof. unfold IntVect_leb. rewrite !andb_true_iff, !Z.leb_le. tauto. Qed.

Lemma Box_contains_spec (b : Box) (c : IntVect) :
  Box_contains b c = true <->
  iv0 (loVect b) <= iv0 c <= iv0 (hiVect b) /\
  iv1 (loVect b) <= iv1 c <= iv1 (hiVect b) /\
  iv2 (loVect b) <= iv2 c <= iv2 (hiVect b).
Proof.
  unfold Box_contains. rewrite andb_true_iff, !IntVect_leb_spec. tauto.
Qed.

Lemma Box_contains_false (b : Box) (c : IntVect) :
  Box_contains b c = false <->
  ~ (iv0 (loVect b) <= iv0 c <= iv0 (hiVect b) /\
     iv1 (loVect b) <= iv1 c <= iv1 (hiVect b) /\
     iv2 (loVect b) <= iv2 c <= iv2 (hiVect b)).
Proof. rewrite <- Box_contains_spec. by destruct (Box_contains b c). Qed.

Lemma Box_isEmpty_false (b : Box) :
  Box_isEmpty b = false <->
  iv0 (loVect b) <= iv0 (hiVect b) /\
  iv1 (loVect b) <= iv1 (hiVect b) /\
  iv2 (loVect b) <= iv2 (hiVect b).
Proof.
  unfold Box_isEmpty. rewrite negb_false_iff. apply IntVect_leb_spec.
Qed.

Lemma Box_size_eq (b : Box) :
  Box_size b =
  (iv0 (hiVect b) - iv0 (loVect b) + 1)
  * (iv1 (hiVect b) - iv1 (loVect b) + 1)
  * (iv2 (hiVect b) - iv2 (loVect b) + 1).
Proof. unfold Box_size, IntVect_product, Box_dimensions; simpl. ring. Qed.

(* ===================================================================== *)
(** * Facts about the loops *)
(* ===================================================================== *)

Lemma iterate_succ_r {S : Type} (n : nat) (step : S -> S) (s : S) :
  iterate (Datatypes.S n) step s = step (iterate n step s).
Proof. revert s. induction n as [|n IH]; intros s; [done|]. simpl in *. by rewrite IH. Qed.

(** A [for] loop whose step cannot fail runs its body at the first [n]
    iterates, when the [n]-th one is the first to fail the test. *)
Lemma loop_visit_total {S : Type} (ok : S -> bool) (next : S -> S) (n fuel : nat) (s : S) :
  (forall k, (k < n)%nat -> ok (iterate k next s) = true) ->
  ok (iterate n next s) = false ->
  (n <= fuel)%nat ->
  loop_visit ok (fun s => inr (next s)) fuel s
  = inr (map (fun k => iterate k next s) (seq 0 n)).
Proof.
  revert fuel s. induction n as [|n IH]; intros fuel s Hok Hend Hfuel.
  - simpl in Hend. destruct fuel; simpl; by rewrite Hend.
  - destruct fuel as [|fuel]; [lia|].
    pose proof (Hok 0%nat ltac:(lia)) as H0. simpl in H0.
    simpl. rewrite H0. simpl.
    rewrite (IH fuel (next s)); [| |done|lia].
    + simpl. f_equal. f_equal. rewrite <- seq_shift, map_map. done.
    + intros k Hk. apply (Hok (Datatypes.S k)). lia.
Qed.

(** A [while] loop stops at the first iterate that fails the test. *)
Lemma loop_while_total {S : Type} (cond : S -> bool) (step : S -> S) (n fuel : nat) (s : S) :
  (forall k, (k < n)%nat -> cond (iterate k step s) = true) ->
  cond (iterate n step s) = false ->
  (n <= fuel)%nat ->
  loop_while cond step fuel s = inr (iterate n step s).
Proof.
  revert fuel s. induction n as [|n IH]; intros fuel s Hok Hend Hfuel.
  - simpl in Hend. destruct fuel; simpl; by rewrite Hend.
  - destruct fuel as [|fuel]; [lia|].
    pose proof (Hok 0%nat ltac:(lia)) as H0. simpl in H0.
    simpl. rewrite H0.
    apply IH; [|done|lia].
    intros k Hk. apply (Hok (Datatypes.S k)). lia.
Qed.

(* ===================================================================== *)
(** * BoxIterator: the order of the visits *)
(* ===================================================================== *)

Lemma Box_fortranIndex_bounds (b : Box) (c : IntVect) :
  Box_contains b c = true -> 0 <= Box_fortranIndex b c < Box_size b.
Proof.
  rewrite Box_contains_spec, Box_size_eq. unfold Box_fortranIndex, Box_dimensions.
  destruct b as [[l0 l1 l2] [h0 h1 h2]], c as [c0 c1 c2]; simpl.
  intros (H0 & H1 & H2).
  assert (0 <= (c1 - l1) + (h1 - l1 + 1) * (c2 - l2) < (h1 - l1 + 1) * (h2 - l2 + 1)) by nia.
  nia.
Qed.

(** Uniqueness of the digits of a mixed-radix number. *)
Lemma radix_unique (d a a' x x' : Z) :
  0 <= a < d -> 0 <= a' < d -> a + d * x = a' + d * x' -> a = a' /\ x = x'.
Proof.
  intros Ha Ha' E.
  assert (x = x') as ->; [|lia].
  destruct (Z.lt_trichotomy x x') as [Hlt|[Heq|Hgt]]; [|done|].
  - assert (d * x + d <= d * x') by nia. lia.
  - assert (d * x' + d <= d * x) by nia. lia.
Qed.

Lemma Box_fortranIndex_inj (b : Box) (c c' : IntVect) :
  Box_contains b c = true -> Box_contains b c' = true ->
  Box_fortranIndex b c = Box_fortranIndex b c' -> c = c'.
Proof.
  rewrite !Box_contains_spec. unfold Box_fortranIndex, Box_dimensions.
  destruct b as [[l0 l1 l2] [h0 h1 h2]], c as [c0 c1 c2], c' as [d0 d1 d2]; simpl.
  intros (H0 & H1 & H2) (G0 & G1 & G2) E.
  apply radix_unique in E as [E0 E]; [|lia|lia].
  apply radix_unique in E as [E1 E2]; [|lia|lia].
  f_equal; lia.
Qed.

(** [operator++] with the accesses to the components worked out. *)
Lemma BoxIterator_incr_eq (c0 c1 c2 : Z) (b : Box) :
  BoxIterator_incr (MkBoxIterator (IV c0 c1 c2) b)
  = MkBoxIterator
      (if c0 + 1 >? iv0 (hiVect b) then
         if c1 + 1 >? iv1 (hiVect b)
         then IV (iv0 (loVect b)) (iv1 (loVect b)) (c2 + 1)
         else IV (iv0 (loVect b)) (c1 + 1) c2
       else
         if c1 >? iv1 (hiVect b)
         then IV (c0 + 1) (iv1 (loVect b)) (c2 + 1)
         else IV (c0 + 1) c1 c2)
      b.
Proof.
  unfold BoxIterator_incr, IntVect_get, IntVect_set; simpl.
  destruct (c0 + 1 >? iv0 (hiVect b)); simpl.
  - by destruct (c1 + 1 >? iv1 (hiVect b)).
  - by destruct (c1 >? iv1 (hiVect b)).
Qed.

(** One increment inside the box moves to the cell with the next Fortran
    index, or leaves the box from its last cell. *)
Lemma BoxIterator_incr_step (b : Box) (c : IntVect) :
  Box_contains b c = true ->
  let it' := BoxIterator_incr (MkBoxIterator c b) in
  bit_box it' = b /\
  (Box_fortranIndex b c + 1 < Box_size b ->
     BoxIterator_ok it' = true /\
     Box_fortranIndex b (bit_current it') = Box_fortranIndex b c + 1) /\
  (Box_size b <= Box_fortranIndex b c + 1 -> BoxIterator_ok it' = false).
Proof.
  intros Hc. pose proof (Box_fortranIndex_bounds b c Hc) as Hb.
  revert Hc Hb. rewrite Box_contains_spec, Box_size_eq.
  destruct c as [c0 c1 c2]. rewrite BoxIterator_incr_eq.
  unfold BoxIterator_ok, Box_fortranIndex, Box_dimensions.
  destruct b as [[l0 l1 l2] [h0 h1 h2]]; simpl.
  intros (H0 & H1 & H2) Hb.
  split; [done|].
  destruct (Z.gtb_spec (c0 + 1) h0) as [G0|G0]; simpl.
  - destruct (Z.gtb_spec (c1 + 1) h1) as [G1|G1]; simpl.
    + assert (c0 = h0) as -> by lia. assert (c1 = h1) as -> by lia.
      split.
      * intros Hlt. rewrite Box_contains_spec; simpl. split; [|ring].
        assert (c2 < h2); [|lia].
        replace (h0 - l0 + (h0 - l0 + 1) * (h1 - l1 + (h1 - l1 + 1) * (c2 - l2)) + 1)
          with ((h0 - l0 + 1) * (h1 - l1 + 1) * (c2 - l2 + 1)) in Hlt by ring.
        apply Z.mul_lt_mono_pos_l in Hlt; [lia|nia].
      * intros Hge. apply Box_contains_false; simpl.
        assert (c2 = h2); [|lia].
        replace (h0 - l0 + (h0 - l0 + 1) * (h1 - l1 + (h1 - l1 + 1) * (c2 - l2)) + 1)
          with ((h0 - l0 + 1) * (h1 - l1 + 1) * (c2 - l2 + 1)) in Hge by ring.
        apply Z.mul_le_mono_pos_l in Hge; [lia|nia].
    + assert (c0 = h0) as -> by lia.
      split.
      * intros Hlt. rewrite Box_contains_spec; simpl. split; [lia|ring].
      * intros Hge. exfalso.
        assert ((c1 + 1 - l1) + (h1 - l1 + 1) * (c2 - l2) < (h1 - l1 + 1) * (h2 - l2 + 1)) by nia.
        nia.
  - destruct (Z.gtb_spec c1 h1) as [G1|G1]; simpl; [lia|].
    split.
    + intros Hlt. rewrite Box_contains_spec; simpl. split; [lia|ring].
    + intros Hge. exfalso.
      assert (0 <= (c1 - l1) + (h1 - l1 + 1) * (c2 - l2) < (h1 - l1 + 1) * (h2 - l2 + 1)) by nia.
      nia.
Qed.

Lemma Box_size_pos (b : Box) : Box_isEmpty b = false -> 0 < Box_size b.
Proof.
  rewrite Box_isEmpty_false, Box_size_eq. intros (H0 & H1 & H2).
  repeat apply Z.mul_pos_pos; lia.
Qed.

Lemma BoxIterator_after_succ (b : Box) (n : nat) :
  BoxIterator_after b (S n) = BoxIterator_incr (BoxIterator_after b n).
Proof. apply iterate_succ_r. Qed.

Lemma BoxIterator_after_spec (b : Box) (n : nat) :
  Box_isEmpty b = false ->
  Z.of_nat n < Box_size b ->
  bit_box (BoxIterator_after b n) = b
  /\ BoxIterator_ok (BoxIterator_after b n) = true
  /\ Box_fortranIndex b (bit_current (BoxIterator_after b n)) = Z.of_nat n.
Proof.
  intros Hne. induction n as [|n IH]; intros Hn.
  - unfold BoxIterator_after, BoxIterator_ok; simpl.
    apply Box_isEmpty_false in Hne.
    split; [done|]. split.
    + apply Box_contains_spec. lia.
    + unfold Box_fortranIndex. lia.
  - destruct IH as (Hbox & Hok & Hidx); [lia|].
    rewrite BoxIterator_after_succ.
    destruct (BoxIterator_after b n) as [c b'] eqn:E. simpl in Hbox; subst b'.
    unfold BoxIterator_ok in Hok; simpl in Hok, Hidx.
    destruct (BoxIterator_incr_step b c Hok) as (Hb & Hlt & _).
    split; [done|]. destruct Hlt as [Hok' Hidx']; [lia|].
    split; [done|]. lia.
Qed.

Lemma BoxIterator_after_end (b : Box) :
  BoxIterator_ok (BoxIterator_after b (Box_count b)) = false.
Proof.
  unfold Box_count. destruct (Box_isEmpty b) eqn:Hne.
  - unfold BoxIterator_after, BoxIterator_ok; simpl.
    unfold Box_isEmpty in Hne. unfold Box_contains.
    apply negb_true_iff in Hne. rewrite Hne. by rewrite andb_false_r.
  - pose proof (Box_size_pos b Hne) as Hpos.
    destruct (Z.to_nat (Box_size b)) as [|n] eqn:En; [lia|].
    destruct (BoxIterator_after_spec b n Hne) as (Hbox & Hok & Hidx); [lia|].
    rewrite BoxIterator_after_succ.
    destruct (BoxIterator_after b n) as [c b'] eqn:E. simpl in Hbox; subst b'.
    unfold BoxIterator_ok in Hok; simpl in Hok, Hidx.
    destruct (BoxIterator_incr_step b c Hok) as (_ & _ & Hge).
    apply Hge. lia.
Qed.

Lemma BoxIterator_after_ok (b : Box) (n : nat) :
  (n < Box_count b)%nat -> BoxIterator_ok (BoxIterator_after b n) = true.
Proof.
  unfold Box_count. destruct (Box_isEmpty b) eqn:Hne; [lia|]. intros Hn.
  apply BoxIterator_after_spec; [done|lia].
Qed.

Lemma BoxIterator_after_box (b : Box) (n : nat) :
  bit_box (BoxIterator_after b n) = b.
Proof.
  induction n as [|n IH]; [done|].
  rewrite BoxIterator_after_succ. unfold BoxIterator_incr. done.
Qed.

Lemma Box_count_fuel (b : Box) : (Box_count b <= Box_fuel b)%nat.
Proof. unfold Box_count, Box_fuel. destruct (Box_isEmpty b); lia. Qed.

Lemma Box_cells_length (b : Box) : length (Box_cells b) = Box_count b.
Proof. unfold Box_cells. by rewrite length_map, length_seq. Qed.

Lemma Box_cells_lookup (b : Box) (n : nat) (c : IntVect) :
  Box_cells b !! n = Some c <->
  Box_contains b c = true /\ Box_isEmpty b = false
  /\ Box_fortranIndex b c = Z.of_nat n.
Proof.
  unfold Box_cells. rewrite list_lookup_fmap. split.
  - intros H. destruct (seq 0 (Box_count b) !! n) as [k|] eqn:Hk; [|done].
    simpl in H. injection H as <-.
    apply lookup_seq in Hk as [-> Hlt]. simpl in *.
    unfold Box_count in Hlt. destruct (Box_isEmpty b) eqn:Hne; [lia|].
    destruct (BoxIterator_after_spec b n Hne) as (Hbox & Hok & Hidx); [lia|].
    unfold BoxIterator_ok in Hok. rewrite Hbox in Hok. done.
  - intros (Hc & Hne & Hidx).
    pose proof (Box_fortranIndex_bounds b c Hc) as Hb.
    assert (n < Box_count b)%nat as Hlt.
    { unfold Box_count. rewrite Hne. lia. }
    rewrite (lookup_seq_lt _ _ _ Hlt). simpl. f_equal.
    destruct (BoxIterator_after_spec b n Hne) as (Hbox & Hok & Hidx'); [lia|].
    unfold BoxIterator_ok in Hok. rewrite Hbox in Hok.
    apply (Box_fortranIndex_inj b); [done|done|lia].
Qed.

Lemma Box_contains_nonempty (b : Box) (c : IntVect) :
  Box_contains b c = true -> Box_isEmpty b = false.
Proof. rewrite Box_contains_spec, Box_isEmpty_false. lia. Qed.

Lemma Box_cells_elem (b : Box) (c : IntVect) :
  c ∈ Box_cells b <-> Box_contains b c = true.
Proof.
  rewrite list_elem_of_lookup. split.
  - intros [n Hn]. by apply Box_cells_lookup in Hn as (? & _).
  - intros Hc. pose proof (Box_fortranIndex_bounds b c Hc) as Hb.
    exists (Z.to_nat (Box_fortranIndex b c)). apply Box_cells_lookup.
    split; [done|]. split; [by eapply Box_contains_nonempty|lia].
Qed.

Lemma Box_cells_NoDup (b : Box) : NoDup (Box_cells b).
Proof.
  apply NoDup_alt. intros i j c Hi Hj.
  apply Box_cells_lookup in Hi as (_ & _ & Hi).
  apply Box_cells_lookup in Hj as (_ & _ & Hj). lia.
Qed.

Lemma chain_iterate {S : Type} (step : S -> S) (n : nat) (s : S) :
  chain step (map (fun k => iterate k step s) (seq 0 n)) s (iterate n step s).
Proof.
  revert s. induction n as [|n IH]; intros s; [done|].
  simpl. split; [done|].
  rewrite <- seq_shift, map_map. apply IH.
Qed.

(** The run of a BoxIterator over [b], as a chain of its states. *)
Lemma BoxIterator_chain (b : Box) :
  let its := map (BoxIterator_after b) (seq 0 (Box_count b)) in
  chain BoxIterator_incr its (BoxIterator_begin b) (BoxIterator_after b (Box_count b))
  /\ Forall (fun it => BoxIterator_ok it = true) its
  /\ map bit_current its = Box_cells b
  /\ Forall (fun it => bit_box it = b) its.
Proof.
  simpl. split; [apply chain_iterate|]. split; [|split].
  - apply Forall_forall. intros it Hit.
    apply in_map_iff in Hit as (k & <- & Hk).
    apply in_seq in Hk. apply BoxIterator_after_ok. lia.
  - unfold Box_cells. by rewrite map_map.
  - apply Forall_forall. intros it Hit.
    apply in_map_iff in Hit as (k & <- & Hk).
    apply BoxIterator_after_box.
Qed.

Lemma BoxIterator_visit_cells (b : Box) (fuel : nat) :
  (Box_count b <= fuel)%nat ->
  BoxIterator_visit fuel (BoxIterator_begin b) = inr (Box_cells b).
Proof.
  intros Hfuel. unfold BoxIterator_visit.
  rewrite (loop_visit_total _ _ (Box_count b)); [| |apply BoxIterator_after_end|done].
  - simpl. unfold Box_cells. by rewrite map_map.
  - intros k Hk. by apply BoxIterator_after_ok.
Qed.

(** C10.  On a box that is not empty, a BoxIterator starts at the lower
    corner; the loop [for (bit(b); bit.ok(); ++bit)] ends and visits
    [size(b)] cells; the cell visited at step [n] is the cell of [b] whose
    Fortran-order index (component 0 fastest) is [n], so every cell of
    [b] is visited exactly once; and [ok()] holds after fewer than
    [size(b)] increments and fails after exactly [size(b)] of them. *)
Theorem BoxIterator_visits_box_in_fortran_order (b : Box) :
  Box_isEmpty b = false ->
  bit_current (BoxIterator_begin b) = loVect b
  /\ (exists cells,
        BoxIterator_visit (Box_fuel b) (BoxIterator_begin b) = inr cells
        /\ Z.of_nat (length cells) = Box_size b
        /\ NoDup cells
        /\ (forall c, c ∈ cells <-> Box_contains b c = true)
        /\ (forall n c, cells !! n = Some c <->
                        Box_contains b c = true
                        /\ Box_fortranIndex b c = Z.of_nat n))
  /\ (forall n, Z.of_nat n < Box_size b ->
                BoxIterator_ok (BoxIterator_after b n) = true)
  /\ BoxIterator_ok (BoxIterator_after b (Z.to_nat (Box_size b))) = false.
Proof.
  intros Hne.
  assert (Box_count b = Z.to_nat (Box_size b)) as Hcount.
  { unfold Box_count. by rewrite Hne. }
  pose proof (Box_size_pos b Hne) as Hpos.
  split; [done|]. split; [|split].
  - exists (Box_cells b). split; [apply BoxIterator_visit_cells, Box_count_fuel|].
    split; [rewrite Box_cells_length; lia|].
    split; [apply Box_cells_NoDup|].
    split; [apply Box_cells_elem|].
    intros n c. rewrite Box_cells_lookup. tauto.
  - intros n Hn. apply BoxIterator_after_ok. lia.
  - rewrite <- Hcount. apply BoxIterator_after_end.
Qed.

(** The theorem at the box from (0,0,0) to (1,2,1). *)
Lemma BoxIterator_visits_box_in_fortran_order_witness :
  Box_isEmpty (MkBox (IV 0 0 0) (IV 1 2 1)) = false
  /\ BoxIterator_ok (BoxIterator_after (MkBox (IV 0 0 0) (IV 1 2 1)) 12) = false.
Proof.
  split; [reflexivity|].
  apply (BoxIterator_visits_box_in_fortran_order (MkBox (IV 0 0 0) (IV 1 2 1))).
  reflexivity.
Defined.

(* ===================================================================== *)
(** * DisjointBoxLayout::define *)
(* ===================================================================== *)

Lemma quot_mul_eq (a b : Z) : a ÷ b * b = a <-> Z.rem a b = 0.
Proof. pose proof (Z.quot_rem' a b). lia. Qed.

Lemma IntVect_eqb_eq (x y : IntVect) : IntVect_eqb x y = true <-> x = y.
Proof.
  unfold IntVect_eqb. rewrite !andb_true_iff, !Z.eqb_eq.
  destruct x, y; simpl. split; [intros [[-> ->] ->]; done|]. by intros [= -> -> ->].
Qed.

(** The first assertion of [define] passes exactly when the dimensions
    of the domain are multiples of the box size. *)
Lemma define_fits_domain (a_domain : Box) (a_maxBoxSize : IntVect) :
  let domainSize :=
    IntVect_add (IntVect_sub (hiVect a_domain) (loVect a_domain)) IntVect_Unit in
  IntVect_eqb (IntVect_mul (IntVect_div domainSize a_maxBoxSize) a_maxBoxSize) domainSize
  = true
  <-> divides_evenly (iv0 domainSize) (iv0 a_maxBoxSize)
      /\ divides_evenly (iv1 domainSize) (iv1 a_maxBoxSize)
      /\ divides_evenly (iv2 domainSize) (iv2 a_maxBoxSize).
Proof.
  simpl. unfold divides_evenly. rewrite IntVect_eqb_eq.
  unfold IntVect_mul, IntVect_div; simpl. rewrite <- !quot_mul_eq.
  split; [intros [= ? ? ?]; done|]. intros (-> & -> & ->). done.
Qed.

(** The size that [define] computes is the product of the numbers of
    boxes in the three directions. *)
Lemma define_size (N : IntVect) :
  IntVect_get
    (IntVect_set (IntVect_set (IntVect_set IntVect_default 0 1) 1
       (IntVect_get (IntVect_set IntVect_default 0 1) 0 * IntVect_get N 0)) 2
       (IntVect_get (IntVect_set (IntVect_set IntVect_default 0 1) 1
          (IntVect_get (IntVect_set IntVect_default 0 1) 0 * IntVect_get N 0)) 1
        * IntVect_get N 1)) (g_SpaceDim - 1)
  * IntVect_get N (g_SpaceDim - 1)
  = IntVect_product N.
Proof. unfold IntVect_product, IntVect_get, IntVect_set; simpl. ring. Qed.

(** The steps of [define] that can end it, in their order: the division
    by the box size, the assertion that the boxes fit into the domain,
    the allocation of the array, the division by the number of
    processes, and the assertion that the boxes fit onto the processes. *)
Lemma define_outcome (env : ProcEnv) (a_domain : Box) (a_maxBoxSize : IntVect) :
  let domainSize := Box_dimensions a_domain in
  let totalBoxes := IntVect_product (IntVect_div domainSize a_maxBoxSize) in
  let zeroSize :=
    iv0 a_maxBoxSize = 0 \/ iv1 a_maxBoxSize = 0 \/ iv2 a_maxBoxSize = 0 in
  let fits :=
    divides_evenly (iv0 domainSize) (iv0 a_maxBoxSize)
    /\ divides_evenly (iv1 domainSize) (iv1 a_maxBoxSize)
    /\ divides_evenly (iv2 domainSize) (iv2 a_maxBoxSize) in
  (zeroSize -> DBL_define env a_domain a_maxBoxSize = inl DivideByZero)
  /\ (~ zeroSize -> ~ fits -> DBL_define env a_domain a_maxBoxSize = inl UnevenPartition)
  /\ (~ zeroSize -> fits -> totalBoxes < 0 ->
      DBL_define env a_domain a_maxBoxSize = inl LengthError)
  /\ (~ zeroSize -> fits -> 0 <= totalBoxes -> s_numProc env = 0 ->
      DBL_define env a_domain a_maxBoxSize = inl DivideByZero)
  /\ (~ zeroSize -> fits -> 0 <= totalBoxes -> s_numProc env <> 0 ->
      ~ divides_evenly totalBoxes (s_numProc env) ->
      DBL_define env a_domain a_maxBoxSize = inl UnevenPartition)
  /\ (~ zeroSize -> fits -> 0 <= totalBoxes -> s_numProc env <> 0 ->
      divides_evenly totalBoxes (s_numProc env) ->
      exists dbl, DBL_define env a_domain a_maxBoxSize = inr dbl).
Proof.
  intros domainSize totalBoxes zeroSize fits.
  pose proof (define_fits_domain a_domain a_maxBoxSize) as Hfit. simpl in Hfit.
  unfold DBL_define.
  fold (Box_dimensions a_domain) in *. fold domainSize in Hfit |- *.
  rewrite define_size. fold totalBoxes.
  assert (zeroSize \/ ~ zeroSize) as [Hz|Hz] by (unfold zeroSize; lia).
  { assert (negb ((iv0 a_maxBoxSize =? 0) || (iv1 a_maxBoxSize =? 0)
                  || (iv2 a_maxBoxSize =? 0)) = false) as ->.
    { apply negb_false_iff. rewrite !orb_true_iff, !Z.eqb_eq.
      unfold zeroSize in Hz. tauto. }
    cbn [Outcome_unless Outcome_bind]. repeat split; try done; intros Hnz; by destruct Hnz. }
  assert (negb ((iv0 a_maxBoxSize =? 0) || (iv1 a_maxBoxSize =? 0)
                || (iv2 a_maxBoxSize =? 0)) = true) as ->.
  { apply negb_true_iff. apply not_true_is_false.
    rewrite !orb_true_iff, !Z.eqb_eq. unfold zeroSize in Hz. tauto. }
  cbn [Outcome_unless Outcome_bind].
  split; [intros Hz'; by destruct Hz|].
  destruct (IntVect_eqb (IntVect_mul (IntVect_div domainSize a_maxBoxSize) a_maxBoxSize)
              domainSize) eqn:E1; cbn [CH_assert Outcome_bind].
  2:{ assert (~ fits) as Hnf.
      { intros Hf. apply Hfit in Hf. congruence. }
      repeat split; try done; intros _ Hf; by destruct Hnf. }
  assert (fits) as Hf by (by apply Hfit).
  split; [intros _ Hnf; by destruct Hnf|].
  destruct (Z.leb_spec 0 totalBoxes) as [Ht|Ht]; cbn [Outcome_unless Outcome_bind].
  2:{ repeat split; try done; intros; lia. }
  split; [intros; lia|].
  destruct (Z.eqb_spec (s_numProc env) 0) as [HP|HP]; cbn [negb Outcome_unless Outcome_bind].
  { repeat split; try done; intros; lia. }
  split; [intros; lia|].
  destruct (totalBoxes =? totalBoxes ÷ s_numProc env * s_numProc env) eqn:E2;
    cbn [CH_assert Outcome_bind].
  - split; [|eauto]. intros _ _ _ _ Hne. exfalso. apply Hne.
    apply Z.eqb_eq in E2. symmetry in E2. by apply quot_mul_eq in E2.
  - split; [done|]. intros _ _ _ _ H. exfalso.
    apply Z.eqb_neq in E2. apply E2. symmetry. by apply quot_mul_eq.
Qed.

(** On a non-empty domain and with a positive box size the two
    assertions of [define] decide its outcome. *)
Lemma define_on_domain (env : ProcEnv) (a_domain : Box) (a_maxBoxSize : IntVect) :
  1 <= s_numProc env ->
  Box_isEmpty a_domain = false ->
  0 < iv0 a_maxBoxSize -> 0 < iv1 a_maxBoxSize -> 0 < iv2 a_maxBoxSize ->
  let domainSize := Box_dimensions a_domain in
  let totalBoxes := IntVect_product (IntVect_div domainSize a_maxBoxSize) in
  let even :=
    (divides_evenly (iv0 domainSize) (iv0 a_maxBoxSize)
     /\ divides_evenly (iv1 domainSize) (iv1 a_maxBoxSize)
     /\ divides_evenly (iv2 domainSize) (iv2 a_maxBoxSize))
    /\ divides_evenly totalBoxes (s_numProc env) in
  (~ even -> DBL_define env a_domain a_maxBoxSize = inl UnevenPartition)
  /\ (even -> exists dbl, DBL_define env a_domain a_maxBoxSize = inr dbl).
Proof.
  intros HP Hne M0 M1 M2 domainSize totalBoxes even.
  destruct (define_outcome env a_domain a_maxBoxSize) as (_ & O2 & _ & _ & O5 & O6).
  fold domainSize in O2, O5, O6. fold totalBoxes in O5, O6.
  set (fits := divides_evenly (iv0 domainSize) (iv0 a_maxBoxSize)
               /\ divides_evenly (iv1 domainSize) (iv1 a_maxBoxSize)
               /\ divides_evenly (iv2 domainSize) (iv2 a_maxBoxSize)) in *.
  assert (~ (iv0 a_maxBoxSize = 0 \/ iv1 a_maxBoxSize = 0 \/ iv2 a_maxBoxSize = 0))
    as Hz by lia.
  assert (fits -> 0 <= totalBoxes) as Hpos.
  { intros (F0 & F1 & F2). unfold divides_evenly in F0, F1, F2.
    apply Box_isEmpty_false in Hne.
    assert (0 < iv0 domainSize /\ 0 < iv1 domainSize /\ 0 < iv2 domainSize) as (D0 & D1 & D2).
    { unfold domainSize, Box_dimensions; simpl. lia. }
    unfold totalBoxes, IntVect_product, IntVect_div; cbn [iv0 iv1 iv2].
    assert (0 <= iv0 domainSize ÷ iv0 a_maxBoxSize) by (apply Z.quot_pos; lia).
    assert (0 <= iv1 domainSize ÷ iv1 a_maxBoxSize) by (apply Z.quot_pos; lia).
    assert (0 <= iv2 domainSize ÷ iv2 a_maxBoxSize) by (apply Z.quot_pos; lia).
    assert (0 <= iv0 domainSize ÷ iv0 a_maxBoxSize * (iv1 domainSize ÷ iv1 a_maxBoxSize))
      by nia.
    nia. }
  split.
  - intros Hne'.
    assert (fits \/ ~ fits) as [Hf|Hf].
    { unfold fits, divides_evenly. lia. }
    + apply O5; [done|done|by apply Hpos|lia|]. intros Hd. apply Hne'. by split.
    + by apply O2.
  - intros [Hf Hd]. apply O6; [done|done|by apply Hpos|lia|done].
Qed.

(** C9.  In a run with at least one process, what ends [define] is
    decided in this order.  A component 0 of the box size ends it in the
    division by the box size.  Otherwise it ends with [UnevenPartition]
    when the dimensions of the domain are not multiples of the box size;
    when they are but the number of boxes is negative (a box size with
    negative components), the allocation of the array fails; otherwise
    it ends with [UnevenPartition] when the number of boxes is not a
    multiple of the number of processes, and returns a layout when it
    is.  So for a non-empty domain and a positive box size [define] ends
    with [UnevenPartition] whenever one of the two does not divide
    evenly, and returns a layout whenever both do. *)
Theorem DBL_define_fails_iff_uneven (env : ProcEnv) (a_domain : Box) (a_maxBoxSize : IntVect) :
  1 <= s_numProc env ->
  let domainSize := Box_dimensions a_domain in
  let totalBoxes := IntVect_product (IntVect_div domainSize a_maxBoxSize) in
  let zeroSize :=
    iv0 a_maxBoxSize = 0 \/ iv1 a_maxBoxSize = 0 \/ iv2 a_maxBoxSize = 0 in
  let fits :=
    divides_evenly (iv0 domainSize) (iv0 a_maxBoxSize)
    /\ divides_evenly (iv1 domainSize) (iv1 a_maxBoxSize)
    /\ divides_evenly (iv2 domainSize) (iv2 a_maxBoxSize) in
  let even := fits /\ divides_evenly totalBoxes (s_numProc env) in
  (zeroSize -> DBL_define env a_domain a_maxBoxSize = inl DivideByZero)
  /\ (~ zeroSize -> ~ fits -> DBL_define env a_domain a_maxBoxSize = inl UnevenPartition)
  /\ (~ zeroSize -> fits -> totalBoxes < 0 ->
      DBL_define env a_domain a_maxBoxSize = inl LengthError)
  /\ (~ zeroSize -> fits -> 0 <= totalBoxes ->
      ~ divides_evenly totalBoxes (s_numProc env) ->
      DBL_define env a_domain a_maxBoxSize = inl UnevenPartition)
  /\ (~ zeroSize -> fits -> 0 <= totalBoxes ->
      divides_evenly totalBoxes (s_numProc env) ->
      exists dbl, DBL_define env a_domain a_maxBoxSize = inr dbl)
  /\ (Box_isEmpty a_domain = false ->
      0 < iv0 a_maxBoxSize -> 0 < iv1 a_maxBoxSize -> 0 < iv2 a_maxBoxSize ->
      (~ even -> DBL_define env a_domain a_maxBoxSize = inl UnevenPartition)
      /\ (even -> exists dbl, DBL_define env a_domain a_maxBoxSize = inr dbl)).
Proof.
  intros HP domainSize totalBoxes zeroSize fits even.
  destruct (define_outcome env a_domain a_maxBoxSize) as (O1 & O2 & O3 & _ & O5 & O6).
  fold domainSize in O1, O2, O3, O5, O6. fold totalBoxes in O3, O5, O6.
  split; [exact O1|]. split; [exact O2|]. split; [exact O3|].
  split; [intros Hz Hf Ht; apply O5; [done|done|done|lia]|].
  split; [intros Hz Hf Ht; apply O6; [done|done|done|lia]|].
  intros Hne M0 M1 M2.
  exact (define_on_domain env a_domain a_maxBoxSize HP Hne M0 M1 M2).
Qed.

(** The theorem at the seed scenario of the specification: the domain
    from 0 to 8 in every direction does not split into boxes of size 5. *)
Lemma DBL_define_fails_iff_uneven_witness :
  DBL_define (MkProcEnv 1 0) (MkBox (IV 0 0 0) (IV 8 8 8)) (IV 5 5 5)
  = inl UnevenPartition.
Proof.
  refine (proj1 (proj2 (DBL_define_fails_iff_uneven (MkProcEnv 1 0)
                          (MkBox (IV 0 0 0) (IV 8 8 8)) (IV 5 5 5) _)) _ _).
  - simpl. lia.
  - simpl. lia.
  - unfold divides_evenly; simpl. intros (H & _). discriminate H.
Defined.

(** Even division in both respects does not give a layout on every
    input: the box size (-2,-2,-2) divides the dimensions (4,4,4) of the
    domain from 0 to 3 evenly, and one process divides the -8 boxes
    evenly, yet [define] returns no layout; the allocation of the array
    fails. *)
Lemma DBL_define_fails_iff_uneven_counterexample :
  ~ (forall env a_domain a_maxBoxSize,
       1 <= s_numProc env ->
       let domainSize := Box_dimensions a_domain in
       let totalBoxes := IntVect_product (IntVect_div domainSize a_maxBoxSize) in
       divides_evenly (iv0 domainSize) (iv0 a_maxBoxSize)
       /\ divides_evenly (iv1 domainSize) (iv1 a_maxBoxSize)
       /\ divides_evenly (iv2 domainSize) (iv2 a_maxBoxSize)
       /\ divides_evenly totalBoxes (s_numProc env) ->
       exists dbl, DBL_define env a_domain a_maxBoxSize = inr dbl).
Proof.
  intros H.
  destruct (H (MkProcEnv 1 0) (MkBox (IV 0 0 0) (IV 3 3 3)) (IV (-2) (-2) (-2)))
    as (dbl & Hdbl).
  - simpl. lia.
  - vm_compute. repeat split.
  - vm_compute in Hdbl. discriminate Hdbl.
Qed.

Lemma loop_count_inv {S : Type} (body : Z -> S -> S) (I : Z -> S -> Prop)
  (n : nat) (i : Z) (s : S) :
  I i s ->
  (forall j s, i <= j < i + Z.of_nat n -> I j s -> I (j + 1) (body j s)) ->
  I (i + Z.of_nat n) (loop_count body n i s).
Proof.
  revert i s. induction n as [|n IH]; intros i s Hi Hstep.
  - simpl. by replace (i + Z.of_nat 0) with i by lia.
  - simpl loop_count. replace (i + Z.of_nat (Datatypes.S n)) with ((i + 1) + Z.of_nat n) by lia.
    apply IH; [apply Hstep; [lia|done]|].
    intros j s' Hj. apply Hstep. lia.
Qed.

Lemma Lattice_linear_bounds (N w : IntVect) :
  Lattice_contains N w -> 0 <= Lattice_linear N w < iv0 N * iv1 N * iv2 N.
Proof.
  unfold Lattice_contains, Lattice_linear. destruct N as [n0 n1 n2], w as [w0 w1 w2]; simpl.
  intros (H0 & H1 & H2).
  assert (0 <= w1 + n1 * w2 < n1 * n2) by nia. nia.
Qed.

Lemma Lattice_linear_inj (N w w' : IntVect) :
  Lattice_contains N w -> Lattice_contains N w' ->
  Lattice_linear N w = Lattice_linear N w' -> w = w'.
Proof.
  unfold Lattice_contains, Lattice_linear.
  destruct N as [n0 n1 n2], w as [w0 w1 w2], w' as [v0 v1 v2]; simpl.
  intros (H0 & H1 & H2) (G0 & G1 & G2) E.
  apply radix_unique in E as [-> E]; [|lia|lia].
  apply radix_unique in E as [-> ->]; [|lia|lia].
  done.
Qed.

Lemma Lattice_next_linear (N w : IntVect) :
  Lattice_contains N w ->
  Lattice_linear N (Lattice_next N w) = Lattice_linear N w + 1.
Proof.
  unfold Lattice_contains, Lattice_linear, Lattice_next.
  destruct N as [n0 n1 n2], w as [w0 w1 w2]; simpl.
  intros (H0 & H1 & H2).
  destruct (Z.ltb_spec (w0 + 1) n0); simpl; [ring|].
  assert (w0 = n0 - 1) as -> by lia.
  destruct (Z.ltb_spec (w1 + 1) n1); simpl; [ring|].
  assert (w1 = n1 - 1) as -> by lia. ring.
Qed.

Lemma Lattice_next_contains (N w : IntVect) :
  Lattice_contains N w ->
  Lattice_linear N w + 1 < iv0 N * iv1 N * iv2 N ->
  Lattice_contains N (Lattice_next N w).
Proof.
  unfold Lattice_contains, Lattice_linear, Lattice_next.
  destruct N as [n0 n1 n2], w as [w0 w1 w2]; simpl.
  intros (H0 & H1 & H2) Hlt.
  destruct (Z.ltb_spec (w0 + 1) n0); simpl; [lia|].
  destruct (Z.ltb_spec (w1 + 1) n1); simpl; [lia|].
  assert (w0 = n0 - 1) as -> by lia. assert (w1 = n1 - 1) as -> by lia.
  replace (n0 - 1 + n0 * (n1 - 1 + n1 * w2) + 1) with (n0 * n1 * (w2 + 1)) in Hlt by ring.
  apply Z.mul_lt_mono_pos_l in Hlt; [lia|nia].
Qed.

(** A box of the lattice lies in the domain exactly when its position
    lies in the lattice. *)
Lemma Lattice_box_in_domain (a_domain : Box) (M N w : IntVect) :
  0 < iv0 M -> 0 < iv1 M -> 0 < iv2 M ->
  Box_dimensions a_domain = IntVect_mul N M ->
  Box_containsBox a_domain (Lattice_box a_domain M w) = true <-> Lattice_contains N w.
Proof.
  intros M0 M1 M2 Hdim.
  unfold Box_containsBox. rewrite andb_true_iff, !IntVect_leb_spec.
  unfold Lattice_contains, Lattice_box, Box_dimensions, IntVect_mul in *.
  destruct a_domain as [[l0 l1 l2] [h0 h1 h2]], M as [m0 m1 m2], N as [n0 n1 n2],
           w as [w0 w1 w2]; simpl in *.
  injection Hdim as E0 E1 E2.
  assert (h0 = l0 + n0 * m0 - 1) as -> by lia.
  assert (h1 = l1 + n1 * m1 - 1) as -> by lia.
  assert (h2 = l2 + n2 * m2 - 1) as -> by lia.
  split.
  - intros [(A0 & A1 & A2) (B0 & B1 & B2)]. repeat split; nia.
  - intros ((A0 & B0) & (A1 & B1) & (A2 & B2)). repeat split; nia.
Qed.

Lemma Box_eta (b : Box) : MkBox (loVect b) (hiVect b) = b.
Proof. by destruct b. Qed.

(** The three shifts at the end of the loop body move the current box to
    the next lattice position. *)
Lemma define_body_next (a_domain : Box) (M N w : IntVect) (procIdx : Z) (st : DefineState) :
  0 < iv0 M -> 0 < iv1 M -> 0 < iv2 M ->
  Box_dimensions a_domain = IntVect_mul N M ->
  Lattice_contains N w ->
  ds_currBox st = Lattice_box a_domain M w ->
  ds_currBox (DBL_define_body a_domain M N procIdx st)
  = Lattice_box a_domain M (Lattice_next N w).
Proof.
  intros M0 M1 M2 Hdim Hw Hst.
  unfold DBL_define_body. cbn [ds_currBox]. rewrite Hst.
  set (b1 := Box_shiftDir (Lattice_box a_domain M w) (IntVect_get M 0) 0).
  assert (b1 = Lattice_box a_domain M (IV (iv0 w + 1) (iv1 w) (iv2 w))) as E1.
  { unfold b1, Box_shiftDir, Lattice_box, IntVect_get, IntVect_set, IntVect_add,
      IntVect_sub, IntVect_mul; simpl. f_equal; f_equal; ring. }
  rewrite E1.
  destruct Hw as (H0 & H1 & H2).
  unfold Lattice_next.
  destruct (Z.ltb_spec (iv0 w + 1) (iv0 N)) as [L0|L0].
  - assert (Box_containsBox a_domain
              (Lattice_box a_domain M (IV (iv0 w + 1) (iv1 w) (iv2 w))) = true) as Hc.
    { apply (Lattice_box_in_domain _ _ N); try done. unfold Lattice_contains; simpl. lia. }
    rewrite Hc. cbn [negb]. rewrite Hc. done.
  - assert (Box_containsBox a_domain
              (Lattice_box a_domain M (IV (iv0 w + 1) (iv1 w) (iv2 w))) = false) as ->.
    { apply not_true_is_false. intros Hc.
      apply (Lattice_box_in_domain _ _ N) in Hc; try done.
      unfold Lattice_contains in Hc; simpl in Hc. lia. }
    cbn [negb].
    set (b2 := Box_shiftDir (Box_shiftDir _ _ 1) _ 0).
    assert (b2 = Lattice_box a_domain M (IV 0 (iv1 w + 1) (iv2 w))) as E2.
    { unfold b2, Box_shiftDir, Lattice_box, IntVect_get, IntVect_set, IntVect_add,
        IntVect_sub, IntVect_mul; simpl.
      assert (iv0 w = iv0 N - 1) as -> by lia. f_equal; f_equal; ring. }
    rewrite E2.
    destruct (Z.ltb_spec (iv1 w + 1) (iv1 N)) as [L1|L1].
    + assert (Box_containsBox a_domain
                (Lattice_box a_domain M (IV 0 (iv1 w + 1) (iv2 w))) = true) as ->.
      { apply (Lattice_box_in_domain _ _ N); try done. unfold Lattice_contains; simpl. lia. }
      done.
    + assert (Box_containsBox a_domain
                (Lattice_box a_domain M (IV 0 (iv1 w + 1) (iv2 w))) = false) as ->.
      { apply not_true_is_false. intros Hc.
        apply (Lattice_box_in_domain _ _ N) in Hc; try done.
        unfold Lattice_contains in Hc; simpl in Hc. lia. }
      cbn [negb].
      unfold Box_shiftDir, Lattice_box, IntVect_get, IntVect_set, IntVect_add,
        IntVect_sub, IntVect_mul; simpl.
      assert (iv1 w = iv1 N - 1) as -> by lia. f_equal; f_equal; ring.
Qed.

(** One turn of the inner loop of [define] places the next box. *)
Lemma define_body_inv (a_domain : Box) (M N : IntVect) (bpp k procIdx : Z) (st : DefineState) :
  0 < iv0 M -> 0 < iv1 M -> 0 < iv2 M ->
  Box_dimensions a_domain = IntVect_mul N M ->
  0 <= k < iv0 N * iv1 N * iv2 N ->
  procIdx = k ÷ bpp ->
  Define_inv a_domain M N bpp k st ->
  Define_inv a_domain M N bpp (k + 1) (DBL_define_body a_domain M N procIdx st).
Proof.
  intros M0 M1 M2 Hdim Hk Hp (Hidx & Hlen & Hent & Hcur).
  destruct Hcur as (w & Hw & Hlin & Hbox); [lia|].
  split; [|split; [|split]].
  - unfold DBL_define_body; simpl. lia.
  - unfold DBL_define_body; simpl. by rewrite length_insert.
  - intros v Hv Hlt. unfold DBL_define_body; cbn [ds_boxes].
    destruct (decide (Lattice_linear N v = k)) as [E|E].
    + assert (v = w) as -> by (apply (Lattice_linear_inj N); [done|done|lia]).
      rewrite Hidx, <- Hlin. rewrite list_lookup_insert_eq by lia.
      rewrite Box_eta, Hbox, Hp, <- Hlin. done.
    + pose proof (Lattice_linear_bounds N v Hv).
      rewrite list_lookup_insert_ne by lia. apply Hent; [done|lia].
  - intros Hlt. exists (Lattice_next N w).
    split; [apply Lattice_next_contains; [done|lia]|].
    split; [rewrite Lattice_next_linear by done; lia|].
    by apply define_body_next.
Qed.

(** The loops of [define] place every box of the lattice. *)
Lemma define_loops_inv (a_domain : Box) (M N : IntVect) (numProc bpp : Z) (st : DefineState) :
  0 < iv0 M -> 0 < iv1 M -> 0 < iv2 M ->
  Box_dimensions a_domain = IntVect_mul N M ->
  1 <= numProc -> 1 <= bpp ->
  iv0 N * iv1 N * iv2 N = bpp * numProc ->
  Define_inv a_domain M N bpp 0 st ->
  Define_inv a_domain M N bpp (iv0 N * iv1 N * iv2 N)
    (DBL_define_loops a_domain M N numProc bpp st).
Proof.
  intros M0 M1 M2 Hdim HP Hbpp Hsize Hinv.
  unfold DBL_define_loops.
  pose proof (loop_count_inv
    (fun procIdx st =>
       loop_count (fun _ st => DBL_define_body a_domain M N procIdx st)
         (Z.to_nat bpp) 0 st)
    (fun p st => Define_inv a_domain M N bpp (p * bpp) st)
    (Z.to_nat numProc) 0 st) as Houter.
  simpl in Houter.
  replace (iv0 N * iv1 N * iv2 N) with ((0 + Z.of_nat (Z.to_nat numProc)) * bpp) at 1 by lia.
  apply Houter; [done|].
  intros p st' Hp Hst'.
  pose proof (loop_count_inv
    (fun _ st => DBL_define_body a_domain M N p st)
    (fun i st => Define_inv a_domain M N bpp (p * bpp + i) st)
    (Z.to_nat bpp) 0 st') as Hinner.
  simpl in Hinner.
  replace ((p + 1) * bpp) with (p * bpp + (0 + Z.of_nat (Z.to_nat bpp))) by lia.
  apply Hinner; [by replace (p * bpp + 0) with (p * bpp) by lia|].
  intros i st'' Hi Hst''.
  replace (p * bpp + (i + 1)) with (p * bpp + i + 1) by lia.
  apply define_body_inv; try done.
  - nia.
  - apply Z.quot_unique with (r := i); lia.
Qed.

Lemma Lattice_box_origin (a_domain : Box) (M : IntVect) :
  MkBox (loVect a_domain) (IntVect_sub (IntVect_add (loVect a_domain) M) IntVect_Unit)
  = Lattice_box a_domain M (IV 0 0 0).
Proof.
  destruct a_domain as [[l0 l1 l2] hi], M as [m0 m1 m2].
  unfold Lattice_box, IntVect_add, IntVect_sub, IntVect_mul; simpl.
  f_equal; f_equal; lia.
Qed.

(** [define] builds the lattice layout. *)
Lemma DBL_define_ok (env : ProcEnv) (a_domain : Box) (M : IntVect) (dbl : DisjointBoxLayout) :
  Define_wf env a_domain M ->
  DBL_define env a_domain M = inr dbl ->
  Layout_ok env a_domain M dbl.
Proof.
  intros (Hne & M0 & M1 & M2 & HP & Hid) Hdef.
  unfold DBL_define in Hdef. fold (Box_dimensions a_domain) in Hdef.
  rewrite (proj2 (Z.eqb_neq (iv0 M) 0)), (proj2 (Z.eqb_neq (iv1 M) 0)),
    (proj2 (Z.eqb_neq (iv2 M) 0)), (proj2 (Z.eqb_neq (s_numProc env) 0)) in Hdef by lia.
  cbn [orb negb Outcome_unless Outcome_bind] in Hdef.
  set (N := IntVect_div (Box_dimensions a_domain) M) in *.
  destruct (IntVect_eqb (IntVect_mul N M) (Box_dimensions a_domain)) eqn:E1;
    [|discriminate Hdef].
  apply IntVect_eqb_eq in E1. symmetry in E1.
  cbn [CH_assert Outcome_bind] in Hdef.
  set (stride := IntVect_set _ 2 _) in *.
  assert (stride = IV 1 (iv0 N) (iv0 N * iv1 N)) as Hstride.
  { unfold stride. iv_simpl. f_equal; lia. }
  set (size := IntVect_get stride (g_SpaceDim - 1) * IntVect_get N (g_SpaceDim - 1)) in *.
  assert (size = iv0 N * iv1 N * iv2 N) as Hsize.
  { unfold size. rewrite Hstride. by iv_simpl. }
  destruct (0 <=? size); [|discriminate Hdef].
  cbn [Outcome_unless Outcome_bind] in Hdef.
  destruct (size =? size ÷ s_numProc env * s_numProc env) eqn:E2; [|discriminate Hdef].
  apply Z.eqb_eq in E2.
  cbn [CH_assert Outcome_bind] in Hdef.
  injection Hdef as <-.
  clearbody size stride N.
  assert (1 <= iv0 N /\ 1 <= iv1 N /\ 1 <= iv2 N) as HN.
  { clear -Hne E1 M0 M1 M2. apply Box_isEmpty_false in Hne.
    assert (iv0 (Box_dimensions a_domain) = iv0 N * iv0 M
            /\ iv1 (Box_dimensions a_domain) = iv1 N * iv1 M
            /\ iv2 (Box_dimensions a_domain) = iv2 N * iv2 M) as (D0 & D1 & D2)
      by (rewrite E1; done).
    unfold Box_dimensions in D0, D1, D2; simpl in D0, D1, D2.
    destruct Hne as (? & ? & ?). repeat split; nia. }
  assert (1 <= size) as Hsize1.
  { rewrite Hsize. destruct HN as (? & ? & ?).
    assert (1 <= iv0 N * iv1 N) by nia. nia. }
  assert (1 <= size ÷ s_numProc env) as Hbpp by nia.
  pose proof (define_loops_inv a_domain M N (s_numProc env) (size ÷ s_numProc env)
    (MkDefineState
       (MkBox (loVect a_domain)
              (IntVect_sub (IntVect_add (loVect a_domain) M) IntVect_Unit))
       0 (replicate (Z.to_nat size) BoxEntry_default))
    M0 M1 M2 E1 HP Hbpp) as Hinv.
  destruct Hinv as (Hidx & Hlen & Hent & _).
  { lia. }
  { unfold Define_inv; cbn [ds_boxes ds_linIdxBox ds_currBox].
    split; [done|]. split; [by rewrite length_replicate, Hsize|]. split.
    - intros w Hw Hlt. pose proof (Lattice_linear_bounds N w Hw). lia.
    - intros _. exists (IV 0 0 0).
      split; [unfold Lattice_contains; simpl; lia|].
      split; [unfold Lattice_linear; simpl; lia|].
      apply Lattice_box_origin. }
  unfold Layout_ok; cbn [m_env m_domain m_numBox m_stride m_size m_boxes
                            m_localIdxBeg m_numLocalBox].
  split; [done|]. split; [done|]. split; [exact HN|]. split; [done|].
  split; [exact E1|]. split; [exact Hstride|]. split; [exact Hsize|].
  split; [lia|]. split; [lia|]. split; [done|].
  split; [by rewrite Hlen, Hsize|].
  - intros w Hw. pose proof (Lattice_linear_bounds N w Hw) as Hb.
    unfold DBL_getLinear; cbn [m_boxes].
    destruct (Z.ltb_spec (Lattice_linear N w) 0); [lia|].
    rewrite Hent; [done|done|lia].
Qed.

(* ===================================================================== *)
(** * The layout is a partition of the domain *)
(* ===================================================================== *)

Lemma Lattice_linear_surj (N : IntVect) (k : Z) :
  0 < iv0 N -> 0 < iv1 N -> 0 < iv2 N ->
  0 <= k < iv0 N * iv1 N * iv2 N ->
  exists w, Lattice_contains N w /\ Lattice_linear N w = k.
Proof.
  destruct N as [n0 n1 n2]; simpl. intros N0 N1 N2 Hk.
  exists (IV (k mod n0) ((k / n0) mod n1) (k / n0 / n1)).
  unfold Lattice_contains, Lattice_linear; simpl.
  pose proof (Z.mod_pos_bound k n0 N0).
  pose proof (Z.mod_pos_bound (k / n0) n1 N1).
  pose proof (Z.div_mod k n0 ltac:(lia)).
  pose proof (Z.div_mod (k / n0) n1 ltac:(lia)).
  assert (0 <= k / n0 < n1 * n2).
  { split; [apply Z.div_pos; lia|]. apply Z.div_lt_upper_bound; [lia|]. lia. }
  assert (0 <= k / n0 / n1 < n2).
  { split; [apply Z.div_pos; lia|]. apply Z.div_lt_upper_bound; [lia|]. lia. }
  repeat split; try lia.
Qed.

Lemma Lattice_box_contains (a_domain : Box) (M w c : IntVect) :
  Box_contains (Lattice_box a_domain M w) c = true <->
  iv0 (loVect a_domain) + iv0 M * iv0 w <= iv0 c
    <= iv0 (loVect a_domain) + iv0 M * iv0 w + iv0 M - 1
  /\ iv1 (loVect a_domain) + iv1 M * iv1 w <= iv1 c
    <= iv1 (loVect a_domain) + iv1 M * iv1 w + iv1 M - 1
  /\ iv2 (loVect a_domain) + iv2 M * iv2 w <= iv2 c
    <= iv2 (loVect a_domain) + iv2 M * iv2 w + iv2 M - 1.
Proof. rewrite Box_contains_spec. unfold Lattice_box; simpl. done. Qed.

(** Every cell of the domain lies in the box of a lattice position. *)
Lemma Lattice_box_covers (a_domain : Box) (M N c : IntVect) :
  0 < iv0 M -> 0 < iv1 M -> 0 < iv2 M ->
  Box_dimensions a_domain = IntVect_mul N M ->
  Box_contains a_domain c = true ->
  exists w, Lattice_contains N w /\ Box_contains (Lattice_box a_domain M w) c = true.
Proof.
  intros M0 M1 M2 Hdim Hc.
  exists (IV ((iv0 c - iv0 (loVect a_domain)) / iv0 M)
             ((iv1 c - iv1 (loVect a_domain)) / iv1 M)
             ((iv2 c - iv2 (loVect a_domain)) / iv2 M)).
  rewrite Lattice_box_contains. apply Box_contains_spec in Hc.
  unfold Lattice_contains, Box_dimensions, IntVect_mul in *.
  destruct a_domain as [[l0 l1 l2] [h0 h1 h2]], M as [m0 m1 m2], N as [n0 n1 n2],
           c as [c0 c1 c2]; simpl in *.
  injection Hdim as E0 E1 E2.
  pose proof (Z.div_mod (c0 - l0) m0 ltac:(lia)).
  pose proof (Z.mod_pos_bound (c0 - l0) m0 M0).
  pose proof (Z.div_mod (c1 - l1) m1 ltac:(lia)).
  pose proof (Z.mod_pos_bound (c1 - l1) m1 M1).
  pose proof (Z.div_mod (c2 - l2) m2 ltac:(lia)).
  pose proof (Z.mod_pos_bound (c2 - l2) m2 M2).
  assert (0 <= (c0 - l0) / m0 < n0).
  { split; [apply Z.div_pos; lia|]. apply Z.div_lt_upper_bound; [lia|]. lia. }
  assert (0 <= (c1 - l1) / m1 < n1).
  { split; [apply Z.div_pos; lia|]. apply Z.div_lt_upper_bound; [lia|]. lia. }
  assert (0 <= (c2 - l2) / m2 < n2).
  { split; [apply Z.div_pos; lia|]. apply Z.div_lt_upper_bound; [lia|]. lia. }
  repeat split; lia.
Qed.

(** The boxes at two lattice positions share no cell. *)
Lemma Lattice_box_disjoint (a_domain : Box) (M w v c : IntVect) :
  0 < iv0 M -> 0 < iv1 M -> 0 < iv2 M ->
  Box_contains (Lattice_box a_domain M w) c = true ->
  Box_contains (Lattice_box a_domain M v) c = true ->
  w = v.
Proof.
  intros M0 M1 M2. rewrite !Lattice_box_contains.
  destruct w as [w0 w1 w2], v as [v0 v1 v2]; simpl.
  intros (A0 & A1 & A2) (B0 & B1 & B2).
  f_equal; nia.
Qed.

Lemma Box_intersect_contains (a b : Box) (c : IntVect) :
  Box_contains (Box_intersect a b) c = true <->
  Box_contains a c = true /\ Box_contains b c = true.
Proof.
  rewrite !Box_contains_spec. unfold Box_intersect, IntVect_max, IntVect_min; simpl. lia.
Qed.

(** A box without cells is empty, and conversely. *)
Lemma Box_isEmpty_no_cell (b : Box) :
  Box_isEmpty b = true <-> forall c, Box_contains b c = false.
Proof.
  split.
  - intros He c. apply not_true_is_false. intros Hc.
    apply Box_contains_nonempty in Hc. congruence.
  - intros Hno. destruct (Box_isEmpty b) eqn:E; [done|].
    specialize (Hno (loVect b)). apply Box_contains_false in Hno.
    apply Box_isEmpty_false in E. lia.
Qed.

(** The boxes stored in a layout are the boxes of the lattice. *)
Lemma Layout_entry (env : ProcEnv) (a_domain : Box) (M : IntVect) (dbl : DisjointBoxLayout)
  (k : nat) (e : BoxEntry) :
  Layout_ok env a_domain M dbl ->
  m_boxes dbl !! k = Some e ->
  exists w, Lattice_contains (m_numBox dbl) w
            /\ Lattice_linear (m_numBox dbl) w = Z.of_nat k
            /\ entry_box e = Lattice_box a_domain M w.
Proof.
  intros (_ & _ & HN & _ & _ & _ & Hsize & _ & _ & _ & Hlen & Hent) Hk.
  pose proof (lookup_lt_Some _ _ _ Hk) as Hlt.
  destruct (Lattice_linear_surj (m_numBox dbl) (Z.of_nat k)) as (w & Hw & Hlin);
    [lia|lia|lia|lia|].
  exists w. split; [done|]. split; [done|].
  specialize (Hent w Hw). unfold DBL_getLinear in Hent.
  rewrite Hlin in Hent. destruct (Z.ltb_spec (Z.of_nat k) 0); [lia|].
  rewrite Nat2Z.id, Hk in Hent. simpl in Hent. by rewrite Hent.
Qed.

Lemma Layout_lookup (env : ProcEnv) (a_domain : Box) (M : IntVect) (dbl : DisjointBoxLayout)
  (w : IntVect) :
  Layout_ok env a_domain M dbl ->
  Lattice_contains (m_numBox dbl) w ->
  m_boxes dbl !! Z.to_nat (Lattice_linear (m_numBox dbl) w)
  = Some (MkBoxEntry (Lattice_box a_domain M w)
                     (Lattice_linear (m_numBox dbl) w ÷ m_numLocalBox dbl)).
Proof.
  intros (_ & _ & HN & _ & _ & _ & Hsize & _ & _ & _ & Hlen & Hent) Hw.
  pose proof (Lattice_linear_bounds _ _ Hw) as Hb.
  specialize (Hent w Hw). unfold DBL_getLinear in Hent.
  destruct (Z.ltb_spec (Lattice_linear (m_numBox dbl) w) 0); [lia|].
  destruct (m_boxes dbl !! Z.to_nat (Lattice_linear (m_numBox dbl) w)) as [e|] eqn:E.
  - simpl in Hent. by rewrite Hent.
  - apply lookup_ge_None in E. lia.
Qed.

(** C2.  When the dimensions of the domain are multiples of the box size
    and the number of boxes is a multiple of the number of processes,
    [define] returns a layout whose boxes cover exactly the cells of the
    problem domain, and any two boxes at distinct indices of the layout
    have an empty intersection. *)
Theorem DBL_define_partitions_domain (env : ProcEnv) (a_domain : Box) (a_maxBoxSize : IntVect) :
  Define_wf env a_domain a_maxBoxSize ->
  divides_evenly (iv0 (Box_dimensions a_domain)) (iv0 a_maxBoxSize) ->
  divides_evenly (iv1 (Box_dimensions a_domain)) (iv1 a_maxBoxSize) ->
  divides_evenly (iv2 (Box_dimensions a_domain)) (iv2 a_maxBoxSize) ->
  divides_evenly
    (IntVect_product (IntVect_div (Box_dimensions a_domain) a_maxBoxSize))
    (s_numProc env) ->
  exists dbl,
    DBL_define env a_domain a_maxBoxSize = inr dbl
    /\ DBL_problemDomain dbl = a_domain
    /\ (forall c, Box_contains a_domain c = true <->
                  exists k e, m_boxes dbl !! k = Some e
                              /\ Box_contains (entry_box e) c = true)
    /\ (forall i j ei ej,
          m_boxes dbl !! i = Some ei -> m_boxes dbl !! j = Some ej -> i <> j ->
          Box_isEmpty (Box_intersect (entry_box ei) (entry_box ej)) = true).
Proof.
  intros Hwf E0 E1 E2 E3.
  pose proof Hwf as (Hne & M0' & M1' & M2' & HP & _).
  destruct (define_on_domain env a_domain a_maxBoxSize HP Hne M0' M1' M2') as [_ Hsome].
  destruct Hsome as [dbl Hdef]; [done|].
  exists dbl. split; [done|].
  pose proof (DBL_define_ok _ _ _ _ Hwf Hdef) as Hok.
  pose proof Hok as (_ & Hdom & HN & (M0 & M1 & M2) & Hdim & _).
  split; [done|]. split.
  - intros c. split.
    + intros Hc.
      destruct (Lattice_box_covers a_domain a_maxBoxSize (m_numBox dbl) c)
        as (w & Hw & Hcw); try done.
      eexists _, _. split; [by eapply Layout_lookup|]. done.
    + intros (k & e & Hk & Hc).
      destruct (Layout_entry _ _ _ _ _ _ Hok Hk) as (w & Hw & _ & Hbox).
      rewrite Hbox in Hc.
      apply (Lattice_box_in_domain a_domain a_maxBoxSize) in Hw; try done.
      unfold Box_containsBox in Hw. apply andb_true_iff in Hw as [Hlo Hhi].
      apply IntVect_leb_spec in Hlo, Hhi.
      apply Box_contains_spec in Hc. apply Box_contains_spec. lia.
  - intros i j ei ej Hi Hj Hij.
    destruct (Layout_entry _ _ _ _ _ _ Hok Hi) as (w & Hw & Hlw & Hbw).
    destruct (Layout_entry _ _ _ _ _ _ Hok Hj) as (v & Hv & Hlv & Hbv).
    apply Box_isEmpty_no_cell. intros c. apply not_true_is_false. intros Hc.
    apply Box_intersect_contains in Hc as [Hc1 Hc2].
    rewrite Hbw in Hc1. rewrite Hbv in Hc2.
    assert (w = v) by (by eapply Lattice_box_disjoint).
    subst v. lia.
Qed.

(** The theorem at the seed scenario of the specification: the domain
    from 0 to 9 in every direction, boxes of size 5, one process. *)
Lemma DBL_define_partitions_domain_witness :
  exists dbl,
    DBL_define (MkProcEnv 1 0) (MkBox (IV 0 0 0) (IV 9 9 9)) (IV 5 5 5) = inr dbl
    /\ DBL_problemDomain dbl = MkBox (IV 0 0 0) (IV 9 9 9)
    /\ (forall c, Box_contains (MkBox (IV 0 0 0) (IV 9 9 9)) c = true <->
                  exists k e, m_boxes dbl !! k = Some e
                              /\ Box_contains (entry_box e) c = true)
    /\ (forall i j ei ej,
          m_boxes dbl !! i = Some ei -> m_boxes dbl !! j = Some ej -> i <> j ->
          Box_isEmpty (Box_intersect (entry_box ei) (entry_box ej)) = true).
Proof.
  apply (DBL_define_partitions_domain (MkProcEnv 1 0) (MkBox (IV 0 0 0) (IV 9 9 9)) (IV 5 5 5)).
  - unfold Define_wf; simpl. repeat split; lia.
  - reflexivity.
  - reflexivity.
  - reflexivity.
  - reflexivity.
Defined.

(* ===================================================================== *)
(** * LayoutIterator and DataIterator *)
(* ===================================================================== *)

Lemma LayoutIterator_iterate (dbl : DisjointBoxLayout) (beg size : Z) (k : nat) :
  iterate k LayoutIterator_incr (MkLayoutIterator dbl beg size)
  = MkLayoutIterator dbl (beg + Z.of_nat k) size.
Proof.
  revert beg. induction k as [|k IH]; intros beg.
  - simpl. f_equal. lia.
  - simpl. unfold LayoutIterator_incr at 2; simpl. rewrite IH. f_equal. lia.
Qed.

(** The positions of a loop over the linear indices from [beg] up to,
    and without, [size]. *)
Lemma LayoutIterator_loop (dbl : DisjointBoxLayout) (beg size : Z) :
  loop_visit LayoutIterator_ok (fun it => inr (LayoutIterator_incr it))
    (Z.to_nat (size - beg)) (MkLayoutIterator dbl beg size)
  = inr (map (fun k => MkLayoutIterator dbl (beg + Z.of_nat k) size)
             (seq 0 (Z.to_nat (size - beg)))).
Proof.
  rewrite (loop_visit_total _ _ (Z.to_nat (size - beg))); [| | |done].
  - f_equal. apply map_ext. intros k. apply LayoutIterator_iterate.
  - intros k Hk. rewrite LayoutIterator_iterate.
    unfold LayoutIterator_ok; simpl. apply Z.ltb_lt. lia.
  - rewrite LayoutIterator_iterate.
    unfold LayoutIterator_ok; simpl. apply Z.ltb_ge. lia.
Qed.

Lemma LayoutIterator_visit_eq (dbl : DisjointBoxLayout) :
  LayoutIterator_visit dbl
  = inr (map (fun k => MkLayoutIterator dbl (Z.of_nat k) (m_size dbl))
             (seq 0 (Z.to_nat (m_size dbl)))).
Proof.
  unfold LayoutIterator_visit, LayoutIterator_new, DBL_size.
  pose proof (LayoutIterator_loop dbl 0 (m_size dbl)) as H.
  replace (m_size dbl - 0) with (m_size dbl) in H by lia. rewrite H.
  f_equal.
Qed.

Lemma DataIterator_visit_eq (dbl : DisjointBoxLayout) :
  DataIterator_visit dbl
  = inr (map (fun k => MkLayoutIterator dbl (m_localIdxBeg dbl + Z.of_nat k)
                         (m_localIdxBeg dbl + m_numLocalBox dbl))
             (seq 0 (Z.to_nat (m_numLocalBox dbl)))).
Proof.
  unfold DataIterator_visit, DataIterator_new, DBL_localSize, DBL_localIdxBegin,
    DBL_localIdxEnd, LayoutIterator_new; simpl.
  pose proof (LayoutIterator_loop dbl (m_localIdxBeg dbl)
                (m_localIdxBeg dbl + m_numLocalBox dbl)) as H.
  replace (m_localIdxBeg dbl + m_numLocalBox dbl - m_localIdxBeg dbl)
    with (m_numLocalBox dbl) in H by lia.
  done.
Qed.

(** The owner of the box with linear index [k] is [k / boxPerProc]. *)
Lemma Layout_proc (env : ProcEnv) (a_domain : Box) (M : IntVect) (dbl : DisjointBoxLayout)
  (k : Z) :
  Layout_ok env a_domain M dbl ->
  0 <= k < m_size dbl ->
  entry_proc (DBL_getLinear dbl k) = k ÷ m_numLocalBox dbl.
Proof.
  intros Hok Hk.
  pose proof Hok as (_ & _ & HN & _ & _ & _ & Hsize & _ & _ & _ & _ & Hent).
  destruct (Lattice_linear_surj (m_numBox dbl) k) as (w & Hw & Hlin); [lia|lia|lia|lia|].
  rewrite <- Hlin, (Hent w Hw). done.
Qed.

(** A box is owned by this process exactly when its linear index lies in
    the owned range. *)
Lemma Layout_owned (env : ProcEnv) (a_domain : Box) (M : IntVect) (dbl : DisjointBoxLayout)
  (k : Z) :
  Layout_ok env a_domain M dbl ->
  0 <= k < m_size dbl ->
  entry_proc (DBL_getLinear dbl k) = DBL_procID dbl
  <-> DBL_localIdxBegin dbl <= k < DBL_localIdxEnd dbl.
Proof.
  intros Hok Hk. rewrite (Layout_proc _ _ _ _ _ Hok Hk).
  destruct Hok as (Henv & _ & _ & _ & _ & _ & _ & (Hbpp & Hsz) & (HP & Hid) & Hbeg & _).
  unfold DBL_procID, DBL_localIdxBegin, DBL_localIdxEnd. rewrite Henv, Hbeg.
  pose proof (Z.quot_rem' k (m_numLocalBox dbl)) as Hqr.
  pose proof (Z.rem_bound_pos k (m_numLocalBox dbl) ltac:(lia) ltac:(lia)) as Hr.
  split; [intros <-; nia|]. intros Hrange. nia.
Qed.

(** C8, as the code has it.  A LayoutIterator over a layout built by
    [define] visits every box of the layout, and the BoxIndex it yields
    has [localIndex = globalIndex - localIdxBegin] for every box.  For a
    box owned by this process that is its position within the owned
    range; for a box owned by another process it is a value outside
    [0, localSize), not -1 in general. *)
Theorem LayoutIterator_localIndex_is_offset (env : ProcEnv) (a_domain : Box)
  (a_maxBoxSize : IntVect) (dbl : DisjointBoxLayout) :
  Define_wf env a_domain a_maxBoxSize ->
  DBL_define env a_domain a_maxBoxSize = inr dbl ->
  exists its,
    LayoutIterator_visit dbl = inr its
    /\ Z.of_nat (length its) = DBL_size dbl
    /\ (forall k it, its !! k = Some it ->
          let bidx := LayoutIterator_deref it in
          globalIndex bidx = Z.of_nat k
          /\ localIndex bidx = globalIndex bidx - DBL_localIdxBegin dbl
          /\ (DBL_procAt dbl it = DBL_procID dbl ->
              0 <= localIndex bidx < DBL_localSize dbl)
          /\ (DBL_procAt dbl it <> DBL_procID dbl ->
              ~ (0 <= localIndex bidx < DBL_localSize dbl))).
Proof.
  intros Hwf Hdef. pose proof (DBL_define_ok _ _ _ _ Hwf Hdef) as Hok.
  eexists. split; [apply LayoutIterator_visit_eq|].
  split.
  - rewrite length_map, length_seq. unfold DBL_size.
    destruct Hok as (_ & _ & HN & _ & _ & _ & Hsize & _). nia.
  - intros k it Hk.
    rewrite list_lookup_fmap in Hk.
    destruct (seq 0 (Z.to_nat (m_size dbl)) !! k) as [k'|] eqn:Ek; [|done].
    apply lookup_seq in Ek as [-> Hlt]. simpl in Hk. injection Hk as <-.
    cbn [LayoutIterator_deref globalIndex localIndex lit_current lit_disjointBoxLayout].
    split; [done|]. split; [done|].
    unfold DBL_procAt.
    cbn [LayoutIterator_deref globalIndex localIndex lit_current lit_disjointBoxLayout].
    pose proof (Layout_owned _ _ _ _ (Z.of_nat k) Hok ltac:(lia)) as Hown.
    unfold DBL_localIdxEnd, DBL_localSize, DBL_localIdxBegin in *.
    split; intros Hp.
    + apply Hown in Hp. lia.
    + intros Hrange. apply Hp, Hown. lia.
Qed.

(** The theorem at a row of four unit boxes dealt to two processes, seen
    from process 0. *)
Lemma LayoutIterator_localIndex_is_offset_witness :
  exists dbl its,
    DBL_define (MkProcEnv 2 0) (MkBox (IV 0 0 0) (IV 3 0 0)) (IV 1 1 1) = inr dbl
    /\ LayoutIterator_visit dbl = inr its
    /\ Z.of_nat (length its) = DBL_size dbl.
Proof.
  eexists. 
  destruct (LayoutIterator_localIndex_is_offset (MkProcEnv 2 0)
              (MkBox (IV 0 0 0) (IV 3 0 0)) (IV 1 1 1) _
              ltac:(unfold Define_wf; simpl; repeat split; lia) eq_refl)
    as (its & Hvisit & Hlen & _).
  exists its. split; [reflexivity|]. split; [exact Hvisit|exact Hlen].
Defined.

(** C8, as the specification has it, fails: in a row of four unit boxes
    dealt to two processes, process 0 sees the box with linear index 3,
    owned by process 1, with local index 3 and not -1. *)
Lemma LayoutIterator_localIndex_counterexample :
  ~ (forall env a_domain a_maxBoxSize dbl its it,
       Define_wf env a_domain a_maxBoxSize ->
       DBL_define env a_domain a_maxBoxSize = inr dbl ->
       LayoutIterator_visit dbl = inr its ->
       it ∈ its ->
       (DBL_procAt dbl it = DBL_procID dbl ->
        localIndex (LayoutIterator_deref it)
        = globalIndex (LayoutIterator_deref it) - DBL_localIdxBegin dbl)
       /\ (DBL_procAt dbl it <> DBL_procID dbl ->
           localIndex (LayoutIterator_deref it) = -1)).
Proof.
  intros H.
  destruct (DBL_define (MkProcEnv 2 0) (MkBox (IV 0 0 0) (IV 3 0 0)) (IV 1 1 1))
    as [e|dbl] eqn:Hdef.
  { vm_compute in Hdef. discriminate Hdef. }
  pose proof Hdef as Hdbl. vm_compute in Hdbl.
  injection Hdbl as Hdbl.
  subst dbl.
  match type of Hdef with _ = inr ?d => set (dbl := d) in * end.
  destruct (LayoutIterator_visit dbl) as [e|its] eqn:Hvisit.
  { vm_compute in Hvisit. discriminate Hvisit. }
  specialize (H (MkProcEnv 2 0) (MkBox (IV 0 0 0) (IV 3 0 0)) (IV 1 1 1) dbl its
                (MkLayoutIterator dbl 3 4)
                ltac:(unfold Define_wf; simpl; repeat split; lia) Hdef Hvisit).
  destruct H as [_ H].
  - vm_compute in Hvisit. injection Hvisit as <-.
    do 3 apply list_elem_of_further. apply list_elem_of_here.
  - assert (DBL_procAt dbl (MkLayoutIterator dbl 3 4) <> DBL_procID dbl) as Hne.
    { intros Hx. vm_compute in Hx. discriminate Hx. }
    apply H in Hne. vm_compute in Hne. discriminate Hne.
Qed.

(* ===================================================================== *)
(** * Loops that skip: the shape shared by the neighbour iterators *)
(* ===================================================================== *)

Lemma filter_all_skipped {S : Type} (skip : S -> bool) (l : list S) :
  Forall (fun x => skip x = true) l -> filter (fun x => skip x = false) l = [].
Proof.
  induction 1 as [|x l Hx _ IH]; [done|].
  rewrite filter_cons_False; [done|]. by rewrite Hx.
Qed.

(** The [while] loop that skips moves to the first state of the chain
    that is not skipped, or to the end of the chain. *)
Lemma skip_chain {S : Type} (ok skip : S -> bool) (step : S -> S)
  (l : list S) (s e : S) (fuel : nat) :
  chain step l s e ->
  Forall (fun x => ok x = true) l ->
  ok e = false ->
  (length l <= fuel)%nat ->
  exists l1 l2 t,
    l = l1 ++ l2
    /\ Forall (fun x => skip x = true) l1
    /\ chain step l2 t e
    /\ (forall x, head l2 = Some x -> skip x = false)
    /\ loop_while (fun s => ok s && skip s) step fuel s = inr t.
Proof.
  revert s fuel. induction l as [|x l IH]; intros s fuel Hch Hok He Hfuel.
  - simpl in Hch. subst s. exists [], [], e.
    split; [done|]. split; [done|]. split; [done|]. split; [done|].
    destruct fuel; simpl; by rewrite He.
  - destruct Hch as [-> Hch]. inversion Hok as [|? ? Hx Hok']; subst.
    destruct (skip s) eqn:Hs.
    + destruct fuel as [|fuel]; [simpl in Hfuel; lia|].
      destruct (IH (step s) fuel Hch Hok' He ltac:(simpl in Hfuel; lia))
        as (l1 & l2 & t & -> & Hl1 & Hl2 & Hhd & Hloop).
      exists (s :: l1), l2, t.
      split; [done|]. split; [by constructor|]. split; [done|]. split; [done|].
      simpl. by rewrite Hx, Hs.
    + exists [], (s :: l), s.
      split; [done|]. split; [done|]. split; [done|].
      split; [by intros ? [= <-]|].
      destruct fuel; simpl; by rewrite Hx, Hs.
Qed.

(** A [for] loop over an iterator that wraps a stepping state [S] in [T]
    and whose increment skips: the body runs at the states of the chain
    that are not skipped, in order. *)
Lemma visit_chain {S T : Type} (ok skip : S -> bool) (step : S -> S)
  (F : S -> T) (ok' : T -> bool) (next' : T -> Outcome T) (fw : nat)
  (P : S -> Prop) (e : S) :
  (forall s, ok' (F s) = ok s) ->
  (forall s, P s ->
     next' (F s)
     = let* s' := loop_while (fun s => ok s && skip s) step fw (step s) in inr (F s')) ->
  ok e = false ->
  forall (n : nat) (l : list S) (s : S) (fuel : nat),
    (length l <= n)%nat ->
    chain step l s e ->
    Forall (fun x => ok x = true) l ->
    Forall P l ->
    (forall x, head l = Some x -> skip x = false) ->
    (length l <= fuel)%nat ->
    (length l <= Datatypes.S fw)%nat ->
    loop_visit ok' next' fuel (F s)
    = inr (map F (filter (fun x => skip x = false) l)).
Proof.
  intros Hok' Hnext' He. induction n as [|n IH]; intros l s fuel Hn Hch Hok HP Hhd Hfuel Hfw.
  - destruct l; [|simpl in Hn; lia]. simpl in Hch. subst s.
    destruct fuel; simpl; by rewrite Hok', He.
  - destruct l as [|x l].
    { simpl in Hch. subst s. destruct fuel; simpl; by rewrite Hok', He. }
    destruct Hch as [-> Hch].
    inversion Hok as [|? ? Hx Hokl]; subst.
    inversion HP as [|? ? HPx HPl]; subst.
    pose proof (Hhd s eq_refl) as Hs.
    destruct fuel as [|fuel]; [simpl in Hfuel; lia|].
    simpl loop_visit. rewrite Hok', Hx, (Hnext' s HPx).
    destruct (skip_chain ok skip step l (step s) e fw Hch Hokl He
                ltac:(simpl in Hfw; lia))
      as (l1 & l2 & t & -> & Hl1 & Hl2 & Hhd2 & Hloop).
    rewrite Hloop. cbn [Outcome_bind].
    apply Forall_app in Hokl as [_ Hok2]. apply Forall_app in HPl as [_ HP2].
    simpl in Hfuel, Hfw, Hn. rewrite length_app in Hfuel, Hfw, Hn.
    rewrite (IH l2 t fuel); [|lia|done|done|done|done|lia|lia].
    cbn [Outcome_bind].
    rewrite filter_cons_True by done.
    rewrite list.filter_app, (filter_all_skipped skip l1 Hl1). done.
Qed.

(** The same, from the state in which the constructor leaves the
    iterator: it skips before the first test. *)
Lemma visit_chain_from_start {S T : Type} (ok skip : S -> bool) (step : S -> S)
  (F : S -> T) (ok' : T -> bool) (next' : T -> Outcome T) (fw : nat)
  (P : S -> Prop) (l : list S) (s e : S) (fuel : nat) :
  (forall s, ok' (F s) = ok s) ->
  (forall s, P s ->
     next' (F s)
     = let* s' := loop_while (fun s => ok s && skip s) step fw (step s) in inr (F s')) ->
  ok e = false ->
  chain step l s e ->
  Forall (fun x => ok x = true) l ->
  Forall P l ->
  (length l <= fuel)%nat ->
  (length l <= fw)%nat ->
  (let* s' := loop_while (fun s => ok s && skip s) step fw s in
   loop_visit ok' next' fuel (F s'))
  = inr (map F (filter (fun x => skip x = false) l)).
Proof.
  intros Hok' Hnext' He Hch Hok HP Hfuel Hfw.
  destruct (skip_chain ok skip step l s e fw Hch Hok He Hfw)
    as (l1 & l2 & t & -> & Hl1 & Hl2 & Hhd2 & Hloop).
  rewrite Hloop. cbn [Outcome_bind].
  apply Forall_app in Hok as [_ Hok2]. apply Forall_app in HP as [_ HP2].
  rewrite length_app in *.
  rewrite (visit_chain ok skip step F ok' next' fw P e Hok' Hnext' He (length l2) l2 t fuel);
    [|lia|done|done|done|done|lia|lia].
  rewrite list.filter_app, (filter_all_skipped skip l1 Hl1). done.
Qed.

Lemma filter_map_comm {A B : Type} (f : A -> B) (P : B -> Prop)
  `{forall x, Decision (P x)} (l : list A) :
  filter P (map f l) = map f (filter (fun x => P (f x)) l).
Proof.
  induction l as [|x l IH]; [done|]. simpl.
  destruct (decide (P (f x))) as [Hp|Hp].
  - rewrite !filter_cons_True by done. simpl. by rewrite IH.
  - rewrite !filter_cons_False by done. done.
Qed.

Lemma chain_head_or_end {S : Type} (step : S -> S) (l : list S) (t e : S) :
  chain step l t e -> (l = [] /\ t = e) \/ (exists l', l = t :: l').
Proof. destruct l as [|x l]; simpl; [by left|]. intros [-> _]. right. eauto. Qed.

(* ===================================================================== *)
(** * Masks *)
(* ===================================================================== *)

Lemma maskBit_testbit (mask n : Z) : 0 <= n -> maskBit mask n = Z.testbit mask n.
Proof.
  intros Hn. unfold maskBit. rewrite Z.shiftl_1_l.
  destruct (Z.testbit mask n) eqn:Hb.
  - apply negb_true_iff, Z.eqb_neq. intros H0.
    assert (Z.testbit (Z.land mask (2 ^ n)) n = true) as Hbit.
    { rewrite Z.land_spec, Hb, Z.pow2_bits_true; done. }
    rewrite H0, Z.bits_0 in Hbit. done.
  - apply negb_false_iff, Z.eqb_eq. apply Z.bits_inj'. intros m Hm.
    rewrite Z.land_spec, Z.bits_0, Z.pow2_bits_eqb by done.
    destruct (Z.eqb_spec n m) as [->|]; [by rewrite Hb|by rewrite andb_false_r].
Qed.

(** The centre is always trimmed; the other codimensions as asked for. *)
Lemma maskBit_TrimCenter (a_trim n : Z) :
  0 <= n -> maskBit (Z.lor a_trim TrimCenter) n = (n =? 0) || maskBit a_trim n.
Proof.
  intros Hn. rewrite !maskBit_testbit by done.
  rewrite Z.lor_spec. change TrimCenter with (2 ^ 0).
  rewrite Z.pow2_bits_eqb by done. rewrite orb_comm. by rewrite (Z.eqb_sym 0 n).
Qed.

Lemma IntVect_norm1_nonneg (d : IntVect) : 0 <= IntVect_norm1 d.
Proof. unfold IntVect_norm1. lia. Qed.

Lemma IntVect_norm1_zero (d : IntVect) : IntVect_norm1 d = 0 <-> d = IntVect_Zero.
Proof.
  unfold IntVect_norm1, IntVect_Zero. destruct d as [d0 d1 d2]; simpl.
  split; [intros H; f_equal; lia|]. intros [= -> -> ->]. done.
Qed.

(** An offset is kept by a neighbour iterator when it is not the centre
    and its codimension is not trimmed. *)
Lemma trim_keeps (a_trim : Z) (d : IntVect) :
  maskBit (Z.lor a_trim TrimCenter) (IntVect_norm1 d) = false
  <-> maskBit a_trim (IntVect_norm1 d) = false /\ d <> IntVect_Zero.
Proof.
  rewrite maskBit_TrimCenter by apply IntVect_norm1_nonneg.
  rewrite orb_false_iff, Z.eqb_neq, IntVect_norm1_zero. tauto.
Qed.

(* ===================================================================== *)
(** * NeighborIterator *)
(* ===================================================================== *)

Lemma map_ext_Forall {A B : Type} (f g : A -> B) (l : list A) :
  Forall (fun x => f x = g x) l -> map f l = map g l.
Proof. induction 1 as [|x l Hx _ IH]; [done|]. simpl. by rewrite Hx, IH. Qed.

Lemma Forall_filter_keep {A : Type} (Q : A -> Prop) (P : A -> Prop)
  `{forall x, Decision (P x)} (l : list A) :
  Forall Q l -> Forall Q (filter P l).
Proof.
  induction 1 as [|x l Hx _ IH]; [constructor|].
  destruct (decide (P x)).
  - rewrite filter_cons_True by done. by constructor.
  - by rewrite filter_cons_False by done.
Qed.

Lemma BoxIterator_incr_box (it : BoxIterator) : bit_box (BoxIterator_incr it) = bit_box it.
Proof. done. Qed.

(** The loop over a NeighborIterator runs its body at the offsets of the
    cropped stencil that are not trimmed, in the order of the
    BoxIterator. *)
Lemma NeighborIterator_visit_eq (lit : LayoutIterator) (a_trim : Z) :
  NeighborIterator_visit lit a_trim
  = inr (map (NeighborIterator_at lit a_trim)
           (filter (fun d => maskBit (Z.lor a_trim TrimCenter) (IntVect_norm1 d) = false)
              (Box_cells (Layout_nbrBox (lit_disjointBoxLayout lit) (lit_current lit))))).
Proof.
  set (dbl := lit_disjointBoxLayout lit).
  set (nbr := Layout_nbrBox dbl (lit_current lit)).
  set (trim := Z.lor a_trim TrimCenter).
  set (skip := fun off : BoxIterator => maskBit trim (IntVect_norm1 (BoxIterator_deref off))).
  set (F := fun off : BoxIterator =>
              MkNeighborIterator
                (LayoutIterator_setCurrent lit
                   (lit_current lit + DBL_linearNbrOffset dbl (BoxIterator_deref off)))
                off (lit_current lit) trim).
  destruct (BoxIterator_chain nbr) as (Hch & Hok & Hcells & Hbox).
  set (its := map (BoxIterator_after nbr) (seq 0 (Box_count nbr))) in *.
  assert (length its = Box_count nbr) as Hlen.
  { unfold its. by rewrite length_map, length_seq. }
  pose proof (Box_count_fuel nbr) as Hfuel.
  destruct (skip_chain BoxIterator_ok skip BoxIterator_incr its (BoxIterator_begin nbr)
              _ (Box_fuel nbr) Hch Hok (BoxIterator_after_end nbr) ltac:(lia))
    as (l1 & l2 & t & Hl & Hl1 & Hl2 & Hhd & Hloop).
  change (NeighborIterator_visit lit a_trim)
    with (let* it :=
            (let* off := loop_while (fun off => BoxIterator_ok off && skip off)
                           BoxIterator_incr (Box_fuel nbr) (BoxIterator_begin nbr) in
             inr (F off)) in
          loop_visit NeighborIterator_ok NeighborIterator_incr
            (Box_fuel (bit_box (nit_nbrOffset it))) it).
  rewrite Hloop. cbn [Outcome_bind]. cbn [F nit_nbrOffset].
  rewrite Hl in Hok, Hbox, Hlen.
  apply Forall_app in Hok as [_ Hok2]. apply Forall_app in Hbox as [_ Hbox2].
  rewrite length_app in Hlen.
  assert (bit_box t = nbr) as Ht.
  { destruct (chain_head_or_end _ _ _ _ Hl2) as [[_ ->]|[l' ->]].
    - apply BoxIterator_after_box.
    - by inversion Hbox2. }
  rewrite Ht.
  change (MkNeighborIterator
            (LayoutIterator_setCurrent lit
               (lit_current lit + DBL_linearNbrOffset dbl (BoxIterator_deref t)))
            t (lit_current lit) trim) with (F t).
  rewrite (visit_chain BoxIterator_ok skip BoxIterator_incr F NeighborIterator_ok
             NeighborIterator_incr (Box_fuel nbr) (fun s => bit_box s = nbr)
             (BoxIterator_after nbr (Box_count nbr))
             ltac:(done) ltac:(intros s Hs; unfold NeighborIterator_incr,
                                 NeighborIterator_skipTrimmed;
                               cbn [F nit_layout nit_trim nit_base nit_nbrOffset
                                    lit_disjointBoxLayout LayoutIterator_setCurrent];
                               rewrite BoxIterator_incr_box, Hs; reflexivity)
             (BoxIterator_after_end nbr) (length l2) l2 t (Box_fuel nbr));
    [|lia|done|done|done|done|lia|lia].
  f_equal.
  rewrite <- Hcells, Hl, map_app, !list.filter_app.
  rewrite (filter_map_comm bit_current _ l1), (filter_map_comm bit_current _ l2).
  match goal with
  | |- context [map bit_current ?X ++ _] =>
      replace X with (@nil BoxIterator)
        by (symmetry; exact (filter_all_skipped skip l1 Hl1))
  end.
  simpl. rewrite map_map.
  apply map_ext_Forall. apply Forall_filter_keep.
  eapply Forall_impl; [|exact Hbox2]. intros [c b] Hb. simpl in Hb. subst b. done.
Qed.

(** The [D_INVTERM] block recovers the lattice position from the linear
    index. *)
Lemma Layout_ivBase_lattice (N w : IntVect) :
  Lattice_contains N w ->
  Layout_ivBase (IV 1 (iv0 N) (iv0 N * iv1 N)) (Lattice_linear N w) = w.
Proof.
  unfold Lattice_contains, Lattice_linear, Layout_ivBase.
  destruct N as [n0 n1 n2], w as [w0 w1 w2]. iv_simpl. intros (H0 & H1 & H2).
  assert (0 <= n1 * w2) by (apply Z.mul_nonneg_nonneg; lia).
  assert (0 <= n0 * w1) by (apply Z.mul_nonneg_nonneg; lia).
  assert (0 <= n0 * (w1 + n1 * w2)) by (apply Z.mul_nonneg_nonneg; lia).
  assert (n0 * w1 <= n0 * (n1 - 1)) by (apply Z.mul_le_mono_nonneg_l; lia).
  assert ((w0 + n0 * (w1 + n1 * w2)) ÷ (n0 * n1) = w2) as E2.
  { symmetry. apply Z.quot_unique with (r := w0 + n0 * w1); [lia|lia|ring]. }
  rewrite E2.
  assert ((w0 + n0 * (w1 + n1 * w2) - n0 * n1 * w2) ÷ n0 = w1) as E1.
  { symmetry. apply Z.quot_unique with (r := w0); [lia|lia|ring]. }
  rewrite E1. f_equal. ring.
Qed.

Lemma Layout_ok_ivBase (env : ProcEnv) (a_domain : Box) (M : IntVect)
  (dbl : DisjointBoxLayout) (w : IntVect) :
  Layout_ok env a_domain M dbl ->
  Lattice_contains (m_numBox dbl) w ->
  Layout_ivBase (m_stride dbl) (Lattice_linear (m_numBox dbl) w) = w.
Proof.
  intros (_ & _ & _ & _ & _ & Hstride & _) Hw. rewrite Hstride.
  by apply Layout_ivBase_lattice.
Qed.

(** The offsets of the cropped stencil are the offsets of the stencil
    that lead to a lattice position. *)
Lemma Layout_nbrBox_contains (env : ProcEnv) (a_domain : Box) (M : IntVect)
  (dbl : DisjointBoxLayout) (w d : IntVect) :
  Layout_ok env a_domain M dbl ->
  Lattice_contains (m_numBox dbl) w ->
  Box_contains (Layout_nbrBox dbl (Lattice_linear (m_numBox dbl) w)) d = true
  <-> Stencil_contains d /\ Lattice_contains (m_numBox dbl) (IntVect_add w d).
Proof.
  intros Hok Hw. unfold Layout_nbrBox. rewrite (Layout_ok_ivBase _ _ _ _ _ Hok Hw).
  rewrite Box_intersect_contains, !Box_contains_spec.
  unfold Stencil_contains, Lattice_contains, NeighborIterator_nbrDefault, Box_shift,
    IntVect_add, IntVect_sub, IntVect_neg, IntVect_Unit, IntVect_Zero; simpl. lia.
Qed.

(** The linear index of the neighbour at offset [d]. *)
Lemma Layout_linear_offset (env : ProcEnv) (a_domain : Box) (M : IntVect)
  (dbl : DisjointBoxLayout) (w d : IntVect) :
  Layout_ok env a_domain M dbl ->
  Lattice_linear (m_numBox dbl) w + DBL_linearNbrOffset dbl d
  = Lattice_linear (m_numBox dbl) (IntVect_add w d).
Proof.
  intros (_ & _ & _ & _ & _ & Hstride & _).
  unfold DBL_linearNbrOffset, Lattice_linear, IntVect_add. rewrite Hstride.
  iv_simpl. ring.
Qed.

(** With no trimming the full stencil has 26 offsets besides the centre. *)
Lemma full_stencil_count :
  length (filter (fun d => maskBit (Z.lor 0 TrimCenter) (IntVect_norm1 d) = false)
            (Box_cells NeighborIterator_nbrDefault)) = 26%nat.
Proof. vm_compute. reflexivity. Qed.

(** C7.  On a layout built by [define], the loop over a NeighborIterator
    constructed at the box with lattice position [w] and with the trim
    mask [a_trim] ends, and its body runs exactly once at each offset [d]
    of the 3x3x3 stencil for which [w + d] is a lattice position, [d] is
    not the centre and bit [norm1(d)] of [a_trim] is clear.  At such an
    offset the iterator yields the BoxIndex of the box at lattice
    position [w + d].  With [a_trim = 0] and [w] not on the boundary of
    the lattice there are 3^3 - 1 = 26 neighbours. *)
Theorem NeighborIterator_enumerates_stencil (env : ProcEnv) (a_domain : Box)
  (a_maxBoxSize : IntVect) (dbl : DisjointBoxLayout)
  (lit : LayoutIterator) (w : IntVect) (a_trim : Z) :
  Define_wf env a_domain a_maxBoxSize ->
  DBL_define env a_domain a_maxBoxSize = inr dbl ->
  lit_disjointBoxLayout lit = dbl ->
  Lattice_contains (DBL_dimensions dbl) w ->
  lit_current lit = Lattice_linear (DBL_dimensions dbl) w ->
  exists its,
    NeighborIterator_visit lit a_trim = inr its
    /\ NoDup (map NeighborIterator_nbrDir its)
    /\ (forall d, d ∈ map NeighborIterator_nbrDir its <->
                  Stencil_contains d
                  /\ Lattice_contains (DBL_dimensions dbl) (IntVect_add w d)
                  /\ d <> IntVect_Zero
                  /\ maskBit a_trim (IntVect_norm1 d) = false)
    /\ (forall it, it ∈ its ->
          let w' := IntVect_add w (NeighborIterator_nbrDir it) in
          NeighborIterator_deref it
          = MkBoxIndex (Lattice_linear (DBL_dimensions dbl) w')
                       (Lattice_linear (DBL_dimensions dbl) w' - DBL_localIdxBegin dbl)
          /\ DBL_boxAt dbl (nit_layout it) = Lattice_box a_domain a_maxBoxSize w')
    /\ (a_trim = 0 ->
        1 <= iv0 w <= iv0 (DBL_dimensions dbl) - 2 ->
        1 <= iv1 w <= iv1 (DBL_dimensions dbl) - 2 ->
        1 <= iv2 w <= iv2 (DBL_dimensions dbl) - 2 ->
        length its = 26%nat).
Proof.
  intros Hwf Hdef Hlit Hw Hcur. unfold DBL_dimensions in *.
  pose proof (DBL_define_ok _ _ _ _ Hwf Hdef) as Hok.
  eexists. split; [apply NeighborIterator_visit_eq|].
  rewrite Hlit, Hcur.
  set (nbr := Layout_nbrBox dbl (Lattice_linear (m_numBox dbl) w)).
  set (keep := fun d => maskBit (Z.lor a_trim TrimCenter) (IntVect_norm1 d) = false).
  assert (map NeighborIterator_nbrDir
            (map (NeighborIterator_at lit a_trim) (filter keep (Box_cells nbr)))
          = filter keep (Box_cells nbr)) as Hdirs.
  { rewrite map_map. apply map_id. }
  split; [|split; [|split]].
  - rewrite Hdirs. apply list.NoDup_filter, Box_cells_NoDup.
  - intros d. rewrite Hdirs, list_elem_of_filter, Box_cells_elem.
    unfold keep, nbr. rewrite trim_keeps, (Layout_nbrBox_contains _ _ _ _ _ _ Hok Hw).
    tauto.
  - intros it Hit.
    apply list_elem_of_In, in_map_iff in Hit as (d & <- & Hd).
    apply list_elem_of_In, list_elem_of_filter in Hd as [_ Hd].
    apply Box_cells_elem, (Layout_nbrBox_contains _ _ _ _ _ _ Hok Hw) in Hd as [_ Hd].
    unfold DBL_boxAt, NeighborIterator_deref, NeighborIterator_nbrDir, NeighborIterator_at,
      LayoutIterator_deref, LayoutIterator_setCurrent, BoxIterator_deref.
    cbn [nit_layout nit_nbrOffset lit_current lit_disjointBoxLayout bit_current globalIndex].
    rewrite Hlit, Hcur, (Layout_linear_offset _ _ _ _ _ _ Hok).
    split; [done|].
    destruct Hok as (_ & _ & _ & _ & _ & _ & _ & _ & _ & _ & _ & Hent).
    by rewrite (Hent _ Hd).
  - intros -> I0 I1 I2. rewrite length_map.
    assert (nbr = NeighborIterator_nbrDefault) as ->; [|apply full_stencil_count].
    unfold nbr, Layout_nbrBox. rewrite (Layout_ok_ivBase _ _ _ _ _ Hok Hw).
    unfold Box_intersect, NeighborIterator_nbrDefault, Box_shift, IntVect_max, IntVect_min,
      IntVect_add, IntVect_sub, IntVect_neg, IntVect_Unit, IntVect_Zero; simpl.
    f_equal; f_equal; lia.
Qed.


(** The theorem at the middle box of a cube of 3 x 3 x 3 unit boxes. *)
Lemma NeighborIterator_enumerates_stencil_witness :
  exists its,
    NeighborIterator_visit (MkLayoutIterator example_cube 13 27) 0 = inr its
    /\ NoDup (map NeighborIterator_nbrDir its)
    /\ length its = 26%nat.
Proof.
  destruct (NeighborIterator_enumerates_stencil (MkProcEnv 1 0)
              (MkBox (IV 0 0 0) (IV 2 2 2)) (IV 1 1 1) example_cube
              (MkLayoutIterator example_cube 13 27) (IV 1 1 1) 0)
    as (its & Hvisit & Hnd & _ & _ & Hlen).
  - unfold Define_wf; simpl. repeat split; lia.
  - vm_compute. reflexivity.
  - reflexivity.
  - unfold Lattice_contains; simpl. lia.
  - reflexivity.
  - exists its. split; [exact Hvisit|]. split; [exact Hnd|].
    apply Hlen; [reflexivity|simpl; lia..].
Defined.

(* ===================================================================== *)
(** * PeriodicIterator *)
(* ===================================================================== *)

(** [setCurrent()] followed by the loop over the iterator, from any
    iterator state [it0] whose BoxIterator stands at the first offset:
    the body runs at the offsets that are neither trimmed nor inside the
    lattice, in the order of the BoxIterator. *)
Lemma PeriodicIterator_loop (it0 : PeriodicIterator) :
  pit_nbrOffset it0 = BoxIterator_begin (bit_box (pit_nbrOffset it0)) ->
  (let* it := PeriodicIterator_setCurrent it0 in
   loop_visit PeriodicIterator_ok PeriodicIterator_incr
     (Box_fuel (bit_box (pit_nbrOffset it))) it)
  = inr (map (PeriodicIterator_atOffset it0)
           (filter (fun d => maskBit (pit_trim it0) (IntVect_norm1 d)
                             || Box_contains (pit_ivDomain it0) d = false)
              (Box_cells (bit_box (pit_nbrOffset it0))))).
Proof.
  intros Hbegin.
  set (nbr := bit_box (pit_nbrOffset it0)) in *.
  set (skip := fun off : BoxIterator =>
                 maskBit (pit_trim it0) (IntVect_norm1 (BoxIterator_deref off))
                 || Box_contains (pit_ivDomain it0) (BoxIterator_deref off)).
  set (F := fun off : BoxIterator =>
              MkPeriodicIterator
                (LayoutIterator_setCurrent (pit_layout it0)
                   (pit_base it0
                    + DBL_linearNbrOffset (lit_disjointBoxLayout (pit_layout it0))
                        (PeriodicIterator_wrapOffset it0 (BoxIterator_deref off))))
                off (pit_ivDomain it0) (pit_ivPeriodicDomain it0)
                (pit_ivPeriodicDomainSide it0) (pit_ivBase it0)
                (pit_base it0) (pit_trim it0) (pit_periodic it0)).
  destruct (BoxIterator_chain nbr) as (Hch & Hok & Hcells & Hbox).
  set (its := map (BoxIterator_after nbr) (seq 0 (Box_count nbr))) in *.
  assert (length its = Box_count nbr) as Hlen.
  { unfold its. by rewrite length_map, length_seq. }
  pose proof (Box_count_fuel nbr) as Hfuel.
  destruct (skip_chain BoxIterator_ok skip BoxIterator_incr its (BoxIterator_begin nbr)
              _ (Box_fuel nbr) Hch Hok (BoxIterator_after_end nbr) ltac:(lia))
    as (l1 & l2 & t & Hl & Hl1 & Hl2 & Hhd & Hloop).
  unfold PeriodicIterator_setCurrent. fold nbr. rewrite Hbegin.
  match goal with
  | |- context [loop_while ?c _ _ _] =>
      change c with (fun s => BoxIterator_ok s && skip s)
  end.
  rewrite Hloop. cbn [Outcome_bind pit_nbrOffset].
  rewrite Hl in Hok, Hbox, Hlen.
  apply Forall_app in Hok as [_ Hok2]. apply Forall_app in Hbox as [_ Hbox2].
  rewrite length_app in Hlen.
  assert (bit_box t = nbr) as Ht.
  { destruct (chain_head_or_end _ _ _ _ Hl2) as [[_ ->]|[l' ->]].
    - apply BoxIterator_after_box.
    - by inversion Hbox2. }
  rewrite Ht.
  match goal with
  | |- loop_visit _ _ _ ?x = _ => change x with (F t)
  end.
  rewrite (visit_chain BoxIterator_ok skip BoxIterator_incr F PeriodicIterator_ok
             PeriodicIterator_incr (Box_fuel nbr) (fun s => bit_box s = nbr)
             (BoxIterator_after nbr (Box_count nbr))
             ltac:(done) ltac:(intros s Hs; unfold PeriodicIterator_incr,
                                 PeriodicIterator_setCurrent;
                               cbn [F pit_layout pit_trim pit_base pit_nbrOffset
                                    pit_ivDomain];
                               rewrite BoxIterator_incr_box, Hs; reflexivity)
             (BoxIterator_after_end nbr) (length l2) l2 t (Box_fuel nbr));
    [|lia|done|done|done|done|lia|lia].
  f_equal.
  rewrite <- Hcells, Hl, map_app, !list.filter_app.
  rewrite (filter_map_comm bit_current _ l1), (filter_map_comm bit_current _ l2).
  match goal with
  | |- context [map bit_current ?X ++ _] =>
      replace X with (@nil BoxIterator)
        by (symmetry; exact (filter_all_skipped skip l1 Hl1))
  end.
  simpl. rewrite map_map.
  apply map_ext_Forall. apply Forall_filter_keep.
  eapply Forall_impl; [|exact Hbox2]. intros [c b] Hb. simpl in Hb. subst b. done.
Qed.

Lemma PeriodicIterator_init_begin (lit : LayoutIterator) (a_trim a_periodic : Z) :
  pit_nbrOffset (PeriodicIterator_init lit a_trim a_periodic)
  = BoxIterator_begin
      (bit_box (pit_nbrOffset (PeriodicIterator_init lit a_trim a_periodic))).
Proof.
  unfold PeriodicIterator_init. cbn [pit_nbrOffset].
  generalize (Box_intersect (MkBox (IntVect_neg IntVect_Unit) IntVect_Unit)
    (fold_left
       (fun b dir => if maskBit a_periodic dir then Box_growDir b 1 dir else b)
       allDirs
       (Box_shift
          (MkBox IntVect_Zero
             (IntVect_sub (m_numBox (lit_disjointBoxLayout lit)) IntVect_Unit))
          (IntVect_neg
             (Layout_ivBase (m_stride (lit_disjointBoxLayout lit))
                (globalIndex (LayoutIterator_deref lit))))))).
  intros nbr. by destruct (Box_containsBox _ nbr).
Qed.

Lemma PeriodicIterator_visit_eq (lit : LayoutIterator) (a_trim a_periodic : Z) :
  PeriodicIterator_visit lit a_trim a_periodic
  = inr (map (PeriodicIterator_at lit a_trim a_periodic)
           (filter (fun d =>
                      maskBit (pit_trim (PeriodicIterator_init lit a_trim a_periodic))
                              (IntVect_norm1 d)
                      || Box_contains
                           (pit_ivDomain (PeriodicIterator_init lit a_trim a_periodic)) d
                      = false)
              (Box_cells
                 (bit_box (pit_nbrOffset (PeriodicIterator_init lit a_trim a_periodic)))))).
Proof.
  unfold PeriodicIterator_visit, PeriodicIterator_new.
  apply (PeriodicIterator_loop (PeriodicIterator_init lit a_trim a_periodic)).
  apply PeriodicIterator_init_begin.
Qed.

Lemma bool_eq_iff (a b : bool) : (a = true <-> b = true) -> a = b.
Proof. destruct a, b; intuition congruence. Qed.

(** The slab on the low side of a box in direction [dir], as the
    constructor of PeriodicIterator builds it. *)
Lemma side_lo_contains (PD : Box) (dir : Z) (d : IntVect) :
  dir = 0 \/ dir = 1 \/ dir = 2 ->
  Box_contains PD d = true ->
  Box_contains (Box_adjBox (Box_growDir PD (-1) dir) 1 dir (-1)) d
  = (IntVect_get d dir =? IntVect_get (loVect PD) dir).
Proof.
  intros Hdir Hd. apply bool_eq_iff. rewrite Z.eqb_eq, Box_contains_spec.
  apply Box_contains_spec in Hd.
  destruct PD as [[l0 l1 l2] [h0 h1 h2]], d as [d0 d1 d2].
  destruct Hdir as [-> | [-> | ->]]; unfold Box_adjBox, Box_growDir; iv_simpl; simpl in *; lia.
Qed.

(** The slab on the high side. *)
Lemma side_hi_contains (PD : Box) (dir : Z) (d : IntVect) :
  dir = 0 \/ dir = 1 \/ dir = 2 ->
  Box_contains PD d = true ->
  Box_contains (Box_adjBox (Box_growDir PD (-1) dir) 1 dir 1) d
  = (IntVect_get d dir =? IntVect_get (hiVect PD) dir).
Proof.
  intros Hdir Hd. apply bool_eq_iff. rewrite Z.eqb_eq, Box_contains_spec.
  apply Box_contains_spec in Hd.
  destruct PD as [[l0 l1 l2] [h0 h1 h2]], d as [d0 d1 d2].
  destruct Hdir as [-> | [-> | ->]]; unfold Box_adjBox, Box_growDir; iv_simpl; simpl in *; lia.
Qed.

Lemma Box_containsBox_trans (D b : Box) (d : IntVect) :
  Box_containsBox D b = true -> Box_contains b d = true -> Box_contains D d = true.
Proof.
  unfold Box_containsBox. rewrite andb_true_iff, !IntVect_leb_spec, !Box_contains_spec. lia.
Qed.

(** The members that the constructor of PeriodicIterator initialises. *)
Lemma PeriodicIterator_init_fields (lit : LayoutIterator) (a_trim a_periodic : Z) :
  let it0 := PeriodicIterator_init lit a_trim a_periodic in
  let dbl := lit_disjointBoxLayout lit in
  let D := Box_shift (MkBox IntVect_Zero (IntVect_sub (m_numBox dbl) IntVect_Unit))
             (IntVect_neg (Layout_ivBase (m_stride dbl) (lit_current lit))) in
  let PD := fold_left
              (fun b dir => if maskBit a_periodic dir then Box_growDir b 1 dir else b)
              allDirs D in
  pit_layout it0 = lit
  /\ pit_base it0 = lit_current lit
  /\ pit_trim it0 = Z.lor a_trim TrimCenter
  /\ pit_periodic it0 = a_periodic
  /\ pit_ivBase it0 = IntVect_Zero
  /\ pit_ivDomain it0 = D
  /\ pit_ivPeriodicDomain it0 = PD
  /\ bit_box (pit_nbrOffset it0)
     = (if Box_containsBox D (Box_intersect NeighborIterator_nbrDefault PD)
        then Box_default else Box_intersect NeighborIterator_nbrDefault PD)
  /\ (forall dir, dir = 0 \/ dir = 1 \/ dir = 2 ->
        maskBit a_periodic dir = true ->
        PeriodicIterator_side it0 dir 0 = Box_adjBox (Box_growDir PD (-1) dir) 1 dir (-1)
        /\ PeriodicIterator_side it0 dir 1 = Box_adjBox (Box_growDir PD (-1) dir) 1 dir 1).
Proof.
  intros it0 dbl D PD.
  do 8 (split; [reflexivity|]).
  intros dir Hdir Hbit.
  unfold PeriodicIterator_side, it0, PeriodicIterator_init.
  cbn [pit_ivPeriodicDomainSide]. fold dbl.
  unfold LayoutIterator_deref; cbn [globalIndex]. fold D. fold PD.
  revert Hdir Hbit. generalize PD. clear. intros PD Hdir.
  destruct Hdir as [-> | [-> | ->]]; intros Hbit; cbn [fold_left allDirs];
    rewrite ?Hbit;
    destruct (maskBit a_periodic 0), (maskBit a_periodic 1), (maskBit a_periodic 2);
    try discriminate Hbit; split; reflexivity.
Qed.

Section PeriodicOnLattice.

Context (env : ProcEnv) (a_domain : Box) (M : IntVect) (dbl : DisjointBoxLayout).
Context (lit : LayoutIterator) (w : IntVect) (a_trim a_periodic : Z).
Hypothesis Hok : Layout_ok env a_domain M dbl.
Hypothesis Hlit : lit_disjointBoxLayout lit = dbl.
Hypothesis Hw : Lattice_contains (m_numBox dbl) w.
Hypothesis Hcur : lit_current lit = Lattice_linear (m_numBox dbl) w.

Local Abbreviation Periodic_D := (Lattice_seenFrom (m_numBox dbl) w).
Local Abbreviation Periodic_PD := (Lattice_periodicSeenFrom a_periodic (m_numBox dbl) w).

Lemma Periodic_init_fields :
  let it0 := PeriodicIterator_init lit a_trim a_periodic in
  pit_layout it0 = lit
  /\ pit_base it0 = Lattice_linear (m_numBox dbl) w
  /\ pit_trim it0 = Z.lor a_trim TrimCenter
  /\ pit_periodic it0 = a_periodic
  /\ pit_ivBase it0 = IntVect_Zero
  /\ pit_ivDomain it0 = Periodic_D
  /\ pit_ivPeriodicDomain it0 = Periodic_PD
  /\ bit_box (pit_nbrOffset it0)
     = (if Box_containsBox Periodic_D (Box_intersect NeighborIterator_nbrDefault Periodic_PD)
        then Box_default else Box_intersect NeighborIterator_nbrDefault Periodic_PD)
  /\ (forall dir, dir = 0 \/ dir = 1 \/ dir = 2 ->
        maskBit a_periodic dir = true ->
        PeriodicIterator_side it0 dir 0
        = Box_adjBox (Box_growDir Periodic_PD (-1) dir) 1 dir (-1)
        /\ PeriodicIterator_side it0 dir 1
           = Box_adjBox (Box_growDir Periodic_PD (-1) dir) 1 dir 1).
Proof.
  pose proof (PeriodicIterator_init_fields lit a_trim a_periodic) as H.
  cbv zeta in H. rewrite Hlit, Hcur, (Layout_ok_ivBase _ _ _ _ _ Hok Hw) in H.
  exact H.
Qed.

Lemma Periodic_D_contains (d : IntVect) :
  Box_contains Periodic_D d = true <-> Lattice_contains (m_numBox dbl) (IntVect_add w d).
Proof.
  rewrite Box_contains_spec. unfold Lattice_seenFrom, Lattice_contains, Box_shift,
    IntVect_add, IntVect_sub, IntVect_neg, IntVect_Unit, IntVect_Zero; simpl. lia.
Qed.

Lemma Periodic_PD_eq :
  Periodic_PD
  = MkBox (IV (- iv0 w - Z.b2z (maskBit a_periodic 0))
              (- iv1 w - Z.b2z (maskBit a_periodic 1))
              (- iv2 w - Z.b2z (maskBit a_periodic 2)))
          (IV (iv0 (m_numBox dbl) - 1 - iv0 w + Z.b2z (maskBit a_periodic 0))
              (iv1 (m_numBox dbl) - 1 - iv1 w + Z.b2z (maskBit a_periodic 1))
              (iv2 (m_numBox dbl) - 1 - iv2 w + Z.b2z (maskBit a_periodic 2))).
Proof.
  unfold Lattice_periodicSeenFrom, Lattice_seenFrom. cbn [fold_left allDirs].
  destruct (maskBit a_periodic 0), (maskBit a_periodic 1), (maskBit a_periodic 2);
    unfold Box_growDir, Box_shift, IntVect_add, IntVect_sub, IntVect_neg,
      IntVect_Unit, IntVect_Zero; iv_simpl; simpl; f_equal; f_equal; lia.
Qed.

Lemma Periodic_PD_contains (d : IntVect) :
  Box_contains Periodic_PD d = true <-> Periodic_reach a_periodic (m_numBox dbl) w d.
Proof.
  rewrite Periodic_PD_eq, Box_contains_spec. unfold Periodic_reach. simpl.
  destruct (maskBit a_periodic 0), (maskBit a_periodic 1), (maskBit a_periodic 2);
    simpl; lia.
Qed.

Lemma Stencil_contains_spec (d : IntVect) :
  Box_contains NeighborIterator_nbrDefault d = true <-> Stencil_contains d.
Proof. rewrite Box_contains_spec. unfold Stencil_contains; simpl. lia. Qed.

(** The offsets at which the body of the loop over the periodic iterator
    runs. *)
Lemma Periodic_kept (d : IntVect) :
  let it0 := PeriodicIterator_init lit a_trim a_periodic in
  (Box_contains (bit_box (pit_nbrOffset it0)) d = true
   /\ maskBit (pit_trim it0) (IntVect_norm1 d) || Box_contains (pit_ivDomain it0) d = false)
  <-> Stencil_contains d
      /\ Periodic_reach a_periodic (m_numBox dbl) w d
      /\ ~ Lattice_contains (m_numBox dbl) (IntVect_add w d)
      /\ d <> IntVect_Zero
      /\ maskBit a_trim (IntVect_norm1 d) = false.
Proof.
  intros it0.
  destruct Periodic_init_fields as (_ & _ & Htrim & _ & _ & HD & _ & Hnbr & _).
  fold it0 in Htrim, HD, Hnbr. rewrite Htrim, HD, Hnbr.
  rewrite orb_false_iff, trim_keeps.
  rewrite <- Periodic_D_contains, <- Periodic_PD_contains, <- Stencil_contains_spec.
  rewrite <- (not_true_iff_false (Box_contains Periodic_D d)).
  destruct (Box_containsBox Periodic_D
              (Box_intersect NeighborIterator_nbrDefault Periodic_PD)) eqn:Hc.
  - split.
    + intros [Hd _]. apply Box_contains_nonempty in Hd. discriminate Hd.
    + intros (Hs & Hr & Hout & _). exfalso. apply Hout.
      apply (Box_containsBox_trans _ _ _ Hc). by apply Box_intersect_contains.
  - rewrite Box_intersect_contains. tauto.
Qed.

(** The wrap-around that [setCurrent()] adds to the offset leads to the
    lattice position on the opposite side. *)
Lemma Periodic_wrap (d : IntVect) :
  Periodic_reach a_periodic (m_numBox dbl) w d ->
  IntVect_add w
    (PeriodicIterator_wrapOffset (PeriodicIterator_init lit a_trim a_periodic) d)
  = Lattice_wrap (m_numBox dbl) (IntVect_add w d).
Proof.
  intros Hreach.
  pose proof Hreach as HPD. apply Periodic_PD_contains in HPD.
  destruct Periodic_init_fields as (Hlay & _ & _ & Hper & HivB & _ & _ & _ & Hside).
  unfold PeriodicIterator_wrapOffset. rewrite Hlay, Hper, HivB, Hlit.
  assert (IntVect_add IntVect_Zero d = d) as -> by (by destruct d).
  unfold DBL_dimensions.
  assert (forall dir off, dir = 0 \/ dir = 1 \/ dir = 2 ->
            (if maskBit a_periodic dir then
               let offset :=
                 if Box_contains
                      (PeriodicIterator_side (PeriodicIterator_init lit a_trim a_periodic) dir 0) d
                 then IntVect_set off dir
                        (IntVect_get off dir + IntVect_get (m_numBox dbl) dir)
                 else off in
               let offset :=
                 if Box_contains
                      (PeriodicIterator_side (PeriodicIterator_init lit a_trim a_periodic) dir 1) d
                 then IntVect_set offset dir
                        (IntVect_get offset dir - IntVect_get (m_numBox dbl) dir)
                 else offset in
               offset
             else off)
            = IntVect_set off dir
                (IntVect_get off dir
                 + (wrapCoord (IntVect_get (m_numBox dbl) dir)
                      (IntVect_get w dir + IntVect_get d dir)
                    - (IntVect_get w dir + IntVect_get d dir)))) as Hstep.
  { intros dir off Hdir.
    destruct Hok as (_ & _ & HN & _).
    destruct (maskBit a_periodic dir) eqn:Hbit.
    - destruct (Hside dir Hdir Hbit) as [-> ->].
      rewrite (side_lo_contains _ _ _ Hdir HPD), (side_hi_contains _ _ _ Hdir HPD).
      rewrite Periodic_PD_eq. unfold Periodic_reach in Hreach. unfold wrapCoord.
      destruct Hw as (W0 & W1 & W2).
      destruct off as [o0 o1 o2], d as [d0 d1 d2].
      destruct Hdir as [-> | [-> | ->]]; rewrite Hbit in *; iv_simpl; simpl in *.
      + destruct (Z.eqb_spec d0 (- iv0 w - 1)), (Z.eqb_spec d0 (iv0 (m_numBox dbl) - 1 - iv0 w + 1)),
          (Z.ltb_spec (iv0 w + d0) 0), (Z.leb_spec (iv0 (m_numBox dbl)) (iv0 w + d0));
          simpl; f_equal; lia.
      + destruct (Z.eqb_spec d1 (- iv1 w - 1)), (Z.eqb_spec d1 (iv1 (m_numBox dbl) - 1 - iv1 w + 1)),
          (Z.ltb_spec (iv1 w + d1) 0), (Z.leb_spec (iv1 (m_numBox dbl)) (iv1 w + d1));
          simpl; f_equal; lia.
      + destruct (Z.eqb_spec d2 (- iv2 w - 1)), (Z.eqb_spec d2 (iv2 (m_numBox dbl) - 1 - iv2 w + 1)),
          (Z.ltb_spec (iv2 w + d2) 0), (Z.leb_spec (iv2 (m_numBox dbl)) (iv2 w + d2));
          simpl; f_equal; lia.
    - unfold Periodic_reach in Hreach. unfold wrapCoord.
      destruct off as [o0 o1 o2], d as [d0 d1 d2].
      destruct Hdir as [-> | [-> | ->]]; rewrite Hbit in *; iv_simpl; simpl in *.
      + destruct (Z.ltb_spec (iv0 w + d0) 0), (Z.leb_spec (iv0 (m_numBox dbl)) (iv0 w + d0));
          f_equal; lia.
      + destruct (Z.ltb_spec (iv1 w + d1) 0), (Z.leb_spec (iv1 (m_numBox dbl)) (iv1 w + d1));
          f_equal; lia.
      + destruct (Z.ltb_spec (iv2 w + d2) 0), (Z.leb_spec (iv2 (m_numBox dbl)) (iv2 w + d2));
          f_equal; lia. }
  cbv zeta in Hstep. cbn [fold_left allDirs]. cbv zeta.
  rewrite (Hstep 0 d) by tauto.
  rewrite (Hstep 1) by tauto. rewrite (Hstep 2) by tauto.
  unfold Lattice_wrap, IntVect_add. destruct d as [d0 d1 d2], w as [w0 w1 w2].
  iv_simpl. f_equal; lia.
Qed.

End PeriodicOnLattice.

Lemma wrapCoord_range (n x : Z) : 1 <= n -> -1 <= x <= n -> 0 <= wrapCoord n x < n.
Proof.
  intros Hn Hx. unfold wrapCoord.
  destruct (Z.ltb_spec x 0); [lia|]. destruct (Z.leb_spec n x); lia.
Qed.

Lemma wrapCoord_inside (n x : Z) : 0 <= x <= n - 1 -> wrapCoord n x = x.
Proof.
  intros Hx. unfold wrapCoord.
  destruct (Z.ltb_spec x 0); [lia|]. destruct (Z.leb_spec n x); lia.
Qed.

Lemma Lattice_wrap_contains (a_periodic : Z) (N w d : IntVect) :
  1 <= iv0 N -> 1 <= iv1 N -> 1 <= iv2 N ->
  Periodic_reach a_periodic N w d ->
  Lattice_contains N (Lattice_wrap N (IntVect_add w d)).
Proof.
  intros N0 N1 N2 (R0 & R1 & R2). unfold Lattice_contains, Lattice_wrap, IntVect_add; simpl.
  repeat split; apply wrapCoord_range; try done;
    destruct (maskBit a_periodic 0), (maskBit a_periodic 1), (maskBit a_periodic 2); lia.
Qed.

(** C4.  On a layout built by [define], the loop over a PeriodicIterator
    constructed at the box with lattice position [w], with the trim mask
    [a_trim] and the mask of periodic directions [a_periodic], ends, and
    its body runs exactly once at each offset [d] of the 3x3x3 stencil
    for which [w + d] lies outside the lattice, by one position and only
    in directions enabled in [a_periodic], and whose codimension is not
    trimmed.  At such an offset [nbrDir()] is [d], which points out of
    the lattice, and the iterator yields the BoxIndex of the box at the
    lattice position obtained from [w + d] by wrapping around to the
    opposite side. *)
Theorem PeriodicIterator_enumerates_wrapped (env : ProcEnv) (a_domain : Box)
  (a_maxBoxSize : IntVect) (dbl : DisjointBoxLayout)
  (lit : LayoutIterator) (w : IntVect) (a_trim a_periodic : Z) :
  Define_wf env a_domain a_maxBoxSize ->
  DBL_define env a_domain a_maxBoxSize = inr dbl ->
  lit_disjointBoxLayout lit = dbl ->
  Lattice_contains (DBL_dimensions dbl) w ->
  lit_current lit = Lattice_linear (DBL_dimensions dbl) w ->
  exists its,
    PeriodicIterator_visit lit a_trim a_periodic = inr its
    /\ NoDup (map PeriodicIterator_nbrDir its)
    /\ (forall d, d ∈ map PeriodicIterator_nbrDir its <->
                  Stencil_contains d
                  /\ Periodic_reach a_periodic (DBL_dimensions dbl) w d
                  /\ ~ Lattice_contains (DBL_dimensions dbl) (IntVect_add w d)
                  /\ d <> IntVect_Zero
                  /\ maskBit a_trim (IntVect_norm1 d) = false)
    /\ (forall it, it ∈ its ->
          let d := PeriodicIterator_nbrDir it in
          let w' := Lattice_wrap (DBL_dimensions dbl) (IntVect_add w d) in
          ~ Lattice_contains (DBL_dimensions dbl) (IntVect_add w d)
          /\ Lattice_contains (DBL_dimensions dbl) w'
          /\ PeriodicIterator_deref it
             = MkBoxIndex (Lattice_linear (DBL_dimensions dbl) w')
                          (Lattice_linear (DBL_dimensions dbl) w' - DBL_localIdxBegin dbl)
          /\ DBL_boxAt dbl (pit_layout it) = Lattice_box a_domain a_maxBoxSize w').
Proof.
  intros Hwf Hdef Hlit Hw Hcur. unfold DBL_dimensions in *.
  pose proof (DBL_define_ok _ _ _ _ Hwf Hdef) as Hok.
  eexists. split; [apply PeriodicIterator_visit_eq|].
  set (it0 := PeriodicIterator_init lit a_trim a_periodic).
  set (keep := fun d => maskBit (pit_trim it0) (IntVect_norm1 d)
                        || Box_contains (pit_ivDomain it0) d = false).
  assert (map PeriodicIterator_nbrDir
            (map (PeriodicIterator_at lit a_trim a_periodic)
               (filter keep (Box_cells (bit_box (pit_nbrOffset it0)))))
          = filter keep (Box_cells (bit_box (pit_nbrOffset it0)))) as Hdirs.
  { rewrite map_map. apply map_id. }
  assert (forall d, d ∈ filter keep (Box_cells (bit_box (pit_nbrOffset it0))) <->
                    Stencil_contains d
                    /\ Periodic_reach a_periodic (m_numBox dbl) w d
                    /\ ~ Lattice_contains (m_numBox dbl) (IntVect_add w d)
                    /\ d <> IntVect_Zero
                    /\ maskBit a_trim (IntVect_norm1 d) = false) as Hkept.
  { intros d. rewrite list_elem_of_filter, Box_cells_elem.
    rewrite <- (Periodic_kept env a_domain a_maxBoxSize dbl lit w a_trim a_periodic
                  Hok Hlit Hw Hcur d).
    unfold keep. fold it0. tauto. }
  split; [|split].
  - rewrite Hdirs. apply list.NoDup_filter, Box_cells_NoDup.
  - intros d. rewrite Hdirs. apply Hkept.
  - intros it Hit.
    apply list_elem_of_In, in_map_iff in Hit as (d & <- & Hd).
    apply list_elem_of_In, Hkept in Hd as (Hs & Hr & Hout & _).
    change (PeriodicIterator_nbrDir (PeriodicIterator_at lit a_trim a_periodic d)) with d.
    cbv zeta.
    pose proof Hok as (_ & _ & (N0 & N1 & N2) & _ & _ & _ & _ & _ & _ & _ & _ & Hent).
    pose proof (Lattice_wrap_contains a_periodic _ _ _ N0 N1 N2 Hr) as Hw'.
    split; [done|]. split; [done|].
    destruct (Periodic_init_fields env a_domain a_maxBoxSize dbl lit w a_trim a_periodic
                Hok Hlit Hw Hcur) as (Hlay & Hbase & _).
    fold it0 in Hlay, Hbase.
    unfold DBL_boxAt, PeriodicIterator_deref, PeriodicIterator_at, PeriodicIterator_atOffset,
      LayoutIterator_deref, LayoutIterator_setCurrent.
    cbn [pit_layout lit_current lit_disjointBoxLayout globalIndex].
    fold it0. rewrite Hlay, Hbase, Hlit.
    rewrite (Layout_linear_offset _ _ _ _ _ _ Hok).
    unfold it0.
    rewrite (Periodic_wrap env a_domain a_maxBoxSize dbl lit w a_trim a_periodic
               Hok Hlit Hw Hcur d Hr).
    split; [done|]. by rewrite (Hent _ Hw').
Qed.

(** The theorem at the first box of a cube of 3 x 3 x 3 unit boxes,
    periodic in the first direction. *)
Lemma PeriodicIterator_enumerates_wrapped_witness :
  exists its,
    PeriodicIterator_visit (MkLayoutIterator example_cube 0 27) 0 PeriodicX = inr its
    /\ NoDup (map PeriodicIterator_nbrDir its)
    /\ (forall it, it ∈ its ->
          ~ Lattice_contains (DBL_dimensions example_cube)
              (IntVect_add (IV 0 0 0) (PeriodicIterator_nbrDir it))).
Proof.
  destruct (PeriodicIterator_enumerates_wrapped (MkProcEnv 1 0)
              (MkBox (IV 0 0 0) (IV 2 2 2)) (IV 1 1 1) example_cube
              (MkLayoutIterator example_cube 0 27) (IV 0 0 0) 0 PeriodicX)
    as (its & Hvisit & Hnd & _ & Hat).
  - unfold Define_wf; simpl. repeat split; lia.
  - vm_compute. reflexivity.
  - reflexivity.
  - unfold Lattice_contains; simpl. lia.
  - reflexivity.
  - exists its. split; [exact Hvisit|]. split; [exact Hnd|].
    intros it Hit. exact (proj1 (Hat it Hit)).
Defined.

(* ===================================================================== *)
(** * Copier::defineExchangeDBL *)
(* ===================================================================== *)

Lemma Outcome_mapM_total {A B : Type} (f : A -> Outcome B) (g : A -> B) (l : list A) :
  (forall a, f a = inr (g a)) -> Outcome_mapM f l = inr (map g l).
Proof.
  intros Hf. induction l as [|a l IH]; [done|].
  simpl. rewrite Hf, IH. done.
Qed.

Lemma Copier_itemsOfBox_eq (cfg : BuildConfig) (bytesPerCell : Z)
  (dbl : DisjointBoxLayout) (a_numGhost a_periodic a_trim : Z) (dit : LayoutIterator) :
  Copier_itemsOfBox cfg bytesPerCell dbl a_numGhost a_periodic a_trim
    (Copier_periodicTestDomain dbl a_periodic) dit
  = inr (Copier_planOfBox cfg bytesPerCell dbl a_numGhost a_periodic a_trim dit).
Proof.
  unfold Copier_itemsOfBox, Copier_planOfBox.
  rewrite NeighborIterator_visit_eq. cbn [Outcome_bind].
  fold (NeighborIterator_offsets dit a_trim). rewrite map_map.
  destruct (negb (Box_containsBox (Copier_periodicTestDomain dbl a_periodic)
                    (DBL_boxAt dbl dit))).
  - rewrite PeriodicIterator_visit_eq. cbn [Outcome_bind].
    fold (PeriodicIterator_offsets dit a_trim a_periodic). by rewrite map_map.
  - done.
Qed.

(** The plan that [defineExchangeDBL] builds. *)
Lemma Copier_defineExchangeDBL_eq (cfg : BuildConfig) (dbl : DisjointBoxLayout)
  (a_numGhost a_startComp a_numComp a_periodic a_trim : Z) :
  0 <= a_startComp -> 0 < a_numComp ->
  exists copier,
    Copier_defineExchangeDBL cfg dbl a_numGhost a_startComp a_numComp a_periodic a_trim
    = inr copier
    /\ m_motionItem copier
       = (if 0 <? a_numGhost then
            concat (map (Copier_planOfBox cfg (sizeofT cfg * a_numComp) dbl
                           a_numGhost a_periodic a_trim)
                        (DataIterator_positions dbl))
          else [])
    /\ m_midxForReq copier
       = (if USE_MPI cfg then Copier_fillMidxForReq (m_motionItem copier) 0 else [])
    /\ m_startComp copier = a_startComp
    /\ m_endComp copier = a_startComp + a_numComp.
Proof.
  intros Hsc Hnc. unfold Copier_defineExchangeDBL.
  apply Z.leb_le in Hsc. apply Z.ltb_lt in Hnc. rewrite Hsc, Hnc.
  cbn [CH_assert Outcome_bind].
  destruct (0 <? a_numGhost).
  - rewrite DataIterator_visit_eq. cbn [Outcome_bind].
    fold (DataIterator_positions dbl). fold (Copier_periodicTestDomain dbl a_periodic).
    rewrite (Outcome_mapM_total _
               (Copier_planOfBox cfg (sizeofT cfg * a_numComp) dbl a_numGhost a_periodic a_trim));
      [|intros dit; apply Copier_itemsOfBox_eq].
    cbn [Outcome_bind]. eexists. split; [reflexivity|]. done.
  - eexists. split; [reflexivity|]. cbn [m_motionItem m_midxForReq m_startComp m_endComp].
    by destruct (USE_MPI cfg).
Qed.

(** The box of offsets of a NeighborIterator is the stencil cropped by
    the lattice as seen from the base box. *)
Lemma Layout_nbrBox_eq (dbl : DisjointBoxLayout) (base : Z) :
  Layout_nbrBox dbl base
  = Box_intersect NeighborIterator_nbrDefault
      (Lattice_seenFrom (m_numBox dbl) (Layout_ivBase (m_stride dbl) base)).
Proof. done. Qed.

Lemma Stencil_contains_iff (d : IntVect) :
  Box_contains NeighborIterator_nbrDefault d = true <-> Stencil_contains d.
Proof. rewrite Box_contains_spec. unfold Stencil_contains; simpl. lia. Qed.

Lemma NeighborIterator_offsets_elem (lit : LayoutIterator) (a_trim : Z) (d : IntVect) :
  d ∈ NeighborIterator_offsets lit a_trim ->
  Stencil_contains d
  /\ Box_contains
       (Lattice_seenFrom (m_numBox (lit_disjointBoxLayout lit))
          (Layout_ivBase (m_stride (lit_disjointBoxLayout lit)) (lit_current lit))) d
     = true.
Proof.
  unfold NeighborIterator_offsets. rewrite list_elem_of_filter, Box_cells_elem.
  rewrite Layout_nbrBox_eq, Box_intersect_contains, Stencil_contains_iff. tauto.
Qed.

Lemma PeriodicIterator_offsets_elem (lit : LayoutIterator) (a_trim a_periodic : Z)
  (d : IntVect) :
  d ∈ PeriodicIterator_offsets lit a_trim a_periodic ->
  Stencil_contains d
  /\ Box_contains
       (Lattice_seenFrom (m_numBox (lit_disjointBoxLayout lit))
          (Layout_ivBase (m_stride (lit_disjointBoxLayout lit)) (lit_current lit))) d
     = false.
Proof.
  unfold PeriodicIterator_offsets. cbv zeta.
  rewrite list_elem_of_filter, Box_cells_elem.
  destruct (PeriodicIterator_init_fields lit a_trim a_periodic)
    as (_ & _ & _ & _ & _ & HD & _ & Hnbr & _).
  rewrite HD, Hnbr. unfold Lattice_seenFrom.
  rewrite orb_false_iff. intros [[_ Hout] Hin]. split; [|done].
  destruct (Box_containsBox _ _).
  - apply Box_contains_nonempty in Hin. discriminate Hin.
  - apply Box_intersect_contains in Hin as [Hs _]. by apply Stencil_contains_iff.
Qed.

Lemma NeighborIterator_offsets_NoDup (lit : LayoutIterator) (a_trim : Z) :
  NoDup (NeighborIterator_offsets lit a_trim).
Proof. apply list.NoDup_filter, Box_cells_NoDup. Qed.

Lemma PeriodicIterator_offsets_NoDup (lit : LayoutIterator) (a_trim a_periodic : Z) :
  NoDup (PeriodicIterator_offsets lit a_trim a_periodic).
Proof. apply list.NoDup_filter, Box_cells_NoDup. Qed.

(** The offsets of the motion items of one local box. *)
Lemma Copier_planOfBox_keys (cfg : BuildConfig) (bytesPerCell : Z)
  (dbl : DisjointBoxLayout) (a_numGhost a_periodic a_trim : Z) (dit : LayoutIterator) :
  exists ds,
    map Motion2Way_key
      (Copier_planOfBox cfg bytesPerCell dbl a_numGhost a_periodic a_trim dit)
    = map (fun d => (lit_current dit, d)) ds
    /\ NoDup ds
    /\ Forall Stencil_contains ds.
Proof.
  unfold Copier_planOfBox. cbv zeta.
  destruct (negb (Box_containsBox (Copier_periodicTestDomain dbl a_periodic)
                    (DBL_boxAt dbl dit))).
  - exists (NeighborIterator_offsets dit a_trim
            ++ PeriodicIterator_offsets dit a_trim a_periodic).
    split; [|split].
    + by rewrite !map_app, !map_map.
    + apply list.NoDup_app. split; [apply NeighborIterator_offsets_NoDup|]. split.
      * intros d Hn Hp. apply NeighborIterator_offsets_elem in Hn as [_ Hn].
        apply PeriodicIterator_offsets_elem in Hp as [_ Hp]. congruence.
      * apply PeriodicIterator_offsets_NoDup.
    + apply Forall_forall. intros d Hd. apply list_elem_of_In, elem_of_app in Hd as [Hd|Hd].
      * by apply NeighborIterator_offsets_elem in Hd as [? _].
      * by apply PeriodicIterator_offsets_elem in Hd as [? _].
  - exists (NeighborIterator_offsets dit a_trim).
    split; [|split].
    + by rewrite !app_nil_r, !map_map.
    + apply NeighborIterator_offsets_NoDup.
    + apply Forall_forall. intros d Hd. apply list_elem_of_In in Hd.
      by apply NeighborIterator_offsets_elem in Hd as [? _].
Qed.

Lemma NoDup_concat_keyed {A : Type} (key_of : A -> Z) (f : A -> list (Z * IntVect))
  (l : list A) :
  NoDup (map key_of l) ->
  (forall a, exists ds, f a = map (fun d => (key_of a, d)) ds /\ NoDup ds) ->
  NoDup (concat (map f l)).
Proof.
  intros Hl Hf. induction l as [|a l IH]; [constructor|].
  simpl in *. apply list.NoDup_cons in Hl as [Ha Hl].
  apply list.NoDup_app. split; [|split; [|by apply IH]].
  - destruct (Hf a) as (ds & -> & Hds).
    apply NoDup_fmap_2_strong; [|done]. by intros x y _ _ [= ->].
  - intros x Hx Hx'. apply Ha.
    destruct (Hf a) as (ds & Efa & _). rewrite Efa in Hx.
    apply list_elem_of_In, in_map_iff in Hx as (d & <- & _).
    apply list_elem_of_In, in_concat in Hx' as (xs & Hxs & Hin).
    apply in_map_iff in Hxs as (a' & <- & Ha').
    destruct (Hf a') as (ds' & Efa' & _). rewrite Efa' in Hin.
    apply in_map_iff in Hin as (d' & [= E _] & _).
    apply list_elem_of_In, in_map_iff. exists a'. by split.
Qed.

Lemma DataIterator_positions_NoDup (dbl : DisjointBoxLayout) :
  NoDup (map lit_current (DataIterator_positions dbl)).
Proof.
  unfold DataIterator_positions. rewrite map_map. simpl.
  apply NoDup_fmap_2_strong; [|apply NoDup_seq].
  intros x y _ _ E. lia.
Qed.

(** The keys of the motion items of a plan are pairwise distinct, and
    every direction is an offset of the stencil. *)
Lemma Copier_plan_keys (cfg : BuildConfig) (bytesPerCell : Z) (dbl : DisjointBoxLayout)
  (a_numGhost a_periodic a_trim : Z) :
  let items :=
    concat (map (Copier_planOfBox cfg bytesPerCell dbl a_numGhost a_periodic a_trim)
                (DataIterator_positions dbl)) in
  NoDup (map Motion2Way_key items)
  /\ Forall (fun m => Stencil_contains (m_sendDir m)) items.
Proof.
  intros items. split.
  - unfold items. rewrite concat_map, map_map.
    apply (NoDup_concat_keyed lit_current); [apply DataIterator_positions_NoDup|].
    intros dit.
    destruct (Copier_planOfBox_keys cfg bytesPerCell dbl a_numGhost a_periodic a_trim dit)
      as (ds & Hds & Hnd & _).
    by exists ds.
  - apply Forall_forall. intros m Hm. unfold items in Hm.
    apply in_concat in Hm as (ms & Hms & Hm).
    apply in_map_iff in Hms as (dit & <- & _).
    destruct (Copier_planOfBox_keys cfg bytesPerCell dbl a_numGhost a_periodic a_trim dit)
      as (ds & Hds & _ & Hst).
    assert (In (Motion2Way_key m) (map (fun d => (lit_current dit, d)) ds)) as Hk.
    { rewrite <- Hds. by apply in_map. }
    apply in_map_iff in Hk as (d & Hd & Hin).
    rewrite Forall_forall in Hst. apply Hst in Hin.
    unfold Motion2Way_key in Hd. injection Hd as _ <-. done.
Qed.

(** Every motion item of a plan carries the tags that [uniqueTag]
    computes for its two ends. *)
Lemma Copier_planOfBox_tags (cfg : BuildConfig) (bytesPerCell : Z)
  (dbl : DisjointBoxLayout) (a_numGhost a_periodic a_trim : Z)
  (dit : LayoutIterator) (m : Motion2Way) :
  In m (Copier_planOfBox cfg bytesPerCell dbl a_numGhost a_periodic a_trim dit) ->
  m_tagSend m = Motion2Way_uniqueTag (m_bidxLocal m) (m_sendDir m)
  /\ m_tagRecv m = Motion2Way_uniqueTag (m_bidxRemote m) (IntVect_neg (m_sendDir m)).
Proof.
  unfold Copier_planOfBox. cbv zeta. intros Hm.
  apply in_app_or in Hm as [Hm|Hm].
  - apply in_map_iff in Hm as (d & <- & _). done.
  - destruct (negb _); [|done]. apply in_map_iff in Hm as (d & <- & _). done.
Qed.

Lemma Int_wrap_small (z : Z) : Int_min <= z <= Int_max -> Int_wrap z = z.
Proof.
  unfold Int_min, Int_max, Int_wrap.
  change (2 ^ 31) with 2147483648. change (2 ^ 32) with 4294967296.
  intros Hz. rewrite Z.mod_small by lia. lia.
Qed.





Lemma DataIterator_positions_elem (dbl : DisjointBoxLayout) (dit : LayoutIterator) :
  In dit (DataIterator_positions dbl) ->
  lit_disjointBoxLayout dit = dbl
  /\ DBL_localIdxBegin dbl <= lit_current dit < DBL_localIdxEnd dbl.
Proof.
  unfold DataIterator_positions. intros Hd.
  apply in_map_iff in Hd as (k & <- & Hk). apply in_seq in Hk.
  unfold DBL_localIdxBegin, DBL_localIdxEnd. simpl. split; [done|lia].
Qed.

(** The regions of the motion items that the two loops of
    [defineExchangeDBL] build, item by item: the items of the loop over
    interior neighbours are those whose direction leads to a lattice
    position. *)
Lemma Copier_regions_items (cfg : BuildConfig) (dbl : DisjointBoxLayout)
  (a_numGhost a_startComp a_numComp a_periodic a_trim : Z) :
  0 <= a_startComp -> 0 < a_numComp -> 1 <= a_numGhost ->
  exists copier,
    Copier_defineExchangeDBL cfg dbl a_numGhost a_startComp a_numComp a_periodic a_trim
    = inr copier
    /\ forall m, m ∈ m_motionItem copier ->
         let L := DBL_box dbl (m_bidxLocal m) in
         let R := DBL_box dbl (m_bidxRemote m) in
         let d := m_sendDir m in
         let lattice :=
           Lattice_seenFrom (DBL_dimensions dbl)
             (Layout_ivBase (m_stride dbl) (globalIndex (m_bidxLocal m))) in
         DBL_localIdxBegin dbl <= globalIndex (m_bidxLocal m) < DBL_localIdxEnd dbl
         /\ (Box_contains lattice d = true ->
             m_regionRecv m = Box_intersect (Box_grow L a_numGhost) R
             /\ (USE_MPI cfg = true ->
                 m_regionSend m = Box_intersect L (Box_grow R a_numGhost))
             /\ m_regionSendRemote m = m_regionRecv m)
         /\ (Box_contains lattice d = false ->
             let shiftBy :=
               IntVect_add (IntVect_sub (loVect L) (loVect R))
                           (IntVect_mul d (Box_dimensions L)) in
             let R' := Box_shift R shiftBy in
             m_regionRecv m = Box_intersect (Box_grow L a_numGhost) R'
             /\ (USE_MPI cfg = true ->
                 m_regionSend m = Box_intersect L (Box_grow R' a_numGhost))
             /\ m_regionSendRemote m = Box_shift (m_regionRecv m) (IntVect_neg shiftBy)).
Proof.
  intros Hsc Hnc Hg.
  destruct (Copier_defineExchangeDBL_eq cfg dbl a_numGhost a_startComp a_numComp
              a_periodic a_trim Hsc Hnc) as (copier & Hdef & Hitems & _).
  exists copier. split; [done|].
  assert ((0 <? a_numGhost) = true) as Hgb by (apply Z.ltb_lt; lia).
  rewrite Hgb in Hitems. intros m Hm. rewrite Hitems in Hm.
  apply list_elem_of_In, in_concat in Hm as (ms & Hms & Hm).
  apply in_map_iff in Hms as (dit & <- & Hdit).
  apply DataIterator_positions_elem in Hdit as [Hdbl Hrange].
  unfold Copier_planOfBox in Hm. cbv zeta in Hm.
  unfold DBL_dimensions.
  apply in_app_or in Hm as [Hm|Hm].
  - apply in_map_iff in Hm as (d & <- & Hd).
    apply list_elem_of_In, NeighborIterator_offsets_elem in Hd as [_ Hd].
    rewrite Hdbl in Hd.
    cbv zeta. split; [exact Hrange|]. split.
    + intros _. split; [reflexivity|]. split; [|reflexivity].
      intros Hmpi. unfold Copier_interiorItem. rewrite Hmpi. reflexivity.
    + intros Hout. exfalso.
      change (m_sendDir (Copier_interiorItem cfg (sizeofT cfg * a_numComp) dbl a_numGhost
                dit (DBL_boxAt dbl dit) (NeighborIterator_at dit a_trim d))) with d in Hout.
      change (globalIndex (m_bidxLocal
                (Copier_interiorItem cfg (sizeofT cfg * a_numComp) dbl a_numGhost
                   dit (DBL_boxAt dbl dit) (NeighborIterator_at dit a_trim d))))
        with (lit_current dit) in Hout.
      congruence.
  - destruct (negb _); [|done].
    apply in_map_iff in Hm as (d & <- & Hd).
    apply list_elem_of_In, PeriodicIterator_offsets_elem in Hd as [_ Hd].
    rewrite Hdbl in Hd.
    cbv zeta. split; [exact Hrange|]. split.
    + intros Hin. exfalso.
      change (m_sendDir (Copier_periodicItem cfg (sizeofT cfg * a_numComp) dbl a_numGhost
                dit (DBL_boxAt dbl dit) (PeriodicIterator_at dit a_trim a_periodic d)))
        with d in Hin.
      change (globalIndex (m_bidxLocal
                (Copier_periodicItem cfg (sizeofT cfg * a_numComp) dbl a_numGhost
                   dit (DBL_boxAt dbl dit) (PeriodicIterator_at dit a_trim a_periodic d))))
        with (lit_current dit) in Hin.
      congruence.
    + intros _. split; [reflexivity|]. split; [|reflexivity].
      intros Hmpi. unfold Copier_periodicItem. rewrite Hmpi. reflexivity.
Qed.

(* ===================================================================== *)
(** * The regions that a plan receives into *)
(* ===================================================================== *)

Lemma Lattice_seenFrom_contains (N w d : IntVect) :
  Box_contains (Lattice_seenFrom N w) d = true <-> Lattice_contains N (IntVect_add w d).
Proof.
  rewrite Box_contains_spec. unfold Lattice_seenFrom, Lattice_contains, Box_shift,
    IntVect_add, IntVect_sub, IntVect_neg, IntVect_Unit, IntVect_Zero; simpl. lia.
Qed.

(** The box that a layout built by [define] keeps at a lattice position. *)
Lemma DBL_boxAt_lattice (env : ProcEnv) (a_domain : Box) (M : IntVect)
  (dbl : DisjointBoxLayout) (lit : LayoutIterator) (w : IntVect) :
  Layout_ok env a_domain M dbl ->
  Lattice_contains (m_numBox dbl) w ->
  lit_current lit = Lattice_linear (m_numBox dbl) w ->
  DBL_boxAt dbl lit = Lattice_box a_domain M w.
Proof.
  intros Hok Hw Hcur.
  destruct Hok as (_ & _ & _ & _ & _ & _ & _ & _ & _ & _ & _ & Hent).
  unfold DBL_boxAt, LayoutIterator_deref. cbn [globalIndex].
  by rewrite Hcur, (Hent _ Hw).
Qed.

(** The box under a NeighborIterator at an offset that leads to a
    lattice position. *)
Lemma NeighborIterator_at_box (env : ProcEnv) (a_domain : Box) (M : IntVect)
  (dbl : DisjointBoxLayout) (lit : LayoutIterator) (w : IntVect) (a_trim : Z)
  (d : IntVect) :
  Layout_ok env a_domain M dbl ->
  lit_disjointBoxLayout lit = dbl ->
  lit_current lit = Lattice_linear (m_numBox dbl) w ->
  Lattice_contains (m_numBox dbl) (IntVect_add w d) ->
  DBL_boxAt dbl (nit_layout (NeighborIterator_at lit a_trim d))
  = Lattice_box a_domain M (IntVect_add w d).
Proof.
  intros Hok Hlit Hcur Hd.
  apply (DBL_boxAt_lattice _ _ _ _ _ _ Hok Hd).
  unfold NeighborIterator_at, LayoutIterator_setCurrent.
  cbn [nit_layout lit_current]. rewrite Hlit, Hcur.
  apply (Layout_linear_offset _ _ _ _ _ _ Hok).
Qed.

(** The box under a PeriodicIterator at an offset within its reach. *)
Lemma PeriodicIterator_at_box (env : ProcEnv) (a_domain : Box) (M : IntVect)
  (dbl : DisjointBoxLayout) (lit : LayoutIterator) (w : IntVect)
  (a_trim a_periodic : Z) (d : IntVect) :
  Layout_ok env a_domain M dbl ->
  lit_disjointBoxLayout lit = dbl ->
  Lattice_contains (m_numBox dbl) w ->
  lit_current lit = Lattice_linear (m_numBox dbl) w ->
  Periodic_reach a_periodic (m_numBox dbl) w d ->
  DBL_boxAt dbl (pit_layout (PeriodicIterator_at lit a_trim a_periodic d))
  = Lattice_box a_domain M (Lattice_wrap (m_numBox dbl) (IntVect_add w d)).
Proof.
  intros Hok Hlit Hw Hcur Hr.
  pose proof Hok as (_ & _ & (N0 & N1 & N2) & _).
  pose proof (Lattice_wrap_contains a_periodic _ _ _ N0 N1 N2 Hr) as Hw'.
  apply (DBL_boxAt_lattice _ _ _ _ _ _ Hok Hw').
  destruct (Periodic_init_fields env a_domain M dbl lit w a_trim a_periodic
              Hok Hlit Hw Hcur) as (Hlay & Hbase & _).
  unfold PeriodicIterator_at, PeriodicIterator_atOffset, LayoutIterator_setCurrent.
  cbn [pit_layout lit_current].
  rewrite Hlay, Hbase, Hlit, (Layout_linear_offset _ _ _ _ _ _ Hok).
  by rewrite (Periodic_wrap env a_domain M dbl lit w a_trim a_periodic Hok Hlit Hw Hcur d Hr).
Qed.

(** The periodic image of the box at the wrapped position is the box
    that the lattice would have at the position outside. *)
Lemma Lattice_box_image (a_domain : Box) (M w w' d : IntVect) :
  let L := Lattice_box a_domain M w in
  let R := Lattice_box a_domain M w' in
  Box_shift R (IntVect_add (IntVect_sub (loVect L) (loVect R))
                           (IntVect_mul d (Box_dimensions L)))
  = Lattice_box a_domain M (IntVect_add w d).
Proof.
  destruct a_domain as [[l0 l1 l2] [h0 h1 h2]], M as [m0 m1 m2], w as [w0 w1 w2],
    w' as [v0 v1 v2], d as [d0 d1 d2].
  unfold Lattice_box, Box_shift, Box_dimensions, IntVect_add, IntVect_sub, IntVect_mul,
    IntVect_Unit; simpl.
  f_equal; f_equal; ring.
Qed.

(** Every position of the DataIterator over a layout built by [define]
    is a lattice position. *)
Lemma DataIterator_positions_lattice (env : ProcEnv) (a_domain : Box) (M : IntVect)
  (dbl : DisjointBoxLayout) (dit : LayoutIterator) :
  Layout_ok env a_domain M dbl ->
  In dit (DataIterator_positions dbl) ->
  lit_disjointBoxLayout dit = dbl
  /\ exists w, Lattice_contains (m_numBox dbl) w
               /\ lit_current dit = Lattice_linear (m_numBox dbl) w.
Proof.
  intros Hok Hdit.
  apply DataIterator_positions_elem in Hdit as [Hdbl Hrange].
  split; [done|].
  destruct Hok as (_ & _ & (N0 & N1 & N2) & _ & _ & _ & Hsize & (Hnl & Hsp) & (HP & Hid)
                   & Hbeg & _).
  unfold DBL_localIdxBegin, DBL_localIdxEnd in Hrange. rewrite Hbeg in Hrange.
  destruct (Lattice_linear_surj (m_numBox dbl) (lit_current dit)) as (w & Hw & Hlin);
    [lia|lia|lia| |by exists w].
  rewrite <- Hsize, Hsp.
  assert (0 <= s_procID env * m_numLocalBox dbl) by (apply Z.mul_nonneg_nonneg; lia).
  assert ((s_procID env + 1) * m_numLocalBox dbl <= s_numProc env * m_numLocalBox dbl)
    by (apply Z.mul_le_mono_nonneg_r; lia).
  lia.
Qed.

Lemma Copier_planOfBox_local (cfg : BuildConfig) (bytesPerCell : Z)
  (dbl : DisjointBoxLayout) (a_numGhost a_periodic a_trim : Z)
  (dit : LayoutIterator) (m : Motion2Way) :
  In m (Copier_planOfBox cfg bytesPerCell dbl a_numGhost a_periodic a_trim dit) ->
  globalIndex (m_bidxLocal m) = lit_current dit.
Proof.
  unfold Copier_planOfBox. cbv zeta. intros Hm.
  apply in_app_or in Hm as [Hm|Hm].
  - apply in_map_iff in Hm as (d & <- & _). done.
  - destruct (negb _); [|done]. apply in_map_iff in Hm as (d & <- & _). done.
Qed.

(** What a motion item of the box at the lattice position [w] receives
    lies in the box that the lattice has, or would have, at the position
    its direction leads to. *)
Lemma Copier_planOfBox_recv (env : ProcEnv) (a_domain : Box) (M : IntVect)
  (dbl : DisjointBoxLayout) (cfg : BuildConfig) (bytesPerCell : Z)
  (a_numGhost a_periodic a_trim : Z) (dit : LayoutIterator) (w : IntVect)
  (m : Motion2Way) (c : IntVect) :
  Layout_ok env a_domain M dbl ->
  lit_disjointBoxLayout dit = dbl ->
  Lattice_contains (m_numBox dbl) w ->
  lit_current dit = Lattice_linear (m_numBox dbl) w ->
  In m (Copier_planOfBox cfg bytesPerCell dbl a_numGhost a_periodic a_trim dit) ->
  Box_contains (m_regionRecv m) c = true ->
  Box_contains (Lattice_box a_domain M (IntVect_add w (m_sendDir m))) c = true.
Proof.
  intros Hok Hdbl Hw Hcur Hm.
  unfold Copier_planOfBox in Hm. cbv zeta in Hm.
  apply in_app_or in Hm as [Hm|Hm].
  - apply in_map_iff in Hm as (d & <- & Hd).
    apply list_elem_of_In, NeighborIterator_offsets_elem in Hd as [_ Hd].
    rewrite Hdbl, Hcur, (Layout_ok_ivBase _ _ _ _ _ Hok Hw) in Hd.
    apply Lattice_seenFrom_contains in Hd.
    change (m_sendDir (Copier_interiorItem cfg bytesPerCell dbl a_numGhost dit
              (DBL_boxAt dbl dit) (NeighborIterator_at dit a_trim d))) with d.
    change (m_regionRecv (Copier_interiorItem cfg bytesPerCell dbl a_numGhost dit
              (DBL_boxAt dbl dit) (NeighborIterator_at dit a_trim d)))
      with (Box_intersect (Box_grow (DBL_boxAt dbl dit) a_numGhost)
              (DBL_boxAt dbl (nit_layout (NeighborIterator_at dit a_trim d)))).
    rewrite Box_intersect_contains.
    rewrite (NeighborIterator_at_box _ _ _ _ _ _ _ _ Hok Hdbl Hcur Hd). tauto.
  - destruct (negb _); [|done].
    apply in_map_iff in Hm as (d & <- & Hd).
    assert (Periodic_reach a_periodic (m_numBox dbl) w d) as Hr.
    { apply list_elem_of_In in Hd. unfold PeriodicIterator_offsets in Hd. cbv zeta in Hd.
      apply list_elem_of_filter in Hd as [Hkeep Hcell]. apply Box_cells_elem in Hcell.
      apply (Periodic_kept env a_domain M dbl dit w a_trim a_periodic Hok Hdbl Hw Hcur d).
      split; assumption. }
    change (m_sendDir (Copier_periodicItem cfg bytesPerCell dbl a_numGhost dit
              (DBL_boxAt dbl dit) (PeriodicIterator_at dit a_trim a_periodic d))) with d.
    set (L := DBL_boxAt dbl dit).
    set (R := DBL_boxAt dbl (pit_layout (PeriodicIterator_at dit a_trim a_periodic d))).
    change (m_regionRecv (Copier_periodicItem cfg bytesPerCell dbl a_numGhost dit
              L (PeriodicIterator_at dit a_trim a_periodic d)))
      with (Box_intersect (Box_grow L a_numGhost)
              (Box_shift R (IntVect_add (IntVect_sub (loVect L) (loVect R))
                                        (IntVect_mul d (Box_dimensions L))))).
    rewrite Box_intersect_contains.
    unfold L, R.
    rewrite (DBL_boxAt_lattice _ _ _ _ _ _ Hok Hw Hcur).
    rewrite (PeriodicIterator_at_box _ _ _ _ _ _ _ _ _ Hok Hdbl Hw Hcur Hr).
    pose proof (Lattice_box_image a_domain M w
                  (Lattice_wrap (m_numBox dbl) (IntVect_add w d)) d) as Himg.
    cbv zeta in Himg. rewrite Himg. tauto.
Qed.

(** Unpacking motion items none of which writes the cell leaves it as it
    was. *)
Lemma GhostStore_unpack_miss (payload : Motion2Way -> IntVect -> Z)
  (l : list Motion2Way) (st : GhostStore) (b : Z) (c : IntVect) :
  (forall m, In m l -> Motion2Way_covers m b c = false) ->
  fold_left (GhostStore_unpack payload) l st b c = st b c.
Proof.
  revert st. induction l as [|a l IH]; intros st Hmiss; [done|].
  simpl. rewrite IH by (intros m Hm; apply Hmiss; by right).
  unfold GhostStore_unpack. rewrite (Hmiss a) by (by left). done.
Qed.

(** Unpacking motion items of which only [m] writes the cell leaves the
    value that [m] carries for it. *)
Lemma GhostStore_unpack_hit (payload : Motion2Way -> IntVect -> Z)
  (l : list Motion2Way) (st : GhostStore) (b : Z) (c : IntVect) (m : Motion2Way) :
  In m l ->
  Motion2Way_covers m b c = true ->
  (forall m', In m' l -> Motion2Way_covers m' b c = true -> m' = m) ->
  fold_left (GhostStore_unpack payload) l st b c = payload m c.
Proof.
  revert st. induction l as [|a l IH]; intros st Hm Hcov Huniq; [done|].
  simpl. destruct (existsb (fun m' => Motion2Way_covers m' b c) l) eqn:E.
  - apply existsb_exists in E as (m' & Hm' & Hcov').
    apply IH; [|done|].
    + rewrite <- (Huniq m'); [done|by right|done].
    + intros m'' Hm''. apply Huniq. by right.
  - rewrite GhostStore_unpack_miss.
    + unfold GhostStore_unpack.
      destruct Hm as [->|Hm]; [by rewrite Hcov|].
      assert (existsb (fun m' => Motion2Way_covers m' b c) l = true) as E'
        by (apply existsb_exists; by exists m).
      congruence.
    + intros m' Hm'. apply not_true_is_false. intros Hcov'.
      assert (existsb (fun m' => Motion2Way_covers m' b c) l = true) as E'
        by (apply existsb_exists; by exists m').
      congruence.
Qed.

(** C6.  On a layout built by [define], [defineExchangeDBL] returns a
    plan in which any two motion items at distinct places that receive
    into the same local box have [regionRecv] boxes with an empty
    intersection.  Hence unpacking the motion items of the plan in any
    order leaves the same value at every cell of every box, whatever the
    buffers hold. *)
Theorem Copier_regionRecv_disjoint (env : ProcEnv) (a_domain : Box)
  (a_maxBoxSize : IntVect) (dbl : DisjointBoxLayout) (cfg : BuildConfig)
  (a_numGhost a_startComp a_numComp a_periodic a_trim : Z) :
  Define_wf env a_domain a_maxBoxSize ->
  DBL_define env a_domain a_maxBoxSize = inr dbl ->
  0 <= a_startComp -> 0 < a_numComp ->
  exists copier,
    Copier_defineExchangeDBL cfg dbl a_numGhost a_startComp a_numComp a_periodic a_trim
    = inr copier
    /\ (forall i j mi mj,
          m_motionItem copier !! i = Some mi ->
          m_motionItem copier !! j = Some mj ->
          i <> j ->
          globalIndex (m_bidxLocal mi) = globalIndex (m_bidxLocal mj) ->
          Box_isEmpty (Box_intersect (m_regionRecv mi) (m_regionRecv mj)) = true)
    /\ (forall (payload : Motion2Way -> IntVect -> Z) (st : GhostStore)
               (order : list Motion2Way),
          Permutation order (m_motionItem copier) ->
          forall b c,
            fold_left (GhostStore_unpack payload) order st b c
            = fold_left (GhostStore_unpack payload) (m_motionItem copier) st b c).
Proof.
  intros Hwf Hdef Hsc Hnc.
  pose proof (DBL_define_ok _ _ _ _ Hwf Hdef) as Hok.
  destruct (Copier_defineExchangeDBL_eq cfg dbl a_numGhost a_startComp a_numComp
              a_periodic a_trim Hsc Hnc) as (copier & Hcop & Hitems & _).
  exists copier. split; [done|].
  assert (forall i j mi mj,
            m_motionItem copier !! i = Some mi ->
            m_motionItem copier !! j = Some mj ->
            i <> j ->
            globalIndex (m_bidxLocal mi) = globalIndex (m_bidxLocal mj) ->
            forall c, Box_contains (m_regionRecv mi) c = true ->
                      Box_contains (m_regionRecv mj) c = true -> False) as Hdisj.
  { destruct (0 <? a_numGhost).
    2:{ rewrite Hitems. intros i j mi mj Hi. by rewrite lookup_nil in Hi. }
    destruct (Copier_plan_keys cfg (sizeofT cfg * a_numComp) dbl a_numGhost a_periodic a_trim)
      as [Hnd _].
    cbv zeta in Hnd. rewrite <- Hitems in Hnd.
    intros i j mi mj Hi Hj Hij Hsame c Hci Hcj.
    assert (forall m, m ∈ m_motionItem copier ->
              exists dit w,
                lit_disjointBoxLayout dit = dbl
                /\ Lattice_contains (m_numBox dbl) w
                /\ lit_current dit = Lattice_linear (m_numBox dbl) w
                /\ In m (Copier_planOfBox cfg (sizeofT cfg * a_numComp) dbl a_numGhost
                           a_periodic a_trim dit)) as Hfrom.
    { intros m Hm. rewrite Hitems in Hm.
      apply list_elem_of_In, in_concat in Hm as (ms & Hms & Hm).
      apply in_map_iff in Hms as (dit & <- & Hdit).
      destruct (DataIterator_positions_lattice _ _ _ _ _ Hok Hdit) as (Hdbl & w & Hw & Hcur).
      by exists dit, w. }
    destruct (Hfrom mi) as (diti & w & Hdbli & Hw & Hcuri & Hmi);
      [by eapply list_elem_of_lookup_2|].
    destruct (Hfrom mj) as (ditj & w' & Hdblj & Hw' & Hcurj & Hmj);
      [by eapply list_elem_of_lookup_2|].
    pose proof (Copier_planOfBox_local _ _ _ _ _ _ _ _ Hmi) as Hli.
    pose proof (Copier_planOfBox_local _ _ _ _ _ _ _ _ Hmj) as Hlj.
    assert (w' = w) as ->.
    { apply (Lattice_linear_inj (m_numBox dbl)); [done|done|]. congruence. }
    pose proof (Copier_planOfBox_recv _ _ _ _ _ _ _ _ _ _ _ _ c Hok Hdbli Hw Hcuri Hmi Hci)
      as Hbi.
    pose proof (Copier_planOfBox_recv _ _ _ _ _ _ _ _ _ _ _ _ c Hok Hdblj Hw Hcurj Hmj Hcj)
      as Hbj.
    destruct Hok as (_ & _ & _ & (M0 & M1 & M2) & _).
    pose proof (Lattice_box_disjoint _ _ _ _ _ M0 M1 M2 Hbi Hbj) as Hd.
    assert (m_sendDir mi = m_sendDir mj) as Hdir.
    { destruct (m_sendDir mi) as [a0 a1 a2], (m_sendDir mj) as [b0 b1 b2], w as [w0 w1 w2].
      unfold IntVect_add in Hd. simpl in Hd. injection Hd as E0 E1 E2.
      f_equal; lia. }
    apply Hij. eapply NoDup_lookup; [exact Hnd| |].
    - rewrite list_lookup_fmap, Hi. reflexivity.
    - rewrite list_lookup_fmap, Hj. simpl. unfold Motion2Way_key. by rewrite Hsame, Hdir. }
  split.
  - intros i j mi mj Hi Hj Hij Hsame. apply Box_isEmpty_no_cell. intros c.
    apply not_true_is_false. intros Hc. apply Box_intersect_contains in Hc as [Hci Hcj].
    exact (Hdisj i j mi mj Hi Hj Hij Hsame c Hci Hcj).
  - intros payload st order Hperm b c.
    assert (forall m m', In m (m_motionItem copier) -> In m' (m_motionItem copier) ->
              Motion2Way_covers m b c = true -> Motion2Way_covers m' b c = true ->
              m' = m) as Huniq.
    { intros m m' Hm Hm' Hcov Hcov'.
      apply list_elem_of_In, list_elem_of_lookup in Hm as [i Hi].
      apply list_elem_of_In, list_elem_of_lookup in Hm' as [j Hj].
      destruct (decide (i = j)) as [->|Hij]; [congruence|].
      exfalso. unfold Motion2Way_covers in Hcov, Hcov'.
      apply andb_true_iff in Hcov as [Hb Hc]. apply andb_true_iff in Hcov' as [Hb' Hc'].
      apply Z.eqb_eq in Hb, Hb'.
      apply (Hdisj i j m m' Hi Hj Hij ltac:(congruence) c Hc Hc'). }
    destruct (existsb (fun m => Motion2Way_covers m b c) (m_motionItem copier)) eqn:E.
    + apply existsb_exists in E as (m & Hm & Hcov).
      rewrite (GhostStore_unpack_hit payload order st b c m);
        [|by apply (Permutation_in _ (Permutation_sym Hperm))|done|].
      * symmetry. apply GhostStore_unpack_hit; [done|done|].
        intros m' Hm' Hcov'. by apply Huniq.
      * intros m' Hm' Hcov'. apply Huniq; [done| |done|done].
        by apply (Permutation_in _ Hperm).
    + assert (forall m, In m (m_motionItem copier) -> Motion2Way_covers m b c = false)
        as Hmiss.
      { intros m Hm. apply not_true_is_false. intros Hcov.
        assert (existsb (fun m => Motion2Way_covers m b c) (m_motionItem copier) = true)
          as E' by (apply existsb_exists; by exists m).
        congruence. }
      rewrite !GhostStore_unpack_miss; [done|done|].
      intros m Hm. apply Hmiss. by apply (Permutation_in _ Hperm).
Qed.

(** The theorem at a row of four unit boxes dealt to two processes,
    periodic in the first direction. *)
Lemma Copier_regionRecv_disjoint_witness :
  exists copier,
    Copier_defineExchangeDBL example_cfg example_row 1 0 1 PeriodicX 0 = inr copier
    /\ (forall i j mi mj,
          m_motionItem copier !! i = Some mi ->
          m_motionItem copier !! j = Some mj ->
          i <> j ->
          globalIndex (m_bidxLocal mi) = globalIndex (m_bidxLocal mj) ->
          Box_isEmpty (Box_intersect (m_regionRecv mi) (m_regionRecv mj)) = true).
Proof.
  destruct (Copier_regionRecv_disjoint (MkProcEnv 2 0)
              (MkBox (IV 0 0 0) (IV 3 0 0)) (IV 1 1 1) example_row example_cfg
              1 0 1 PeriodicX 0)
    as (copier & Hdef & Hdisj & _).
  - unfold Define_wf; simpl. repeat split; lia.
  - vm_compute. reflexivity.
  - lia.
  - lia.
  - exists copier. split; [exact Hdef|exact Hdisj].
Defined.

(* ===================================================================== *)
(** * LevelData::exchange, exchangeBegin and exchangeEnd *)
(* ===================================================================== *)

(** Where the requests are not waited for one at a time (no transport,
    one process, or [MPI_Waitall]), [exchangeBegin] followed by
    [exchangeEnd] makes the calls of [exchange]. *)
Lemma LevelData_exchangeBeginEnd_waitall (cfg : BuildConfig) (ld : LevelData)
  (a_copier : Copier) (completions : list Z) :
  USE_MPI cfg && (1 <? DBL_numProc (ld_disjointBoxLayout ld)) && negb (USE_MPIWAITALL cfg)
  = false ->
  0 < ld_nghost ld ->
  LevelData_exchangeBeginEnd cfg ld a_copier completions
  = LevelData_exchange cfg ld a_copier completions.
Proof.
  intros Hcfg Hg.
  unfold LevelData_exchangeBeginEnd, LevelData_exchange, LevelData_exchangeBegin,
    LevelData_exchangeEnd, LevelData_drain.
  apply Z.ltb_lt in Hg. rewrite Hg.
  destruct (LevelData_motionLoop cfg ld a_copier _ 0 ([], 0)) as [e|acc]; [done|].
  cbn [Outcome_bind].
  destruct (USE_MPI cfg && (1 <? DBL_numProc (ld_disjointBoxLayout ld))); [|done].
  destruct (USE_MPIWAITALL cfg); [done|]. discriminate Hcfg.
Qed.

(** C5.  With the transport compiled in and requests waited for one at a
    time, on a row of four unit boxes dealt to two processes with one
    ghost cell, process 0 has the plan (box 0 from box 1, local), (box 1
    from box 0, local), (box 1 from box 2, remote), and two requests.
    When the receive request completes, [exchange] unpacks the buffer of
    motion item 2 into the ghost cell (2,0,0) of box 1, but [exchangeEnd]
    after [exchangeBegin] unpacks the null buffer of motion item 0 into
    the cell (1,0,0) of box 0: the two do not leave the same data. *)
Theorem LevelData_exchangeEnd_unpacks_wrong_item :
  exists copier ops,
    Copier_defineExchangeDBL example_cfg example_row 1 0 1 0 0 = inr copier
    /\ LevelData_exchangeBegin example_cfg (MkLevelData example_row 1 1) copier = inr ops
    /\ LevelData_exchange example_cfg (MkLevelData example_row 1 1) copier [0; 1]
       = inr (ops ++ [FabLinearIn 1 2 (Some 8) (MkBox (IV 2 0 0) (IV 2 0 0)) 0 1])
    /\ LevelData_exchangeBeginEnd example_cfg (MkLevelData example_row 1 1) copier [0; 1]
       = inr (ops ++ [FabLinearIn 0 0 None (MkBox (IV 1 0 0) (IV 1 0 0)) 0 1]).
Proof.
  eexists. eexists.
  split; [vm_compute; reflexivity|].
  split; [vm_compute; reflexivity|].
  split; vm_compute; reflexivity.
Qed.

(* ===================================================================== *)
(** * IntVect: comparisons, arithmetic and norm *)
(* ===================================================================== *)

(** X1.  [operator==] holds exactly of equal vectors and [operator!=] is
    its negation; [operator<=] is reflexive, antisymmetric and
    transitive; [operator<] asks for less in every component, so it
    implies [<=] and [!=] and is [<=] after adding 1, but it is not the
    strict part of [<=]: (0,0,0) and (1,0,0) are [<=] and [!=], not [<]. *)
Theorem IntVect_comparisons (x y z : IntVect) :
  (IntVect_eqb x y = true <-> x = y)
  /\ IntVect_neb x y = negb (IntVect_eqb x y)
  /\ IntVect_leb x x = true
  /\ (IntVect_leb x y = true -> IntVect_leb y x = true -> x = y)
  /\ (IntVect_leb x y = true -> IntVect_leb y z = true -> IntVect_leb x z = true)
  /\ (IntVect_ltb x y = true -> IntVect_leb x y = true /\ IntVect_neb x y = true)
  /\ IntVect_ltb x y = IntVect_leb (IntVect_addScalar x 1) y
  /\ (IntVect_leb (IV 0 0 0) (IV 1 0 0) = true
      /\ IntVect_neb (IV 0 0 0) (IV 1 0 0) = true
      /\ IntVect_ltb (IV 0 0 0) (IV 1 0 0) = false).
Proof.
  destruct x as [x0 x1 x2], y as [y0 y1 y2], z as [z0 z1 z2].
  split; [apply IntVect_eqb_eq|].
  split.
  { unfold IntVect_neb, IntVect_eqb; simpl.
    destruct (x0 =? y0), (x1 =? y1), (x2 =? y2); reflexivity. }
  split; [apply IntVect_leb_spec; simpl; lia|].
  split.
  { rewrite !IntVect_leb_spec; simpl. intros H1 H2. f_equal; lia. }
  split.
  { rewrite !IntVect_leb_spec; simpl. lia. }
  split.
  { unfold IntVect_ltb, IntVect_neb. rewrite IntVect_leb_spec; simpl.
    rewrite !andb_true_iff, !Z.ltb_lt. intros [[H0 H1] H2].
    split; [lia|]. destruct (Z.eqb_spec x0 y0); [lia|reflexivity]. }
  split.
  { unfold IntVect_ltb, IntVect_leb, IntVect_addScalar; simpl.
    f_equal; [f_equal|].
    - destruct (Z.ltb_spec x0 y0), (Z.leb_spec (x0 + 1) y0); (reflexivity || lia).
    - destruct (Z.ltb_spec x1 y1), (Z.leb_spec (x1 + 1) y1); (reflexivity || lia).
    - destruct (Z.ltb_spec x2 y2), (Z.leb_spec (x2 + 1) y2); (reflexivity || lia). }
  repeat split.
Qed.

(** X2.  Adding and then subtracting the same vector or scalar gives the
    vector back, and adding the negated vector is subtracting.  When no
    component of the divisor is 0, the componentwise quotient undoes the
    componentwise product as long as the products are in the range of
    [int], and the product undoes the quotient exactly when every
    component divides without remainder (the test with which [define]
    rejects a box size). *)
Theorem IntVect_arith_inverse (x y : IntVect) (s : Z) :
  IntVect_sub (IntVect_add x y) y = x
  /\ IntVect_subScalar (IntVect_addScalar x s) s = x
  /\ IntVect_add x (IntVect_neg y) = IntVect_sub x y
  /\ (iv0 y <> 0 -> iv1 y <> 0 -> iv2 y <> 0 ->
      (Int_min <= iv0 x * iv0 y <= Int_max ->
       Int_min <= iv1 x * iv1 y <= Int_max ->
       Int_min <= iv2 x * iv2 y <= Int_max ->
       IntVect_div (IntVect_mul x y) y = x)
      /\ (IntVect_eqb (IntVect_mul (IntVect_div x y) y) x = true
          <-> Z.rem (iv0 x) (iv0 y) = 0 /\ Z.rem (iv1 x) (iv1 y) = 0
              /\ Z.rem (iv2 x) (iv2 y) = 0)).
Proof.
  destruct x as [x0 x1 x2], y as [y0 y1 y2]; simpl.
  unfold IntVect_sub, IntVect_add, IntVect_subScalar, IntVect_addScalar, IntVect_neg,
    IntVect_div, IntVect_mul; simpl.
  split; [f_equal; lia|]. split; [f_equal; lia|]. split; [f_equal; lia|].
  intros Y0 Y1 Y2. split.
  { intros _ _ _. f_equal; apply Z.quot_mul; assumption. }
  rewrite IntVect_eqb_eq. rewrite <- !quot_mul_eq. split.
  - intros [= E0 E1 E2]. auto.
  - intros (E0 & E1 & E2). f_equal; assumption.
Qed.

Lemma IntVect_arith_inverse_witness :
  IntVect_div (IntVect_mul (IV 3 (-4) 5) (IV 2 (-3) 7)) (IV 2 (-3) 7) = IV 3 (-4) 5.
Proof.
  apply (IntVect_arith_inverse (IV 3 (-4) 5) (IV 2 (-3) 7) 0); vm_compute;
    first [discriminate | split; discriminate].
Defined.

(** X3.  [norm1()] is never negative, is 0 only for the zero vector,
    does not change under negation, obeys the triangle inequality and
    bounds [sum()] in absolute value.  On an offset of the 3x3x3 stencil
    it is at most 3, so [1 << norm1] is one of the four trim flags:
    centre, face, edge or corner. *)
Theorem IntVect_norm1_laws (x y : IntVect) :
  0 <= IntVect_norm1 x
  /\ (IntVect_norm1 x = 0 <-> x = IntVect_Zero)
  /\ IntVect_norm1 (IntVect_neg x) = IntVect_norm1 x
  /\ IntVect_norm1 (IntVect_add x y) <= IntVect_norm1 x + IntVect_norm1 y
  /\ Z.abs (IntVect_sum x) <= IntVect_norm1 x
  /\ (Stencil_contains x ->
      IntVect_norm1 x <= g_SpaceDim
      /\ (Z.shiftl 1 (IntVect_norm1 x) = TrimCenter
          \/ Z.shiftl 1 (IntVect_norm1 x) = TrimFace
          \/ Z.shiftl 1 (IntVect_norm1 x) = TrimEdge
          \/ Z.shiftl 1 (IntVect_norm1 x) = TrimCorner)).
Proof.
  destruct x as [x0 x1 x2], y as [y0 y1 y2].
  unfold IntVect_norm1, IntVect_sum, IntVect_neg, IntVect_add, IntVect_Zero,
    Stencil_contains, g_SpaceDim; simpl.
  split; [lia|]. split.
  { split; [intros H; f_equal; lia|intros [= -> -> ->]; reflexivity]. }
  split; [lia|]. split; [lia|]. split; [lia|].
  intros (H0 & H1 & H2). split; [lia|].
  assert (x0 = -1 \/ x0 = 0 \/ x0 = 1) as E0 by lia.
  assert (x1 = -1 \/ x1 = 0 \/ x1 = 1) as E1 by lia.
  assert (x2 = -1 \/ x2 = 0 \/ x2 = 1) as E2 by lia.
  destruct E0 as [-> | [-> | ->]], E1 as [-> | [-> | ->]], E2 as [-> | [-> | ->]];
    vm_compute; tauto.
Qed.

Lemma IntVect_norm1_laws_witness :
  IntVect_norm1 (IV 1 (-1) 0) <= g_SpaceDim.
Proof.
  apply (IntVect_norm1_laws (IV 1 (-1) 0) IntVect_Zero).
  unfold Stencil_contains; simpl. lia.
Defined.

(* ===================================================================== *)
(** * BoxIterator: the end of the iteration *)
(* ===================================================================== *)

Lemma Box_eqb_refl (b : Box) : Box_eqb b b = true.
Proof.
  unfold Box_eqb. apply andb_true_iff. split; by apply IntVect_eqb_eq.
Qed.

Lemma IntVect_neb_true (x y : IntVect) : IntVect_neb x y = true <-> x <> y.
Proof.
  destruct x as [x0 x1 x2], y as [y0 y1 y2]. unfold IntVect_neb; simpl.
  rewrite !orb_true_iff, !negb_true_iff, !Z.eqb_neq. split.
  - intros H [= E0 E1 E2]. lia.
  - intros H.
    destruct (Z.eq_dec x0 y0) as [->|]; [|tauto].
    destruct (Z.eq_dec x1 y1) as [->|]; [|tauto].
    destruct (Z.eq_dec x2 y2) as [->|]; [|tauto]. by destruct H.
Qed.

Lemma IntVect_neb_false (x y : IntVect) : IntVect_neb x y = false <-> x = y.
Proof.
  rewrite <- not_true_iff_false, IntVect_neb_true.
  destruct x as [x0 x1 x2], y as [y0 y1 y2]. split.
  - intros H.
    destruct (Z.eq_dec x0 y0) as [->|]; [|exfalso; apply H; congruence].
    destruct (Z.eq_dec x1 y1) as [->|]; [|exfalso; apply H; congruence].
    destruct (Z.eq_dec x2 y2) as [->|]; [|exfalso; apply H; congruence]. done.
  - intros -> H. by apply H.
Qed.

(** The last cell of a box in the order of the iteration is its upper
    corner. *)
Lemma BoxIterator_after_last (b : Box) :
  Box_isEmpty b = false ->
  BoxIterator_after b (Z.to_nat (Box_size b - 1)) = MkBoxIterator (hiVect b) b.
Proof.
  intros He. pose proof (Box_size_pos b He) as Hpos.
  destruct (BoxIterator_after_spec b (Z.to_nat (Box_size b - 1)) He ltac:(lia))
    as (Hbox & Hok & Hidx).
  destruct (BoxIterator_after b (Z.to_nat (Box_size b - 1))) as [c b'].
  simpl in Hbox. subst b'. f_equal.
  apply (Box_fortranIndex_inj b); [exact Hok| |].
  - apply Box_contains_spec. apply Box_isEmpty_false in He. lia.
  - simpl in Hidx. rewrite Hidx, Z2Nat.id by lia.
    rewrite Box_size_eq. unfold Box_fortranIndex, Box_dimensions, IntVect_add,
      IntVect_sub, IntVect_Unit; simpl. ring.
Qed.

(** When [ok()] first fails the iterator stands at the end cell. *)
Lemma BoxIterator_after_endCell (b : Box) :
  Box_isEmpty b = false ->
  BoxIterator_after b (Z.to_nat (Box_size b)) = BoxIterator_at b (Box_endCell b).
Proof.
  intros He. pose proof (Box_size_pos b He) as Hpos.
  replace (Z.to_nat (Box_size b)) with (S (Z.to_nat (Box_size b - 1))) by lia.
  rewrite BoxIterator_after_succ, (BoxIterator_after_last b He).
  destruct (hiVect b) as [h0 h1 h2] eqn:Hhi.
  rewrite BoxIterator_incr_eq, Hhi. simpl.
  destruct (Z.gtb_spec (h0 + 1) h0); [|lia].
  destruct (Z.gtb_spec (h1 + 1) h1); [|lia].
  unfold BoxIterator_at, Box_endCell. by rewrite Hhi.
Qed.

Lemma loop_visitM_total {St : Type} (cond : St -> Outcome bool) (next : St -> St)
  (n fuel : nat) (s : St) :
  (forall k, (k < n)%nat -> cond (iterate k next s) = inr true) ->
  cond (iterate n next s) = inr false ->
  (n <= fuel)%nat ->
  loop_visitM cond (fun s => inr (next s)) fuel s
  = inr (map (fun k => iterate k next s) (seq 0 n)).
Proof.
  revert fuel s. induction n as [|n IH]; intros fuel s Hok Hend Hfuel.
  - simpl in Hend. destruct fuel; simpl; by rewrite Hend.
  - destruct fuel as [|fuel]; [lia|].
    pose proof (Hok 0%nat ltac:(lia)) as H0. simpl in H0.
    simpl loop_visitM. rewrite H0. cbn [Outcome_bind].
    rewrite (IH fuel (next s)); [|intros k Hk; apply (Hok (S k)); lia|exact Hend|lia].
    cbn [Outcome_bind]. simpl. rewrite <- seq_shift, map_map. reflexivity.
Qed.

(** X4.  On a box that is not empty, the iterator reaches after
    [size(b)] increments the state that the two-argument constructor
    builds at the cell (lo_0, lo_1, hi_2 + 1).  Before that,
    [operator!=] against this end iterator passes its assertion and
    answers true; there it answers false.  So the loop
    [for (it = BoxIterator(b); it != end; ++it)] visits the cells that
    the loop on [ok()] visits, in the same order. *)
Theorem BoxIterator_end_iterator (b : Box) :
  Box_isEmpty b = false ->
  let a_end := BoxIterator_at b (Box_endCell b) in
  BoxIterator_after b (Z.to_nat (Box_size b)) = a_end
  /\ BoxIterator_ok a_end = false
  /\ (forall n, Z.of_nat n < Box_size b ->
        BoxIterator_ne (BoxIterator_after b n) a_end = inr true)
  /\ BoxIterator_ne (BoxIterator_after b (Z.to_nat (Box_size b))) a_end = inr false
  /\ BoxIterator_visitUntil b a_end
     = BoxIterator_visit (Box_fuel b) (BoxIterator_begin b).
Proof.
  intros He a_end. pose proof (Box_size_pos b He) as Hpos.
  assert (Box_count b = Z.to_nat (Box_size b)) as Hcount.
  { unfold Box_count. by rewrite He. }
  pose proof (BoxIterator_after_endCell b He) as Hend. fold a_end in Hend.
  assert (BoxIterator_ok a_end = false) as Hnok.
  { rewrite <- Hend, <- Hcount. apply BoxIterator_after_end. }
  assert (forall n, Z.of_nat n < Box_size b ->
            BoxIterator_ne (BoxIterator_after b n) a_end = inr true) as Hne.
  { intros n Hn. unfold BoxIterator_ne.
    rewrite BoxIterator_after_box. unfold a_end in *.
    cbn [BoxIterator_at bit_box bit_current] in *.
    rewrite Box_eqb_refl. cbn [CH_assert Outcome_bind]. f_equal.
    apply IntVect_neb_true. intros E.
    destruct (BoxIterator_after_spec b n He Hn) as (_ & Hok & _).
    unfold BoxIterator_ok in Hok, Hnok. rewrite BoxIterator_after_box in Hok.
    cbn [BoxIterator_at bit_box bit_current] in Hnok.
    rewrite E, Hnok in Hok. discriminate Hok. }
  assert (BoxIterator_ne (BoxIterator_after b (Z.to_nat (Box_size b))) a_end = inr false)
    as Hstop.
  { rewrite Hend. unfold BoxIterator_ne. rewrite Box_eqb_refl.
    cbn [CH_assert Outcome_bind]. f_equal. by apply IntVect_neb_false. }
  split; [done|]. split; [done|]. split; [done|]. split; [done|].
  rewrite BoxIterator_visit_cells by apply Box_count_fuel.
  unfold BoxIterator_visitUntil.
  rewrite (loop_visitM_total _ BoxIterator_incr (Box_count b));
    [| |rewrite Hcount; exact Hstop|apply Box_count_fuel].
  - cbn [Outcome_bind]. unfold Box_cells. by rewrite map_map.
  - intros k Hk. apply Hne. lia.
Qed.

Lemma BoxIterator_end_iterator_witness :
  BoxIterator_visitUntil (MkBox (IV 0 0 0) (IV 1 2 1))
    (BoxIterator_at (MkBox (IV 0 0 0) (IV 1 2 1)) (IV 0 0 2))
  = BoxIterator_visit 12 (BoxIterator_begin (MkBox (IV 0 0 0) (IV 1 2 1))).
Proof.
  apply (BoxIterator_end_iterator (MkBox (IV 0 0 0) (IV 1 2 1))). reflexivity.
Defined.

(** X5.  A BoxIterator built on an empty box is not [ok()] from the
    start, so the loop over it visits no cell, whatever the fuel; the
    default-constructed iterator is not [ok()] either. *)
Theorem BoxIterator_empty_box (b : Box) (fuel : nat) :
  Box_isEmpty b = true ->
  BoxIterator_ok (BoxIterator_begin b) = false
  /\ BoxIterator_visit fuel (BoxIterator_begin b) = inr []
  /\ BoxIterator_ok BoxIterator_default = false.
Proof.
  intros He.
  assert (BoxIterator_ok (BoxIterator_begin b) = false) as Hnok.
  { unfold BoxIterator_ok, BoxIterator_begin; simpl.
    by apply Box_isEmpty_no_cell. }
  split; [done|]. split; [|reflexivity].
  unfold BoxIterator_visit. destruct fuel; simpl; by rewrite Hnok.
Qed.

Lemma BoxIterator_empty_box_witness :
  BoxIterator_visit 5 (BoxIterator_begin (MkBox (IV 0 0 0) (IV 3 (-1) 3))) = inr [].
Proof.
  apply (BoxIterator_empty_box (MkBox (IV 0 0 0) (IV 3 (-1) 3)) 5). reflexivity.
Defined.

(* ===================================================================== *)
(** * LayoutIterator and DataIterator: stepping *)
(* ===================================================================== *)

(** X6.  On a LayoutIterator, [+= n] is [n] prefix increments, [--]
    undoes [++], [-= a] undoes [+= a], and after [+= a] the iterator
    yields the BoxIndex with both indices moved by [a]; none of the
    steps looks at the bounds of the layout. *)
Theorem LayoutIterator_stepping (it : LayoutIterator) (a : Z) (n : nat) :
  LayoutIterator_advance it (Z.of_nat n) = iterate n LayoutIterator_incr it
  /\ LayoutIterator_decr (LayoutIterator_incr it) = it
  /\ LayoutIterator_incr (LayoutIterator_decr it) = it
  /\ LayoutIterator_retreat (LayoutIterator_advance it a) a = it
  /\ LayoutIterator_deref (LayoutIterator_advance it a)
     = MkBoxIndex (globalIndex (LayoutIterator_deref it) + a)
                  (localIndex (LayoutIterator_deref it) + a).
Proof.
  destruct it as [dbl cur size].
  split; [by rewrite LayoutIterator_iterate|].
  unfold LayoutIterator_decr, LayoutIterator_incr, LayoutIterator_retreat,
    LayoutIterator_advance, LayoutIterator_deref; simpl.
  split; [f_equal; lia|]. split; [f_equal; lia|]. split; [f_equal; lia|].
  f_equal; lia.
Qed.

(** X7.  The loop over a DataIterator ends and yields, in order, the
    BoxIndex that [dataIndex(i)] builds for i = 0, ..., localSize - 1
    (none when localSize is not positive); [reset()] at any position of
    the loop gives back the iterator as constructed. *)
Theorem DataIterator_yields_dataIndex (dbl : DisjointBoxLayout) :
  exists its,
    DataIterator_visit dbl = inr its
    /\ map LayoutIterator_deref its
       = map (fun i => DBL_dataIndex dbl (Z.of_nat i))
             (seq 0 (Z.to_nat (DBL_localSize dbl)))
    /\ (forall it, it ∈ its -> DataIterator_reset it = DataIterator_new dbl).
Proof.
  eexists. split; [apply DataIterator_visit_eq|]. split.
  - rewrite map_map. apply map_ext. intros i.
    unfold LayoutIterator_deref, DBL_dataIndex, DBL_localIdxBegin; simpl. f_equal. lia.
  - intros it Hit. apply list_elem_of_In, in_map_iff in Hit as (k & <- & _).
    reflexivity.
Qed.

(* ===================================================================== *)
(** * DisjointBoxLayout: linear indices, boxes and owners *)
(* ===================================================================== *)

Lemma Layout_linearNbrOffset (env : ProcEnv) (a_domain : Box) (M : IntVect)
  (dbl : DisjointBoxLayout) (w : IntVect) :
  Layout_ok env a_domain M dbl ->
  DBL_linearNbrOffset dbl w = Lattice_linear (m_numBox dbl) w.
Proof.
  intros (_ & _ & _ & _ & _ & Hstride & _).
  unfold DBL_linearNbrOffset, Lattice_linear. rewrite Hstride. iv_simpl. ring.
Qed.

(** X8.  On a layout built by [define], the decoding of a linear index
    in the constructors of the neighbour iterators and [linearNbrOffset]
    are inverse to each other: a lattice position is encoded into an
    index below [size()] from which it is decoded again, every index
    from 0 to [size() - 1] decodes to a lattice position that encodes
    back to it, and [linearNbrOffset] is additive, so the index of the
    neighbour at offset [d] is the index of the box plus
    [linearNbrOffset(d)]. *)
Theorem Layout_linear_roundtrip (env : ProcEnv) (a_domain : Box) (a_maxBoxSize : IntVect)
  (dbl : DisjointBoxLayout) :
  Define_wf env a_domain a_maxBoxSize ->
  DBL_define env a_domain a_maxBoxSize = inr dbl ->
  (forall w, Lattice_contains (DBL_dimensions dbl) w ->
     0 <= DBL_linearNbrOffset dbl w < DBL_size dbl
     /\ Layout_ivBase (m_stride dbl) (DBL_linearNbrOffset dbl w) = w)
  /\ (forall k, 0 <= k < DBL_size dbl ->
        Lattice_contains (DBL_dimensions dbl) (Layout_ivBase (m_stride dbl) k)
        /\ DBL_linearNbrOffset dbl (Layout_ivBase (m_stride dbl) k) = k)
  /\ (forall a b,
        DBL_linearNbrOffset dbl (IntVect_add a b)
        = DBL_linearNbrOffset dbl a + DBL_linearNbrOffset dbl b).
Proof.
  intros Hwf Hdef. pose proof (DBL_define_ok _ _ _ _ Hwf Hdef) as Hok.
  unfold DBL_dimensions, DBL_size.
  pose proof Hok as (_ & _ & (N0 & N1 & N2) & _ & _ & _ & Hsize & _).
  split; [|split].
  - intros w Hw. rewrite (Layout_linearNbrOffset _ _ _ _ _ Hok), Hsize.
    split; [by apply Lattice_linear_bounds|by eapply Layout_ok_ivBase].
  - intros k Hk. rewrite Hsize in Hk.
    destruct (Lattice_linear_surj (m_numBox dbl) k) as (w & Hw & <-); [lia..|].
    rewrite (Layout_ok_ivBase _ _ _ _ _ Hok Hw).
    split; [done|apply (Layout_linearNbrOffset _ _ _ _ _ Hok)].
  - intros a b. unfold DBL_linearNbrOffset, IntVect_add. iv_simpl. ring.
Qed.

Lemma Layout_linear_roundtrip_witness :
  DBL_linearNbrOffset example_cube (Layout_ivBase (m_stride example_cube) 13) = 13.
Proof.
  apply (Layout_linear_roundtrip (MkProcEnv 1 0) (MkBox (IV 0 0 0) (IV 2 2 2)) (IV 1 1 1)
           example_cube).
  - unfold Define_wf; simpl. repeat split; lia.
  - vm_compute. reflexivity.
  - vm_compute. split; [discriminate|reflexivity].
Defined.

(** X9.  [define] returns a layout with [dimensions()] the quotient of
    the dimensions of the domain by the box size and [size()] their
    product; the box with linear index [k] has its lower corner at
    [domain.lo + maxBoxSize * p], where [p] is the lattice position
    decoded from [k], has the dimensions [maxBoxSize] and lies in the
    domain.  The first box starts at the lower corner of the domain and
    the last one ends at its upper corner. *)
Theorem DBL_define_boxes (env : ProcEnv) (a_domain : Box) (a_maxBoxSize : IntVect)
  (dbl : DisjointBoxLayout) :
  Define_wf env a_domain a_maxBoxSize ->
  DBL_define env a_domain a_maxBoxSize = inr dbl ->
  DBL_problemDomain dbl = a_domain
  /\ DBL_dimensions dbl = IntVect_div (Box_dimensions a_domain) a_maxBoxSize
  /\ DBL_size dbl = IntVect_product (DBL_dimensions dbl)
  /\ Z.of_nat (length (m_boxes dbl)) = DBL_size dbl
  /\ (forall k l, 0 <= k < DBL_size dbl ->
        let b := DBL_box dbl (MkBoxIndex k l) in
        loVect b
        = IntVect_add (loVect a_domain)
            (IntVect_mul a_maxBoxSize (Layout_ivBase (m_stride dbl) k))
        /\ Box_dimensions b = a_maxBoxSize
        /\ Box_containsBox a_domain b = true)
  /\ loVect (DBL_box dbl (MkBoxIndex 0 0)) = loVect a_domain
  /\ hiVect (DBL_box dbl (MkBoxIndex (DBL_size dbl - 1) 0)) = hiVect a_domain.
Proof.
  intros Hwf Hdef. pose proof (DBL_define_ok _ _ _ _ Hwf Hdef) as Hok.
  unfold DBL_dimensions, DBL_size, DBL_problemDomain, DBL_box. cbn [globalIndex].
  pose proof Hok as (_ & Hdom & (N0 & N1 & N2) & (M0 & M1 & M2) & Hdim & Hstride & Hsize
                     & _ & _ & _ & Hlen & Hent).
  assert (forall k, 0 <= k < m_size dbl ->
            exists w, Lattice_contains (m_numBox dbl) w
                      /\ Layout_ivBase (m_stride dbl) k = w
                      /\ entry_box (DBL_getLinear dbl k) = Lattice_box a_domain a_maxBoxSize w)
    as Hbox.
  { intros k Hk. rewrite Hsize in Hk.
    destruct (Lattice_linear_surj (m_numBox dbl) k) as (w & Hw & <-); [lia..|].
    exists w. split; [done|]. split; [by eapply Layout_ok_ivBase|].
    by rewrite (Hent w Hw). }
  split; [done|]. split.
  { rewrite Hdim. destruct (m_numBox dbl) as [n0 n1 n2], a_maxBoxSize as [m0 m1 m2].
    unfold IntVect_div, IntVect_mul; simpl in *.
    f_equal; symmetry; apply Z.quot_mul; lia. }
  split.
  { rewrite Hsize. unfold IntVect_product. ring. }
  split; [lia|].
  split.
  { intros k _ Hk. cbv zeta. destruct (Hbox k Hk) as (w & Hw & -> & ->).
    split; [reflexivity|]. split.
    - unfold Box_dimensions, Lattice_box, IntVect_add, IntVect_sub, IntVect_mul,
        IntVect_Unit; simpl. destruct a_maxBoxSize; simpl. f_equal; lia.
    - by apply (Lattice_box_in_domain a_domain a_maxBoxSize (m_numBox dbl)). }
  split.
  { assert (Lattice_contains (m_numBox dbl) (IV 0 0 0)) as H0
      by (unfold Lattice_contains; simpl; lia).
    pose proof (Hent _ H0) as E. unfold Lattice_linear in E; simpl in E.
    replace (0 + iv0 (m_numBox dbl) * (0 + iv1 (m_numBox dbl) * 0)) with 0 in E by ring.
    rewrite E. unfold Lattice_box, IntVect_add, IntVect_mul; simpl.
    destruct (loVect a_domain); simpl. f_equal; lia. }
  { set (N := m_numBox dbl) in *.
    assert (Lattice_contains N (IV (iv0 N - 1) (iv1 N - 1) (iv2 N - 1))) as Hl
      by (unfold Lattice_contains; simpl; lia).
    pose proof (Hent _ Hl) as E. unfold Lattice_linear in E; simpl in E.
    replace (iv0 N - 1 + iv0 N * (iv1 N - 1 + iv1 N * (iv2 N - 1)))
      with (m_size dbl - 1) in E by (rewrite Hsize; ring).
    rewrite E. unfold Lattice_box, IntVect_add, IntVect_sub, IntVect_mul, IntVect_Unit,
      Box_dimensions in *; simpl in *.
    destruct a_domain as [[l0 l1 l2] [h0 h1 h2]], a_maxBoxSize as [m0 m1 m2].
    simpl in *. injection Hdim as E0 E1 E2. f_equal; lia. }
Qed.

Lemma DBL_define_boxes_witness :
  DBL_size example_cube = IntVect_product (DBL_dimensions example_cube).
Proof.
  apply (DBL_define_boxes (MkProcEnv 1 0) (MkBox (IV 0 0 0) (IV 2 2 2)) (IV 1 1 1)
           example_cube); [|vm_compute; reflexivity].
  unfold Define_wf; simpl. repeat split; lia.
Defined.

(** X10.  [define] deals the boxes to the processes in equal blocks of
    consecutive linear indices: [localSize() * numProc() = size()], this
    process starts at [procID() * localSize()], and the box with linear
    index [k] is owned by process [k / localSize()], a process of the
    run; process [p] owns exactly the indices from [p * localSize()] to
    [(p + 1) * localSize() - 1].  On one process every box is local. *)
Theorem DBL_define_owners (env : ProcEnv) (a_domain : Box) (a_maxBoxSize : IntVect)
  (dbl : DisjointBoxLayout) :
  Define_wf env a_domain a_maxBoxSize ->
  DBL_define env a_domain a_maxBoxSize = inr dbl ->
  DBL_numProc dbl = s_numProc env
  /\ DBL_procID dbl = s_procID env
  /\ 1 <= DBL_localSize dbl
  /\ DBL_localSize dbl * DBL_numProc dbl = DBL_size dbl
  /\ DBL_localIdxBegin dbl = DBL_procID dbl * DBL_localSize dbl
  /\ (forall k l, 0 <= k < DBL_size dbl ->
        DBL_proc dbl (MkBoxIndex k l) = k ÷ DBL_localSize dbl
        /\ 0 <= DBL_proc dbl (MkBoxIndex k l) < DBL_numProc dbl
        /\ forall p, DBL_proc dbl (MkBoxIndex k l) = p
                     <-> p * DBL_localSize dbl <= k < (p + 1) * DBL_localSize dbl)
  /\ (DBL_numProc dbl = 1 ->
      DBL_localSize dbl = DBL_size dbl /\ DBL_localIdxBegin dbl = 0
      /\ DBL_localIdxEnd dbl = DBL_size dbl).
Proof.
  intros Hwf Hdef. pose proof (DBL_define_ok _ _ _ _ Hwf Hdef) as Hok.
  pose proof Hok as (Henv & _ & _ & _ & _ & _ & _ & (Hnl & Hsp) & (HP & Hid) & Hbeg & _).
  unfold DBL_numProc, DBL_procID, DBL_localSize, DBL_size, DBL_localIdxBegin,
    DBL_localIdxEnd, DBL_proc. cbn [globalIndex]. rewrite Henv.
  split; [done|]. split; [done|]. split; [done|]. split; [lia|]. split; [done|].
  split.
  - intros k _ Hk. rewrite (Layout_proc _ _ _ _ k Hok Hk).
    set (ls := m_numLocalBox dbl) in *.
    pose proof (Z.quot_rem' k ls) as Hqr.
    pose proof (Z.rem_bound_pos k ls ltac:(lia) ltac:(lia)) as Hr.
    assert (0 <= k ÷ ls) as Hq0 by (apply Z.quot_pos; lia).
    split; [done|]. split.
    + split; [done|]. apply Z.quot_lt_upper_bound; [lia|lia|]. lia.
    + intros p. split.
      * intros <-. lia.
      * intros Hp. symmetry. apply Z.quot_unique with (r := k - ls * p); [lia| |ring].
        split; lia.
  - intros H1. rewrite H1 in *. lia.
Qed.

Lemma DBL_define_owners_witness :
  DBL_localSize example_row * DBL_numProc example_row = DBL_size example_row.
Proof.
  apply (DBL_define_owners (MkProcEnv 2 0) (MkBox (IV 0 0 0) (IV 3 0 0)) (IV 1 1 1)
           example_row); [|vm_compute; reflexivity].
  unfold Define_wf; simpl. repeat split; lia.
Defined.




(* ===================================================================== *)
(** * NeighborIterator and PeriodicIterator: the two neighbour relations *)
(* ===================================================================== *)

Lemma NeighborIterator_visit_offsets (lit : LayoutIterator) (a_trim : Z) :
  NeighborIterator_visit lit a_trim
  = inr (map (NeighborIterator_at lit a_trim) (NeighborIterator_offsets lit a_trim)).
Proof. apply NeighborIterator_visit_eq. Qed.

Lemma PeriodicIterator_visit_offsets (lit : LayoutIterator) (a_trim a_periodic : Z) :
  PeriodicIterator_visit lit a_trim a_periodic
  = inr (map (PeriodicIterator_at lit a_trim a_periodic)
           (PeriodicIterator_offsets lit a_trim a_periodic)).
Proof. apply PeriodicIterator_visit_eq. Qed.

Section OffsetsOnLattice.

Context (env : ProcEnv) (a_domain : Box) (M : IntVect) (dbl : DisjointBoxLayout).
Context (lit : LayoutIterator) (w : IntVect).
Hypothesis Hok : Layout_ok env a_domain M dbl.
Hypothesis Hlit : lit_disjointBoxLayout lit = dbl.
Hypothesis Hw : Lattice_contains (m_numBox dbl) w.
Hypothesis Hcur : lit_current lit = Lattice_linear (m_numBox dbl) w.

Lemma NeighborIterator_offsets_spec (a_trim : Z) (d : IntVect) :
  d ∈ NeighborIterator_offsets lit a_trim
  <-> Stencil_contains d
      /\ Lattice_contains (m_numBox dbl) (IntVect_add w d)
      /\ d <> IntVect_Zero
      /\ maskBit a_trim (IntVect_norm1 d) = false.
Proof.
  unfold NeighborIterator_offsets.
  rewrite list_elem_of_filter, Box_cells_elem, Hlit, Hcur.
  rewrite trim_keeps, (Layout_nbrBox_contains _ _ _ _ _ _ Hok Hw). tauto.
Qed.

Lemma PeriodicIterator_offsets_spec (a_trim a_periodic : Z) (d : IntVect) :
  d ∈ PeriodicIterator_offsets lit a_trim a_periodic
  <-> Stencil_contains d
      /\ Periodic_reach a_periodic (m_numBox dbl) w d
      /\ ~ Lattice_contains (m_numBox dbl) (IntVect_add w d)
      /\ d <> IntVect_Zero
      /\ maskBit a_trim (IntVect_norm1 d) = false.
Proof.
  unfold PeriodicIterator_offsets. cbv zeta.
  rewrite list_elem_of_filter, Box_cells_elem.
  rewrite <- (Periodic_kept env a_domain M dbl lit w a_trim a_periodic Hok Hlit Hw Hcur d).
  tauto.
Qed.

(** The LayoutIterator under a NeighborIterator stands at the neighbour. *)
Lemma NeighborIterator_at_layout (a_trim : Z) (d : IntVect) :
  nit_layout (NeighborIterator_at lit a_trim d)
  = MkLayoutIterator dbl (Lattice_linear (m_numBox dbl) (IntVect_add w d)) (lit_size lit).
Proof.
  unfold NeighborIterator_at, LayoutIterator_setCurrent. cbn [nit_layout].
  by rewrite Hlit, Hcur, (Layout_linear_offset _ _ _ _ _ _ Hok).
Qed.

(** The LayoutIterator under a PeriodicIterator stands at the wrapped
    position. *)
Lemma PeriodicIterator_at_layout (a_trim a_periodic : Z) (d : IntVect) :
  Periodic_reach a_periodic (m_numBox dbl) w d ->
  pit_layout (PeriodicIterator_at lit a_trim a_periodic d)
  = MkLayoutIterator dbl
      (Lattice_linear (m_numBox dbl) (Lattice_wrap (m_numBox dbl) (IntVect_add w d)))
      (lit_size lit).
Proof.
  intros Hr.
  destruct (Periodic_init_fields env a_domain M dbl lit w a_trim a_periodic
              Hok Hlit Hw Hcur) as (Hlay & Hbase & _).
  unfold PeriodicIterator_at, PeriodicIterator_atOffset, LayoutIterator_setCurrent.
  cbn [pit_layout].
  rewrite Hlay, Hbase, Hlit, (Layout_linear_offset _ _ _ _ _ _ Hok).
  by rewrite (Periodic_wrap env a_domain M dbl lit w a_trim a_periodic Hok Hlit Hw Hcur d Hr).
Qed.

End OffsetsOnLattice.

Lemma IntVect_norm1_neg (d : IntVect) : IntVect_norm1 (IntVect_neg d) = IntVect_norm1 d.
Proof. destruct d. unfold IntVect_norm1, IntVect_neg; simpl. lia. Qed.

Lemma IntVect_neg_zero (d : IntVect) : IntVect_neg d = IntVect_Zero <-> d = IntVect_Zero.
Proof.
  destruct d as [d0 d1 d2]. unfold IntVect_neg, IntVect_Zero; simpl.
  split; intros [= E0 E1 E2]; f_equal; lia.
Qed.

Lemma IntVect_add_neg (w d : IntVect) : IntVect_add (IntVect_add w d) (IntVect_neg d) = w.
Proof.
  destruct w, d. unfold IntVect_add, IntVect_neg; simpl. f_equal; lia.
Qed.

(** X12.  On a layout built by [define] the neighbour relation is
    symmetric: when the loop over a NeighborIterator on the box at
    lattice position [w] runs at an iterator [it], the loop over a
    NeighborIterator built on [it] itself (it is a LayoutIterator that
    stands at the neighbour), with the same trim mask, runs at an
    iterator with the opposite direction that yields the BoxIndex of the
    box at [w]. *)
Theorem NeighborIterator_symmetric (env : ProcEnv) (a_domain : Box)
  (a_maxBoxSize : IntVect) (dbl : DisjointBoxLayout)
  (lit : LayoutIterator) (w : IntVect) (a_trim : Z) :
  Define_wf env a_domain a_maxBoxSize ->
  DBL_define env a_domain a_maxBoxSize = inr dbl ->
  lit_disjointBoxLayout lit = dbl ->
  Lattice_contains (DBL_dimensions dbl) w ->
  lit_current lit = Lattice_linear (DBL_dimensions dbl) w ->
  exists its,
    NeighborIterator_visit lit a_trim = inr its
    /\ forall it, it ∈ its ->
         exists its',
           NeighborIterator_visit (nit_layout it) a_trim = inr its'
           /\ exists it', it' ∈ its'
                /\ NeighborIterator_nbrDir it' = IntVect_neg (NeighborIterator_nbrDir it)
                /\ NeighborIterator_deref it' = LayoutIterator_deref lit.
Proof.
  intros Hwf Hdef Hlit Hw Hcur. unfold DBL_dimensions in *.
  pose proof (DBL_define_ok _ _ _ _ Hwf Hdef) as Hok.
  eexists. split; [apply NeighborIterator_visit_offsets|].
  intros it Hit. apply list_elem_of_In, in_map_iff in Hit as (d & <- & Hd).
  apply list_elem_of_In in Hd.
  apply (NeighborIterator_offsets_spec _ _ _ _ _ _ Hok Hlit Hw Hcur) in Hd
    as (Hs & Hwd & Hnz & Htrim).
  rewrite (NeighborIterator_at_layout _ _ _ _ _ _ Hok Hlit Hcur).
  set (lit' := MkLayoutIterator dbl (Lattice_linear (m_numBox dbl) (IntVect_add w d))
                 (lit_size lit)).
  eexists. split; [apply NeighborIterator_visit_offsets|].
  exists (NeighborIterator_at lit' a_trim (IntVect_neg d)). split; [|split].
  - apply list_elem_of_In, in_map, list_elem_of_In.
    apply (NeighborIterator_offsets_spec _ _ _ _ lit' (IntVect_add w d) Hok eq_refl Hwd eq_refl).
    rewrite IntVect_add_neg, IntVect_norm1_neg, IntVect_neg_zero.
    split; [|done]. unfold Stencil_contains, IntVect_neg in *. simpl. lia.
  - reflexivity.
  - unfold NeighborIterator_deref.
    rewrite (NeighborIterator_at_layout _ _ _ _ lit' (IntVect_add w d) Hok eq_refl eq_refl).
    rewrite IntVect_add_neg. unfold LayoutIterator_deref. cbn [lit_current lit_disjointBoxLayout].
    by rewrite Hlit, Hcur.
Qed.

Lemma NeighborIterator_symmetric_witness :
  exists its,
    NeighborIterator_visit (MkLayoutIterator example_cube 0 27) TrimCorner = inr its
    /\ forall it, it ∈ its ->
         exists its',
           NeighborIterator_visit (nit_layout it) TrimCorner = inr its'
           /\ exists it', it' ∈ its'
                /\ NeighborIterator_nbrDir it' = IntVect_neg (NeighborIterator_nbrDir it)
                /\ NeighborIterator_deref it'
                   = LayoutIterator_deref (MkLayoutIterator example_cube 0 27).
Proof.
  apply (NeighborIterator_symmetric (MkProcEnv 1 0) (MkBox (IV 0 0 0) (IV 2 2 2))
           (IV 1 1 1) example_cube (MkLayoutIterator example_cube 0 27) (IV 0 0 0)).
  - unfold Define_wf; simpl. repeat split; lia.
  - vm_compute. reflexivity.
  - reflexivity.
  - unfold Lattice_contains; simpl. lia.
  - reflexivity.
Defined.

(** Stepping back from the wrapped coordinate by the same offset leaves
    the lattice on the opposite side and wraps to where one came from. *)
Lemma wrapCoord_back (n x dd : Z) (bit : bool) :
  1 <= n -> 0 <= x < n -> -1 <= dd <= 1 ->
  (if bit then -1 <= x + dd <= n else 0 <= x + dd <= n - 1) ->
  (if bit then -1 <= wrapCoord n (x + dd) - dd <= n
   else 0 <= wrapCoord n (x + dd) - dd <= n - 1)
  /\ wrapCoord n (wrapCoord n (x + dd) - dd) = x
  /\ (0 <= x + dd < n <-> 0 <= wrapCoord n (x + dd) - dd < n).
Proof.
  intros Hn Hx Hd Hr. unfold wrapCoord.
  destruct bit;
    destruct (Z.ltb_spec (x + dd) 0), (Z.leb_spec n (x + dd));
    repeat match goal with
           | |- context [?a <? ?b] => destruct (Z.ltb_spec a b)
           | |- context [?a <=? ?b] => destruct (Z.leb_spec a b)
           end; lia.
Qed.

Lemma Periodic_back (a_periodic : Z) (N w d : IntVect) :
  1 <= iv0 N -> 1 <= iv1 N -> 1 <= iv2 N ->
  Lattice_contains N w ->
  Stencil_contains d ->
  Periodic_reach a_periodic N w d ->
  ~ Lattice_contains N (IntVect_add w d) ->
  let w' := Lattice_wrap N (IntVect_add w d) in
  Periodic_reach a_periodic N w' (IntVect_neg d)
  /\ ~ Lattice_contains N (IntVect_add w' (IntVect_neg d))
  /\ Lattice_wrap N (IntVect_add w' (IntVect_neg d)) = w.
Proof.
  intros N0 N1 N2 (W0 & W1 & W2) (S0 & S1 & S2) (R0 & R1 & R2) Hout.
  destruct N as [n0 n1 n2], w as [w0 w1 w2], d as [d0 d1 d2].
  unfold Periodic_reach, Lattice_contains, Lattice_wrap, IntVect_add, IntVect_neg in *.
  simpl in *.
  destruct (wrapCoord_back n0 w0 d0 (maskBit a_periodic 0) N0 W0 S0 R0) as (A0 & B0 & C0).
  destruct (wrapCoord_back n1 w1 d1 (maskBit a_periodic 1) N1 W1 S1 R1) as (A1 & B1 & C1).
  destruct (wrapCoord_back n2 w2 d2 (maskBit a_periodic 2) N2 W2 S2 R2) as (A2 & B2 & C2).
  replace (wrapCoord n0 (w0 + d0) + - d0) with (wrapCoord n0 (w0 + d0) - d0) by lia.
  replace (wrapCoord n1 (w1 + d1) + - d1) with (wrapCoord n1 (w1 + d1) - d1) by lia.
  replace (wrapCoord n2 (w2 + d2) + - d2) with (wrapCoord n2 (w2 + d2) - d2) by lia.
  split; [tauto|]. split; [tauto|]. by rewrite B0, B1, B2.
Qed.

(** X13.  On a layout built by [define] the periodic neighbour relation
    is symmetric: when the loop over a PeriodicIterator on the box at
    lattice position [w] runs at an iterator [it], the loop over a
    PeriodicIterator built on [it] itself (which stands at the wrapped
    position), with the same masks, runs at an iterator with the
    opposite direction that yields the BoxIndex of the box at [w]. *)
Theorem PeriodicIterator_symmetric (env : ProcEnv) (a_domain : Box)
  (a_maxBoxSize : IntVect) (dbl : DisjointBoxLayout)
  (lit : LayoutIterator) (w : IntVect) (a_trim a_periodic : Z) :
  Define_wf env a_domain a_maxBoxSize ->
  DBL_define env a_domain a_maxBoxSize = inr dbl ->
  lit_disjointBoxLayout lit = dbl ->
  Lattice_contains (DBL_dimensions dbl) w ->
  lit_current lit = Lattice_linear (DBL_dimensions dbl) w ->
  exists its,
    PeriodicIterator_visit lit a_trim a_periodic = inr its
    /\ forall it, it ∈ its ->
         exists its',
           PeriodicIterator_visit (pit_layout it) a_trim a_periodic = inr its'
           /\ exists it', it' ∈ its'
                /\ PeriodicIterator_nbrDir it' = IntVect_neg (PeriodicIterator_nbrDir it)
                /\ PeriodicIterator_deref it' = LayoutIterator_deref lit.
Proof.
  intros Hwf Hdef Hlit Hw Hcur. unfold DBL_dimensions in *.
  pose proof (DBL_define_ok _ _ _ _ Hwf Hdef) as Hok.
  pose proof Hok as (_ & _ & (N0 & N1 & N2) & _).
  eexists. split; [apply PeriodicIterator_visit_offsets|].
  intros it Hit. apply list_elem_of_In, in_map_iff in Hit as (d & <- & Hd).
  apply list_elem_of_In in Hd.
  apply (PeriodicIterator_offsets_spec _ _ _ _ _ _ Hok Hlit Hw Hcur) in Hd
    as (Hs & Hr & Hout & Hnz & Htrim).
  rewrite (PeriodicIterator_at_layout _ _ _ _ _ _ Hok Hlit Hw Hcur _ _ _ Hr).
  set (w' := Lattice_wrap (m_numBox dbl) (IntVect_add w d)).
  set (lit' := MkLayoutIterator dbl (Lattice_linear (m_numBox dbl) w') (lit_size lit)).
  pose proof (Lattice_wrap_contains a_periodic _ _ _ N0 N1 N2 Hr) as Hw'. fold w' in Hw'.
  destruct (Periodic_back a_periodic _ _ _ N0 N1 N2 Hw Hs Hr Hout) as (Hr' & Hout' & Hback).
  fold w' in Hr', Hout', Hback.
  change (PeriodicIterator_nbrDir (PeriodicIterator_at lit a_trim a_periodic d)) with d.
  eexists. split; [apply PeriodicIterator_visit_offsets|].
  exists (PeriodicIterator_at lit' a_trim a_periodic (IntVect_neg d)). split; [|split].
  - apply list_elem_of_In, in_map, list_elem_of_In.
    apply (PeriodicIterator_offsets_spec _ _ _ _ lit' w' Hok eq_refl Hw' eq_refl).
    rewrite IntVect_norm1_neg, IntVect_neg_zero.
    split; [|done]. unfold Stencil_contains, IntVect_neg in *. simpl. lia.
  - reflexivity.
  - unfold PeriodicIterator_deref.
    rewrite (PeriodicIterator_at_layout _ _ _ _ lit' w' Hok eq_refl Hw' eq_refl _ _ _ Hr').
    rewrite Hback. unfold LayoutIterator_deref. cbn [lit_current lit_disjointBoxLayout].
    by rewrite Hlit, Hcur.
Qed.

Lemma PeriodicIterator_symmetric_witness :
  exists its,
    PeriodicIterator_visit (MkLayoutIterator example_cube 0 27) 0 PeriodicX = inr its
    /\ forall it, it ∈ its ->
         exists its',
           PeriodicIterator_visit (pit_layout it) 0 PeriodicX = inr its'
           /\ exists it', it' ∈ its'
                /\ PeriodicIterator_nbrDir it' = IntVect_neg (PeriodicIterator_nbrDir it)
                /\ PeriodicIterator_deref it'
                   = LayoutIterator_deref (MkLayoutIterator example_cube 0 27).
Proof.
  apply (PeriodicIterator_symmetric (MkProcEnv 1 0) (MkBox (IV 0 0 0) (IV 2 2 2))
           (IV 1 1 1) example_cube (MkLayoutIterator example_cube 0 27) (IV 0 0 0)).
  - unfold Define_wf; simpl. repeat split; lia.
  - vm_compute. reflexivity.
  - reflexivity.
  - unfold Lattice_contains; simpl. lia.
  - reflexivity.
Defined.

Lemma maskBit_0 (n : Z) : maskBit 0 n = false.
Proof. unfold maskBit. by rewrite Z.land_0_l. Qed.

Lemma no_elem_nil {A : Type} (l : list A) : (forall x, ~ x ∈ l) -> l = [].
Proof.
  destruct l as [|x l]; [done|]. intros H. exfalso. apply (H x). by left.
Qed.

(** A box at least one position away from the lattice boundary in every
    periodic direction has no periodic neighbour. *)
Lemma PeriodicIterator_offsets_interior (env : ProcEnv) (a_domain : Box) (M : IntVect)
  (dbl : DisjointBoxLayout) (lit : LayoutIterator) (w : IntVect) (a_trim a_periodic : Z) :
  Layout_ok env a_domain M dbl ->
  lit_disjointBoxLayout lit = dbl ->
  Lattice_contains (m_numBox dbl) w ->
  lit_current lit = Lattice_linear (m_numBox dbl) w ->
  (maskBit a_periodic 0 = true -> 1 <= iv0 w <= iv0 (m_numBox dbl) - 2) ->
  (maskBit a_periodic 1 = true -> 1 <= iv1 w <= iv1 (m_numBox dbl) - 2) ->
  (maskBit a_periodic 2 = true -> 1 <= iv2 w <= iv2 (m_numBox dbl) - 2) ->
  PeriodicIterator_offsets lit a_trim a_periodic = [].
Proof.
  intros Hok Hlit Hw Hcur H0 H1 H2. apply no_elem_nil. intros d Hd.
  apply (PeriodicIterator_offsets_spec _ _ _ _ _ _ Hok Hlit Hw Hcur) in Hd
    as ((S0 & S1 & S2) & (R0 & R1 & R2) & Hout & _).
  apply Hout. unfold Lattice_contains, IntVect_add; simpl.
  destruct Hw as (W0 & W1 & W2).
  destruct (maskBit a_periodic 0), (maskBit a_periodic 1), (maskBit a_periodic 2);
    repeat match goal with
           | H : true = true -> _ |- _ => specialize (H eq_refl)
           end; lia.
Qed.

(** X14.  On a layout built by [define], the loop over a
    PeriodicIterator never runs its body when no direction is periodic,
    at whatever box it is constructed, nor for a box that is at least
    one position away from the lattice boundary in every periodic
    direction. *)
Theorem PeriodicIterator_nothing_to_do (env : ProcEnv) (a_domain : Box)
  (a_maxBoxSize : IntVect) (dbl : DisjointBoxLayout)
  (lit : LayoutIterator) (w : IntVect) (a_trim a_periodic : Z) :
  Define_wf env a_domain a_maxBoxSize ->
  DBL_define env a_domain a_maxBoxSize = inr dbl ->
  lit_disjointBoxLayout lit = dbl ->
  Lattice_contains (DBL_dimensions dbl) w ->
  lit_current lit = Lattice_linear (DBL_dimensions dbl) w ->
  PeriodicIterator_visit lit a_trim 0 = inr []
  /\ ((maskBit a_periodic 0 = true -> 1 <= iv0 w <= iv0 (DBL_dimensions dbl) - 2) ->
      (maskBit a_periodic 1 = true -> 1 <= iv1 w <= iv1 (DBL_dimensions dbl) - 2) ->
      (maskBit a_periodic 2 = true -> 1 <= iv2 w <= iv2 (DBL_dimensions dbl) - 2) ->
      PeriodicIterator_visit lit a_trim a_periodic = inr []).
Proof.
  intros Hwf Hdef Hlit Hw Hcur. unfold DBL_dimensions in *.
  pose proof (DBL_define_ok _ _ _ _ Hwf Hdef) as Hok.
  split.
  - rewrite PeriodicIterator_visit_offsets.
    rewrite (PeriodicIterator_offsets_interior _ _ _ _ _ _ _ _ Hok Hlit Hw Hcur);
      [done| | |]; rewrite maskBit_0; discriminate.
  - intros H0 H1 H2. rewrite PeriodicIterator_visit_offsets.
    by rewrite (PeriodicIterator_offsets_interior _ _ _ _ _ _ _ _ Hok Hlit Hw Hcur H0 H1 H2).
Qed.

Lemma PeriodicIterator_nothing_to_do_witness :
  PeriodicIterator_visit (MkLayoutIterator example_cube 13 27) 0 7 = inr [].
Proof.
  apply (PeriodicIterator_nothing_to_do (MkProcEnv 1 0) (MkBox (IV 0 0 0) (IV 2 2 2))
           (IV 1 1 1) example_cube (MkLayoutIterator example_cube 13 27) (IV 1 1 1) 0 7).
  - unfold Define_wf; simpl. repeat split; lia.
  - vm_compute. reflexivity.
  - reflexivity.
  - unfold Lattice_contains; simpl. lia.
  - reflexivity.
  - intros _. simpl. lia.
  - intros _. simpl. lia.
  - intros _. simpl. lia.
Defined.

Lemma stencil_kept (d : IntVect) :
  d ∈ filter (fun d => maskBit (Z.lor 0 TrimCenter) (IntVect_norm1 d) = false)
        (Box_cells NeighborIterator_nbrDefault)
  <-> Stencil_contains d /\ d <> IntVect_Zero.
Proof.
  rewrite list_elem_of_filter, Box_cells_elem, Stencil_contains_iff, trim_keeps.
  pose proof (maskBit_0 (IntVect_norm1 d)). tauto.
Qed.

(** X15.  On a layout built by [define], for the box at a lattice
    position no direction is visited by both the NeighborIterator and
    the PeriodicIterator, and the two loops together run at most 26
    times.  With all three directions periodic they run at every
    direction of the stencil that is not trimmed, and with no trimming
    exactly 26 times, for every box. *)
Theorem Neighbor_and_Periodic_cover_stencil (env : ProcEnv) (a_domain : Box)
  (a_maxBoxSize : IntVect) (dbl : DisjointBoxLayout)
  (lit : LayoutIterator) (w : IntVect) (a_trim a_periodic : Z) :
  Define_wf env a_domain a_maxBoxSize ->
  DBL_define env a_domain a_maxBoxSize = inr dbl ->
  lit_disjointBoxLayout lit = dbl ->
  Lattice_contains (DBL_dimensions dbl) w ->
  lit_current lit = Lattice_linear (DBL_dimensions dbl) w ->
  exists nits pits,
    NeighborIterator_visit lit a_trim = inr nits
    /\ PeriodicIterator_visit lit a_trim a_periodic = inr pits
    /\ (forall nit pit, nit ∈ nits -> pit ∈ pits ->
          NeighborIterator_nbrDir nit <> PeriodicIterator_nbrDir pit)
    /\ (length nits + length pits <= 26)%nat
    /\ (a_periodic = 7 ->
        (forall d, Stencil_contains d -> d <> IntVect_Zero ->
                   maskBit a_trim (IntVect_norm1 d) = false ->
                   d ∈ map NeighborIterator_nbrDir nits
                   \/ d ∈ map PeriodicIterator_nbrDir pits)
        /\ (a_trim = 0 -> (length nits + length pits = 26)%nat)).
Proof.
  intros Hwf Hdef Hlit Hw Hcur. unfold DBL_dimensions in *.
  pose proof (DBL_define_ok _ _ _ _ Hwf Hdef) as Hok.
  eexists. eexists.
  split; [apply NeighborIterator_visit_offsets|].
  split; [apply PeriodicIterator_visit_offsets|].
  set (noff := NeighborIterator_offsets lit a_trim).
  set (poff := PeriodicIterator_offsets lit a_trim a_periodic).
  assert (map NeighborIterator_nbrDir (map (NeighborIterator_at lit a_trim) noff) = noff)
    as Hn by (rewrite map_map; apply map_id).
  assert (map PeriodicIterator_nbrDir
            (map (PeriodicIterator_at lit a_trim a_periodic) poff) = poff)
    as Hp by (rewrite map_map; apply map_id).
  pose proof (NeighborIterator_offsets_spec _ _ _ _ _ _ Hok Hlit Hw Hcur a_trim) as Hns.
  pose proof (PeriodicIterator_offsets_spec _ _ _ _ _ _ Hok Hlit Hw Hcur a_trim a_periodic)
    as Hps.
  fold noff in Hns. fold poff in Hps.
  assert (NoDup (noff ++ poff)) as Hnd.
  { apply list.NoDup_app. split; [apply NeighborIterator_offsets_NoDup|].
    split; [|apply PeriodicIterator_offsets_NoDup].
    intros d Hd1 Hd2. apply Hns in Hd1. apply Hps in Hd2. tauto. }
  set (full := filter (fun d => maskBit (Z.lor 0 TrimCenter) (IntVect_norm1 d) = false)
                 (Box_cells NeighborIterator_nbrDefault)).
  assert (NoDup full) as Hfull by apply list.NoDup_filter, Box_cells_NoDup.
  assert (noff ++ poff ⊆ full) as Hsub.
  { intros d Hd. apply stencil_kept.
    apply elem_of_app in Hd as [Hd|Hd]; [apply Hns in Hd|apply Hps in Hd]; tauto. }
  split.
  { intros nit pit Hnit Hpit E.
    apply list_elem_of_In, in_map_iff in Hnit as (d & <- & Hd).
    apply list_elem_of_In, in_map_iff in Hpit as (d' & <- & Hd').
    change (d = d') in E. subst d'.
    apply list_elem_of_In, Hns in Hd. apply list_elem_of_In, Hps in Hd'. tauto. }
  split.
  { rewrite !length_map, <- length_app, <- full_stencil_count.
    apply submseteq_length, NoDup_submseteq; assumption. }
  intros ->.
  assert (forall d, Stencil_contains d -> d <> IntVect_Zero ->
                    maskBit a_trim (IntVect_norm1 d) = false -> d ∈ noff ++ poff) as Hall.
  { intros d Hs Hnz Htrim. apply elem_of_app.
    destruct (decide (Lattice_contains (m_numBox dbl) (IntVect_add w d))) as [Hin|Hout].
    - left. apply Hns. tauto.
    - right. apply Hps. split; [done|]. split; [|tauto].
      destruct Hs as (S0 & S1 & S2), Hw as (W0 & W1 & W2).
      unfold Periodic_reach.
      change (maskBit 7 0) with true. change (maskBit 7 1) with true.
      change (maskBit 7 2) with true. cbv iota. lia. }
  split.
  { intros d Hs Hnz Htrim. rewrite Hn, Hp. apply elem_of_app. by apply Hall. }
  intros ->. rewrite !length_map, <- length_app, <- full_stencil_count.
  apply Permutation_length, NoDup_Permutation; [done|done|].
  intros d. split; [apply Hsub|].
  intros Hd. apply stencil_kept in Hd as [Hs Hnz]. apply Hall; [done|done|].
  apply maskBit_0.
Qed.

Lemma Neighbor_and_Periodic_cover_stencil_witness :
  exists nits pits,
    NeighborIterator_visit (MkLayoutIterator example_cube 0 27) 0 = inr nits
    /\ PeriodicIterator_visit (MkLayoutIterator example_cube 0 27) 0 7 = inr pits
    /\ (length nits + length pits = 26)%nat.
Proof.
  destruct (Neighbor_and_Periodic_cover_stencil (MkProcEnv 1 0)
              (MkBox (IV 0 0 0) (IV 2 2 2)) (IV 1 1 1) example_cube
              (MkLayoutIterator example_cube 0 27) (IV 0 0 0) 0 7)
    as (nits & pits & Hn & Hp & _ & _ & Hall).
  - unfold Define_wf; simpl. repeat split; lia.
  - vm_compute. reflexivity.
  - reflexivity.
  - unfold Lattice_contains; simpl. lia.
  - reflexivity.
  - exists nits, pits. split; [exact Hn|]. split; [exact Hp|].
    exact (proj2 (Hall eq_refl) eq_refl).
Defined.

(* ===================================================================== *)
(** * Copier::binomial *)
(* ===================================================================== *)

Lemma factorial_pos (n : nat) : 0 < factorial n.
Proof.
  induction n as [|n IH]; [simpl; lia|].
  change (factorial (S n)) with (Z.of_nat (S n) * factorial n).
  apply Z.mul_pos_pos; lia.
Qed.

Lemma Pascal_above (n k : nat) : (n < k)%nat -> Pascal n k = 0.
Proof.
  revert k. induction n as [|n IH]; intros k Hk.
  - destruct k; [lia|reflexivity].
  - destruct k as [|k]; [lia|]. simpl. rewrite !IH by lia. reflexivity.
Qed.

Lemma Pascal_diag (n : nat) : Pascal n n = 1.
Proof.
  induction n as [|n IH]; [reflexivity|].
  simpl. rewrite IH, Pascal_above by lia. reflexivity.
Qed.

(** The coefficients of Pascal's triangle are quotients of factorials. *)
Lemma Pascal_factorial (n k : nat) :
  (k <= n)%nat -> Pascal n k * factorial k * factorial (n - k) = factorial n.
Proof.
  revert k. induction n as [|n IH]; intros k Hk.
  - assert (k = 0%nat) as -> by lia. reflexivity.
  - destruct k as [|k].
    + simpl Pascal. rewrite Nat.sub_0_r. change (factorial 0) with 1. ring.
    + destruct (decide (k = n)) as [->|Hne].
      * rewrite Pascal_diag, Nat.sub_diag. change (factorial 0) with 1. ring.
      * change (Pascal (S n) (S k)) with (Pascal n k + Pascal n (S k)).
        pose proof (IH k ltac:(lia)) as IH1.
        pose proof (IH (S k) ltac:(lia)) as IH2.
        replace (S n - S k)%nat with (n - k)%nat by lia.
        replace (n - k)%nat with (S (n - S k)) in * by lia.
        change (factorial (S n)) with (Z.of_nat (S n) * factorial n).
        change (factorial (S k)) with (Z.of_nat (S k) * factorial k) in *.
        change (factorial (S (n - S k)))
          with (Z.of_nat (S (n - S k)) * factorial (n - S k)) in *.
        replace (Z.of_nat (S n)) with (Z.of_nat (S k) + Z.of_nat (S (n - S k))) by lia.
        transitivity (Z.of_nat (S k) * factorial n
                      + Z.of_nat (S (n - S k)) * factorial n); [|ring].
        rewrite <- IH1 at 1. rewrite <- IH2. ring.
Qed.

(** The falling product completes to a factorial. *)
Lemma falling_factorial (n j : nat) :
  (j <= n)%nat -> falling (Z.of_nat n) j * factorial (n - j) = factorial n.
Proof.
  induction j as [|j IH]; intros Hj.
  - simpl falling. rewrite Nat.sub_0_r. ring.
  - change (falling (Z.of_nat n) (S j))
      with ((Z.of_nat n - Z.of_nat j) * falling (Z.of_nat n) j).
    rewrite <- (IH ltac:(lia)).
    replace (n - j)%nat with (S (n - S j)) by lia.
    change (factorial (S (n - S j))) with (Z.of_nat (S (n - S j)) * factorial (n - S j)).
    replace (Z.of_nat (S (n - S j))) with (Z.of_nat n - Z.of_nat j) by lia. ring.
Qed.

Lemma falling_pos (n : Z) (j : nat) : Z.of_nat j <= n -> 1 <= falling n j.
Proof.
  induction j as [|j IH]; intros Hj; [simpl; lia|].
  change (falling n (S j)) with ((n - Z.of_nat j) * falling n j).
  specialize (IH ltac:(lia)). nia.
Qed.

Lemma factorial_mono (a b : nat) : (a <= b)%nat -> factorial a <= factorial b.
Proof.
  induction 1 as [|b Hab IH]; [lia|].
  change (factorial (S b)) with (Z.of_nat (S b) * factorial b).
  pose proof (factorial_pos b). nia.
Qed.

(** The loop of [binomial] from the state with [k = j], while the
    products stay in the range of [int]. *)
Lemma binomial_loop (n : Z) (j fuel : nat) (cnum cden : Z) :
  (j <= fuel)%nat ->
  Z.of_nat j <= n -> 1 <= cnum -> 1 <= cden ->
  cnum * falling n j <= Int_max -> cden * factorial j <= Int_max ->
  loop_while
    (fun st => negb (bs_k st =? 0))
    (fun st =>
       MkBinomialState (bs_k st - 1)
         (Int_wrap (bs_cnum st * (n - bs_k st + 1)))
         (Int_wrap (bs_cden st * bs_k st)))
    fuel (MkBinomialState (Z.of_nat j) cnum cden)
  = inr (MkBinomialState 0 (cnum * falling n j) (cden * factorial j)).
Proof.
  revert fuel cnum cden.
  induction j as [|j IH]; intros fuel cnum cden Hfuel Hj Hn1 Hd1 Hnum Hden.
  - destruct fuel; simpl; f_equal; f_equal; ring.
  - destruct fuel as [|fuel]; [lia|].
    simpl loop_while. cbn [bs_k bs_cnum bs_cden].
    destruct (Z.eqb_spec (Z.of_nat (S j)) 0) as [E|_]; [lia|]. cbn [negb].
    replace (Z.of_nat (S j) - 1) with (Z.of_nat j) by lia.
    replace (n - Z.of_nat (S j) + 1) with (n - Z.of_nat j) by lia.
    change (falling n (S j)) with ((n - Z.of_nat j) * falling n j) in Hnum |- *.
    change (factorial (S j)) with (Z.of_nat (S j) * factorial j) in Hden |- *.
    pose proof (falling_pos n j ltac:(lia)) as Hf. pose proof (factorial_pos j) as Hg.
    assert (1 <= cnum * (n - Z.of_nat j)) by nia.
    assert (1 <= cden * Z.of_nat (S j)) by nia.
    assert (cnum * (n - Z.of_nat j) <= Int_max) by nia.
    assert (cden * Z.of_nat (S j) <= Int_max) by nia.
    rewrite !Int_wrap_small by (unfold Int_min in *; unfold Int_max in *; lia).
    rewrite IH; [|lia|lia|lia|lia|nia|nia]. f_equal. f_equal; ring.
Qed.

(** X16.  [Copier::binomial(n, k)] fails an assertion when [k < 0] or
    [n < k].  For [0 <= k <= n] its loop ends, and while the numerator it
    accumulates, [n * (n - 1) * ... * (n - k + 1)], is in the range of
    [int], as it is for every [n <= 12], it returns the binomial
    coefficient: the number [c] of Pascal's triangle, for which
    [c * k! * (n - k)! = n!], the division in its last statement leaving
    no remainder.  Beyond that range it does not: [binomial(13, 11)] is
    -29, not 78. *)
Theorem Copier_binomial_correct (n k : Z) :
  (k < 0 \/ n < k -> Copier_binomial n k = inl AssertionFailed)
  /\ (0 <= k <= n -> falling n (Z.to_nat k) <= Int_max ->
      Copier_binomial n k = inr (Pascal (Z.to_nat n) (Z.to_nat k))
      /\ Pascal (Z.to_nat n) (Z.to_nat k) * factorial (Z.to_nat k)
           * factorial (Z.to_nat (n - k))
         = factorial (Z.to_nat n))
  /\ (0 <= k <= n -> n <= 12 -> falling n (Z.to_nat k) <= Int_max)
  /\ Copier_binomial 13 11 = inr (-29)
  /\ Pascal 13 11 = 78.
Proof.
  split; [|split; [|split; [|split; reflexivity]]].
  - unfold Copier_binomial. intros [Hk|Hk].
    + destruct (Z.leb_spec 0 k); [lia|]. reflexivity.
    + destruct (Z.leb_spec 0 k); [|reflexivity].
      destruct (Z.leb_spec k n); [lia|]. reflexivity.
  - unfold Copier_binomial. intros [Hk Hn] Hfit.
    assert (Pascal (Z.to_nat n) (Z.to_nat k) * factorial (Z.to_nat k)
              * factorial (Z.to_nat (n - k)) = factorial (Z.to_nat n)) as Hpascal.
    { replace (Z.to_nat (n - k)) with (Z.to_nat n - Z.to_nat k)%nat by lia.
      apply Pascal_factorial. lia. }
    split; [|exact Hpascal].
    destruct (Z.leb_spec 0 k); [|lia]. destruct (Z.leb_spec k n); [|lia].
    cbn [CH_assert Outcome_bind].
    destruct (Z.eqb_spec k 0) as [->|Hk0]; [by destruct (Z.to_nat n)|].
    replace (Z.to_nat (n - k)) with (Z.to_nat n - Z.to_nat k)%nat in Hpascal by lia.
    assert (exists kn nn, k = Z.of_nat kn /\ n = Z.of_nat nn) as (kn & nn & -> & ->).
    { exists (Z.to_nat k), (Z.to_nat n). lia. }
    rewrite !Nat2Z.id in *.
    assert ((Z.of_nat nn - Z.of_nat kn + 1) * falling (Z.of_nat nn) (kn - 1)
            = falling (Z.of_nat nn) kn) as Hnum.
    { replace kn with (S (kn - 1)) at 3 by lia.
      change (falling (Z.of_nat nn) (S (kn - 1)))
        with ((Z.of_nat nn - Z.of_nat (kn - 1)) * falling (Z.of_nat nn) (kn - 1)).
      f_equal. lia. }
    assert (Z.of_nat kn * factorial (kn - 1) = factorial kn) as Hden.
    { replace kn with (S (kn - 1)) at 3 by lia.
      change (factorial (S (kn - 1))) with (Z.of_nat (S (kn - 1)) * factorial (kn - 1)).
      f_equal. lia. }
    pose proof (falling_factorial nn kn ltac:(lia)) as Hfall.
    pose proof (factorial_pos kn) as Hk1. pose proof (factorial_pos (nn - kn)) as Hk2.
    pose proof (factorial_pos nn) as Hk3.
    assert (falling (Z.of_nat nn) kn = Pascal nn kn * factorial kn) as Hquot.
    { apply (Z.mul_reg_r _ _ (factorial (nn - kn))); [lia|].
      rewrite Hfall, <- Hpascal. ring. }
    assert (1 <= Pascal nn kn) as Hp1 by nia.
    assert (factorial kn <= Int_max) as Hdfit by nia.
    replace (Z.of_nat kn - 1) with (Z.of_nat (kn - 1)) by lia.
    rewrite binomial_loop; [|lia|lia|lia|lia|by rewrite Hnum|by rewrite Hden].
    cbn [Outcome_bind bs_cnum bs_cden]. rewrite Hnum, Hden.
    destruct (Z.eqb_spec (factorial kn) 0) as [E|_]; [lia|].
    cbn [negb Outcome_unless Outcome_bind]. f_equal.
    rewrite Hquot, Z.quot_mul by lia.
    apply Int_wrap_small. unfold Int_min. unfold Int_max in *. nia.
  - intros [Hk Hn] H12.
    assert (exists kn nn, k = Z.of_nat kn /\ n = Z.of_nat nn) as (kn & nn & -> & ->).
    { exists (Z.to_nat k), (Z.to_nat n). lia. }
    rewrite Nat2Z.id.
    pose proof (falling_factorial nn kn ltac:(lia)) as Hfall.
    pose proof (factorial_pos (nn - kn)) as Hk2.
    pose proof (falling_pos (Z.of_nat nn) kn ltac:(lia)) as Hf1.
    pose proof (factorial_mono nn 12 ltac:(lia)) as Hm.
    change (factorial 12) with 479001600 in Hm.
    unfold Int_max. change (2 ^ 31) with 2147483648. nia.
Qed.

Lemma Copier_binomial_correct_witness :
  Copier_binomial 3 2 = inr 3.
Proof.
  apply (Copier_binomial_correct 3 2); [lia|vm_compute; discriminate].
Defined.

(* ===================================================================== *)
(** * Copier::defineExchangeDBL: the guard of the periodic loop and the
      size of the plan *)
(* ===================================================================== *)

Lemma Copier_periodicTestDomain_eq (dbl : DisjointBoxLayout) (a_periodic : Z) :
  Copier_periodicTestDomain dbl a_periodic
  = MkBox (IV (iv0 (loVect (m_domain dbl)) + Z.b2z (maskBit a_periodic 0))
              (iv1 (loVect (m_domain dbl)) + Z.b2z (maskBit a_periodic 1))
              (iv2 (loVect (m_domain dbl)) + Z.b2z (maskBit a_periodic 2)))
          (IV (iv0 (hiVect (m_domain dbl)) - Z.b2z (maskBit a_periodic 0))
              (iv1 (hiVect (m_domain dbl)) - Z.b2z (maskBit a_periodic 1))
              (iv2 (hiVect (m_domain dbl)) - Z.b2z (maskBit a_periodic 2))).
Proof.
  unfold Copier_periodicTestDomain, DBL_problemDomain. cbn [fold_left allDirs].
  destruct (m_domain dbl) as [[l0 l1 l2] [h0 h1 h2]].
  destruct (maskBit a_periodic 0), (maskBit a_periodic 1), (maskBit a_periodic 2);
    unfold Box_growDir; iv_simpl; simpl; f_equal; f_equal; lia.
Qed.

(** The test of [defineExchangeDBL] on a local box, in terms of its
    lattice position. *)
Lemma Copier_periodicTest_lattice (env : ProcEnv) (a_domain : Box) (M : IntVect)
  (dbl : DisjointBoxLayout) (w : IntVect) (a_periodic : Z) :
  Layout_ok env a_domain M dbl ->
  Lattice_contains (m_numBox dbl) w ->
  Box_containsBox (Copier_periodicTestDomain dbl a_periodic) (Lattice_box a_domain M w) = true
  <-> (maskBit a_periodic 0 = true -> 1 <= iv0 w <= iv0 (m_numBox dbl) - 2)
      /\ (maskBit a_periodic 1 = true -> 1 <= iv1 w <= iv1 (m_numBox dbl) - 2)
      /\ (maskBit a_periodic 2 = true -> 1 <= iv2 w <= iv2 (m_numBox dbl) - 2).
Proof.
  intros (_ & Hdom & _ & (M0 & M1 & M2) & Hdim & _) (W0 & W1 & W2).
  rewrite Copier_periodicTestDomain_eq, Hdom.
  unfold Box_containsBox. rewrite andb_true_iff, !IntVect_leb_spec.
  destruct (m_numBox dbl) as [n0 n1 n2], w as [w0 w1 w2], M as [m0 m1 m2],
    a_domain as [[l0 l1 l2] [h0 h1 h2]].
  unfold Box_dimensions, Lattice_box, IntVect_add, IntVect_sub, IntVect_mul, IntVect_Unit in *.
  simpl in *. injection Hdim as E0 E1 E2.
  assert (forall m ww n, 0 < m -> 0 <= ww < n ->
            (1 <= m * ww /\ m * ww + m <= n * m - 1 <-> 1 <= ww <= n - 2)) as Hpos.
  { intros m ww n Hm Hww. split.
    - intros [A B]. split; [nia|].
      assert (m * (ww + 1) < m * n) as C by lia.
      apply Z.mul_lt_mono_pos_l in C; lia.
    - intros [A B]. split; [nia|].
      assert (m * (ww + 2) <= m * n) as C by (apply Z.mul_le_mono_nonneg_l; lia).
      lia. }
  pose proof (Hpos m0 w0 n0 M0 W0) as P0.
  pose proof (Hpos m1 w1 n1 M1 W1) as P1.
  pose proof (Hpos m2 w2 n2 M2 W2) as P2.
  assert (0 <= m0 * w0) by (apply Z.mul_nonneg_nonneg; lia).
  assert (0 <= m1 * w1) by (apply Z.mul_nonneg_nonneg; lia).
  assert (0 <= m2 * w2) by (apply Z.mul_nonneg_nonneg; lia).
  assert (m0 * (w0 + 1) <= m0 * n0) by (apply Z.mul_le_mono_nonneg_l; lia).
  assert (m1 * (w1 + 1) <= m1 * n1) by (apply Z.mul_le_mono_nonneg_l; lia).
  assert (m2 * (w2 + 1) <= m2 * n2) by (apply Z.mul_le_mono_nonneg_l; lia).
  destruct (maskBit a_periodic 0), (maskBit a_periodic 1), (maskBit a_periodic 2);
    simpl; split.
  all: try (intros [(A0 & A1 & A2) (B0 & B1 & B2)]; repeat split; intros; try discriminate; lia).
  all: intros (C0 & C1 & C2); repeat split; try lia.
  all: try (specialize (C0 eq_refl)); try (specialize (C1 eq_refl));
       try (specialize (C2 eq_refl)); lia.
Qed.

(** X17.  On a layout built by [define], the test with which
    [defineExchangeDBL] guards the loop over periodic neighbours passes
    over that loop exactly for the boxes that are at least one position
    away from the lattice boundary in every periodic direction, and for
    those the loop would not run its body: the guard drops no motion
    item. *)
Theorem Copier_periodic_guard_sound (env : ProcEnv) (a_domain : Box)
  (a_maxBoxSize : IntVect) (dbl : DisjointBoxLayout)
  (lit : LayoutIterator) (w : IntVect) (a_trim a_periodic : Z) :
  Define_wf env a_domain a_maxBoxSize ->
  DBL_define env a_domain a_maxBoxSize = inr dbl ->
  lit_disjointBoxLayout lit = dbl ->
  Lattice_contains (DBL_dimensions dbl) w ->
  lit_current lit = Lattice_linear (DBL_dimensions dbl) w ->
  (Box_containsBox (Copier_periodicTestDomain dbl a_periodic) (DBL_boxAt dbl lit) = true
   <-> (maskBit a_periodic 0 = true -> 1 <= iv0 w <= iv0 (DBL_dimensions dbl) - 2)
       /\ (maskBit a_periodic 1 = true -> 1 <= iv1 w <= iv1 (DBL_dimensions dbl) - 2)
       /\ (maskBit a_periodic 2 = true -> 1 <= iv2 w <= iv2 (DBL_dimensions dbl) - 2))
  /\ (Box_containsBox (Copier_periodicTestDomain dbl a_periodic) (DBL_boxAt dbl lit) = true ->
      PeriodicIterator_visit lit a_trim a_periodic = inr []).
Proof.
  intros Hwf Hdef Hlit Hw Hcur. unfold DBL_dimensions in *.
  pose proof (DBL_define_ok _ _ _ _ Hwf Hdef) as Hok.
  rewrite (DBL_boxAt_lattice _ _ _ _ _ _ Hok Hw Hcur).
  pose proof (Copier_periodicTest_lattice _ _ _ _ w a_periodic Hok Hw) as Htest.
  split; [exact Htest|].
  intros Hin. apply Htest in Hin as (H0 & H1 & H2).
  rewrite PeriodicIterator_visit_offsets.
  by rewrite (PeriodicIterator_offsets_interior _ _ _ _ _ _ _ _ Hok Hlit Hw Hcur H0 H1 H2).
Qed.

Lemma Copier_periodic_guard_sound_witness :
  Box_containsBox (Copier_periodicTestDomain example_cube 7)
    (DBL_boxAt example_cube (MkLayoutIterator example_cube 13 27)) = true
  /\ PeriodicIterator_visit (MkLayoutIterator example_cube 13 27) 0 7 = inr [].
Proof.
  split; [reflexivity|].
  apply (Copier_periodic_guard_sound (MkProcEnv 1 0) (MkBox (IV 0 0 0) (IV 2 2 2))
           (IV 1 1 1) example_cube (MkLayoutIterator example_cube 13 27) (IV 1 1 1) 0 7).
  - unfold Define_wf; simpl. repeat split; lia.
  - vm_compute. reflexivity.
  - reflexivity.
  - unfold Lattice_contains; simpl. lia.
  - reflexivity.
  - reflexivity.
Defined.

(* ===================================================================== *)
(** * The plan in terms of the lattice *)
(* ===================================================================== *)

Lemma Lattice_wrap_inside (N v : IntVect) :
  Lattice_contains N v -> Lattice_wrap N v = v.
Proof.
  intros (H0 & H1 & H2). destruct v as [v0 v1 v2]. unfold Lattice_wrap; simpl in *.
  rewrite !wrapCoord_inside by lia. reflexivity.
Qed.

Lemma Box_shift_zero (b : Box) (v : IntVect) :
  v = IntVect_Zero -> Box_shift b v = b.
Proof.
  intros ->. destruct b as [[l0 l1 l2] [h0 h1 h2]].
  unfold Box_shift, IntVect_add; simpl. f_equal; f_equal; lia.
Qed.

Section PlanOnLattice.

Context (env : ProcEnv) (a_domain : Box) (M : IntVect) (dbl : DisjointBoxLayout).
Context (lit : LayoutIterator) (w : IntVect).
Context (cfg : BuildConfig) (bytesPerCell a_numGhost a_trim a_periodic : Z).
Hypothesis Hok : Layout_ok env a_domain M dbl.
Hypothesis Hlit : lit_disjointBoxLayout lit = dbl.
Hypothesis Hw : Lattice_contains (m_numBox dbl) w.
Hypothesis Hcur : lit_current lit = Lattice_linear (m_numBox dbl) w.

Lemma Plan_domain : m_domain dbl = a_domain.
Proof. by destruct Hok as (_ & Hdom & _). Qed.

Lemma Plan_deref :
  LayoutIterator_deref lit
  = MkBoxIndex (Lattice_linear (m_numBox dbl) w)
               (Lattice_linear (m_numBox dbl) w - m_localIdxBeg dbl).
Proof.
  unfold LayoutIterator_deref, DBL_localIdxBegin. by rewrite Hlit, Hcur.
Qed.

Lemma Copier_interiorItem_plan (d : IntVect) :
  Lattice_contains (m_numBox dbl) (IntVect_add w d) ->
  Copier_interiorItem cfg bytesPerCell dbl a_numGhost lit (DBL_boxAt dbl lit)
    (NeighborIterator_at lit a_trim d)
  = Plan_item cfg bytesPerCell dbl M a_numGhost w d.
Proof.
  intros Hd. unfold Copier_interiorItem, Plan_item. cbv zeta.
  rewrite (NeighborIterator_at_box _ _ _ _ _ _ a_trim _ Hok Hlit Hcur Hd).
  rewrite (DBL_boxAt_lattice _ _ _ _ _ _ Hok Hw Hcur).
  rewrite Plan_deref, Plan_domain, (Lattice_wrap_inside _ _ Hd).
  unfold NeighborIterator_deref.
  rewrite (NeighborIterator_at_layout _ _ _ _ _ _ Hok Hlit Hcur).
  unfold LayoutIterator_deref, DBL_localIdxBegin. cbn [lit_current lit_disjointBoxLayout].
  change (NeighborIterator_nbrDir (NeighborIterator_at lit a_trim d)) with d.
  rewrite (Box_shift_zero (Box_intersect (Box_grow (Lattice_box a_domain M w) a_numGhost)
                             (Lattice_box a_domain M (IntVect_add w d)))); [reflexivity|].
  destruct M, w, d. unfold IntVect_mul, IntVect_sub, IntVect_add, IntVect_Zero; simpl.
  f_equal; lia.
Qed.

Lemma Copier_periodicItem_plan (d : IntVect) :
  Periodic_reach a_periodic (m_numBox dbl) w d ->
  Copier_periodicItem cfg bytesPerCell dbl a_numGhost lit (DBL_boxAt dbl lit)
    (PeriodicIterator_at lit a_trim a_periodic d)
  = Plan_item cfg bytesPerCell dbl M a_numGhost w d.
Proof.
  intros Hr. unfold Copier_periodicItem, Plan_item. cbv zeta.
  rewrite (PeriodicIterator_at_box _ _ _ _ _ _ a_trim _ _ Hok Hlit Hw Hcur Hr).
  rewrite (DBL_boxAt_lattice _ _ _ _ _ _ Hok Hw Hcur).
  rewrite Plan_deref, Plan_domain.
  unfold PeriodicIterator_deref.
  rewrite (PeriodicIterator_at_layout _ _ _ _ _ _ Hok Hlit Hw Hcur _ _ _ Hr).
  unfold LayoutIterator_deref, DBL_localIdxBegin. cbn [lit_current lit_disjointBoxLayout].
  change (PeriodicIterator_nbrDir (PeriodicIterator_at lit a_trim a_periodic d)) with d.
  set (w' := Lattice_wrap (m_numBox dbl) (IntVect_add w d)).
  pose proof (Lattice_box_image a_domain M w w' d) as Himg. cbv zeta in Himg.
  rewrite Himg.
  assert (IntVect_neg
            (IntVect_add
               (IntVect_sub (loVect (Lattice_box a_domain M w))
                            (loVect (Lattice_box a_domain M w')))
               (IntVect_mul d (Box_dimensions (Lattice_box a_domain M w))))
          = IntVect_mul M (IntVect_sub w' (IntVect_add w d))) as ->; [|reflexivity].
  destruct a_domain as [[l0 l1 l2] [h0 h1 h2]], M as [m0 m1 m2], w as [w0 w1 w2],
    w' as [v0 v1 v2], d as [d0 d1 d2].
  unfold Lattice_box, Box_dimensions, IntVect_add, IntVect_sub, IntVect_mul, IntVect_neg,
    IntVect_Unit; simpl.
  f_equal; ring.
Qed.

(** The directions of the motion items of the box at [w]. *)
Lemma Plan_offsets_spec (d : IntVect) :
  d ∈ NeighborIterator_offsets lit a_trim ++ PeriodicIterator_offsets lit a_trim a_periodic
  <-> Stencil_contains d
      /\ d <> IntVect_Zero
      /\ maskBit a_trim (IntVect_norm1 d) = false
      /\ Periodic_reach a_periodic (m_numBox dbl) w d.
Proof.
  rewrite elem_of_app.
  rewrite (NeighborIterator_offsets_spec _ _ _ _ _ _ Hok Hlit Hw Hcur).
  rewrite (PeriodicIterator_offsets_spec _ _ _ _ _ _ Hok Hlit Hw Hcur).
  split.
  - intros [(Hs & Hin & Hnz & Ht)|(Hs & Hr & Hout & Hnz & Ht)]; [|tauto].
    split; [done|]. split; [done|]. split; [done|].
    destruct Hin as (I0 & I1 & I2). unfold Periodic_reach, IntVect_add in *. simpl in *.
    destruct (maskBit a_periodic 0), (maskBit a_periodic 1), (maskBit a_periodic 2); lia.
  - intros (Hs & Hnz & Ht & Hr).
    destruct (decide (Lattice_contains (m_numBox dbl) (IntVect_add w d))); tauto.
Qed.


(** The motion items of the box at [w]: one for each direction, each of
    the form of [Plan_item], the guard of the periodic loop dropping
    none. *)
Lemma Copier_planOfBox_plan :
  Copier_planOfBox cfg bytesPerCell dbl a_numGhost a_periodic a_trim lit
  = map (Plan_item cfg bytesPerCell dbl M a_numGhost w)
      (NeighborIterator_offsets lit a_trim
       ++ PeriodicIterator_offsets lit a_trim a_periodic).
Proof.
  unfold Copier_planOfBox. cbv zeta. rewrite map_app. f_equal.
  - apply map_ext_in. intros d Hd. apply Copier_interiorItem_plan.
    apply list_elem_of_In in Hd.
    apply (NeighborIterator_offsets_spec _ _ _ _ _ _ Hok Hlit Hw Hcur) in Hd. tauto.
  - destruct (Box_containsBox (Copier_periodicTestDomain dbl a_periodic)
                (DBL_boxAt dbl lit)) eqn:Hguard; cbn [negb].
    + rewrite (DBL_boxAt_lattice _ _ _ _ _ _ Hok Hw Hcur) in Hguard.
      apply (Copier_periodicTest_lattice _ _ _ _ w a_periodic Hok Hw) in Hguard
        as (H0 & H1 & H2).
      by rewrite (PeriodicIterator_offsets_interior _ _ _ _ _ _ _ _ Hok Hlit Hw Hcur H0 H1 H2).
    + apply map_ext_in. intros d Hd. apply Copier_periodicItem_plan.
      apply list_elem_of_In in Hd.
      apply (PeriodicIterator_offsets_spec _ _ _ _ _ _ Hok Hlit Hw Hcur) in Hd. tauto.
Qed.

End PlanOnLattice.











Lemma DataIterator_positions_local (env : ProcEnv) (a_domain : Box) (M : IntVect)
  (dbl : DisjointBoxLayout) (w : IntVect) :
  DBL_localIdxBegin dbl <= Lattice_linear (m_numBox dbl) w < DBL_localIdxEnd dbl ->
  In (MkLayoutIterator dbl (Lattice_linear (m_numBox dbl) w) (DBL_localIdxEnd dbl))
     (DataIterator_positions dbl).
Proof.
  unfold DBL_localIdxBegin, DBL_localIdxEnd, DataIterator_positions. intros Hrange.
  apply in_map_iff.
  exists (Z.to_nat (Lattice_linear (m_numBox dbl) w - m_localIdxBeg dbl)). split.
  - f_equal. lia.
  - apply in_seq. lia.
Qed.

(** The motion items of a plan: one for each local box and each
    direction of the stencil that is not trimmed and stays in the
    lattice or leaves it through a periodic side. *)
Lemma Copier_plan_membership (env : ProcEnv) (a_domain : Box) (M : IntVect)
  (dbl : DisjointBoxLayout) (cfg : BuildConfig)
  (a_numGhost a_startComp a_numComp a_periodic a_trim : Z) :
  Layout_ok env a_domain M dbl ->
  0 <= a_startComp -> 0 < a_numComp -> 0 < a_numGhost ->
  exists copier,
    Copier_defineExchangeDBL cfg dbl a_numGhost a_startComp a_numComp a_periodic a_trim
    = inr copier
    /\ forall m, m ∈ m_motionItem copier <->
         exists w d,
           Lattice_contains (m_numBox dbl) w
           /\ DBL_localIdxBegin dbl <= Lattice_linear (m_numBox dbl) w < DBL_localIdxEnd dbl
           /\ Stencil_contains d
           /\ d <> IntVect_Zero
           /\ maskBit a_trim (IntVect_norm1 d) = false
           /\ Periodic_reach a_periodic (m_numBox dbl) w d
           /\ m = Plan_item cfg (sizeofT cfg * a_numComp) dbl M a_numGhost w d.
Proof.
  intros Hok Hsc Hnc Hg.
  destruct (Copier_defineExchangeDBL_eq cfg dbl a_numGhost a_startComp a_numComp
              a_periodic a_trim Hsc Hnc) as (copier & Hcop & Hitems & _).
  exists copier. split; [done|].
  apply Z.ltb_lt in Hg. rewrite Hg in Hitems. rewrite Hitems.
  intros m. split.
  - intros Hm. apply list_elem_of_In, in_concat in Hm as (ms & Hms & Hm).
    apply in_map_iff in Hms as (dit & <- & Hdit).
    destruct (DataIterator_positions_lattice _ _ _ _ _ Hok Hdit) as (Hdbl & w & Hw & Hcur).
    apply DataIterator_positions_elem in Hdit as [_ Hrange]. rewrite Hcur in Hrange.
    rewrite (Copier_planOfBox_plan _ _ _ _ _ _ _ _ _ _ _ Hok Hdbl Hw Hcur) in Hm.
    apply in_map_iff in Hm as (d & <- & Hd).
    apply list_elem_of_In, (Plan_offsets_spec _ _ _ _ _ _ _ _ Hok Hdbl Hw Hcur) in Hd.
    exists w, d. tauto.
  - intros (w & d & Hw & Hrange & Hs & Hnz & Ht & Hr & ->).
    apply list_elem_of_In, in_concat.
    set (dit := MkLayoutIterator dbl (Lattice_linear (m_numBox dbl) w) (DBL_localIdxEnd dbl)).
    exists (Copier_planOfBox cfg (sizeofT cfg * a_numComp) dbl a_numGhost a_periodic a_trim dit).
    split.
    + apply in_map. by apply (DataIterator_positions_local env a_domain M).
    + rewrite (Copier_planOfBox_plan _ _ _ _ dit w _ _ _ _ _ Hok eq_refl Hw eq_refl).
      apply in_map, list_elem_of_In.
      apply (Plan_offsets_spec _ _ _ _ dit w _ _ Hok eq_refl Hw eq_refl). tauto.
Qed.

(** X19.  On a layout built by [define], a plan for a positive ghost
    width holds exactly one motion item for each box of this process and
    each direction [d] of the 3x3x3 stencil, other than the centre, that
    is not trimmed and that stays in the lattice or leaves it by one
    position through a periodic side.  The item names the box at the
    position [w + d] wrapped into the lattice as the remote box and
    receives into the intersection of the grown local box with the box
    that the lattice has, or would have, at [w + d]. *)
Theorem Copier_plan_complete (env : ProcEnv) (a_domain : Box) (a_maxBoxSize : IntVect)
  (dbl : DisjointBoxLayout) (cfg : BuildConfig)
  (a_numGhost a_startComp a_numComp a_periodic a_trim : Z) :
  Define_wf env a_domain a_maxBoxSize ->
  DBL_define env a_domain a_maxBoxSize = inr dbl ->
  0 <= a_startComp -> 0 < a_numComp -> 0 < a_numGhost ->
  exists copier,
    Copier_defineExchangeDBL cfg dbl a_numGhost a_startComp a_numComp a_periodic a_trim
    = inr copier
    /\ NoDup (map Motion2Way_key (m_motionItem copier))
    /\ (forall w d,
          Lattice_contains (DBL_dimensions dbl) w ->
          DBL_localIdxBegin dbl <= DBL_linearNbrOffset dbl w < DBL_localIdxEnd dbl ->
          Stencil_contains d -> d <> IntVect_Zero ->
          maskBit a_trim (IntVect_norm1 d) = false ->
          Periodic_reach a_periodic (DBL_dimensions dbl) w d ->
          exists m, m ∈ m_motionItem copier
                    /\ Motion2Way_key m = (DBL_linearNbrOffset dbl w, d))
    /\ (forall m, m ∈ m_motionItem copier ->
          exists w,
            let d := m_sendDir m in
            let w' := Lattice_wrap (DBL_dimensions dbl) (IntVect_add w d) in
            Lattice_contains (DBL_dimensions dbl) w
            /\ Lattice_contains (DBL_dimensions dbl) w'
            /\ Stencil_contains d /\ d <> IntVect_Zero
            /\ maskBit a_trim (IntVect_norm1 d) = false
            /\ Periodic_reach a_periodic (DBL_dimensions dbl) w d
            /\ globalIndex (m_bidxLocal m) = DBL_linearNbrOffset dbl w
            /\ DBL_localIdxBegin dbl <= globalIndex (m_bidxLocal m) < DBL_localIdxEnd dbl
            /\ globalIndex (m_bidxRemote m) = DBL_linearNbrOffset dbl w'
            /\ m_regionRecv m
               = Box_intersect
                   (Box_grow (Lattice_box a_domain a_maxBoxSize w) a_numGhost)
                   (Lattice_box a_domain a_maxBoxSize (IntVect_add w d))).
Proof.
  intros Hwf Hdef Hsc Hnc Hg. unfold DBL_dimensions.
  pose proof (DBL_define_ok _ _ _ _ Hwf Hdef) as Hok.
  destruct (Copier_plan_membership _ _ _ _ cfg a_numGhost a_startComp a_numComp
              a_periodic a_trim Hok Hsc Hnc Hg) as (copier & Hcop & Hmem).
  exists copier. split; [done|].
  pose proof Hok as (_ & Hdom & (N0 & N1 & N2) & _).
  split.
  { destruct (Copier_defineExchangeDBL_eq cfg dbl a_numGhost a_startComp a_numComp
                a_periodic a_trim Hsc Hnc) as (copier' & Hcop' & Hitems & _).
    assert (copier' = copier) as -> by congruence.
    apply Z.ltb_lt in Hg. rewrite Hg in Hitems. rewrite Hitems.
    apply Copier_plan_keys. }
  split.
  - intros w d Hw Hrange Hs Hnz Ht Hr.
    rewrite (Layout_linearNbrOffset _ _ _ _ _ Hok) in *.
    exists (Plan_item cfg (sizeofT cfg * a_numComp) dbl a_maxBoxSize a_numGhost w d).
    split; [|reflexivity]. apply Hmem. exists w, d. tauto.
  - intros m Hm. apply Hmem in Hm as (w & d & Hw & Hrange & Hs & Hnz & Ht & Hr & ->).
    exists w. cbv zeta.
    change (m_sendDir (Plan_item cfg (sizeofT cfg * a_numComp) dbl a_maxBoxSize
              a_numGhost w d)) with d.
    rewrite !(Layout_linearNbrOffset _ _ _ _ _ Hok).
    pose proof (Lattice_wrap_contains a_periodic _ _ _ N0 N1 N2 Hr) as Hw'.
    repeat (split; [first [done|reflexivity|exact Hrange]|]).
    unfold Plan_item. cbv zeta. cbn [Motion2Way_new m_regionRecv]. by rewrite Hdom.
Qed.

Lemma Copier_plan_complete_witness :
  exists copier,
    Copier_defineExchangeDBL example_cfg example_row 1 0 1 PeriodicX 0 = inr copier
    /\ NoDup (map Motion2Way_key (m_motionItem copier)).
Proof.
  destruct (Copier_plan_complete (MkProcEnv 2 0) (MkBox (IV 0 0 0) (IV 3 0 0)) (IV 1 1 1)
              example_row example_cfg 1 0 1 PeriodicX 0)
    as (copier & Hcop & Hnd & _).
  - unfold Define_wf; simpl. repeat split; lia.
  - vm_compute. reflexivity.
  - lia.
  - lia.
  - lia.
  - exists copier. split; [exact Hcop|exact Hnd].
Defined.

(* ===================================================================== *)
(** * Copier::defineExchangeDBL: assertions, empty plans and requests *)
(* ===================================================================== *)



Lemma Copier_defineExchangeDBL_numReq (cfg : BuildConfig) (dbl : DisjointBoxLayout)
  (a_numGhost a_startComp a_numComp a_periodic a_trim : Z) (copier : Copier) :
  Copier_defineExchangeDBL cfg dbl a_numGhost a_startComp a_numComp a_periodic a_trim
  = inr copier ->
  m_numReq copier
  = 2 * Z.of_nat (length (filter (fun m => Motion2Way_isLocal m = false)
                            (m_motionItem copier)))
  /\ m_midxForReq copier
     = (if USE_MPI cfg then Copier_fillMidxForReq (m_motionItem copier) 0 else []).
Proof.
  unfold Copier_defineExchangeDBL. intros Hcop.
  destruct (0 <=? a_startComp); [|discriminate Hcop].
  destruct (0 <? a_numComp); [|discriminate Hcop].
  cbn [CH_assert Outcome_bind] in Hcop.
  destruct (0 <? a_numGhost).
  - destruct (DataIterator_visit dbl) as [e|dits]; [discriminate Hcop|].
    cbn [Outcome_bind] in Hcop.
    destruct (Outcome_mapM _ dits) as [e|itemss]; [discriminate Hcop|].
    cbn [Outcome_bind] in Hcop. injection Hcop as <-. split; reflexivity.
  - injection Hcop as <-. split; [reflexivity|]. by destruct (USE_MPI cfg).
Qed.

(** The entries of [m_midxForReq]: entry [k] is the index of the
    [k]-th motion item that is not local. *)
Lemma Copier_fillMidxForReq_lookup (items : list Motion2Way) (i : Z) (k : nat) (midx : Z) :
  Copier_fillMidxForReq items i !! k = Some midx
  <-> exists j m,
        midx = i + Z.of_nat j
        /\ items !! j = Some m
        /\ Motion2Way_isLocal m = false
        /\ length (filter (fun m => Motion2Way_isLocal m = false) (take j items)) = k.
Proof.
  revert i k. induction items as [|a items IH]; intros i k.
  - simpl. split; [done|]. intros (j & m & _ & Hj & _). by destruct j.
  - simpl Copier_fillMidxForReq. destruct (Motion2Way_isLocal a) eqn:Ha; cbn [negb].
    + rewrite IH. split.
      * intros (j & m & -> & Hj & Hm & Hc). exists (S j), m.
        split; [lia|]. split; [done|]. split; [done|].
        simpl take. rewrite filter_cons.
        destruct (decide (Motion2Way_isLocal a = false)); [congruence|done].
      * intros (j & m & -> & Hj & Hm & Hc). destruct j as [|j].
        { simpl in Hj. injection Hj as <-. congruence. }
        exists j, m. split; [lia|]. split; [done|]. split; [done|].
        simpl take in Hc. rewrite filter_cons in Hc.
        destruct (decide (Motion2Way_isLocal a = false)); [congruence|done].
    + destruct k as [|k].
      * simpl. split.
        { intros [= <-]. exists 0%nat, a. split; [lia|]. done. }
        { intros (j & m & -> & Hj & Hm & Hc). destruct j as [|j]; [f_equal; lia|].
          simpl take in Hc. rewrite filter_cons in Hc.
          destruct (decide (Motion2Way_isLocal a = false)); [discriminate Hc|congruence]. }
      * simpl lookup. rewrite IH. split.
        { intros (j & m & -> & Hj & Hm & Hc). exists (S j), m.
          split; [lia|]. split; [done|]. split; [done|].
          simpl take. rewrite filter_cons.
          destruct (decide (Motion2Way_isLocal a = false)); [simpl; lia|congruence]. }
        { intros (j & m & -> & Hj & Hm & Hc). destruct j as [|j]; [discriminate Hc|].
          exists j, m. split; [lia|]. split; [done|]. split; [done|].
          simpl take in Hc. rewrite filter_cons in Hc.
          destruct (decide (Motion2Way_isLocal a = false)); [simpl in Hc; lia|congruence]. }
Qed.

Lemma Copier_fillMidxForReq_length (items : list Motion2Way) (i : Z) :
  length (Copier_fillMidxForReq items i)
  = length (filter (fun m => Motion2Way_isLocal m = false) items).
Proof.
  revert i. induction items as [|a items IH]; intros i; [done|].
  simpl Copier_fillMidxForReq. rewrite filter_cons.
  destruct (Motion2Way_isLocal a) eqn:Ha; cbn [negb].
  - destruct (decide (true = false)); [discriminate|]. apply IH.
  - destruct (decide (false = false)); [|done]. simpl. by rewrite IH.
Qed.

Lemma filter_take_length_lt {A : Type} (P : A -> Prop) `{forall x, Decision (P x)}
  (l : list A) (j : nat) (x : A) :
  l !! j = Some x -> P x ->
  (length (filter P (take j l)) < length (filter P l))%nat.
Proof.
  intros Hj Hx.
  rewrite <- (take_drop j l) at 2. rewrite list.filter_app, length_app.
  rewrite (drop_S _ _ _ Hj), filter_cons.
  destruct (decide (P x)); [simpl; lia|done].
Qed.

(** X21.  In a build with the transport, the plan of a layout built by
    [define] has two requests for each motion item that is not local and
    none for the others;
    [motionItemIndex] maps both requests of the [k]-th pair to the index
    of the [k]-th motion item that is not local, so it maps every
    request to a motion item of the plan that is not local, requests of
    different pairs to different items, and every item that is not local
    is the item of a pair. *)
Theorem Copier_requests (env : ProcEnv) (a_domain : Box) (a_maxBoxSize : IntVect)
  (cfg : BuildConfig) (dbl : DisjointBoxLayout)
  (a_numGhost a_startComp a_numComp a_periodic a_trim : Z) :
  Define_wf env a_domain a_maxBoxSize ->
  DBL_define env a_domain a_maxBoxSize = inr dbl ->
  0 <= a_startComp -> 0 < a_numComp -> USE_MPI cfg = true ->
  exists copier,
    Copier_defineExchangeDBL cfg dbl a_numGhost a_startComp a_numComp a_periodic a_trim
    = inr copier
    /\ Copier_numRequest copier
       = 2 * Z.of_nat (length (filter (fun m => Motion2Way_isLocal m = false)
                                 (m_motionItem copier)))
    /\ Copier_numRequest copier = 2 * Z.of_nat (length (m_midxForReq copier))
    /\ (forall r, 0 <= r < Copier_numRequest copier ->
          0 <= Copier_motionItemIndex copier r < Copier_numMotionItem copier
          /\ exists m,
               m_motionItem copier !! Z.to_nat (Copier_motionItemIndex copier r) = Some m
               /\ Motion2Way_isLocal m = false
               /\ Z.of_nat (length (filter (fun m => Motion2Way_isLocal m = false)
                                      (take (Z.to_nat (Copier_motionItemIndex copier r))
                                            (m_motionItem copier))))
                  = r ÷ 2)
    /\ (forall r r', 0 <= r < Copier_numRequest copier ->
          0 <= r' < Copier_numRequest copier ->
          Copier_motionItemIndex copier r = Copier_motionItemIndex copier r' ->
          r ÷ 2 = r' ÷ 2)
    /\ (forall j m, m_motionItem copier !! j = Some m ->
          Motion2Way_isLocal m = false ->
          exists k, 0 <= 2 * k /\ 2 * k + 1 < Copier_numRequest copier
                    /\ Copier_motionItemIndex copier (2 * k) = Z.of_nat j
                    /\ Copier_motionItemIndex copier (2 * k + 1) = Z.of_nat j).
Proof.
  intros _ _ Hsc Hnc Hmpi.
  destruct (Copier_defineExchangeDBL_eq cfg dbl a_numGhost a_startComp a_numComp
              a_periodic a_trim Hsc Hnc) as (copier & Hcop & _).
  exists copier. split; [done|].
  destruct (Copier_defineExchangeDBL_numReq _ _ _ _ _ _ _ _ Hcop) as [Hnum Hmidx].
  rewrite Hmpi in Hmidx.
  unfold Copier_numRequest, Copier_motionItemIndex, Copier_numMotionItem.
  rewrite Hnum, Hmidx, Copier_fillMidxForReq_length.
  set (items := m_motionItem copier) in *.
  set (nonlocal := fun m => Motion2Way_isLocal m = false).
  set (n := length (filter nonlocal items)).
  assert (forall r, 0 <= r < 2 * Z.of_nat n ->
            exists j m,
              Copier_fillMidxForReq items 0 !! Z.to_nat (r ÷ 2) = Some (Z.of_nat j)
              /\ items !! j = Some m /\ nonlocal m
              /\ length (filter nonlocal (take j items)) = Z.to_nat (r ÷ 2)) as Hreq.
  { intros r Hr.
    assert (0 <= r ÷ 2 < Z.of_nat n) as Hq.
    { split; [apply Z.quot_pos; lia|]. apply Z.quot_lt_upper_bound; lia. }
    destruct (lookup_lt_is_Some_2 (Copier_fillMidxForReq items 0) (Z.to_nat (r ÷ 2)))
      as [midx Hk].
    { rewrite Copier_fillMidxForReq_length. fold nonlocal. fold n. lia. }
    pose proof Hk as Hk'.
    apply Copier_fillMidxForReq_lookup in Hk' as (j & m & -> & Hj & Hm & Hc).
    exists j, m. rewrite Z.add_0_l in Hk. done. }
  split; [done|]. split; [done|]. split.
  { intros r Hr. destruct (Hreq r Hr) as (j & m & Hk & Hj & Hm & Hc).
    rewrite Hk. change (default 0 (Some (Z.of_nat j))) with (Z.of_nat j).
    rewrite Nat2Z.id.
    pose proof (lookup_lt_Some _ _ _ Hj). split; [lia|].
    exists m. split; [done|]. split; [done|].
    fold nonlocal. rewrite Hc. apply Z2Nat.id. apply Z.quot_pos; lia. }
  split.
  { intros r r' Hr Hr' E.
    destruct (Hreq r Hr) as (j & m & Hk & Hj & Hm & Hc).
    destruct (Hreq r' Hr') as (j' & m' & Hk' & Hj' & Hm' & Hc').
    rewrite Hk, Hk' in E.
    change (default 0 (Some (Z.of_nat j))) with (Z.of_nat j) in E.
    change (default 0 (Some (Z.of_nat j'))) with (Z.of_nat j') in E.
    assert (j = j') as <- by lia.
    assert (0 <= r ÷ 2) by (apply Z.quot_pos; lia).
    assert (0 <= r' ÷ 2) by (apply Z.quot_pos; lia).
    lia. }
  intros j m Hj Hm.
  set (k := length (filter nonlocal (take j items))).
  assert (k < n)%nat as Hkn by (by apply (filter_take_length_lt nonlocal items j m)).
  assert (Copier_fillMidxForReq items 0 !! k = Some (Z.of_nat j)) as Hk.
  { apply Copier_fillMidxForReq_lookup. exists j, m. split; [lia|]. done. }
  exists (Z.of_nat k). split; [lia|]. split; [lia|].
  assert ((2 * Z.of_nat k) ÷ 2 = Z.of_nat k) as -> by (rewrite Z.mul_comm; apply Z.quot_mul; lia).
  assert ((2 * Z.of_nat k + 1) ÷ 2 = Z.of_nat k) as ->.
  { symmetry. apply Z.quot_unique with (r := 1); lia. }
  rewrite Nat2Z.id, Hk. done.
Qed.

Lemma Copier_requests_witness :
  exists copier,
    Copier_defineExchangeDBL example_cfg example_row 1 0 1 0 0 = inr copier
    /\ Copier_numRequest copier = 2 * Z.of_nat (length (m_midxForReq copier)).
Proof.
  destruct (Copier_requests (MkProcEnv 2 0) (MkBox (IV 0 0 0) (IV 3 0 0)) (IV 1 1 1)
              example_cfg example_row 1 0 1 0 0)
    as (copier & Hcop & _ & Hlen & _).
  - unfold Define_wf; simpl. repeat split; lia.
  - vm_compute. reflexivity.
  - lia.
  - lia.
  - reflexivity.
  - exists copier. split; [exact Hcop|exact Hlen].
Defined.

(* ===================================================================== *)
(** * The regions of a motion item *)
(* ===================================================================== *)

Ltac stencil_cases d0 d1 d2 :=
  let H := fresh in
  assert (d0 = -1 \/ d0 = 0 \/ d0 = 1) as H by lia; destruct H as [ -> | [ -> | -> ] ];
  assert (d1 = -1 \/ d1 = 0 \/ d1 = 1) as H by lia; destruct H as [ -> | [ -> | -> ] ];
  assert (d2 = -1 \/ d2 = 0 \/ d2 = 1) as H by lia; destruct H as [ -> | [ -> | -> ] ].

(** The regions of a motion item on the lattice of boxes, for the box at
    [w], the direction [d] and the remote box at [w']. *)
Lemma Plan_regions_geometry (dom : Box) (M w d w' : IntVect) (g : Z) :
  0 < iv0 M -> 0 < iv1 M -> 0 < iv2 M -> 0 <= g -> Stencil_contains d ->
  let L := Lattice_box dom M w in
  let image := Lattice_box dom M (IntVect_add w d) in
  let R := Lattice_box dom M w' in
  let recv := Box_intersect (Box_grow L g) image in
  let send := Box_intersect L (Box_grow image g) in
  let back := IntVect_mul M (IntVect_sub w' (IntVect_add w d)) in
  Box_containsBox (Box_grow L g) recv = true
  /\ Box_containsBox R (Box_shift recv back) = true
  /\ Box_containsBox L send = true
  /\ Box_dimensions (Box_shift recv back) = Box_dimensions recv
  /\ Box_dimensions send = Box_dimensions recv
  /\ Box_dimensions recv
     = IV (if iv0 d =? 0 then iv0 M else Z.min g (iv0 M))
          (if iv1 d =? 0 then iv1 M else Z.min g (iv1 M))
          (if iv2 d =? 0 then iv2 M else Z.min g (iv2 M)).
Proof.
  intros M0 M1 M2 Hg (S0 & S1 & S2).
  destruct dom as [[l0 l1 l2] [h0 h1 h2]], M as [m0 m1 m2], w as [w0 w1 w2],
           d as [d0 d1 d2], w' as [v0 v1 v2].
  cbv zeta. unfold Box_containsBox. rewrite !andb_true_iff, !IntVect_leb_spec.
  unfold Box_dimensions, Box_shift, Box_intersect, Box_grow, Lattice_box,
    IntVect_max, IntVect_min, IntVect_add, IntVect_sub, IntVect_mul, IntVect_Unit.
  cbn [iv0 iv1 iv2 loVect hiVect] in *.
  stencil_cases d0 d1 d2;
    change (-1 =? 0) with false; change (0 =? 0) with true; change (1 =? 0) with false;
    cbv iota;
    (split; [lia|]); (split; [lia|]); (split; [lia|]);
    (split; [f_equal; lia|]); (split; [f_equal; lia|]); f_equal; lia.
Qed.

(** The boxes and the processes that the motion item for the box at [w]
    and the direction [d] refers to. *)
Lemma Plan_item_fields (env : ProcEnv) (a_domain : Box) (M : IntVect)
  (dbl : DisjointBoxLayout) (cfg : BuildConfig) (bytesPerCell g a_periodic : Z)
  (w d : IntVect) :
  Layout_ok env a_domain M dbl ->
  Lattice_contains (m_numBox dbl) w ->
  Periodic_reach a_periodic (m_numBox dbl) w d ->
  let m := Plan_item cfg bytesPerCell dbl M g w d in
  let w' := Lattice_wrap (m_numBox dbl) (IntVect_add w d) in
  Lattice_contains (m_numBox dbl) w'
  /\ DBL_box dbl (m_bidxLocal m) = Lattice_box a_domain M w
  /\ DBL_box dbl (m_bidxRemote m) = Lattice_box a_domain M w'
  /\ m_localProcID m = Lattice_linear (m_numBox dbl) w ÷ m_numLocalBox dbl
  /\ m_remoteProcID m = Lattice_linear (m_numBox dbl) w' ÷ m_numLocalBox dbl.
Proof.
  intros Hok Hw Hr. cbv zeta.
  pose proof Hok as (_ & _ & (N0 & N1 & N2) & _ & _ & _ & _ & _ & _ & _ & _ & Hent).
  pose proof (Lattice_wrap_contains _ _ _ _ N0 N1 N2 Hr) as Hw'.
  split; [done|].
  unfold Plan_item. cbv zeta.
  unfold Motion2Way_new, DBL_box, DBL_proc. cbv zeta.
  cbn [m_bidxLocal m_bidxRemote m_localProcID m_remoteProcID globalIndex].
  rewrite (Hent _ Hw), (Hent _ Hw'). done.
Qed.

(** X22.  On a layout built by [define], every motion item of a plan
    receives into ghost cells only: [regionRecv] lies in the local box
    grown by the ghost width and has no cell in common with the local
    box itself.  What the remote side sends, [regionSendRemote], lies in
    the remote box, whose linear index is one of the layout, and, in a
    build with the transport, [regionSend] lies in the local box. *)
Theorem Copier_regions_placement (env : ProcEnv) (a_domain : Box) (a_maxBoxSize : IntVect)
  (dbl : DisjointBoxLayout) (cfg : BuildConfig)
  (a_numGhost a_startComp a_numComp a_periodic a_trim : Z) :
  Define_wf env a_domain a_maxBoxSize ->
  DBL_define env a_domain a_maxBoxSize = inr dbl ->
  0 <= a_startComp -> 0 < a_numComp -> 0 < a_numGhost ->
  exists copier,
    Copier_defineExchangeDBL cfg dbl a_numGhost a_startComp a_numComp a_periodic a_trim
    = inr copier
    /\ forall m, m ∈ m_motionItem copier ->
         let L := DBL_box dbl (m_bidxLocal m) in
         let R := DBL_box dbl (m_bidxRemote m) in
         0 <= globalIndex (m_bidxRemote m) < DBL_size dbl
         /\ Box_containsBox a_domain R = true
         /\ Box_containsBox (Box_grow L a_numGhost) (m_regionRecv m) = true
         /\ Box_isEmpty (Box_intersect (m_regionRecv m) L) = true
         /\ Box_containsBox R (m_regionSendRemote m) = true
         /\ (USE_MPI cfg = true -> Box_containsBox L (m_regionSend m) = true).
Proof.
  intros Hwf Hdef Hsc Hnc Hg.
  pose proof (DBL_define_ok _ _ _ _ Hwf Hdef) as Hok.
  destruct (Copier_plan_membership env a_domain a_maxBoxSize dbl cfg a_numGhost a_startComp
              a_numComp a_periodic a_trim Hok Hsc Hnc Hg) as (copier & Hcop & Hmem).
  exists copier. split; [done|]. intros m Hm.
  apply Hmem in Hm as (w & d & Hw & Hrange & Hs & Hnz & Ht & Hr & ->).
  destruct (Plan_item_fields env a_domain a_maxBoxSize dbl cfg (sizeofT cfg * a_numComp)
              a_numGhost a_periodic w d Hok Hw Hr) as (Hw' & HL & HR & _).
  cbv zeta. rewrite HL, HR.
  pose proof Hok as (_ & Hdom & _ & (M0 & M1 & M2) & Hdim & _ & Hsize & _).
  destruct (Plan_regions_geometry a_domain a_maxBoxSize w d
              (Lattice_wrap (m_numBox dbl) (IntVect_add w d)) a_numGhost
              M0 M1 M2 ltac:(lia) Hs) as (G1 & G2 & G3 & _).
  unfold Plan_item. cbv zeta.
  cbn [Motion2Way_new m_bidxRemote m_regionRecv m_regionSend m_regionSendRemote globalIndex].
  rewrite Hdom. split.
  { unfold DBL_size. rewrite Hsize. by apply Lattice_linear_bounds. }
  split; [by apply (Lattice_box_in_domain a_domain a_maxBoxSize (m_numBox dbl))|].
  split; [done|]. split.
  { apply Box_isEmpty_no_cell. intros c. apply not_true_is_false. intros Hc.
    apply Box_intersect_contains in Hc as [Hc HcL].
    apply Box_intersect_contains in Hc as [_ Hc].
    pose proof (Lattice_box_disjoint _ _ _ _ _ M0 M1 M2 Hc HcL) as E.
    apply Hnz. destruct w as [w0 w1 w2], d as [d0 d1 d2].
    unfold IntVect_add in E; simpl in E. injection E as E0 E1 E2.
    unfold IntVect_Zero. f_equal; lia. }
  split; [done|]. intros ->. done.
Qed.

Lemma Copier_regions_placement_witness :
  exists copier,
    Copier_defineExchangeDBL example_cfg example_cube 1 0 1 7 0 = inr copier
    /\ forall m, m ∈ m_motionItem copier ->
         Box_isEmpty (Box_intersect (m_regionRecv m) (DBL_box example_cube (m_bidxLocal m)))
         = true.
Proof.
  destruct (Copier_regions_placement (MkProcEnv 1 0) (MkBox (IV 0 0 0) (IV 2 2 2)) (IV 1 1 1)
              example_cube example_cfg 1 0 1 7 0) as (copier & Hcop & H).
  - unfold Define_wf. simpl. repeat split; lia.
  - reflexivity.
  - lia.
  - lia.
  - lia.
  - exists copier. split; [exact Hcop|]. intros m Hm.
    exact (proj1 (proj2 (proj2 (proj2 (H m Hm))))).
Defined.

(** X23.  On a layout built by [define], the region a motion item
    receives has, in each direction, the size of a box where the
    direction of the item is 0 and the smaller of the ghost width and
    the size of a box elsewhere; so it is never empty, and a ghost width
    larger than a box is cut to the size of the box.  The region the
    remote side sends has the same dimensions; in a build with the
    transport so has the region this side sends, and the two buffers of
    an item hold the same number of bytes, the bytes per cell times the
    cells of the region, or are both null when the item is local. *)
Theorem Copier_regions_size (env : ProcEnv) (a_domain : Box) (a_maxBoxSize : IntVect)
  (dbl : DisjointBoxLayout) (cfg : BuildConfig)
  (a_numGhost a_startComp a_numComp a_periodic a_trim : Z) :
  Define_wf env a_domain a_maxBoxSize ->
  DBL_define env a_domain a_maxBoxSize = inr dbl ->
  0 <= a_startComp -> 0 < a_numComp -> 0 < a_numGhost ->
  exists copier,
    Copier_defineExchangeDBL cfg dbl a_numGhost a_startComp a_numComp a_periodic a_trim
    = inr copier
    /\ forall m, m ∈ m_motionItem copier ->
         let side (i : Z) :=
           if IntVect_get (m_sendDir m) i =? 0 then IntVect_get a_maxBoxSize i
           else Z.min a_numGhost (IntVect_get a_maxBoxSize i) in
         Box_dimensions (m_regionRecv m) = IV (side 0) (side 1) (side 2)
         /\ Box_isEmpty (m_regionRecv m) = false
         /\ Box_dimensions (m_regionSendRemote m) = Box_dimensions (m_regionRecv m)
         /\ m_recvBuffer m
            = (if Motion2Way_isLocal m then None
               else Some (sizeofT cfg * a_numComp * Box_size (m_regionRecv m)))
         /\ (USE_MPI cfg = true ->
             Box_dimensions (m_regionSend m) = Box_dimensions (m_regionRecv m)
             /\ m_sendBuffer m = m_recvBuffer m).
Proof.
  intros Hwf Hdef Hsc Hnc Hg.
  pose proof (DBL_define_ok _ _ _ _ Hwf Hdef) as Hok.
  destruct (Copier_plan_membership env a_domain a_maxBoxSize dbl cfg a_numGhost a_startComp
              a_numComp a_periodic a_trim Hok Hsc Hnc Hg) as (copier & Hcop & Hmem).
  exists copier. split; [done|]. intros m Hm.
  apply Hmem in Hm as (w & d & Hw & Hrange & Hs & Hnz & Ht & Hr & ->).
  pose proof Hok as (_ & Hdom & _ & (M0 & M1 & M2) & _).
  destruct (Plan_regions_geometry a_domain a_maxBoxSize w d
              (Lattice_wrap (m_numBox dbl) (IntVect_add w d)) a_numGhost
              M0 M1 M2 ltac:(lia) Hs) as (_ & _ & _ & G4 & G5 & G6).
  cbv zeta in G4, G5, G6.
  unfold Motion2Way_isLocal, Plan_item. cbv zeta.
  cbn [Motion2Way_new m_regionRecv m_regionSend m_regionSendRemote m_sendDir
       m_recvBuffer m_sendBuffer m_localProcID m_remoteProcID].
  rewrite Hdom. iv_simpl.
  split; [exact G6|]. split.
  { apply Box_isEmpty_false.
    pose proof (f_equal iv0 G6) as E0. pose proof (f_equal iv1 G6) as E1.
    pose proof (f_equal iv2 G6) as E2.
    unfold Box_dimensions in E0, E1, E2.
    cbn [iv0 iv1 iv2 IntVect_add IntVect_sub IntVect_Unit] in E0, E1, E2.
    destruct (iv0 d =? 0), (iv1 d =? 0), (iv2 d =? 0); lia. }
  split; [exact G4|]. split.
  { destruct (Z.eqb (DBL_proc _ _) _); reflexivity. }
  intros ->. split; [exact G5|].
  unfold Box_size. rewrite G5. reflexivity.
Qed.

Lemma Copier_regions_size_witness :
  exists copier,
    Copier_defineExchangeDBL example_cfg example_cube 4 0 1 7 0 = inr copier
    /\ forall m, m ∈ m_motionItem copier -> Box_size (m_regionRecv m) = 1.
Proof.
  destruct (Copier_regions_size (MkProcEnv 1 0) (MkBox (IV 0 0 0) (IV 2 2 2)) (IV 1 1 1)
              example_cube example_cfg 4 0 1 7 0) as (copier & Hcop & H).
  - unfold Define_wf. simpl. repeat split; lia.
  - reflexivity.
  - lia.
  - lia.
  - lia.
  - exists copier. split; [exact Hcop|]. intros m Hm.
    destruct (H m Hm) as (Hdim & _). unfold Box_size. rewrite Hdim.
    unfold IntVect_product, IntVect_get. simpl.
    destruct (iv0 (m_sendDir m) =? 0), (iv1 (m_sendDir m) =? 0), (iv2 (m_sendDir m) =? 0);
      reflexivity.
Defined.

(* ===================================================================== *)
(** * The plans of two processes *)
(* ===================================================================== *)

(** Stepping back from the box reached in the direction [d], around the
    domain if need be, leads to the box one came from. *)
Lemma Periodic_back_any (a_periodic : Z) (N w d : IntVect) :
  1 <= iv0 N -> 1 <= iv1 N -> 1 <= iv2 N ->
  Lattice_contains N w ->
  Stencil_contains d ->
  Periodic_reach a_periodic N w d ->
  let w' := Lattice_wrap N (IntVect_add w d) in
  Periodic_reach a_periodic N w' (IntVect_neg d)
  /\ Lattice_wrap N (IntVect_add w' (IntVect_neg d)) = w.
Proof.
  intros N0 N1 N2 (W0 & W1 & W2) (S0 & S1 & S2) (R0 & R1 & R2).
  destruct N as [n0 n1 n2], w as [w0 w1 w2], d as [d0 d1 d2].
  unfold Periodic_reach, Lattice_wrap, IntVect_add, IntVect_neg in *.
  cbn [iv0 iv1 iv2] in *. rewrite !Z.add_opp_r.
  destruct (wrapCoord_back n0 w0 d0 _ N0 W0 S0 R0) as (A0 & B0 & _).
  destruct (wrapCoord_back n1 w1 d1 _ N1 W1 S1 R1) as (A1 & B1 & _).
  destruct (wrapCoord_back n2 w2 d2 _ N2 W2 S2 R2) as (A2 & B2 & _).
  rewrite B0, B1, B2. done.
Qed.

(** Layouts that two processes build from the same domain and box size
    have the same lattice and the same number of boxes per process. *)
Lemma Layout_ok_same (env1 env2 : ProcEnv) (a_domain : Box) (M : IntVect)
  (d1 d2 : DisjointBoxLayout) :
  Layout_ok env1 a_domain M d1 -> Layout_ok env2 a_domain M d2 ->
  s_numProc env1 = s_numProc env2 ->
  m_numBox d1 = m_numBox d2 /\ m_numLocalBox d1 = m_numLocalBox d2
  /\ m_domain d1 = m_domain d2.
Proof.
  intros (_ & Hdom1 & _ & (M0 & M1 & M2) & Hdim1 & _ & Hsz1 & (_ & Hl1) & (HP & _) & _)
         (_ & Hdom2 & _ & _ & Hdim2 & _ & Hsz2 & (_ & Hl2) & _) HPeq.
  assert (m_numBox d1 = m_numBox d2) as HN.
  { rewrite Hdim1 in Hdim2. destruct (m_numBox d1) as [a0 a1 a2], (m_numBox d2) as [b0 b1 b2].
    unfold IntVect_mul in Hdim2; simpl in Hdim2. injection Hdim2 as E0 E1 E2.
    f_equal; nia. }
  split; [done|]. split; [|congruence].
  rewrite HN in Hsz1. nia.
Qed.

Lemma Box_dimensions_shift (b : Box) (v : IntVect) :
  Box_dimensions (Box_shift b v) = Box_dimensions b.
Proof.
  destruct b as [[l0 l1 l2] [h0 h1 h2]], v as [v0 v1 v2].
  unfold Box_dimensions, Box_shift, IntVect_add, IntVect_sub; simpl. f_equal; lia.
Qed.

(** What a process sends for a motion item is what the process at the
    other end expects for its item in the opposite direction. *)
Lemma Plan_regions_match (dom : Box) (M w d w' : IntVect) (g : Z) :
  let L := Lattice_box dom M w in
  let image := Lattice_box dom M (IntVect_add w d) in
  let L' := Lattice_box dom M w' in
  let image' := Lattice_box dom M (IntVect_add w' (IntVect_neg d)) in
  let back := IntVect_mul M (IntVect_sub w' (IntVect_add w d)) in
  let back' := IntVect_mul M (IntVect_sub w (IntVect_add w' (IntVect_neg d))) in
  Box_intersect L' (Box_grow image' g)
  = Box_shift (Box_intersect (Box_grow L g) image) back
  /\ Box_shift (Box_intersect (Box_grow L' g) image') back'
     = Box_intersect L (Box_grow image g).
Proof.
  destruct dom as [[l0 l1 l2] [h0 h1 h2]], M as [m0 m1 m2], w as [w0 w1 w2],
           d as [d0 d1 d2], w' as [v0 v1 v2].
  cbv zeta.
  unfold Box_shift, Box_intersect, Box_grow, Lattice_box,
    IntVect_max, IntVect_min, IntVect_add, IntVect_sub, IntVect_mul, IntVect_neg, IntVect_Unit.
  cbn [iv0 iv1 iv2 loVect hiVect].
  split; f_equal; f_equal; lia.
Qed.

(** X24.  The plans of two processes fit together.  Let processes [p]
    and [q] of [P] build the layout of the same domain and box size with
    [define] and a plan with the same arguments, in a build with the
    transport.  For every motion item of the plan of [p] whose remote
    box belongs to [q], the plan of [q] has the motion item of that box
    in the opposite direction; its remote box is the local box of the
    first, it goes to process [p], its send tag is the receive tag of
    the first and its receive tag the send tag of the first, the region
    it sends is the region the first expects from the remote side and
    conversely, and its send buffer has the size of the receive buffer
    of the first. *)
Theorem Copier_messages_match (P p q : Z) (a_domain : Box) (a_maxBoxSize : IntVect)
  (dblP dblQ : DisjointBoxLayout) (cfg : BuildConfig)
  (a_numGhost a_startComp a_numComp a_periodic a_trim : Z) :
  Define_wf (MkProcEnv P p) a_domain a_maxBoxSize ->
  Define_wf (MkProcEnv P q) a_domain a_maxBoxSize ->
  DBL_define (MkProcEnv P p) a_domain a_maxBoxSize = inr dblP ->
  DBL_define (MkProcEnv P q) a_domain a_maxBoxSize = inr dblQ ->
  0 <= a_startComp -> 0 < a_numComp -> 0 < a_numGhost ->
  USE_MPI cfg = true ->
  exists copierP copierQ,
    Copier_defineExchangeDBL cfg dblP a_numGhost a_startComp a_numComp a_periodic a_trim
    = inr copierP
    /\ Copier_defineExchangeDBL cfg dblQ a_numGhost a_startComp a_numComp a_periodic a_trim
       = inr copierQ
    /\ forall m, m ∈ m_motionItem copierP ->
         m_localProcID m = p
         /\ (m_remoteProcID m = q ->
             exists m',
               m' ∈ m_motionItem copierQ
               /\ globalIndex (m_bidxLocal m') = globalIndex (m_bidxRemote m)
               /\ globalIndex (m_bidxRemote m') = globalIndex (m_bidxLocal m)
               /\ m_sendDir m' = IntVect_neg (m_sendDir m)
               /\ m_localProcID m' = q
               /\ m_remoteProcID m' = p
               /\ m_tagSend m' = m_tagRecv m
               /\ m_tagRecv m' = m_tagSend m
               /\ m_regionSend m' = m_regionSendRemote m
               /\ m_regionSendRemote m' = m_regionSend m
               /\ m_sendBuffer m' = m_recvBuffer m
               /\ m_recvBuffer m' = m_sendBuffer m).
Proof.
  intros WfP WfQ DefP DefQ Hsc Hnc Hg Hmpi.
  pose proof (DBL_define_ok _ _ _ _ WfP DefP) as OkP.
  pose proof (DBL_define_ok _ _ _ _ WfQ DefQ) as OkQ.
  destruct (Layout_ok_same _ _ _ _ _ _ OkP OkQ eq_refl) as (HN & Hnlb & Hdom).
  destruct (Copier_plan_membership _ a_domain a_maxBoxSize dblP cfg a_numGhost a_startComp
              a_numComp a_periodic a_trim OkP Hsc Hnc Hg) as (copierP & HcP & HmemP).
  destruct (Copier_plan_membership _ a_domain a_maxBoxSize dblQ cfg a_numGhost a_startComp
              a_numComp a_periodic a_trim OkQ Hsc Hnc Hg) as (copierQ & HcQ & HmemQ).
  exists copierP, copierQ. split; [done|]. split; [done|]. intros m Hm.
  apply HmemP in Hm as (w & d & Hw & Hrange & Hs & Hnz & Ht & Hr & ->).
  pose proof OkP as (HenvP & HdomP & (N0 & N1 & N2) & (M0 & M1 & M2) & _ & _ & HszP & _ & _
                     & _ & _ & HentP).
  pose proof OkQ as (HenvQ & HdomQ & _ & _ & _ & _ & HszQ & _ & _ & _ & _ & HentQ).
  destruct (Plan_item_fields _ a_domain a_maxBoxSize dblP cfg (sizeofT cfg * a_numComp)
              a_numGhost a_periodic w d OkP Hw Hr) as (Hw' & _ & _ & HlpP & HrpP).
  destruct (Periodic_back_any a_periodic (m_numBox dblP) w d N0 N1 N2 Hw Hs Hr)
    as (Hr' & Hwrap).
  set (w' := Lattice_wrap (m_numBox dblP) (IntVect_add w d)) in *.
  assert (Stencil_contains (IntVect_neg d)) as Hs'.
  { destruct Hs as (S0 & S1 & S2). unfold Stencil_contains, IntVect_neg; simpl. lia. }
  pose proof (Lattice_linear_bounds _ _ Hw) as Hb.
  pose proof (Lattice_linear_bounds _ _ Hw') as Hb'.
  assert (Lattice_linear (m_numBox dblP) w ÷ m_numLocalBox dblP = p) as Hp.
  { rewrite <- (Layout_proc _ _ _ _ _ OkP) by lia.
    apply (Layout_owned _ _ _ _ _ OkP) in Hrange; [|lia].
    rewrite Hrange. unfold DBL_procID. by rewrite HenvP. }
  rewrite HlpP. split; [exact Hp|]. rewrite HrpP. intros Hq.
  pose proof Hw' as HwP'. pose proof HentQ as HentQ'.
  rewrite <- HN, <- Hnlb in HentQ'.
  rewrite HN in Hw', Hr', Hwrap.
  destruct (Plan_item_fields _ a_domain a_maxBoxSize dblQ cfg (sizeofT cfg * a_numComp)
              a_numGhost a_periodic w' (IntVect_neg d) OkQ Hw' Hr')
    as (_ & _ & _ & HlpQ & HrpQ).
  exists (Plan_item cfg (sizeofT cfg * a_numComp) dblQ a_maxBoxSize a_numGhost w'
            (IntVect_neg d)).
  split.
  { apply HmemQ. exists w', (IntVect_neg d).
    split; [done|]. split.
    { apply (Layout_owned _ _ _ _ _ OkQ).
      - rewrite HszQ, <- HN. lia.
      - rewrite (HentQ _ Hw'). cbn [entry_proc]. unfold DBL_procID. rewrite HenvQ.
        cbn [s_procID]. rewrite <- HN, <- Hnlb. exact Hq. }
    split; [done|]. split; [by rewrite IntVect_neg_zero|].
    split; [by rewrite IntVect_norm1_neg|]. done. }
  rewrite HlpQ, HrpQ, Hwrap. rewrite <- HN, <- Hnlb.
  destruct (Plan_regions_match a_domain a_maxBoxSize w d w' a_numGhost) as (G1 & G2).
  cbv zeta in G1, G2.
  destruct (Plan_regions_geometry a_domain a_maxBoxSize w d w' a_numGhost
              M0 M1 M2 ltac:(lia) Hs) as (_ & _ & _ & G4 & G5 & _).
  cbv zeta in G4, G5.
  unfold Plan_item. cbv zeta. rewrite <- HN. fold w'. rewrite HN, Hwrap, <- HN.
  unfold Motion2Way_new, Motion2Way_uniqueTag, DBL_proc. cbv zeta.
  cbn [m_bidxLocal m_bidxRemote m_sendDir m_tagSend m_tagRecv m_regionSend
       m_regionSendRemote m_sendBuffer m_recvBuffer globalIndex].
  rewrite Hmpi, HdomP, HdomQ, G1, G2.
  rewrite (HentP _ Hw), (HentP _ HwP'), (HentQ' _ Hw), (HentQ' _ HwP').
  cbn [entry_proc]. rewrite Hp, Hq.
  split; [done|]. split; [done|]. split; [done|]. split; [done|]. split; [done|].
  split; [done|]. split.
  { destruct d as [d0 d1 d2]. unfold IntVect_neg, IntVect_get; simpl. f_equal. lia. }
  split; [done|]. split; [done|].
  pose proof (f_equal Box_dimensions G2) as G6. rewrite Box_dimensions_shift in G6.
  unfold Box_size. rewrite G4, G6.
  rewrite (Z.eqb_sym q p). split; reflexivity.
Qed.

Lemma Copier_messages_match_witness :
  exists copierP copierQ,
    Copier_defineExchangeDBL example_cfg example_row 1 0 1 PeriodicX 0 = inr copierP
    /\ Copier_defineExchangeDBL example_cfg example_row_peer 1 0 1 PeriodicX 0 = inr copierQ
    /\ forall m, m ∈ m_motionItem copierP -> m_localProcID m = 0.
Proof.
  destruct (Copier_messages_match 2 0 1 (MkBox (IV 0 0 0) (IV 3 0 0)) (IV 1 1 1)
              example_row example_row_peer example_cfg 1 0 1 PeriodicX 0)
    as (copierP & copierQ & HcP & HcQ & H).
  - unfold Define_wf; simpl. repeat split; lia.
  - unfold Define_wf; simpl. repeat split; lia.
  - vm_compute. reflexivity.
  - vm_compute. reflexivity.
  - lia.
  - lia.
  - lia.
  - reflexivity.
  - exists copierP, copierQ. split; [exact HcP|]. split; [exact HcQ|].
    intros m Hm. exact (proj1 (H m Hm)).
Defined.

(* ===================================================================== *)
(** * LevelData: construction *)
(* ===================================================================== *)

Section LevelDataFabs.

Variable dbl : DisjointBoxLayout.
Variables a_ncomp a_nghost : Z.

Local Abbreviation shape := (LevelData_fabShape dbl a_ncomp a_nghost).
Local Abbreviation position := (DataIterator_position dbl).

Lemma Vector_set_in {A : Type} (v : list A) (k : nat) (x : A) :
  (k < length v)%nat -> Vector_set v (Z.of_nat k) x = Some (<[k := x]> v).
Proof.
  intros Hk. unfold Vector_set.
  destruct (Z.leb_spec 0 (Z.of_nat k)); [|lia].
  destruct (Z.ltb_spec (Z.of_nat k) (Z.of_nat (length v))); [|lia].
  cbn [andb]. by rewrite Nat2Z.id.
Qed.

Lemma fabs_step (data : list FabShape) (a len : nat) (data' : list FabShape) :
  (a < length data)%nat ->
  length data' = length (<[a := shape a]> data) ->
  (forall i, data' !! i
             = if decide (S a <= i < S a + len)%nat then Some (shape i)
               else <[a := shape a]> data !! i) ->
  length data' = length data
  /\ forall i, data' !! i
               = if decide (a <= i < a + S len)%nat then Some (shape i) else data !! i.
Proof.
  intros Ha Hlen Hlook. rewrite length_insert in Hlen. split; [done|].
  intros i. rewrite Hlook.
  destruct (decide (S a <= i < S a + len)%nat), (decide (a <= i < a + S len)%nat);
    try done; try lia.
  - destruct (decide (i = a)) as [->|Hne].
    + by rewrite list_lookup_insert_eq.
    + lia.
  - apply list_lookup_insert_ne. lia.
Qed.

Lemma LevelData_newLoop_spec (len : nat) :
  forall (a : nat) (data : list FabShape),
    (a + len <= length data)%nat ->
    exists data',
      LevelData_newLoop dbl a_ncomp a_nghost (map position (seq a len)) data = Some data'
      /\ length data' = length data
      /\ forall i, data' !! i
                   = if decide (a <= i < a + len)%nat then Some (shape i) else data !! i.
Proof.
  induction len as [|len IH]; intros a data Hlen.
  - exists data. split; [done|]. split; [done|]. intros i.
    destruct (decide (a <= i < a + 0)%nat); [lia|done].
  - cbn [seq map LevelData_newLoop]. cbv zeta.
    unfold DataIterator_position at 1. unfold LayoutIterator_deref, DBL_localIdxBegin.
    cbn [lit_current lit_disjointBoxLayout localIndex].
    rewrite Z.add_simpl_l. rewrite (Vector_set_in data a) by lia.
    destruct (IH (S a) (<[a := Some (Box_grow (DBL_boxAt dbl (position a)) a_nghost, a_ncomp)]>
                          data)) as (data' & Hrun & Hl & Hlook).
    { rewrite length_insert. lia. }
    exists data'. split; [exact Hrun|].
    by apply (fabs_step data a len data'); [lia| |].
Qed.

Lemma LevelData_defineLoop_spec (len : nat) :
  forall (a : nat) (data : list FabShape),
    (a + len <= length data)%nat ->
    (a + len <= Z.to_nat (m_numLocalBox dbl))%nat ->
    exists data',
      LevelData_defineLoop (MkLevelData dbl a_ncomp a_nghost) a_ncomp a_nghost
        (map position (seq a len)) data = inr (Some data')
      /\ length data' = length data
      /\ forall i, data' !! i
                   = if decide (a <= i < a + len)%nat then Some (shape i) else data !! i.
Proof.
  induction len as [|len IH]; intros a data Hlen Hloc.
  - exists data. split; [done|]. split; [done|]. intros i.
    destruct (decide (a <= i < a + 0)%nat); [lia|done].
  - cbn [seq map LevelData_defineLoop]. cbv zeta.
    assert (LevelData_atIter (MkLevelData dbl a_ncomp a_nghost) (position a)
            = inr (Z.of_nat a)) as ->.
    { unfold LevelData_atIter, DataIterator_position, LayoutIterator_deref, DBL_localIdxBegin,
        DBL_localIdxEnd, DBL_localSize. cbv zeta.
      cbn [lit_current lit_disjointBoxLayout localIndex globalIndex ld_disjointBoxLayout].
      rewrite Z.add_simpl_l.
      destruct (Z.ltb_spec (Z.of_nat a) (m_numLocalBox dbl)); [|lia].
      destruct (Z.leb_spec (m_localIdxBeg dbl) (m_localIdxBeg dbl + Z.of_nat a)); [|lia].
      destruct (Z.ltb_spec (m_localIdxBeg dbl + Z.of_nat a)
                  (m_localIdxBeg dbl + m_numLocalBox dbl)); [|lia].
      reflexivity. }
    cbn [Outcome_bind].
    rewrite (Vector_set_in data a) by lia.
    destruct (IH (S a) (<[a := Some (Box_grow (DBL_boxAt dbl (position a)) a_nghost, a_ncomp)]>
                          data)) as (data' & Hrun & Hl & Hlook).
    { rewrite length_insert. lia. }
    { lia. }
    exists data'. split; [exact Hrun|].
    by apply (fabs_step data a len data'); [lia| |].
Qed.

Lemma fabs_all (data data' : list FabShape) :
  length data = Z.to_nat (m_numLocalBox dbl) ->
  length data' = length data ->
  (forall i, data' !! i
             = if decide (0 <= i < 0 + Z.to_nat (m_numLocalBox dbl))%nat
               then Some (shape i) else data !! i) ->
  data' = map shape (seq 0 (Z.to_nat (m_numLocalBox dbl))).
Proof.
  intros Hd Hl Hlook. apply list_eq. intros i. rewrite Hlook, list_lookup_fmap.
  destruct (decide (0 <= i < 0 + Z.to_nat (m_numLocalBox dbl))%nat) as [Hi|Hi].
  - rewrite lookup_seq_lt by lia. done.
  - rewrite lookup_seq_ge by lia. apply lookup_ge_None. lia.
Qed.

(* The loops of the constructor and of [define] over the local boxes of
   the layout of the section. *)
Lemma LevelData_construction_fabs (m_data : list FabShape) :
  0 <= DBL_localSize dbl ->
  let ld := MkLevelData dbl a_ncomp a_nghost in
  let fabs :=
    map (fun k => Some (Box_grow (DBL_box dbl (DBL_dataIndex dbl (Z.of_nat k))) a_nghost,
                        a_ncomp))
        (seq 0 (Z.to_nat (DBL_localSize dbl))) in
  LevelData_new dbl a_ncomp a_nghost = inr (Some (ld, fabs))
  /\ LevelData_define m_data dbl a_ncomp a_nghost = inr (Some (ld, fabs))
  /\ Z.of_nat (length fabs) = LevelData_size ld
  /\ forall k,
       LevelData_getLinear ld fabs k
       = if (0 <=? k) && (k <? LevelData_size ld)
         then inr (Some (Some (Box_grow (DBL_box dbl (DBL_dataIndex dbl k)) a_nghost,
                               a_ncomp)))
         else inl AssertionFailed.
Proof.
  intros Hn. cbv zeta. unfold DBL_localSize in *. fold shape.
  set (n := Z.to_nat (m_numLocalBox dbl)).
  split; [|split; [|split]].
  - unfold LevelData_new, Vector_new, DBL_localSize.
    destruct (Z.leb_spec 0 (m_numLocalBox dbl)); [|lia].
    rewrite DataIterator_visit_eq. cbn [Outcome_bind]. fold position. fold n.
    destruct (LevelData_newLoop_spec n 0 (replicate n None))
      as (data' & Hrun & Hl & Hlook).
    { rewrite length_replicate. lia. }
    rewrite Hrun. cbn [option_map]. do 3 f_equal.
    apply (fabs_all (replicate n None)); [by rewrite length_replicate|done|done].
  - unfold LevelData_define, Vector_resize, LevelData_size, DBL_localSize.
    cbn [ld_disjointBoxLayout].
    destruct (Z.leb_spec 0 (m_numLocalBox dbl)); [|lia].
    rewrite DataIterator_visit_eq. cbn [Outcome_bind]. fold position. fold n.
    destruct (LevelData_defineLoop_spec n 0 (resize n None m_data))
      as (data' & Hrun & Hl & Hlook).
    { rewrite length_resize. lia. }
    { lia. }
    rewrite Hrun. cbn [Outcome_bind option_map]. do 3 f_equal.
    apply (fabs_all (resize n None m_data)); [by rewrite length_resize|done|done].
  - unfold LevelData_size, DBL_localSize. cbn [ld_disjointBoxLayout].
    rewrite length_map, length_seq. lia.
  - intros k. unfold LevelData_getLinear, LevelData_size, DBL_localSize.
    cbn [ld_disjointBoxLayout].
    destruct ((0 <=? k) && (k <? m_numLocalBox dbl)) eqn:E; [|done].
    apply andb_true_iff in E as [E1 E2]. apply Z.leb_le in E1. apply Z.ltb_lt in E2.
    cbn [CH_assert Outcome_bind]. rewrite list_lookup_fmap, lookup_seq_lt by lia.
    change (shape <$> Some (0 + Z.to_nat k)%nat) with (Some (shape (Z.to_nat k))).
    unfold LevelData_fabShape. rewrite Z2Nat.id by lia. done.
Qed.

End LevelDataFabs.

(** X25.  On a layout built by [define], the constructor of LevelData
    and [define], whatever [m_data] held before, fail no assertion,
    index [m_data] only inside of it, and leave the same [m_data]: one
    BaseFab for each local box, at least one, in the order of the local
    index, defined on the box of the layout grown by the ghost width,
    with the number of components.  [getLinear] returns it for an index
    from 0 below [size()] and fails an assertion for any other index. *)
Theorem LevelData_construction (env : ProcEnv) (a_domain : Box) (a_maxBoxSize : IntVect)
  (dbl : DisjointBoxLayout) (a_ncomp a_nghost : Z) (m_data : list FabShape) :
  Define_wf env a_domain a_maxBoxSize ->
  DBL_define env a_domain a_maxBoxSize = inr dbl ->
  let ld := MkLevelData dbl a_ncomp a_nghost in
  let fabs :=
    map (fun k => Some (Box_grow (DBL_box dbl (DBL_dataIndex dbl (Z.of_nat k))) a_nghost,
                        a_ncomp))
        (seq 0 (Z.to_nat (DBL_localSize dbl))) in
  LevelData_new dbl a_ncomp a_nghost = inr (Some (ld, fabs))
  /\ LevelData_define m_data dbl a_ncomp a_nghost = inr (Some (ld, fabs))
  /\ Z.of_nat (length fabs) = LevelData_size ld
  /\ 1 <= LevelData_size ld
  /\ forall k,
       LevelData_getLinear ld fabs k
       = if (0 <=? k) && (k <? LevelData_size ld)
         then inr (Some (Some (Box_grow (DBL_box dbl (DBL_dataIndex dbl k)) a_nghost,
                               a_ncomp)))
         else inl AssertionFailed.
Proof.
  intros Hwf Hdef. pose proof (DBL_define_ok _ _ _ _ Hwf Hdef) as Hok.
  assert (1 <= DBL_localSize dbl) as Hn.
  { destruct Hok as (_ & _ & _ & _ & _ & _ & _ & (Hnl & _) & _).
    unfold DBL_localSize. lia. }
  destruct (LevelData_construction_fabs dbl a_ncomp a_nghost m_data ltac:(lia))
    as (Hnew & Hdefine & Hlen & Hget).
  cbv zeta. split; [exact Hnew|]. split; [exact Hdefine|]. split; [exact Hlen|].
  split; [exact Hn|exact Hget].
Qed.

Lemma LevelData_construction_witness :
  exists ld fabs,
    LevelData_define [] example_row 1 1 = inr (Some (ld, fabs)) /\ length fabs = 2%nat.
Proof.
  destruct (LevelData_construction (MkProcEnv 2 0) (MkBox (IV 0 0 0) (IV 3 0 0)) (IV 1 1 1)
              example_row 1 1 []) as (_ & Hdef & _).
  - unfold Define_wf; simpl. repeat split; lia.
  - vm_compute. reflexivity.
  - eexists _, _. split; [exact Hdef|]. reflexivity.
Defined.

(* ===================================================================== *)
(** * LevelData::exchange *)
(* ===================================================================== *)

Section ExchangeLoops.

Variable cfg : BuildConfig.
Variable ld : LevelData.
Variable copier : Copier.

Local Abbreviation items := (m_motionItem copier).

(** Indexing [m_data] for the local box of an item that is not local
    fails no assertion; without the transport every item is local. *)
Hypothesis Hitems :
  forall j m, items !! j = Some m ->
    (USE_MPI cfg = false -> Motion2Way_isLocal m = true)
    /\ (Motion2Way_isLocal m = false ->
        LevelData_at ld (m_bidxLocal m) = inr (localIndex (m_bidxLocal m))).

Lemma Copier_at_lookup (j : nat) (m : Motion2Way) :
  items !! j = Some m -> Copier_at copier (Z.of_nat j) = inr m.
Proof.
  intros Hj. unfold Copier_at, Copier_numMotionItem. fold items.
  pose proof (lookup_lt_Some _ _ _ Hj).
  destruct (Z.leb_spec 0 (Z.of_nat j)); [|lia].
  destruct (Z.ltb_spec (Z.of_nat j) (Z.of_nat (length items))); [|lia].
  cbn [andb CH_assert Outcome_bind]. by rewrite Nat2Z.id, Hj.
Qed.

Lemma Copier_remoteBefore_S (j : nat) (m : Motion2Way) :
  items !! j = Some m ->
  Copier_remoteBefore copier (S j)
  = Copier_remoteBefore copier j + (if Motion2Way_isLocal m then 0 else 1).
Proof.
  intros Hj. unfold Copier_remoteBefore. fold items.
  rewrite (take_S_r _ _ _ Hj), list.filter_app, length_app, filter_cons, filter_nil.
  destruct (Motion2Way_isLocal m).
  - destruct (decide (true = false)); [discriminate|]. simpl. lia.
  - destruct (decide (false = false)); [|done]. simpl. lia.
Qed.

Lemma LevelData_motionLoop_sent (n : nat) :
  forall (j : nat) (ops : list ExchangeOp),
    (j + n = length items)%nat ->
    exists ops',
      LevelData_motionLoop cfg ld copier n (Z.of_nat j) (ops, 2 * Copier_remoteBefore copier j)
      = inr (ops ++ ops', 2 * Copier_remoteBefore copier (length items))
      /\ forall op, op ∈ ops' ->
           exists i m, items !! i = Some m /\ Exchange_sent copier i m op.
Proof.
  induction n as [|n IH]; intros j ops Hlen.
  - exists []. rewrite app_nil_r. replace j with (length items) by lia.
    split; [done|]. intros op Hop. inversion Hop.
  - destruct (lookup_lt_is_Some_2 items j) as [m Hj]; [lia|].
    destruct (Hitems j m Hj) as [Hmpi Hat].
    cbn [LevelData_motionLoop]. unfold LevelData_motionBody. cbv zeta.
    rewrite (Copier_at_lookup j m Hj). cbn [Outcome_bind].
    replace (Z.of_nat j + 1) with (Z.of_nat (S j)) by lia.
    destruct (Motion2Way_isLocal m) eqn:Hloc.
    + assert ((if USE_MPI cfg then true else true) = true) as -> by (by destruct (USE_MPI cfg)).
      cbn [CH_assert Outcome_bind].
      set (op := FabCopy _ _ _ _ _ _ _ _).
      destruct (IH (S j) (ops ++ [op])) as (ops' & Hrun & Hops); [lia|].
      rewrite (Copier_remoteBefore_S j m Hj), Hloc, Z.add_0_r in Hrun.
      exists (op :: ops'). rewrite Hrun. split.
      { by rewrite <- app_assoc. }
      intros op' Hop'. apply elem_of_cons in Hop' as [->|Hop']; [|by apply Hops].
      exists j, m. split; [done|]. left. split; [done|]. reflexivity.
    + destruct (USE_MPI cfg) eqn:E; [|by specialize (Hmpi eq_refl)].
      rewrite (Hat eq_refl). cbn [Outcome_bind].
      set (op1 := FabLinearOut _ _ _ _ _ _). set (op2 := PostMessages _ _ _).
      destruct (IH (S j) (ops ++ [op1; op2])) as (ops' & Hrun & Hops); [lia|].
      rewrite (Copier_remoteBefore_S j m Hj), Hloc in Hrun.
      replace (2 * (Copier_remoteBefore copier j + 1))
        with (2 * Copier_remoteBefore copier j + 2) in Hrun by lia.
      exists (op1 :: op2 :: ops'). rewrite Hrun. split.
      { by rewrite <- app_assoc. }
      intros op' Hop'. apply elem_of_cons in Hop' as [->|Hop'].
      { exists j, m. split; [done|]. right. split; [done|]. by left. }
      apply elem_of_cons in Hop' as [->|Hop']; [|by apply Hops].
      exists j, m. split; [done|]. right. split; [done|]. by right.
Qed.

(** The loop that unpacks after the wait for all messages. *)
Lemma LevelData_unpackAll_eq (rest : list Motion2Way) :
  forall pre, items = pre ++ rest ->
    LevelData_unpackAll ld copier rest (Z.of_nat (length pre))
    = inr (flat_map (Exchange_unpackAt copier)
             (Copier_fillMidxForReq rest (Z.of_nat (length pre)))).
Proof.
  induction rest as [|m rest IH]; intros pre Hpre; [done|].
  assert (items !! length pre = Some m) as Hj.
  { rewrite Hpre. by rewrite list_lookup_middle. }
  destruct (Hitems _ m Hj) as [_ Hat].
  cbn [LevelData_unpackAll Copier_fillMidxForReq].
  replace (Z.of_nat (length pre) + 1) with (Z.of_nat (length (pre ++ [m])))
    by (rewrite length_app; simpl; lia).
  rewrite (IH (pre ++ [m])) by (by rewrite <- app_assoc).
  destruct (Motion2Way_isLocal m) eqn:Hloc; cbn [negb Outcome_bind]; [done|].
  rewrite (Hat eq_refl). cbn [Outcome_bind flat_map].
  unfold Exchange_unpackAt at 2. fold items. rewrite Nat2Z.id, Hj. done.
Qed.

End ExchangeLoops.

Lemma LevelData_waitAnyLoop_eq (f : Z -> Outcome (list ExchangeOp))
  (g : Z -> list ExchangeOp) (n : nat) :
  forall completions,
    (forall r, r ∈ completions -> f r = inr (g r)) ->
    LevelData_waitAnyLoop f n completions = inr (flat_map g (take n completions)).
Proof.
  induction n as [|n IH]; intros completions Hf; [by destruct completions|].
  destruct completions as [|r completions]; [done|].
  cbn [LevelData_waitAnyLoop take flat_map].
  rewrite (Hf r) by (by left). cbn [Outcome_bind].
  rewrite IH; [done|]. intros r' Hr'. apply Hf. by right.
Qed.

Lemma Exchange_unpackAt_lookup (copier : Copier) (j : nat) (m : Motion2Way) :
  m_motionItem copier !! j = Some m ->
  Exchange_unpackAt copier (Z.of_nat j)
  = [FabLinearIn (localIndex (m_bidxLocal m)) (Z.of_nat j) (m_recvBuffer m) (m_regionRecv m)
       (Copier_startComp copier) (Copier_endComp copier)].
Proof. intros Hj. unfold Exchange_unpackAt. by rewrite Nat2Z.id, Hj. Qed.

(** The motion item of a request: request [r] belongs to the motion
    item that has [r / 2] items that are not local before it. *)
Lemma Copier_request_item (copier : Copier) (r : Z) :
  m_midxForReq copier = Copier_fillMidxForReq (m_motionItem copier) 0 ->
  m_numReq copier
  = 2 * Z.of_nat (length (filter (fun m => Motion2Way_isLocal m = false)
                            (m_motionItem copier))) ->
  0 <= r < m_numReq copier ->
  exists j m,
    Copier_motionItemIndex copier r = Z.of_nat j
    /\ m_motionItem copier !! j = Some m
    /\ Motion2Way_isLocal m = false
    /\ Copier_remoteBefore copier j = r ÷ 2.
Proof.
  intros Hmidx Hnum Hr. rewrite Hnum in Hr.
  set (items := m_motionItem copier) in *.
  assert (0 <= r ÷ 2 < Z.of_nat (length (filter (fun m => Motion2Way_isLocal m = false) items)))
    as Hq.
  { split; [apply Z.quot_pos; lia|]. apply Z.quot_lt_upper_bound; lia. }
  destruct (lookup_lt_is_Some_2 (Copier_fillMidxForReq items 0) (Z.to_nat (r ÷ 2)))
    as [midx Hk].
  { rewrite Copier_fillMidxForReq_length. lia. }
  pose proof Hk as Hk'.
  apply Copier_fillMidxForReq_lookup in Hk' as (j & m & -> & Hj & Hm & Hc).
  exists j, m. unfold Copier_motionItemIndex, Copier_remoteBefore. fold items.
  rewrite Hmidx, Hk, Hc, Z.add_0_l. split; [done|]. split; [done|]. split; [done|]. lia.
Qed.

Section ExchangeDrain.

Variable cfg : BuildConfig.
Variable ld : LevelData.
Variable copier : Copier.

Local Abbreviation items := (m_motionItem copier).

Hypothesis Hitems :
  forall j m, items !! j = Some m ->
    (USE_MPI cfg = false -> Motion2Way_isLocal m = true)
    /\ (Motion2Way_isLocal m = false ->
        LevelData_at ld (m_bidxLocal m) = inr (localIndex (m_bidxLocal m))).
Hypothesis Hmidx :
  USE_MPI cfg = true -> m_midxForReq copier = Copier_fillMidxForReq items 0.
Hypothesis Hnum :
  m_numReq copier
  = 2 * Z.of_nat (length (filter (fun m => Motion2Way_isLocal m = false) items)).

Lemma LevelData_exchange_onComplete_eq (r : Z) :
  USE_MPI cfg = true ->
  0 <= r < Copier_numRequest copier ->
  LevelData_exchange_onComplete ld copier r
  = inr (if negb (Z.land r 1 =? 0)
         then Exchange_unpackAt copier (Copier_motionItemIndex copier r) else []).
Proof.
  intros Hmpi Hr. unfold LevelData_exchange_onComplete.
  destruct (negb (Z.land r 1 =? 0)); [|done].
  destruct (Copier_request_item copier r (Hmidx Hmpi) Hnum Hr) as (j & m & -> & Hj & Hm & _).
  rewrite (Copier_at_lookup copier j m Hj). cbn [Outcome_bind].
  rewrite Hm. cbn [negb].
  destruct (Hitems j m Hj) as [_ Hat]. rewrite (Hat Hm). cbn [Outcome_bind].
  by rewrite (Exchange_unpackAt_lookup copier j m Hj).
Qed.

(** What is unpacked at the end of [exchange], in either build. *)
Lemma LevelData_drain_unpacks (completions : list Z) :
  Forall (fun r => 0 <= r < Copier_numRequest copier) completions ->
  exists unpack,
    LevelData_drain cfg ld copier (LevelData_exchange_onComplete ld copier) completions
    = inr unpack
    /\ forall op, op ∈ unpack ->
         exists j m,
           items !! j = Some m /\ Motion2Way_isLocal m = false
           /\ USE_MPI cfg = true
           /\ op = FabLinearIn (localIndex (m_bidxLocal m)) (Z.of_nat j) (m_recvBuffer m)
                     (m_regionRecv m) (Copier_startComp copier) (Copier_endComp copier).
Proof.
  intros Hcompl. unfold LevelData_drain.
  assert (USE_MPI cfg = true \/ USE_MPI cfg = false) as [Hmpi|Hmpi]
    by (destruct (USE_MPI cfg); auto);
    rewrite Hmpi; cbn [andb];
    [|exists []; split; [done|]; intros op Hop; inversion Hop].
  destruct (1 <? DBL_numProc (ld_disjointBoxLayout ld));
    [|exists []; split; [done|]; intros op Hop; inversion Hop].
  destruct (USE_MPIWAITALL cfg).
  - pose proof (LevelData_unpackAll_eq cfg ld copier Hitems items [] eq_refl) as Hrun.
    cbn [length] in Hrun. change (Z.of_nat 0) with 0 in Hrun.
    eexists. split; [exact Hrun|]. intros op Hop.
    apply list_elem_of_In, in_flat_map in Hop as (midx & Hmidx' & Hop).
    apply list_elem_of_In, list_elem_of_lookup in Hmidx' as (k & Hk).
    apply Copier_fillMidxForReq_lookup in Hk as (j & m & -> & Hj & Hm & _).
    rewrite Z.add_0_l, (Exchange_unpackAt_lookup copier j m Hj) in Hop.
    destruct Hop as [<-|[]]. by exists j, m.
  - rewrite (LevelData_waitAnyLoop_eq _
               (fun r => if negb (Z.land r 1 =? 0)
                         then Exchange_unpackAt copier (Copier_motionItemIndex copier r)
                         else [])).
    2:{ intros r Hr'. apply LevelData_exchange_onComplete_eq; [done|].
        rewrite Forall_forall in Hcompl. by apply Hcompl, list_elem_of_In. }
    eexists. split; [reflexivity|]. intros op Hop.
    apply list_elem_of_In, in_flat_map in Hop as (r & Hr & Hop).
    assert (0 <= r < Copier_numRequest copier) as Hrange.
    { rewrite Forall_forall in Hcompl. apply Hcompl.
      apply list_elem_of_In. apply list_elem_of_In in Hr.
      by apply (subseteq_take (Z.to_nat (Copier_numRequest copier))). }
    destruct (negb (Z.land r 1 =? 0)); [|destruct Hop].
    destruct (Copier_request_item copier r (Hmidx Hmpi) Hnum Hrange)
      as (j & m & E & Hj & Hm & _).
    rewrite E, (Exchange_unpackAt_lookup copier j m Hj) in Hop.
    destruct Hop as [<-|[]]. by exists j, m.
Qed.

End ExchangeDrain.

(** The two requests of a motion item that is not local. *)
Lemma Copier_item_requests (copier : Copier) (j : nat) (m : Motion2Way) :
  m_midxForReq copier = Copier_fillMidxForReq (m_motionItem copier) 0 ->
  m_numReq copier
  = 2 * Z.of_nat (length (filter (fun m => Motion2Way_isLocal m = false)
                            (m_motionItem copier))) ->
  m_motionItem copier !! j = Some m ->
  Motion2Way_isLocal m = false ->
  let s := 2 * Copier_remoteBefore copier j in
  0 <= s /\ s + 1 < Copier_numRequest copier
  /\ Copier_motionItemIndex copier s = Z.of_nat j
  /\ Copier_motionItemIndex copier (s + 1) = Z.of_nat j.
Proof.
  intros Hmidx Hnum Hj Hm. cbv zeta.
  unfold Copier_numRequest, Copier_motionItemIndex, Copier_remoteBefore. rewrite Hnum, Hmidx.
  set (items := m_motionItem copier) in *.
  set (k := length (filter (fun m => Motion2Way_isLocal m = false) (take j items))).
  pose proof (filter_take_length_lt (fun m => Motion2Way_isLocal m = false) items j m Hj Hm)
    as Hlt. fold k in Hlt.
  assert (Copier_fillMidxForReq items 0 !! k = Some (Z.of_nat j)) as Hk.
  { apply Copier_fillMidxForReq_lookup. exists j, m. split; [lia|]. done. }
  assert ((2 * Z.of_nat k) ÷ 2 = Z.of_nat k) as ->
    by (rewrite Z.mul_comm; apply Z.quot_mul; lia).
  assert ((2 * Z.of_nat k + 1) ÷ 2 = Z.of_nat k) as ->.
  { symmetry. apply Z.quot_unique with (r := 1); lia. }
  rewrite Nat2Z.id, Hk. split; [lia|]. split; [lia|]. done.
Qed.

(** The places in [m_data] that a motion item of a plan refers to. *)
Lemma Plan_item_local (env : ProcEnv) (a_domain : Box) (M : IntVect)
  (dbl : DisjointBoxLayout) (cfg : BuildConfig) (bytesPerCell g a_periodic : Z)
  (w d : IntVect) :
  Layout_ok env a_domain M dbl ->
  Lattice_contains (m_numBox dbl) w ->
  DBL_localIdxBegin dbl <= Lattice_linear (m_numBox dbl) w < DBL_localIdxEnd dbl ->
  Periodic_reach a_periodic (m_numBox dbl) w d ->
  let m := Plan_item cfg bytesPerCell dbl M g w d in
  0 <= localIndex (m_bidxLocal m) < DBL_localSize dbl
  /\ DBL_dataIndex dbl (localIndex (m_bidxLocal m)) = m_bidxLocal m
  /\ (forall ncomp nghost,
        LevelData_at (MkLevelData dbl ncomp nghost) (m_bidxLocal m)
        = inr (localIndex (m_bidxLocal m)))
  /\ (Motion2Way_isLocal m = true ->
      0 <= localIndex (m_bidxRemote m) < DBL_localSize dbl
      /\ DBL_dataIndex dbl (localIndex (m_bidxRemote m)) = m_bidxRemote m)
  /\ (s_numProc env = 1 -> Motion2Way_isLocal m = true).
Proof.
  intros Hok Hw Hrange Hr.
  destruct (Plan_item_fields env a_domain M dbl cfg bytesPerCell g a_periodic w d Hok Hw Hr)
    as (Hw' & _ & _ & HlP & HrP).
  cbv zeta in *. unfold Motion2Way_isLocal. rewrite HlP, HrP.
  pose proof Hok as (Henv & _ & _ & _ & _ & _ & Hsize & (Hnl & Hsp) & (HP & Hid) & Hbeg & _).
  pose proof (Lattice_linear_bounds _ _ Hw) as Hb.
  pose proof (Lattice_linear_bounds _ _ Hw') as Hb'.
  set (w' := Lattice_wrap (m_numBox dbl) (IntVect_add w d)) in *.
  unfold Plan_item. cbv zeta. fold w'.
  cbn [Motion2Way_new m_bidxLocal m_bidxRemote localIndex].
  unfold DBL_localSize, DBL_dataIndex, DBL_localIdxBegin, DBL_localIdxEnd in *.
  split; [lia|]. split; [f_equal; lia|]. split.
  { intros ncomp nghost. unfold LevelData_at, DBL_localSize, DBL_localIdxBegin,
      DBL_localIdxEnd. cbv zeta. cbn [ld_disjointBoxLayout localIndex globalIndex].
    destruct (Z.ltb_spec (Lattice_linear (m_numBox dbl) w - m_localIdxBeg dbl)
                (m_numLocalBox dbl)); [|lia].
    destruct (Z.leb_spec (m_localIdxBeg dbl) (Lattice_linear (m_numBox dbl) w)); [|lia].
    destruct (Z.ltb_spec (Lattice_linear (m_numBox dbl) w)
                (m_localIdxBeg dbl + m_numLocalBox dbl)); [|lia].
    reflexivity. }
  split.
  { intros Hloc. apply Z.eqb_eq in Hloc.
    assert (DBL_localIdxBegin dbl <= Lattice_linear (m_numBox dbl) w' < DBL_localIdxEnd dbl)
      as Hrange'.
    { apply (Layout_owned _ _ _ _ _ Hok); [lia|].
      rewrite (Layout_proc _ _ _ _ _ Hok) by lia. rewrite <- Hloc.
      rewrite <- (Layout_proc _ _ _ _ _ Hok) by lia.
      apply (Layout_owned _ _ _ _ _ Hok); [lia|]. done. }
    unfold DBL_localIdxBegin, DBL_localIdxEnd in Hrange'.
    split; [lia|]. f_equal; lia. }
  intros HP1. apply Z.eqb_eq.
  rewrite !Z.quot_small; [done|nia|nia].
Qed.

(** Where the regions of a motion item of a plan lie, and the sizes of
    its buffers. *)
Lemma Plan_item_regions (env : ProcEnv) (a_domain : Box) (M : IntVect)
  (dbl : DisjointBoxLayout) (cfg : BuildConfig) (bytesPerCell g a_periodic : Z)
  (w d : IntVect) :
  Layout_ok env a_domain M dbl ->
  Lattice_contains (m_numBox dbl) w ->
  Periodic_reach a_periodic (m_numBox dbl) w d ->
  Stencil_contains d -> d <> IntVect_Zero -> 0 <= g ->
  let m := Plan_item cfg bytesPerCell dbl M g w d in
  let L := DBL_box dbl (m_bidxLocal m) in
  let R := DBL_box dbl (m_bidxRemote m) in
  Box_containsBox (Box_grow L g) (m_regionRecv m) = true
  /\ Box_isEmpty (Box_intersect (m_regionRecv m) L) = true
  /\ Box_containsBox R (m_regionSendRemote m) = true
  /\ Box_dimensions (m_regionSendRemote m) = Box_dimensions (m_regionRecv m)
  /\ (Motion2Way_isLocal m = false ->
      m_recvBuffer m = Some (bytesPerCell * Box_size (m_regionRecv m))
      /\ m_sendBuffer m = Some (bytesPerCell * Box_size (m_regionSend m)))
  /\ (USE_MPI cfg = true -> Box_containsBox L (m_regionSend m) = true).
Proof.
  intros Hok Hw Hr Hs Hnz Hg.
  destruct (Plan_item_fields env a_domain M dbl cfg bytesPerCell g a_periodic w d Hok Hw Hr)
    as (Hw' & HL & HR & _).
  cbv zeta in *. rewrite HL, HR.
  pose proof Hok as (_ & Hdom & _ & (M0 & M1 & M2) & _).
  destruct (Plan_regions_geometry a_domain M w d
              (Lattice_wrap (m_numBox dbl) (IntVect_add w d)) g M0 M1 M2 Hg Hs)
    as (G1 & G2 & G3 & G4 & _).
  cbv zeta in G1, G2, G3, G4.
  unfold Motion2Way_isLocal, Plan_item. cbv zeta.
  cbn [Motion2Way_new m_regionRecv m_regionSend m_regionSendRemote m_recvBuffer m_sendBuffer
       m_localProcID m_remoteProcID].
  rewrite Hdom. split; [done|]. split.
  { apply Box_isEmpty_no_cell. intros c. apply not_true_is_false. intros Hc.
    apply Box_intersect_contains in Hc as [Hc HcL].
    apply Box_intersect_contains in Hc as [_ Hc].
    pose proof (Lattice_box_disjoint _ _ _ _ _ M0 M1 M2 Hc HcL) as E.
    apply Hnz. destruct w as [w0 w1 w2], d as [d0 d1 d2].
    unfold IntVect_add in E; simpl in E. injection E as E0 E1 E2.
    unfold IntVect_Zero. f_equal; lia. }
  split; [done|]. split; [done|]. split.
  { intros ->. cbn [negb]. done. }
  intros ->. done.
Qed.

(** The facts on a plan that the statements on [exchange] start from. *)
Lemma Copier_plan_for_exchange (env : ProcEnv) (a_domain : Box) (M : IntVect)
  (dbl : DisjointBoxLayout) (cfg : BuildConfig) (ncomp nghost a_periodic a_trim : Z) :
  Layout_ok env a_domain M dbl ->
  0 < ncomp -> 0 < nghost ->
  (USE_MPI cfg = false -> s_numProc env = 1) ->
  let ld := MkLevelData dbl ncomp nghost in
  exists copier,
    Copier_defineExchangeLD cfg ld a_periodic a_trim = inr copier
    /\ Copier_startComp copier = 0 /\ Copier_endComp copier = ncomp
    /\ Copier_numComp copier = ncomp
    /\ (USE_MPI cfg = true ->
        m_midxForReq copier = Copier_fillMidxForReq (m_motionItem copier) 0)
    /\ m_numReq copier
       = 2 * Z.of_nat (length (filter (fun m => Motion2Way_isLocal m = false)
                                 (m_motionItem copier)))
    /\ (forall j m, m_motionItem copier !! j = Some m ->
          (USE_MPI cfg = false -> Motion2Way_isLocal m = true)
          /\ (Motion2Way_isLocal m = false ->
              LevelData_at ld (m_bidxLocal m) = inr (localIndex (m_bidxLocal m))))
    /\ (forall m, m ∈ m_motionItem copier ->
          exists w d,
            Lattice_contains (m_numBox dbl) w
            /\ DBL_localIdxBegin dbl <= Lattice_linear (m_numBox dbl) w < DBL_localIdxEnd dbl
            /\ Stencil_contains d /\ d <> IntVect_Zero
            /\ Periodic_reach a_periodic (m_numBox dbl) w d
            /\ m = Plan_item cfg (sizeofT cfg * ncomp) dbl M nghost w d).
Proof.
  intros Hok Hnc Hg Hcfg. cbv zeta. unfold Copier_defineExchangeLD.
  cbn [ld_disjointBoxLayout ld_nghost ld_ncomp].
  destruct (Copier_plan_membership env a_domain M dbl cfg nghost 0 ncomp a_periodic a_trim
              Hok ltac:(lia) Hnc Hg) as (copier & Hcop & Hmem).
  exists copier. split; [done|].
  destruct (Copier_defineExchangeDBL_eq cfg dbl nghost 0 ncomp a_periodic a_trim
              ltac:(lia) Hnc) as (copier' & Hcop' & _ & _ & Hs & He).
  assert (copier' = copier) as -> by congruence.
  destruct (Copier_defineExchangeDBL_numReq _ _ _ _ _ _ _ _ Hcop) as [Hnum Hmidx].
  unfold Copier_startComp, Copier_endComp, Copier_numComp. rewrite Hs, He.
  split; [done|]. split; [lia|]. split; [lia|]. split.
  { intros Hmpi. by rewrite Hmpi in Hmidx. }
  split; [done|].
  assert (forall m, m ∈ m_motionItem copier ->
            exists w d,
              Lattice_contains (m_numBox dbl) w
              /\ DBL_localIdxBegin dbl <= Lattice_linear (m_numBox dbl) w
                 < DBL_localIdxEnd dbl
              /\ Stencil_contains d /\ d <> IntVect_Zero
              /\ Periodic_reach a_periodic (m_numBox dbl) w d
              /\ m = Plan_item cfg (sizeofT cfg * ncomp) dbl M nghost w d) as Hplan.
  { intros m Hm. apply Hmem in Hm as (w & d & Hw & Hrange & Hs' & Hnz & _ & Hr & ->).
    by exists w, d. }
  split; [|done].
  intros j m Hj. apply list_elem_of_lookup_2, Hplan in Hj
    as (w & d & Hw & Hrange & Hs' & Hnz & Hr & ->).
  destruct (Plan_item_local env a_domain M dbl cfg (sizeofT cfg * ncomp) nghost a_periodic
              w d Hok Hw Hrange Hr) as (_ & _ & Hat & _ & HP1).
  split.
  - intros Hmpi. apply HP1. by apply Hcfg.
  - intros _. apply Hat.
Qed.

(** X26.  [exchange] stays inside of the data.  For a LevelData on a
    layout built by [define], with a plan built for it by
    [defineExchangeLD], in a build with the transport or on a single
    process, and whatever the order in which the transport completes the
    requests, [exchange] fails no assertion, and every BaseFab it
    touches is one of [m_data].  A local copy writes ghost cells of the
    destination only (inside of the box grown by the ghost width, outside
    of the box itself) and reads a region of the same dimensions inside
    of the box of the source.  A send buffer is packed from cells inside
    of the box, a receive buffer is unpacked into ghost cells only, and
    each buffer has the size of its region.  The two requests of the
    messages posted for a motion item are consecutive, below the number
    of requests, and [motionItemIndex] leads from both back to the
    item. *)
Theorem LevelData_exchange_in_bounds (env : ProcEnv) (a_domain : Box)
  (a_maxBoxSize : IntVect) (dbl : DisjointBoxLayout) (cfg : BuildConfig)
  (ncomp nghost a_periodic a_trim : Z) (completions : list Z) :
  Define_wf env a_domain a_maxBoxSize ->
  DBL_define env a_domain a_maxBoxSize = inr dbl ->
  0 < ncomp -> 0 < nghost ->
  (USE_MPI cfg = false -> s_numProc env = 1) ->
  let ld := MkLevelData dbl ncomp nghost in
  let box i := DBL_box dbl (DBL_dataIndex dbl i) in
  let inside i := 0 <= i < LevelData_size ld in
  let ghost i region :=
    Box_containsBox (Box_grow (box i) nghost) region = true
    /\ Box_isEmpty (Box_intersect region (box i)) = true in
  exists copier,
    Copier_defineExchangeLD cfg ld a_periodic a_trim = inr copier
    /\ (Forall (fun r => 0 <= r < Copier_numRequest copier) completions ->
        exists ops,
          LevelData_exchange cfg ld copier completions = inr ops
          /\ forall op, op ∈ ops ->
               match op with
               | FabCopy dst regionDst compDst src regionSrc compSrc numComp _ =>
                   inside dst /\ inside src
                   /\ ghost dst regionDst
                   /\ Box_containsBox (box src) regionSrc = true
                   /\ Box_dimensions regionSrc = Box_dimensions regionDst
                   /\ compDst = 0 /\ compSrc = 0 /\ numComp = ncomp
               | FabLinearOut fab _ buf region startComp endComp =>
                   inside fab
                   /\ Box_containsBox (box fab) region = true
                   /\ buf = Some (sizeofT cfg * ncomp * Box_size region)
                   /\ startComp = 0 /\ endComp = ncomp
               | FabLinearIn fab _ buf region startComp endComp =>
                   inside fab
                   /\ ghost fab region
                   /\ buf = Some (sizeofT cfg * ncomp * Box_size region)
                   /\ startComp = 0 /\ endComp = ncomp
               | PostMessages midx sendRequest recvRequest =>
                   0 <= sendRequest /\ recvRequest = sendRequest + 1
                   /\ recvRequest < Copier_numRequest copier
                   /\ Copier_motionItemIndex copier sendRequest = midx
                   /\ Copier_motionItemIndex copier recvRequest = midx
               end).
Proof.
  intros Hwf Hdef Hnc Hg Hcfg.
  pose proof (DBL_define_ok _ _ _ _ Hwf Hdef) as Hok.
  destruct (Copier_plan_for_exchange env a_domain a_maxBoxSize dbl cfg ncomp nghost
              a_periodic a_trim Hok Hnc Hg Hcfg)
    as (copier & Hcop & Hsc & Hec & Hncomp & Hmidx & Hnum & Hitems & Hplan).
  cbv zeta in *. exists copier. split; [done|]. intros Hcompl.
  destruct (LevelData_motionLoop_sent cfg _ copier Hitems
              (length (m_motionItem copier)) 0 []) as (sends & Hrun & Hsends); [lia|].
  destruct (LevelData_drain_unpacks cfg _ copier Hitems Hmidx Hnum completions Hcompl)
    as (unpack & Hdrain & Hunpack).
  exists (sends ++ unpack). split.
  { unfold LevelData_exchange. cbn [ld_nghost].
    apply Z.ltb_lt in Hg. rewrite Hg.
    unfold Copier_numMotionItem. rewrite Nat2Z.id.
    change (Z.of_nat 0) with 0 in Hrun.
    change (2 * Copier_remoteBefore copier 0) with 0 in Hrun.
    rewrite Hrun. cbn [Outcome_bind]. rewrite Hdrain. done. }
  unfold LevelData_size, DBL_localSize. cbn [ld_disjointBoxLayout].
  intros op Hop. apply elem_of_app in Hop as [Hop|Hop].
  - apply Hsends in Hop as (j & m & Hj & Hsent).
    destruct (Hitems j m Hj) as [Hloc _].
    pose proof (list_elem_of_lookup_2 _ _ _ Hj) as Hm.
    apply Hplan in Hm as (w & d & Hw & Hrange & Hs & Hnz & Hr & Em).
    destruct (Plan_item_local env a_domain a_maxBoxSize dbl cfg (sizeofT cfg * ncomp) nghost
                a_periodic w d Hok Hw Hrange Hr) as (HiL & HdL & _ & HiR & _).
    destruct (Plan_item_regions env a_domain a_maxBoxSize dbl cfg (sizeofT cfg * ncomp)
                nghost a_periodic w d Hok Hw Hr Hs Hnz ltac:(lia))
      as (R1 & R2 & R3 & R4 & R5 & R6).
    cbv zeta in *. rewrite <- Em in *. unfold DBL_localSize in *.
    destruct Hsent as [[Hl ->]|[Hl [->| ->]]].
    + destruct (HiR Hl) as [HiR' HdR].
      unfold Motion2Way_bidxRecv, Motion2Way_bidxSend, Motion2Way_regionRecv,
        Motion2Way_regionSend.
      rewrite HdL, HdR, Hsc, Hncomp. done.
    + assert (USE_MPI cfg = true) as Hmpi.
      { destruct (USE_MPI cfg); [done|]. rewrite Hloc in Hl; done. }
      destruct (R5 Hl) as [_ Hbuf].
      rewrite HdL, Hsc, Hec, Hbuf. split; [done|]. split; [by apply R6|]. done.
    + assert (USE_MPI cfg = true) as Hmpi.
      { destruct (USE_MPI cfg); [done|]. rewrite Hloc in Hl; done. }
      destruct (Copier_item_requests copier j m (Hmidx Hmpi) Hnum Hj Hl)
        as (Q1 & Q2 & Q3 & Q4).
      cbv zeta in Q1, Q2, Q3, Q4. done.
  - apply Hunpack in Hop as (j & m & Hj & Hl & Hmpi & ->).
    pose proof (list_elem_of_lookup_2 _ _ _ Hj) as Hm.
    apply Hplan in Hm as (w & d & Hw & Hrange & Hs & Hnz & Hr & Em).
    destruct (Plan_item_local env a_domain a_maxBoxSize dbl cfg (sizeofT cfg * ncomp) nghost
                a_periodic w d Hok Hw Hrange Hr) as (HiL & HdL & _).
    destruct (Plan_item_regions env a_domain a_maxBoxSize dbl cfg (sizeofT cfg * ncomp)
                nghost a_periodic w d Hok Hw Hr Hs Hnz ltac:(lia))
      as (R1 & R2 & _ & _ & R5 & _).
    cbv zeta in *. rewrite <- Em in *. unfold DBL_localSize in *.
    destruct (R5 Hl) as [Hbuf _].
    rewrite HdL, Hsc, Hec, Hbuf. done.
Qed.

Lemma LevelData_exchange_in_bounds_witness :
  exists copier ops,
    Copier_defineExchangeLD example_cfg (MkLevelData example_row 1 1) 0 0 = inr copier
    /\ LevelData_exchange example_cfg (MkLevelData example_row 1 1) copier [] = inr ops.
Proof.
  destruct (LevelData_exchange_in_bounds (MkProcEnv 2 0) (MkBox (IV 0 0 0) (IV 3 0 0))
              (IV 1 1 1) example_row example_cfg 1 1 0 0 [])
    as (copier & Hcop & Hex).
  - unfold Define_wf; simpl. repeat split; lia.
  - vm_compute. reflexivity.
  - lia.
  - lia.
  - discriminate.
  - destruct (Hex (Forall_nil _)) as (ops & Hops & _).
    exists copier, ops. split; [exact Hcop|exact Hops].
Defined.

Lemma land_1_even (k : nat) : Z.land (2 * Z.of_nat k) 1 = 0.
Proof.
  change 1 with (Z.ones 1) at 1. rewrite Z.land_ones by lia.
  rewrite Z.pow_1_r, Z.mul_comm. apply Z.mod_mul. lia.
Qed.

Lemma land_1_odd (k : nat) : Z.land (2 * Z.of_nat k + 1) 1 = 1.
Proof.
  change 1 with (Z.ones 1) at 2. rewrite Z.land_ones by lia.
  rewrite Z.pow_1_r, Z.add_comm, Z.mul_comm, Z.mod_add by lia. reflexivity.
Qed.

Lemma map_lookup_seq {A : Type} (d : A) (l : list A) :
  map (fun k => default d (l !! k)) (seq 0 (length l)) = l.
Proof.
  apply list_eq. intros i. rewrite list_lookup_fmap.
  destruct (decide (i < length l)%nat) as [Hi|Hi].
  - rewrite lookup_seq_lt by lia. cbn.
    destruct (lookup_lt_is_Some_2 l i Hi) as [x Hx]. by rewrite Hx.
  - rewrite lookup_seq_ge by lia. symmetry. apply lookup_ge_None. lia.
Qed.

(** Going through the requests in their order unpacks the receive
    buffers of the motion items of [m_midxForReq] in their order. *)
Lemma Exchange_requests_in_order (copier : Copier) (K : nat) :
  flat_map (fun r => if negb (Z.land r 1 =? 0)
                     then Exchange_unpackAt copier (Copier_motionItemIndex copier r)
                     else [])
    (map Z.of_nat (seq 0 (2 * K)))
  = flat_map (Exchange_unpackAt copier)
      (map (fun k => default 0 (m_midxForReq copier !! k)) (seq 0 K)).
Proof.
  induction K as [|K IH]; [done|].
  replace (2 * S K)%nat with (2 * K + 2)%nat by lia.
  rewrite seq_app, map_app, flat_map_app, IH.
  rewrite (seq_S K 0), map_app, flat_map_app. f_equal.
  change (seq (0 + 2 * K) 2) with [(2 * K)%nat; S (2 * K)].
  cbn [map flat_map Nat.add]. rewrite !app_nil_r.
  replace (Z.of_nat (2 * K)) with (2 * Z.of_nat K) by lia.
  replace (Z.of_nat (S (2 * K))) with (2 * Z.of_nat K + 1) by lia.
  rewrite land_1_even, land_1_odd. cbn [Z.eqb negb app].
  unfold Copier_motionItemIndex.
  assert ((2 * Z.of_nat K + 1) ÷ 2 = Z.of_nat K) as ->.
  { symmetry. apply Z.quot_unique with (r := 1); lia. }
  by rewrite Nat2Z.id.
Qed.

Lemma Copier_fillMidxForReq_local (items : list Motion2Way) (i : Z) :
  (forall m, m ∈ items -> Motion2Way_isLocal m = true) ->
  Copier_fillMidxForReq items i = [].
Proof.
  revert i. induction items as [|m items IH]; intros i Hloc; [done|].
  cbn [Copier_fillMidxForReq]. rewrite (Hloc m) by (by left). cbn [negb].
  apply IH. intros m' Hm'. apply Hloc. by right.
Qed.

(** X27.  In a build with the transport, [exchange] unpacks the receive
    buffer of every motion item that is not local exactly once, whether
    it waits for all messages or for any: when the transport completes
    each request once, in whatever order, the calls that unpack are a
    permutation of those of the build that waits for all messages, which
    go through the items of [m_midxForReq] in their order.  What goes
    before them in [exchange] are the calls of [exchangeBegin]. *)
Theorem LevelData_exchange_unpacks_once (env : ProcEnv) (a_domain : Box)
  (a_maxBoxSize : IntVect) (dbl : DisjointBoxLayout) (cfg : BuildConfig)
  (ncomp nghost a_periodic a_trim : Z) (completions : list Z) :
  Define_wf env a_domain a_maxBoxSize ->
  DBL_define env a_domain a_maxBoxSize = inr dbl ->
  0 < ncomp -> 0 < nghost ->
  USE_MPI cfg = true ->
  let ld := MkLevelData dbl ncomp nghost in
  exists copier,
    Copier_defineExchangeLD cfg ld a_periodic a_trim = inr copier
    /\ let requests := map Z.of_nat (seq 0 (Z.to_nat (Copier_numRequest copier))) in
       let received := flat_map (Exchange_unpackAt copier) (m_midxForReq copier) in
       (forall op, op ∈ received <->
          exists j m,
            m_motionItem copier !! j = Some m /\ Motion2Way_isLocal m = false
            /\ op = FabLinearIn (localIndex (m_bidxLocal m)) (Z.of_nat j) (m_recvBuffer m)
                      (m_regionRecv m) 0 ncomp)
       /\ 2 * Z.of_nat (length received) = Copier_numRequest copier
       /\ ((USE_MPIWAITALL cfg = false -> Permutation completions requests) ->
           exists sends unpack,
             LevelData_exchangeBegin cfg ld copier = inr sends
             /\ LevelData_exchange cfg ld copier completions = inr (sends ++ unpack)
             /\ Permutation unpack received
             /\ (USE_MPIWAITALL cfg = true -> unpack = received)).
Proof.
  intros Hwf Hdef Hnc Hg Hmpi.
  pose proof (DBL_define_ok _ _ _ _ Hwf Hdef) as Hok.
  destruct (Copier_plan_for_exchange env a_domain a_maxBoxSize dbl cfg ncomp nghost
              a_periodic a_trim Hok Hnc Hg ltac:(congruence))
    as (copier & Hcop & Hsc & Hec & Hncomp & Hmidx & Hnum & Hitems & Hplan).
  cbv zeta in *. exists copier. split; [done|].
  specialize (Hmidx Hmpi).
  set (items := m_motionItem copier) in *.
  assert (forall j m, items !! j = Some m ->
            Exchange_unpackAt copier (Z.of_nat j)
            = [FabLinearIn (localIndex (m_bidxLocal m)) (Z.of_nat j) (m_recvBuffer m)
                 (m_regionRecv m) 0 ncomp]) as Hat.
  { intros j m Hj. rewrite (Exchange_unpackAt_lookup copier j m Hj). by rewrite Hsc, Hec. }
  split.
  { intros op. rewrite Hmidx. split.
    - intros Hop. apply list_elem_of_In, in_flat_map in Hop as (midx & Hin & Hop).
      apply list_elem_of_In, list_elem_of_lookup in Hin as (k & Hk).
      apply Copier_fillMidxForReq_lookup in Hk as (j & m & -> & Hj & Hm & _).
      rewrite Z.add_0_l, (Hat j m Hj) in Hop. destruct Hop as [<-|[]]. by exists j, m.
    - intros (j & m & Hj & Hm & ->).
      apply list_elem_of_In, in_flat_map. exists (Z.of_nat j). split.
      + apply list_elem_of_In, list_elem_of_lookup.
        exists (length (filter (fun m => Motion2Way_isLocal m = false) (take j items))).
        apply Copier_fillMidxForReq_lookup. exists j, m. split; [lia|]. done.
      + rewrite (Hat j m Hj). by left. }
  assert (length (flat_map (Exchange_unpackAt copier) (m_midxForReq copier))
          = length (m_midxForReq copier)) as Hlen.
  { rewrite Hmidx.
    assert (forall rest pre, items = pre ++ rest ->
              length (flat_map (Exchange_unpackAt copier)
                        (Copier_fillMidxForReq rest (Z.of_nat (length pre))))
              = length (Copier_fillMidxForReq rest (Z.of_nat (length pre)))) as Hgen.
    { induction rest as [|m rest IH]; intros pre Hpre; [done|].
      assert (items !! length pre = Some m) as Hj
        by (rewrite Hpre; by rewrite list_lookup_middle).
      cbn [Copier_fillMidxForReq].
      replace (Z.of_nat (length pre) + 1) with (Z.of_nat (length (pre ++ [m])))
        by (rewrite length_app; simpl; lia).
      specialize (IH (pre ++ [m]) ltac:(by rewrite <- app_assoc)).
      destruct (negb (Motion2Way_isLocal m)); [|exact IH].
      cbn [flat_map]. rewrite length_app, (Hat _ m Hj), IH. reflexivity. }
    exact (Hgen items [] eq_refl). }
  split.
  { rewrite Hlen, Hmidx, Copier_fillMidxForReq_length. unfold Copier_numRequest.
    by rewrite Hnum. }
  intros Hperm.
  destruct (LevelData_motionLoop_sent cfg _ copier Hitems
              (length (m_motionItem copier)) 0 []) as (sends & Hrun & _); [lia|].
  change (Z.of_nat 0) with 0 in Hrun.
  change (2 * Copier_remoteBefore copier 0) with 0 in Hrun.
  assert ((0 <? nghost) = true) as Hgb by (by apply Z.ltb_lt).
  assert (exists unpack,
            LevelData_drain cfg (MkLevelData dbl ncomp nghost) copier
              (LevelData_exchange_onComplete (MkLevelData dbl ncomp nghost) copier)
              completions = inr unpack
            /\ Permutation unpack (flat_map (Exchange_unpackAt copier) (m_midxForReq copier))
            /\ (USE_MPIWAITALL cfg = true ->
                unpack = flat_map (Exchange_unpackAt copier) (m_midxForReq copier)))
    as (unpack & Hdrain & Hp & He).
  { unfold LevelData_drain. rewrite Hmpi. cbn [andb ld_disjointBoxLayout].
    destruct (Z.ltb_spec 1 (DBL_numProc dbl)) as [HP|HP].
    - destruct (USE_MPIWAITALL cfg) eqn:Hall.
      + pose proof (LevelData_unpackAll_eq cfg _ copier Hitems items [] eq_refl) as Hall'.
        cbn [length] in Hall'. change (Z.of_nat 0) with 0 in Hall'.
        fold items. rewrite Hall', Hmidx. eexists. split; [reflexivity|]. done.
      + specialize (Hperm eq_refl).
        rewrite (LevelData_waitAnyLoop_eq _
                   (fun r => if negb (Z.land r 1 =? 0)
                             then Exchange_unpackAt copier (Copier_motionItemIndex copier r)
                             else [])).
        2:{ intros r Hr. apply (LevelData_exchange_onComplete_eq cfg _ copier Hitems);
              [done|done|done|].
            apply list_elem_of_In in Hr.
            apply (Permutation_in _ Hperm), in_map_iff in Hr as (k & <- & Hk).
            apply in_seq in Hk. lia. }
        eexists. split; [reflexivity|]. split; [|discriminate].
        rewrite take_ge.
        2:{ rewrite (Permutation_length Hperm), length_map, length_seq. lia. }
        rewrite (Permutation_flat_map _ Hperm).
        unfold Copier_numRequest. rewrite Hnum, <- Copier_fillMidxForReq_length with (i := 0).
        fold items. rewrite <- Hmidx.
        replace (Z.to_nat (2 * Z.of_nat (length (m_midxForReq copier))))
          with (2 * length (m_midxForReq copier))%nat by lia.
        by rewrite Exchange_requests_in_order, map_lookup_seq.
    - assert (m_midxForReq copier = []) as ->.
      { rewrite Hmidx. apply Copier_fillMidxForReq_local. intros m Hm.
        apply Hplan in Hm as (w & d & Hw & Hrange & Hs & Hnz & Hr & ->).
        destruct (Plan_item_local env a_domain a_maxBoxSize dbl cfg (sizeofT cfg * ncomp)
                    nghost a_periodic w d Hok Hw Hrange Hr) as (_ & _ & _ & _ & HP1).
        apply HP1. destruct Hok as (Henv & _ & _ & _ & _ & _ & _ & _ & (HP' & _) & _).
        unfold DBL_numProc in HP. rewrite Henv in HP. lia. }
      exists []. done. }
  exists sends, unpack.
  unfold LevelData_exchangeBegin, LevelData_exchange. cbn [ld_nghost]. rewrite Hgb.
  unfold Copier_numMotionItem. rewrite Nat2Z.id. unfold items. rewrite Hrun.
  cbn [Outcome_bind fst]. rewrite Hdrain. done.
Qed.

Lemma LevelData_exchange_unpacks_once_witness :
  exists copier,
    Copier_defineExchangeLD example_cfg (MkLevelData example_row 1 1) PeriodicX 0 = inr copier
    /\ 2 * Z.of_nat (length (flat_map (Exchange_unpackAt copier) (m_midxForReq copier)))
       = Copier_numRequest copier.
Proof.
  destruct (LevelData_exchange_unpacks_once (MkProcEnv 2 0) (MkBox (IV 0 0 0) (IV 3 0 0))
              (IV 1 1 1) example_row example_cfg 1 1 PeriodicX 0 [])
    as (copier & Hcop & _ & Hlen & _).
  - unfold Define_wf; simpl. repeat split; lia.
  - vm_compute. reflexivity.
  - lia.
  - lia.
  - reflexivity.
  - exists copier. split; [exact Hcop|exact Hlen].
Defined.

(* ===================================================================== *)
(** * LevelData::operator[] *)
(* ===================================================================== *)

(** X28.  On a layout built by [define], indexing a LevelData with a
    LayoutIterator that stands at a box of the layout, or with the
    BoxIndex it yields, returns normally exactly when the box belongs to
    this process: then the index into [m_data] is the linear index of the
    box less the first linear index of the process, it lies from 0 below
    [size()], and [dataIndex] of it is the BoxIndex of the iterator.  At
    a box of another process an assertion fails. *)
Theorem LevelData_index_owned (env : ProcEnv) (a_domain : Box) (a_maxBoxSize : IntVect)
  (dbl : DisjointBoxLayout) (ncomp nghost k : Z) :
  Define_wf env a_domain a_maxBoxSize ->
  DBL_define env a_domain a_maxBoxSize = inr dbl ->
  0 <= k < DBL_size dbl ->
  let ld := MkLevelData dbl ncomp nghost in
  let lit := MkLayoutIterator dbl k (DBL_size dbl) in
  let i := k - DBL_localIdxBegin dbl in
  LevelData_at ld (LayoutIterator_deref lit) = LevelData_atIter ld lit
  /\ (DBL_procAt dbl lit = DBL_procID dbl ->
      LevelData_atIter ld lit = inr i
      /\ 0 <= i < LevelData_size ld
      /\ DBL_dataIndex dbl i = LayoutIterator_deref lit)
  /\ (DBL_procAt dbl lit <> DBL_procID dbl ->
      LevelData_atIter ld lit = inl AssertionFailed).
Proof.
  intros Hwf Hdef Hk. cbv zeta.
  pose proof (DBL_define_ok _ _ _ _ Hwf Hdef) as Hok.
  split; [reflexivity|].
  unfold DBL_procAt, LevelData_atIter, LayoutIterator_deref, LevelData_size, DBL_dataIndex.
  cbv zeta. cbn [lit_current lit_disjointBoxLayout globalIndex localIndex ld_disjointBoxLayout].
  pose proof (Layout_owned _ _ _ _ k Hok Hk) as Hown.
  unfold DBL_localIdxBegin, DBL_localIdxEnd, DBL_localSize in *.
  split.
  - intros Hp. apply Hown in Hp.
    destruct (Z.ltb_spec (k - m_localIdxBeg dbl) (m_numLocalBox dbl)); [|lia].
    destruct (Z.leb_spec (m_localIdxBeg dbl) k); [|lia].
    destruct (Z.ltb_spec k (m_localIdxBeg dbl + m_numLocalBox dbl)); [|lia].
    cbn [andb CH_assert Outcome_bind]. split; [done|]. split; [lia|]. f_equal; lia.
  - intros Hp.
    destruct (Z.ltb_spec (k - m_localIdxBeg dbl) (m_numLocalBox dbl)); [|done].
    cbn [CH_assert Outcome_bind].
    destruct (Z.leb_spec (m_localIdxBeg dbl) k); [|done].
    destruct (Z.ltb_spec k (m_localIdxBeg dbl + m_numLocalBox dbl)); [|done].
    exfalso. apply Hp, Hown. lia.
Qed.

Lemma LevelData_index_owned_witness :
  LevelData_atIter (MkLevelData example_row 1 1) (MkLayoutIterator example_row 3 4)
  = inl AssertionFailed.
Proof.
  destruct (LevelData_index_owned (MkProcEnv 2 0) (MkBox (IV 0 0 0) (IV 3 0 0)) (IV 1 1 1)
              example_row 1 1 3) as (_ & _ & Hfail).
  - unfold Define_wf; simpl. repeat split; lia.
  - vm_compute. reflexivity.
  - vm_compute. split; [discriminate|reflexivity].
  - apply Hfail. vm_compute. discriminate.
Defined.

(* ===================================================================== *)
(** * The plan of a layout built by define: regions and tags *)
(* ===================================================================== *)

(** The global indices of the two boxes of a motion item are indices of
    the layout. *)
Lemma Plan_item_indices (env : ProcEnv) (a_domain : Box) (M : IntVect)
  (dbl : DisjointBoxLayout) (cfg : BuildConfig) (bytesPerCell g a_periodic : Z)
  (w d : IntVect) :
  Layout_ok env a_domain M dbl ->
  Lattice_contains (m_numBox dbl) w ->
  Periodic_reach a_periodic (m_numBox dbl) w d ->
  let m := Plan_item cfg bytesPerCell dbl M g w d in
  globalIndex (m_bidxLocal m) = Lattice_linear (m_numBox dbl) w
  /\ globalIndex (m_bidxRemote m)
     = Lattice_linear (m_numBox dbl) (Lattice_wrap (m_numBox dbl) (IntVect_add w d))
  /\ m_sendDir m = d
  /\ m_tagSend m = Motion2Way_uniqueTag (m_bidxLocal m) d
  /\ m_tagRecv m = Motion2Way_uniqueTag (m_bidxRemote m) (IntVect_neg d)
  /\ 0 <= globalIndex (m_bidxLocal m) < DBL_size dbl
  /\ 0 <= globalIndex (m_bidxRemote m) < DBL_size dbl.
Proof.
  intros Hok Hw Hr. cbv zeta.
  pose proof Hok as (_ & _ & (N0 & N1 & N2) & _ & _ & _ & Hsize & _).
  pose proof (Lattice_wrap_contains _ _ _ _ N0 N1 N2 Hr) as Hw'.
  unfold Plan_item, Motion2Way_new, DBL_size. cbv zeta.
  cbn [m_bidxLocal m_bidxRemote m_sendDir m_tagSend m_tagRecv globalIndex].
  rewrite Hsize.
  pose proof (Lattice_linear_bounds _ _ Hw). pose proof (Lattice_linear_bounds _ _ Hw').
  repeat split; try reflexivity; lia.
Qed.

(** C1.  On a layout built by [define], [defineExchangeDBL] with a ghost
    width of at least 1 returns a plan.  Every motion item of it is for
    a box [L] that this process owns and a neighbour box [R], and has
    these regions.  When its direction [d] leads to a position of the
    lattice of boxes (an item of the loop over interior neighbours),
    [regionRecv] is [grow(L, nghost) & R], [regionSend], computed in a
    build with the transport, is [L & grow(R, nghost)], and
    [regionSendRemote] is [regionRecv].  When [d] leaves the lattice (an
    item of the loop over periodic neighbours), [R] is first shifted by
    [shiftBy = (L.lo - R.lo) + d * dimensions(L)], and
    [regionSendRemote] is [regionRecv] shifted by [-shiftBy].  The plan
    has such an item for every box that this process owns and every
    direction of the stencil, other than the centre, that the trim mask
    leaves and that leads to a lattice position or leaves the lattice
    through a periodic side; its remote box is the box at the position
    reached, wrapped into the lattice. *)
Theorem Copier_regions (env : ProcEnv) (a_domain : Box) (a_maxBoxSize : IntVect)
  (dbl : DisjointBoxLayout) (cfg : BuildConfig)
  (a_numGhost a_startComp a_numComp a_periodic a_trim : Z) :
  Define_wf env a_domain a_maxBoxSize ->
  DBL_define env a_domain a_maxBoxSize = inr dbl ->
  0 <= a_startComp -> 0 < a_numComp -> 1 <= a_numGhost ->
  exists copier,
    Copier_defineExchangeDBL cfg dbl a_numGhost a_startComp a_numComp a_periodic a_trim
    = inr copier
    /\ (forall m, m ∈ m_motionItem copier ->
         let L := DBL_box dbl (m_bidxLocal m) in
         let R := DBL_box dbl (m_bidxRemote m) in
         let d := m_sendDir m in
         let lattice :=
           Lattice_seenFrom (DBL_dimensions dbl)
             (Layout_ivBase (m_stride dbl) (globalIndex (m_bidxLocal m))) in
         DBL_localIdxBegin dbl <= globalIndex (m_bidxLocal m) < DBL_localIdxEnd dbl
         /\ (Box_contains lattice d = true ->
             m_regionRecv m = Box_intersect (Box_grow L a_numGhost) R
             /\ (USE_MPI cfg = true ->
                 m_regionSend m = Box_intersect L (Box_grow R a_numGhost))
             /\ m_regionSendRemote m = m_regionRecv m)
         /\ (Box_contains lattice d = false ->
             let shiftBy :=
               IntVect_add (IntVect_sub (loVect L) (loVect R))
                           (IntVect_mul d (Box_dimensions L)) in
             let R' := Box_shift R shiftBy in
             m_regionRecv m = Box_intersect (Box_grow L a_numGhost) R'
             /\ (USE_MPI cfg = true ->
                 m_regionSend m = Box_intersect L (Box_grow R' a_numGhost))
             /\ m_regionSendRemote m = Box_shift (m_regionRecv m) (IntVect_neg shiftBy)))
    /\ (forall w d,
          Lattice_contains (DBL_dimensions dbl) w ->
          DBL_localIdxBegin dbl <= Lattice_linear (DBL_dimensions dbl) w
            < DBL_localIdxEnd dbl ->
          Stencil_contains d -> d <> IntVect_Zero ->
          maskBit a_trim (IntVect_norm1 d) = false ->
          Periodic_reach a_periodic (DBL_dimensions dbl) w d ->
          let w' := Lattice_wrap (DBL_dimensions dbl) (IntVect_add w d) in
          exists m,
            m ∈ m_motionItem copier
            /\ m_sendDir m = d
            /\ globalIndex (m_bidxLocal m) = Lattice_linear (DBL_dimensions dbl) w
            /\ globalIndex (m_bidxRemote m) = Lattice_linear (DBL_dimensions dbl) w'
            /\ DBL_box dbl (m_bidxLocal m) = Lattice_box a_domain a_maxBoxSize w
            /\ DBL_box dbl (m_bidxRemote m) = Lattice_box a_domain a_maxBoxSize w').
Proof.
  intros Hwf Hdef Hsc Hnc Hg.
  pose proof (DBL_define_ok _ _ _ _ Hwf Hdef) as Hok.
  destruct (Copier_regions_items cfg dbl a_numGhost a_startComp a_numComp a_periodic a_trim
              Hsc Hnc Hg) as (copier & Hcop & Hitems).
  destruct (Copier_plan_membership env a_domain a_maxBoxSize dbl cfg a_numGhost a_startComp
              a_numComp a_periodic a_trim Hok Hsc Hnc ltac:(lia))
    as (copier' & Hcop' & Hmem).
  assert (copier' = copier) as -> by congruence.
  exists copier. split; [exact Hcop|]. split; [exact Hitems|].
  unfold DBL_dimensions. intros w d Hw Hlocal Hd Hnz Htrim Hreach. cbv zeta.
  exists (Plan_item cfg (sizeofT cfg * a_numComp) dbl a_maxBoxSize a_numGhost w d).
  split.
  { apply Hmem. exists w, d. repeat (split; [assumption|]). reflexivity. }
  destruct (Plan_item_indices env a_domain a_maxBoxSize dbl cfg (sizeofT cfg * a_numComp)
              a_numGhost a_periodic w d Hok Hw Hreach) as (HL & HR & HD & _).
  destruct (Plan_item_fields env a_domain a_maxBoxSize dbl cfg (sizeofT cfg * a_numComp)
              a_numGhost a_periodic w d Hok Hw Hreach) as (_ & HbL & HbR & _).
  split; [exact HD|]. split; [exact HL|]. split; [exact HR|]. split; [exact HbL|exact HbR].
Qed.

(** The theorem at a row of four unit boxes dealt to two processes,
    periodic along the row. *)
Lemma Copier_regions_witness :
  exists copier,
    Copier_defineExchangeDBL example_cfg example_row 1 0 1 PeriodicX 0 = inr copier
    /\ (forall m, m ∈ m_motionItem copier ->
          DBL_localIdxBegin example_row <= globalIndex (m_bidxLocal m)
            < DBL_localIdxEnd example_row)
    /\ exists m, m ∈ m_motionItem copier
         /\ m_sendDir m = IV (-1) 0 0
         /\ globalIndex (m_bidxLocal m) = 0
         /\ globalIndex (m_bidxRemote m) = 3.
Proof.
  destruct (Copier_regions (MkProcEnv 2 0) (MkBox (IV 0 0 0) (IV 3 0 0)) (IV 1 1 1)
              example_row example_cfg 1 0 1 PeriodicX 0)
    as (copier & Hdef & Hitems & Hsome).
  - unfold Define_wf; simpl. repeat split; lia.
  - vm_compute. reflexivity.
  - lia.
  - lia.
  - lia.
  - exists copier. split; [exact Hdef|]. split.
    + intros m Hm. exact (proj1 (Hitems m Hm)).
    + destruct (Hsome (IV 0 0 0) (IV (-1) 0 0)) as (m & Hm & Hd & HL & HR & _).
      * vm_compute. repeat split; discriminate.
      * vm_compute. split; [discriminate|reflexivity].
      * unfold Stencil_contains; simpl. lia.
      * discriminate.
      * reflexivity.
      * vm_compute. repeat split; discriminate.
      * exists m. split; [exact Hm|]. split; [exact Hd|]. split; [exact HL|exact HR].
Defined.



